(** * The offline dictionary file engine ([src/sdict_file.h])

    A shallow embedding of [class dictionary_file]: the on-disk container
    mapping words to definition blobs, its in-memory index, the FNV-1a
    hashing and deduplication of definitions, the two flush paths and the
    loader, together with the sequential batch writer of [save_words].

    Conventions of the embedding.
    - A file is the list of its bytes; a [std::fstream] is that list with
      the joint get/put position of its [filebuf].
    - [std::uint32_t] and [std::uint64_t] values are [Z] with the
      wrap-around written out ([u32], [u64]); [std::size_t] and
      [std::streamoff] quantities are lengths of, and positions in, data
      that is held in memory or on disk and are exact integers.
    - A C++ exception is an [Err] result; the state an exception leaves
      behind is not tracked.  [assert] is compiled out (NDEBUG).
    - A read that falls short raises [UnexpectedEOF], as [check_file] does
      after it. *)

From Stdlib Require Import ZArith List Lia Bool Permutation Sorted.
From Stdlib.Strings Require Import Byte.
From stdpp Require Import base option list gmap.
Import ListNotations.

Local Open Scope Z_scope.

(** ** Bytes and fixed-width integers *)

Definition u32 (z : Z) : Z := z mod 2 ^ 32.
Definition u64 (z : Z) : Z := z mod 2 ^ 64.

(** [static_cast<unsigned char>] of a [char], widened. *)
Definition byte_val (b : byte) : Z := Z.of_N (Byte.to_N b).

(** [static_cast<char>(static_cast<unsigned char>(z))]. *)
Definition byte_of (z : Z) : byte :=
  match Byte.of_N (Z.to_N (z mod 256)) with
  | Some b => b
  | None => x00
  end.

Definition byte_eqb (a b : byte) : bool := Byte.eqb a b.

Fixpoint bytes_eqb (a b : list byte) : bool :=
  match a, b with
  | [], [] => true
  | x :: a', y :: b' => byte_eqb x y && bytes_eqb a' b'
  | _, _ => false
  end.

Definition len {A} (l : list A) : Z := Z.of_nat (length l).

(** ** Errors *)

Inductive error : Type :=
| NoAssociatedFile          (* logic_error: "No associated file. ..." *)
| RepeatedWordsInserted     (* logic_error: "Repeated words were inserted" *)
| NotRegularFile            (* "... exists but is not a regular file" *)
| DoesNotExist              (* "... does not exist, not creating" *)
| UnexpectedEOF             (* "Unexpected EOF" *)
| IncorrectMagic            (* "Incorrect magic bytes. ..." *)
| ZeroReservedWords         (* "Read 0 reserved words. ..." *)
| ZeroWordSectionSize       (* "Read 0 word section size. ..." *)
| TooManyWords              (* "Number of words is greater than total reserved words. ..." *)
| SectionsExceedFile        (* "Reported indices + words section sizes is greater than file size. ..." *)
| IncorrectIndexCount       (* "Incorrect number of valid indices. ..." *)
| RepeatedIndices           (* "Found repeated indices. ..." *)
| RepeatedWords             (* "Found repeated words. ..." *)
| ZeroDefinitionSize        (* "Read 0 definition size. ..." *)
| HashMismatch              (* "Definition hash does not match. ..." *)
| IncorrectFileSize         (* "Incorrect file size (too small)" *)
| Diverges.                 (* a doubling loop whose counter wrapped to 0 *)

Inductive result (A : Type) : Type :=
| Ok (a : A)
| Err (e : error).
Arguments Ok {A} a.
Arguments Err {A} e.

#[global] Instance result_ret : MRet result := fun A a => Ok a.
#[global] Instance result_bind : MBind result := fun A B f m =>
  match m with
  | Ok a => f a
  | Err e => Err e
  end.

(** ** Streams *)

Record fstream : Type := { bytes : list byte; pos : Z }.

Definition seek (p : Z) (f : fstream) : fstream :=
  {| bytes := bytes f; pos := p |}.

(** [seekg(0, std::ios::end)] *)
Definition seek_end (f : fstream) : fstream :=
  {| bytes := bytes f; pos := len (bytes f) |}.

Definition slice (l : list byte) (p n : Z) : list byte :=
  take (Z.to_nat n) (drop (Z.to_nat p) l).

(** [fin.read(buf, n); check_file()] *)
Definition read (n : Z) (f : fstream) : result (list byte * fstream) :=
  if (n <=? 0) || (pos f + n <=? len (bytes f)) then
    Ok (slice (bytes f) (pos f) n, {| bytes := bytes f; pos := pos f + Z.max 0 n |})
  else Err UnexpectedEOF.

(** Overwrite at [p], extending the file; a hole is filled with zeros. *)
Definition overwrite (l : list byte) (p : Z) (data : list byte) : list byte :=
  match data with
  | [] => l
  | _ =>
    take (Z.to_nat p) l ++ replicate (Z.to_nat p - length l)%nat x00
      ++ data ++ drop (Z.to_nat p + length data)%nat l
  end.

(** [fout.write(data, n)] *)
Definition write (data : list byte) (f : fstream) : fstream :=
  {| bytes := overwrite (bytes f) (pos f) data; pos := pos f + len data |}.

(** [fin.ignore(n)] *)
Definition ignore (n : Z) (f : fstream) : fstream :=
  {| bytes := bytes f; pos := Z.min (pos f + n) (Z.max (pos f) (len (bytes f))) |}.

Definition uint32_LE (num : Z) : list byte :=
  [ byte_of (Z.land num 255);
    byte_of (Z.land (Z.shiftr num 8) 255);
    byte_of (Z.land (Z.shiftr num 16) 255);
    byte_of (Z.land (Z.shiftr num 24) 255) ].

Definition uint64_LE (num : Z) : list byte :=
  [ byte_of (Z.land num 255);
    byte_of (Z.land (Z.shiftr num 8) 255);
    byte_of (Z.land (Z.shiftr num 16) 255);
    byte_of (Z.land (Z.shiftr num 24) 255);
    byte_of (Z.land (Z.shiftr num 32) 255);
    byte_of (Z.land (Z.shiftr num 40) 255);
    byte_of (Z.land (Z.shiftr num 48) 255);
    byte_of (Z.land (Z.shiftr num 56) 255) ].

(** The value that [read_uint32_LE] assembles from four chars. *)
Definition of_LE (chars : list byte) : Z :=
  fold_right (fun b acc => byte_val b + Z.shiftl acc 8) 0 chars.

Definition read_uint32_LE (f : fstream) : result (Z * fstream) :=
  '(chars, f) ← read 4 f; Ok (u32 (of_LE chars), f).

Definition write_uint32_LE (num : Z) (f : fstream) : fstream :=
  write (uint32_LE num) f.

Definition read_uint64_LE (f : fstream) : result (Z * fstream) :=
  '(chars, f) ← read 8 f; Ok (u64 (of_LE chars), f).

Definition write_uint64_LE (num : Z) (f : fstream) : fstream :=
  write (uint64_LE num) f.

Definition write_nulls (count : Z) (f : fstream) : fstream :=
  write (replicate (Z.to_nat count) x00) f.

(** ** FNV-1a *)

Definition fnv_init : Z := 0xcbf29ce484222325.

Definition fnv1a (data : list byte) (init : Z) : Z :=
  fold_left (fun hash b => u64 (Z.lxor hash (byte_val b) * 0x100000001b3)) data init.

(** ** The in-memory index *)

(** [struct word_info]; [operator<=>] and [operator==] look at [word] only,
    comparing as [std::string] does: bytes as unsigned chars, then length. *)
Record word_info : Type := { word : list byte; def_ind : Z }.

Fixpoint key_compare (a b : list byte) : comparison :=
  match a, b with
  | [], [] => Eq
  | [], _ :: _ => Lt
  | _ :: _, [] => Gt
  | x :: a', y :: b' =>
    match byte_val x ?= byte_val y with
    | Eq => key_compare a' b'
    | c => c
    end
  end.

Definition key_ltb (a b : list byte) : bool :=
  match key_compare a b with Lt => true | _ => false end.

Definition word_ltb (a b : word_info) : bool := key_ltb (word a) (word b).
Definition word_eqb (a b : word_info) : bool := bytes_eqb (word a) (word b).

(** [std::sort]: the callers raise an error whenever two elements compare
    equal, so the order among equal elements is never observed. *)
Fixpoint insert_by {A} (lt : A → A → bool) (x : A) (l : list A) : list A :=
  match l with
  | [] => [x]
  | y :: l' => if lt y x then y :: insert_by lt x l' else x :: l
  end.

Definition sort_by {A} (lt : A → A → bool) (l : list A) : list A :=
  fold_right (insert_by lt) [] l.

(** [std::adjacent_find(...) != end] *)
Fixpoint adjacent_find {A} (eq : A → A → bool) (l : list A) : bool :=
  match l with
  | a :: (b :: _) as l' => eq a b || adjacent_find eq l'
  | _ => false
  end.

(** [std::inplace_merge]: stable, an element of the second run goes first
    only when it is strictly smaller. *)
Fixpoint merge_by {A} (lt : A → A → bool) (l1 : list A) : list A → list A :=
  fix aux (l2 : list A) : list A :=
    match l1, l2 with
    | [], _ => l2
    | _, [] => l1
    | a1 :: l1', a2 :: l2' =>
      if lt a2 a1 then a2 :: aux l2' else a1 :: merge_by lt l1' l2
    end.

(** [std::lower_bound(words.begin() + first, words.begin() + first + count, value)],
    as an index into [v]; [count] at least halves in each round. *)
Fixpoint lower_bound (fuel : nat) (v : list word_info) (first count : nat)
    (value : list byte) : nat :=
  match fuel with
  | O => first
  | S fuel' =>
    if (count =? 0)%nat then first
    else
      let step := (count / 2)%nat in
      match v !! (first + step)%nat with
      | Some e =>
        if key_ltb (word e) value
        then lower_bound fuel' v (first + step + 1) (count - (step + 1)) value
        else lower_bound fuel' v first step value
      | None => first
      end
  end.

(** [std::find(first, last, value)] on the tail, as the element found. *)
Fixpoint find_word (l : list word_info) (value : list byte) : option word_info :=
  match l with
  | [] => None
  | e :: l' => if bytes_eqb (word e) value then Some e else find_word l' value
  end.

(** ** The object *)

Inductive open_type : Type := no_file | none | read_only | write_only | read_write.

Record dictionary_file : Type := {
  file : fstream;
  file_open_type : open_type;
  reserved_words : Z;
  words_sect_size : Z;
  words : list word_info;
  first_new_word : option nat;       (* [None] is the source's [-1] *)
  existing_defs : gmap Z (gmap Z (list Z));
  do_dedup : bool;
  created_file : bool
}.

Definition set_file (f : fstream) (t : open_type) (s : dictionary_file) : dictionary_file :=
  {| file := f; file_open_type := t;
     reserved_words := reserved_words s; words_sect_size := words_sect_size s;
     words := words s; first_new_word := first_new_word s;
     existing_defs := existing_defs s; do_dedup := do_dedup s;
     created_file := created_file s |}.

Definition set_sizes (rw wss : Z) (s : dictionary_file) : dictionary_file :=
  {| file := file s; file_open_type := file_open_type s;
     reserved_words := rw; words_sect_size := wss;
     words := words s; first_new_word := first_new_word s;
     existing_defs := existing_defs s; do_dedup := do_dedup s;
     created_file := created_file s |}.

Definition set_words (ws : list word_info) (fnw : option nat) (s : dictionary_file)
    : dictionary_file :=
  {| file := file s; file_open_type := file_open_type s;
     reserved_words := reserved_words s; words_sect_size := words_sect_size s;
     words := ws; first_new_word := fnw;
     existing_defs := existing_defs s; do_dedup := do_dedup s;
     created_file := created_file s |}.

Definition set_existing_defs (m : gmap Z (gmap Z (list Z))) (s : dictionary_file)
    : dictionary_file :=
  {| file := file s; file_open_type := file_open_type s;
     reserved_words := reserved_words s; words_sect_size := words_sect_size s;
     words := words s; first_new_word := first_new_word s;
     existing_defs := m; do_dedup := do_dedup s;
     created_file := created_file s |}.

(** The default-constructed object: no associated file. *)
Definition no_dictionary : dictionary_file :=
  {| file := {| bytes := []; pos := 0 |}; file_open_type := no_file;
     reserved_words := 0; words_sect_size := 0;
     words := []; first_new_word := None;
     existing_defs := ∅; do_dedup := true; created_file := false |}.

Definition init_reserved_words : Z := 32.
Definition init_words_sect_size : Z := 256.
Definition batch_size : Z := 4096.

(** ["SDICT\x01\x00"] *)
Definition magic_bytes : list byte := [x53; x44; x49; x43; x54; x01; x00].

Definition inds_section_offset : Z := len magic_bytes + 4 + 4 + 4.

(** [reserved_words_ * 4 * 2] is computed in 32 bits. *)
Definition words_section_offset (reserved_words_ : Z) : Z :=
  inds_section_offset + u32 (reserved_words_ * 4 * 2).

Definition defs_section_offset (reserved_words_ words_sect_size_ : Z) : Z :=
  words_section_offset reserved_words_ + words_sect_size_.

(** The value [-1] takes as a [std::uint32_t]. *)
Definition not_found : Z := u32 (-1).

(** [existing_defs[size][hash].push_back(ind)] *)
Definition push_existing_def (size hash ind : Z) (m : gmap Z (gmap Z (list Z)))
    : gmap Z (gmap Z (list Z)) :=
  let inner := default ∅ (m !! size) in
  <[size := <[hash := default [] (inner !! hash) ++ [ind]]> inner]> m.

(** Reopening closes the stream; the position starts over. *)
Definition reopen_as (t : open_type) (s : dictionary_file) : dictionary_file :=
  match file_open_type s, t with
  | read_only, read_only | read_write, read_write => s
  | _, _ => set_file (seek 0 (file s)) t s
  end.

Definition open_in : dictionary_file → dictionary_file := reopen_as read_only.
Definition open_in_out : dictionary_file → dictionary_file := reopen_as read_write.

(** [find_def_ind]: binary search of the sorted prefix, then linear search
    of the tail. *)
Definition find_def_ind (s : dictionary_file) (w : list byte) : Z :=
  let end_it := match first_new_word s with
                | None => length (words s)
                | Some k => k
                end in
  let it := lower_bound end_it (words s) 0 end_it w in
  let hit := if (it =? end_it)%nat then None
             else match words s !! it with
                  | Some e => if bytes_eqb (word e) w then Some e else None
                  | None => None
                  end in
  match hit with
  | Some e => def_ind e
  | None =>
    if (end_it =? length (words s))%nat then not_found
    else match find_word (drop end_it (words s)) w with
         | Some e => def_ind e
         | None => not_found
         end
  end.

Definition contains (s : dictionary_file) (w : list byte) : bool :=
  negb (find_def_ind s w =? not_found).

Definition num_words (s : dictionary_file) : Z := len (words s).

(** [get_def_size_and_hash(def_ind, expected_size, defs_section_offset_)] *)
Definition get_def_size_and_hash (def_ind expected_size defs_section_offset_ : Z)
    (f : fstream) : result ((Z * Z) * fstream) :=
  let def_off := defs_section_offset_ + def_ind in
  '(size, f) ← read_uint32_LE (seek def_off f);
  if size =? 0 then Err ZeroDefinitionSize
  else if negb (expected_size =? 0) && negb (size =? expected_size) then Ok ((0, 0), f)
  else
    '(hash, f) ← read_uint64_LE f;
    Ok ((size, hash), f).

Definition get_def_hash (def_ind expected_size defs_section_offset_ : Z)
    (f : fstream) : result (option Z * fstream) :=
  '((size, hash), f) ← get_def_size_and_hash def_ind expected_size defs_section_offset_ f;
  if size =? 0 then Ok (None, f) else Ok (Some hash, f).

(** [read_def_batched]: the bytes read and their number.  The array the
    source returns also carries [batch_size - read_amt] bytes that were never
    written; they matter to one comparison only, see [rewrite_file]. *)
Definition read_def_batched (batch_ind size data_start_pos : Z) (fin : fstream)
    : result ((list byte * Z) * fstream) :=
  let read_amt := Z.min (size - batch_ind * batch_size) batch_size in
  '(data, fin) ← read read_amt (seek (data_start_pos + batch_ind * batch_size) fin);
  Ok ((data, read_amt), fin).

(** The number of rounds of [for (int i = 0; i < (size - 1) / batch_size + 1; i++)]. *)
Definition num_batches (size : Z) : nat := Z.to_nat (u32 (size - 1) / batch_size + 1).

Fixpoint hash_batches (n : nat) (i size data_start_pos hash : Z) (f : fstream)
    : result (Z * fstream) :=
  match n with
  | O => Ok (hash, f)
  | S n' =>
    '((data, read_amt), f) ← read_def_batched i size data_start_pos f;
    hash_batches n' (i + 1) size data_start_pos (fnv1a data hash) f
  end.

(** [hash_existing_def(def_ind, expected_size)] *)
Definition hash_existing_def (def_ind expected_size defs_section_offset_ : Z)
    (f : fstream) : result (option Z * fstream) :=
  let def_off := defs_section_offset_ + def_ind in
  '(size, f) ← read_uint32_LE (seek def_off f);
  if size =? 0 then Err ZeroDefinitionSize
  else if negb (expected_size =? 0) && negb (size =? expected_size) then Ok (None, f)
  else
    '(hash, f) ← hash_batches (num_batches size) 0 size (def_off + 12) fnv_init (ignore 8 f);
    Ok (Some hash, f).

(** [read_def_whole(def_ind, check_def)] *)
Definition read_def_whole (def_ind : Z) (check_def : bool) (s : dictionary_file)
    : result (list byte * dictionary_file) :=
  let f := seek (defs_section_offset (reserved_words s) (words_sect_size s) + def_ind) (file s) in
  '(size, f) ← read_uint32_LE f;
  '(hash, f) ← read_uint64_LE f;
  '(v, f) ← read size f;
  if check_def && negb (hash =? fnv1a v fnv_init) then Err HashMismatch
  else Ok (v, set_file f (file_open_type s) s).

(** [find(word, check_def)] *)
Definition find (w : list byte) (check_def : bool) (s : dictionary_file)
    : result (option (list byte) * dictionary_file) :=
  let ind := find_def_ind s w in
  if ind =? not_found then Ok (None, s)
  else '(v, s) ← read_def_whole ind check_def s; Ok (Some v, s).

(** ** Deduplication lookup *)

(** The loop of [get_existing_def_ind] over the candidates of one hash. *)
Fixpoint first_matching_def (cands : list Z) (size hash defs_section_offset_ : Z)
    (f : fstream) : result (option Z * fstream) :=
  match cands with
  | [] => Ok (None, f)
  | def_ind :: rest =>
    '(h, f) ← get_def_hash def_ind size defs_section_offset_ f;
    if match h with Some h' => h' =? hash | None => false end
    then Ok (Some def_ind, f)
    else first_matching_def rest size hash defs_section_offset_ f
  end.

(** [get_existing_def_ind(def)]: a stored record of the same size whose
    header carries the same hash; the payloads are not compared. *)
Definition get_existing_def_ind (def : list byte) (s : dictionary_file)
    : result (option Z * dictionary_file) :=
  let size := u32 (len def) in
  match existing_defs s !! size with
  | Some inner =>
    let hash := fnv1a def fnv_init in
    match inner !! hash with
    | Some cands =>
      '(r, f) ← first_matching_def cands size hash
                  (defs_section_offset (reserved_words s) (words_sect_size s)) (file s);
      Ok (r, set_file f (file_open_type s) s)
    | None => Ok (None, s)
    end
  | None => Ok (None, s)
  end.

(** ** Sorting the index *)

(** [sort_words()], with [fnw] the value of [first_new_word], which the
    caller has checked not to be [-1]. *)
Definition sort_words (fnw : nat) (s : dictionary_file) : result dictionary_file :=
  let tail := sort_by word_ltb (drop fnw (words s)) in
  if adjacent_find word_eqb tail then Err RepeatedWordsInserted
  else Ok (set_words (merge_by word_ltb (take fnw (words s)) tail) None s).

(** [while (x < bound) { x *= 2; }] on a 32-bit [x]: once [x] has wrapped
    to 0, which takes at most 32 rounds, the loop never ends. *)
Fixpoint double_until (fuel : nat) (x bound : Z) {struct fuel} : result Z :=
  if x <? bound then
    match fuel with
    | O => Err Diverges
    | S fuel' => double_until fuel' (u32 (x * 2)) bound
    end
  else Ok x.

(** [std::reduce(first, last, init, reduce_fn)] *)
Definition total_len (ws : list word_info) (init : Z) : Z :=
  fold_left (fun init elem => init + len (word elem) + 1) ws init.

(** The loop of [flush] that writes the new words and records where. *)
Fixpoint write_new_words (ws : list word_info) (off : Z) (f : fstream)
    : list Z * fstream :=
  match ws with
  | [] => ([], f)
  | e :: ws' =>
    let f := write (word e ++ [x00]) f in
    let '(inds, f) := write_new_words ws' (off + (len (word e) + 1)) f in
    (off :: inds, f)
  end.

(** The writes of the in-place path of [flush]: the number of words, the
    new words, their word indices and their def indices; [fnw] is the value
    of [first_new_word]. *)
Definition flush_in_place (fnw : nat) (s : dictionary_file) : fstream :=
  let cur_words_total_len := total_len (take fnw (words s)) 0 in
  let f := seek (inds_section_offset - 4) (file s) in
  let f := write_uint32_LE (u32 (len (words s))) f in
  let f := seek (words_section_offset (reserved_words s) + cur_words_total_len) f in
  let '(inds, f) := write_new_words (drop fnw (words s)) cur_words_total_len f in
  let f := seek (inds_section_offset + Z.of_nat fnw * 4) f in
  let f := fold_left (fun f i => write_uint32_LE (u32 (i + 1)) f) inds f in
  let f := seek (inds_section_offset + (reserved_words s + Z.of_nat fnw) * 4) f in
  fold_left (fun f e => write_uint32_LE (u32 (def_ind e + 1)) f) (drop fnw (words s)) f.

(** ** Creating and loading *)

(** [create_file()]; [open_out] truncates. *)
Definition create_file (s : dictionary_file) : dictionary_file :=
  let s := set_sizes init_reserved_words init_words_sect_size s in
  let f := {| bytes := []; pos := 0 |} in
  let f := write magic_bytes f in
  let f := write_uint32_LE (reserved_words s) f in
  let f := write_uint32_LE (words_sect_size s) f in
  let f := write_uint32_LE 0 f in
  let f := write_nulls (u32 (reserved_words s * 4 * 2)) f in
  let f := write_nulls (words_sect_size s) f in
  open_in (set_file f write_only s).

(** The two loops of [read_file] over an index table: the nonzero entries,
    each less one. *)
Fixpoint read_inds (n : nat) (f : fstream) : result (list Z * fstream) :=
  match n with
  | O => Ok ([], f)
  | S n' =>
    '(ind, f) ← read_uint32_LE f;
    '(rest, f) ← read_inds n' f;
    Ok (if ind =? 0 then rest else u32 (ind - 1) :: rest, f)
  end.

(** [sort_and_find_dup_zipped]: sorts both vectors in place through the zip
    view, by the first component. *)
Definition sort_and_find_dup_zipped (word_inds def_inds : list Z) : bool * list (Z * Z) :=
  let v := sort_by (fun a b : Z * Z => a.1 <? b.1) (zip word_inds def_inds) in
  (adjacent_find (fun a b : Z * Z => a.1 =? b.1) v, v).

Definition sort_and_find_dup (v : list word_info) : bool * list word_info :=
  let v := sort_by word_ltb v in
  (adjacent_find word_eqb v, v).

(** The inner loop of [read_file]: [file.get(c); check_file();] up to the
    null or to [limit] chars, over the bytes from the current position on. *)
Fixpoint read_chars (rest : list byte) (limit : Z) : result (list byte) :=
  if limit <=? 0 then Ok []
  else
    match rest with
    | [] => Err UnexpectedEOF
    | c :: rest' =>
      if byte_eqb c x00 then Ok []
      else w ← read_chars rest' (limit - 1); Ok (c :: w)
    end.

Fixpoint read_words (v : list (Z * Z)) (section_off wss : Z) (f : fstream)
    : result (list word_info) :=
  match v with
  | [] => Ok []
  | (word_off, def_off) :: v' =>
    w ← read_chars (drop (Z.to_nat (section_off + word_off)) (bytes f)) (u32 (wss - word_off));
    ws ← read_words v' section_off wss f;
    Ok ({| word := w; def_ind := def_off |} :: ws)
  end.

(** [read_file()] *)
Definition read_file (s : dictionary_file) : result dictionary_file :=
  let file_size := len (bytes (file s)) in
  let f := seek 0 (file s) in
  '(arr, f) ← read (len magic_bytes) f;
  if negb (bytes_eqb magic_bytes arr) then Err IncorrectMagic else
  '(rw, f) ← read_uint32_LE f;
  if rw =? 0 then Err ZeroReservedWords else
  '(wss, f) ← read_uint32_LE f;
  if wss =? 0 then Err ZeroWordSectionSize else
  '(num_words, f) ← read_uint32_LE f;
  if num_words >? rw then Err TooManyWords else
  if rw * 8 + num_words >? file_size then Err SectionsExceedFile else
  '(word_inds, f) ← read_inds (Z.to_nat rw) f;
  '(def_inds, f) ← read_inds (Z.to_nat rw) f;
  if negb (len word_inds =? num_words) || negb (len def_inds =? num_words)
  then Err IncorrectIndexCount else
  let '(dup, v) := sort_and_find_dup_zipped word_inds def_inds in
  if dup then Err RepeatedIndices else
  ws ← read_words v (words_section_offset rw) wss f;
  let '(dup, ws) := sort_and_find_dup ws in
  if dup then Err RepeatedWords else
  Ok (set_words ws (first_new_word s) (set_sizes rw wss (set_file f (file_open_type s) s))).

(** The loop of [open] over the loaded words. *)
Fixpoint load_defs (ws : list word_info) (deduplicate check_defs : bool)
    (s : dictionary_file) : result dictionary_file :=
  match ws with
  | [] => Ok s
  | e :: ws' =>
    let defs_off := defs_section_offset (reserved_words s) (words_sect_size s) in
    '((size, hash), f) ← get_def_size_and_hash (def_ind e) 0 defs_off (file s);
    let s := if deduplicate
             then set_existing_defs (push_existing_def size hash (def_ind e) (existing_defs s)) s
             else s in
    '(h, f) ← (if check_defs then hash_existing_def (def_ind e) size defs_off f
               else Ok (Some hash, f));
    if match h with Some h' => negb (hash =? h') | None => true end
    then Err HashMismatch
    else load_defs ws' deduplicate check_defs (set_file f (file_open_type s) s)
  end.

(** What [filename] names when [open] is called. *)
Inductive path_state : Type :=
| Missing
| NotRegular
| Regular (contents : list byte).

Definition set_dedup (d : bool) (c : bool) (s : dictionary_file) : dictionary_file :=
  {| file := file s; file_open_type := file_open_type s;
     reserved_words := reserved_words s; words_sect_size := words_sect_size s;
     words := words s; first_new_word := first_new_word s;
     existing_defs := existing_defs s; do_dedup := d; created_file := c |}.

(** [open(filename_, create_if_not_exists, deduplicate, check_defs)] *)
Definition open (p : path_state) (create_if_not_exists deduplicate check_defs : bool)
    (s : dictionary_file) : result dictionary_file :=
  let s := set_dedup deduplicate (created_file s) (set_file (file s) none s) in
  match p with
  | NotRegular => Err NotRegularFile
  | Missing =>
    if negb create_if_not_exists then Err DoesNotExist
    else Ok (set_dedup deduplicate true (create_file s))
  | Regular contents =>
    s ← read_file (open_in (set_file {| bytes := contents; pos := 0 |} none s));
    s ← (if deduplicate || check_defs then load_defs (words s) deduplicate check_defs s
         else Ok s);
    Ok (set_dedup deduplicate false s)
  end.

(** The constructor [dictionary_file(filename_, ...)]. *)
Definition dictionary_file_at (p : path_state)
    (create_if_not_exists deduplicate check_defs : bool) : result dictionary_file :=
  open p create_if_not_exists deduplicate check_defs no_dictionary.

(** ** Writing: [rewrite_file], [flush], [add_word] *)

Section Engine.

(** [read_def_batched] returns a [std::array<char, batch_size>] that is
    not initialised; the bytes past [read_amt] are whatever the stack held.
    [uninitialized from_file2 p] stands for those contents in a call that
    reads at position [p] of [file2] ([true]) or of [file] ([false]). *)
Variable uninitialized : bool → Z → list byte.

(** The array [read_def_batched] returns, as [data != data2] sees it. *)
Definition whole_array (from_file2 : bool) (p : Z) (data : list byte) : list byte :=
  data ++ take (Z.to_nat batch_size - length data)%nat
            (drop (length data) (uninitialized from_file2 p)).

(** The batch loop comparing a payload of [file] with one of [file2];
    [true] is [mismatch]. *)
Fixpoint compare_batches (n : nat) (i size p p2 : Z) (f f2 : fstream)
    : result (bool * fstream * fstream) :=
  match n with
  | O => Ok (false, f, f2)
  | S n' =>
    '((data, read_amt), f) ← read_def_batched i size p f;
    '((data2, read_amt2), f2) ← read_def_batched i size p2 f2;
    if negb (read_amt =? read_amt2)
       || negb (bytes_eqb (whole_array false (p + i * batch_size) data)
                          (whole_array true (p2 + i * batch_size) data2))
    then Ok (true, f, f2)
    else compare_batches n' (i + 1) size p p2 f f2
  end.

(** The loop over [it2->second]: the already written record equal to the one
    at [cur_def_off], if any.  [file2] holds a whole record at every offset
    in [existing_defs], so the unchecked read of [hash2] cannot fall short;
    the model raises the EOF there. *)
Fixpoint find_written_def (cands : list Z) (size old_hash cur_def_off defs_sect_start : Z)
    (f f2 : fstream) : result (option Z * fstream * fstream) :=
  match cands with
  | [] => Ok (None, f, f2)
  | found_def_ind :: rest =>
    '(read_size, f) ← read_uint32_LE (seek cur_def_off f);
    if negb (read_size =? size)
    then find_written_def rest size old_hash cur_def_off defs_sect_start f f2
    else
      '(read_size, f2) ← read_uint32_LE (seek (defs_sect_start + found_def_ind) f2);
      if negb (read_size =? size)
      then find_written_def rest size old_hash cur_def_off defs_sect_start f f2
      else
        '(hash2, f2) ← read_uint64_LE f2;
        if negb (hash2 =? old_hash)
        then find_written_def rest size old_hash cur_def_off defs_sect_start f f2
        else
          '(mismatch, f, f2) ← compare_batches (num_batches size) 0 size
                                 (cur_def_off + 12) (defs_sect_start + (found_def_ind + 12)) f f2;
          if mismatch : bool
          then find_written_def rest size old_hash cur_def_off defs_sect_start f f2
          else Ok (Some found_def_ind, f, f2)
  end.

(** The batch loop copying a payload into [file2]. *)
Fixpoint copy_batches (n : nat) (i size p : Z) (dedup : bool) (hash : Z)
    (f f2 : fstream) : result (Z * fstream * fstream) :=
  match n with
  | O => Ok (hash, f, f2)
  | S n' =>
    '((data, read_amt), f) ← read_def_batched i size p f;
    let f2 := write data f2 in
    let hash := if dedup then hash else fnv1a data hash in
    copy_batches n' (i + 1) size p dedup hash f f2
  end.

(** One round of the loop of [rewrite_file] over [words]: the entry with
    its new [def_ind], and the streams and the dedup index afterwards. *)
Definition rewrite_def (old_defs_sect_off defs_sect_start : Z) (dedup : bool)
    (e : word_info) (f f2 : fstream) (defs : gmap Z (gmap Z (list Z)))
    : result (word_info * fstream * fstream * gmap Z (gmap Z (list Z))) :=
  let cur_def_off := old_defs_sect_off + def_ind e in
  '(size, f) ← read_uint32_LE (seek cur_def_off f);
  if size =? 0 then Err ZeroDefinitionSize else
  '(old_hash, found, f, f2) ←
    (if dedup then
       match defs !! size with
       | Some inner =>
         '((size2, h), f) ← get_def_size_and_hash (def_ind e) size old_defs_sect_off f;
         if size2 =? size then
           match inner !! h with
           | Some cands =>
             '(r, f, f2) ← find_written_def cands size h cur_def_off defs_sect_start f f2;
             Ok (Some h, r, f, f2)
           | None => Ok (Some h, None, f, f2)
           end
         else Ok (Some h, None, f, f2)
       | None => Ok (None, None, f, f2)
       end
     else Ok (None, None, f, f2));
  match found with
  | Some found_def_ind =>
    Ok ({| word := word e; def_ind := u32 found_def_ind |}, f, f2, defs)
  | None =>
    '(hash, f) ← (if negb dedup then Ok (fnv_init, f)
                  else match old_hash with
                       | Some h => Ok (h, f)
                       | None => read_uint64_LE (seek (cur_def_off + 4) f)
                       end);
    let f2 := seek_end f2 in
    let new_ind := u32 (pos f2 - defs_sect_start) in
    let f2 := write_uint32_LE size f2 in
    let f2 := write_uint64_LE hash f2 in
    '(hash, f, f2) ← copy_batches (num_batches size) 0 size (cur_def_off + 12) dedup hash f f2;
    if negb dedup then
      let f2 := write_uint64_LE hash (seek (defs_sect_start + new_ind) f2) in
      Ok ({| word := word e; def_ind := new_ind |}, f, f2, defs)
    else
      Ok ({| word := word e; def_ind := new_ind |}, f, f2,
          push_existing_def size hash new_ind defs)
  end.

Fixpoint rewrite_defs (old_defs_sect_off defs_sect_start : Z) (dedup : bool)
    (ws : list word_info) (f f2 : fstream) (defs : gmap Z (gmap Z (list Z)))
    : result (list word_info * fstream * fstream * gmap Z (gmap Z (list Z))) :=
  match ws with
  | [] => Ok ([], f, f2, defs)
  | e :: ws' =>
    '(e', f, f2, defs) ← rewrite_def old_defs_sect_off defs_sect_start dedup e f f2 defs;
    '(ws'', f, f2, defs) ← rewrite_defs old_defs_sect_off defs_sect_start dedup ws' f f2 defs;
    Ok (e' :: ws'', f, f2, defs)
  end.

(** The first loop of [rewrite_file]: the word index table. *)
Fixpoint write_word_inds (ws : list word_info) (bytes_written : Z) (f2 : fstream) : fstream :=
  match ws with
  | [] => f2
  | e :: ws' =>
    write_word_inds ws' (u32 (bytes_written + (len (word e) + 1)))
      (write_uint32_LE (u32 (bytes_written + 1)) f2)
  end.

(** The second loop: the words section; also the final [bytes_written]. *)
Fixpoint write_words (ws : list word_info) (bytes_written : Z) (f2 : fstream) : Z * fstream :=
  match ws with
  | [] => (bytes_written, f2)
  | e :: ws' =>
    write_words ws' (u32 (bytes_written + (len (word e) + 1))) (write (word e ++ [x00]) f2)
  end.

(** [rewrite_file(old_reserved_words, old_words_sect_size)]; [file2] is
    renamed over the file at the end. *)
Definition rewrite_file (old_reserved_words old_words_sect_size : Z) (s : dictionary_file)
    : result dictionary_file :=
  let rw := reserved_words s in
  let wss := words_sect_size s in
  let n := len (words s) in
  let f2 := {| bytes := []; pos := 0 |} in
  let f2 := write magic_bytes f2 in
  let f2 := write_uint32_LE rw f2 in
  let f2 := write_uint32_LE wss f2 in
  let f2 := write_uint32_LE (u32 n) f2 in
  let f2 := write_word_inds (words s) 0 f2 in
  let f2 := write_nulls ((rw - n) * 4) f2 in
  let f2 := write_nulls (u32 (rw * 4)) f2 in
  let '(bytes_written, f2) := write_words (words s) 0 f2 in
  let f2 := write_nulls (u32 (wss - bytes_written)) f2 in
  let defs := if do_dedup s then ∅ else existing_defs s in
  let defs_sect_start := pos f2 in
  let old_defs_sect_off := defs_section_offset old_reserved_words old_words_sect_size in
  '(ws, f, f2, defs) ← rewrite_defs old_defs_sect_off defs_sect_start (do_dedup s)
                         (words s) (file s) f2 defs;
  let f2 := seek (inds_section_offset + u32 (rw * 4)) f2 in
  let f2 := fold_left (fun f2 e => write_uint32_LE (u32 (def_ind e + 1)) f2) ws f2 in
  let f2 := write_nulls ((rw - n) * 4) f2 in
  Ok (open_in (set_existing_defs defs (set_words ws (first_new_word s)
                                         (set_file f2 (file_open_type s) s)))).

(** [flush()] *)
Definition flush (s : dictionary_file) : result (bool * dictionary_file) :=
  match file_open_type s with
  | no_file => Err NoAssociatedFile
  | _ =>
    match first_new_word s with
    | None => Ok (false, open_in s)
    | Some fnw =>
      let s := open_in_out s in
      let cur_words_total_len := total_len (take fnw (words s)) 0 in
      let words_total_len := total_len (drop fnw (words s)) cur_words_total_len in
      let old_words_sect_size := words_sect_size s in
      wss ← double_until 32 (words_sect_size s) words_total_len;
      let s := set_sizes (reserved_words s) wss s in
      if negb (wss =? old_words_sect_size) || (reserved_words s <? len (words s)) then
        s ← sort_words fnw s;
        let old_reserved_words := reserved_words s in
        rw ← double_until 32 (reserved_words s) (len (words s));
        s ← rewrite_file old_reserved_words old_words_sect_size (set_sizes rw wss s);
        Ok (true, s)
      else
        let f := flush_in_place fnw s in
        s ← sort_words fnw (set_file f (file_open_type s) s);
        Ok (true, open_in s)
    end
  end.

(** The body of [add_word] between the duplicate check and the flush:
    the word enters the index with the offset of an existing record of the
    same size and hash, or of a record appended to the file. *)
Definition append_word (w def : list byte) (s : dictionary_file) : result dictionary_file :=
  let s := match first_new_word s with
           | None => set_words (words s) (Some (length (words s))) s
           | Some _ => s
           end in
  '(existing, s) ← (if do_dedup s then get_existing_def_ind def s else Ok (None, s));
  match existing with
  | Some def_ind =>
    Ok (set_words (words s ++ [{| word := w; def_ind := def_ind |}]) (first_new_word s) s)
  | None =>
    let s := open_in_out s in
    let f := seek_end (file s) in
    let cur_def_offset :=
      pos f - defs_section_offset (reserved_words s) (words_sect_size s) in
    if cur_def_offset <? 0 then Err IncorrectFileSize
    else
      let s := set_words (words s ++ [{| word := w; def_ind := u32 cur_def_offset |}])
                 (first_new_word s) s in
      let hash := fnv1a def fnv_init in
      let s := if do_dedup s
               then set_existing_defs
                      (push_existing_def (u32 (len def)) hash (u32 cur_def_offset)
                         (existing_defs s)) s
               else s in
      let f := write_uint32_LE (u32 (len def)) f in
      let f := write_uint64_LE hash f in
      let f := write def f in
      Ok (set_file f (file_open_type s) s)
  end.

(** [add_word<flush_words, skip_dup_check>(word, def)] *)
Definition add_word (flush_words skip_dup_check : bool) (w def : list byte)
    (s : dictionary_file) : result (bool * dictionary_file) :=
  match file_open_type s with
  | no_file => Err NoAssociatedFile
  | _ =>
    if negb skip_dup_check && negb (find_def_ind s w =? not_found) then Ok (false, s)
    else
      s ← append_word w def s;
      if flush_words then '(_, s) ← flush s; Ok (true, s) else Ok (true, s)
  end.

End Engine.


(** * Specification vocabulary *)

#[global] Instance byte_eq_decision : EqDecision byte := Byte.byte_eq_dec.

(** [a <= b] in the order of [operator<=>]. *)
Definition word_le (a b : word_info) : Prop := word_ltb b a = false.
Definition word_lt (a b : word_info) : Prop := word_ltb a b = true.

(** The entries of [v] before index [n] are in order. *)
Definition sorted_upto (n : nat) (v : list word_info) : Prop :=
  ∀ i j a b, (i <= j < n)%nat → v !! i = Some a → v !! j = Some b →
    key_ltb (word b) (word a) = false.


(** [std::ranges::is_sorted(v)] *)
Fixpoint is_sorted (v : list word_info) : bool :=
  match v with
  | a :: (b :: _) as v' => negb (word_ltb b a) && is_sorted v'
  | _ => true
  end.

(** No byte string occurs twice. *)
Fixpoint distinct (ks : list (list byte)) : bool :=
  match ks with
  | [] => true
  | k :: ks' => forallb (fun k' => negb (bytes_eqb k k')) ks' && distinct ks'
  end.

(** The invariant of the in-memory index (spec, section 3): [words] is
    sorted up to [first_new_word], and each key occurs once. *)
Definition index_ok (s : dictionary_file) : bool :=
  match first_new_word s with
  | None => is_sorted (words s)
  | Some k => (k <=? length (words s))%nat && is_sorted (take k (words s))
  end
  && distinct (map word (words s)).

(** A state whose index holds the word [w] at the def offset [2^32 - 1]. *)
Definition sentinel_state : dictionary_file :=
  set_words [ {| word := [x61]; def_ind := 7 |};
              {| word := [x62]; def_ind := 4294967295 |} ] None
    (set_file {| bytes := []; pos := 0 |} read_only no_dictionary).

(** ** Stages of [read_file] *)

(** [read_file] up to and including the count of the valid indices: the
    header fields, the two index vectors and the stream. *)
Definition read_tables (contents : list byte)
    : result (Z * Z * list Z * list Z * fstream) :=
  let file_size := len contents in
  let f := {| bytes := contents; pos := 0 |} in
  '(arr, f) ← read (len magic_bytes) f;
  if negb (bytes_eqb magic_bytes arr) then Err IncorrectMagic else
  '(rw, f) ← read_uint32_LE f;
  if rw =? 0 then Err ZeroReservedWords else
  '(wss, f) ← read_uint32_LE f;
  if wss =? 0 then Err ZeroWordSectionSize else
  '(num_words, f) ← read_uint32_LE f;
  if num_words >? rw then Err TooManyWords else
  if rw * 8 + num_words >? file_size then Err SectionsExceedFile else
  '(word_inds, f) ← read_inds (Z.to_nat rw) f;
  '(def_inds, f) ← read_inds (Z.to_nat rw) f;
  if negb (len word_inds =? num_words) || negb (len def_inds =? num_words)
  then Err IncorrectIndexCount
  else Ok (rw, wss, word_inds, def_inds, f).

(** [read_file] after the check of the index vectors: the words are read
    in the order of their offsets, sorted and checked. *)
Definition read_sorted_words (rw wss : Z) (word_inds def_inds : list Z) (f : fstream)
    (s : dictionary_file) : result dictionary_file :=
  ws ← read_words (sort_and_find_dup_zipped word_inds def_inds).2
         (words_section_offset rw) wss f;
  let '(dup, ws) := sort_and_find_dup ws in
  if dup then Err RepeatedWords else
  Ok (set_words ws (first_new_word s) (set_sizes rw wss (set_file f (file_open_type s) s))).

(** ** Concrete files *)

(** A record of the defs section. *)
Definition def_record (payload : list byte) : list byte :=
  uint32_LE (len payload) ++ uint64_LE (fnv1a payload fnv_init) ++ payload.

(** Two words, ["a"] and ["b"], that share the one definition ["x"]. *)
Definition shared_def_file : list byte :=
  magic_bytes ++ uint32_LE 2 ++ uint32_LE 4 ++ uint32_LE 2
    ++ (uint32_LE 1 ++ uint32_LE 3)
    ++ (uint32_LE 1 ++ uint32_LE 1)
    ++ [x61; x00; x62; x00]
    ++ def_record [x78].

(** The same, but both word indices name the offset of ["a"], and each
    word has a definition of its own. *)
Definition shared_word_file : list byte :=
  magic_bytes ++ uint32_LE 2 ++ uint32_LE 4 ++ uint32_LE 2
    ++ (uint32_LE 1 ++ uint32_LE 1)
    ++ (uint32_LE 1 ++ uint32_LE 14)
    ++ [x61; x00; x62; x00]
    ++ def_record [x78] ++ def_record [x79].

(** A file of 27 bytes whose header claims one index slot, no words and a
    words section of 256 bytes: the file ends where the words section
    would begin. *)
Definition truncated_file : list byte :=
  magic_bytes ++ uint32_LE 1 ++ uint32_LE 256 ++ uint32_LE 0
    ++ (uint32_LE 0 ++ uint32_LE 0).

(** The uninitialised array contents assumed in concrete runs. *)
Definition no_leftover : bool → Z → list byte := fun _ _ => [].

(** The error of a failed call. *)
Definition failure {A} (r : result A) : option error :=
  match r with
  | Ok _ => None
  | Err e => Some e
  end.

(** The defs section of the file of a state. *)
Definition defs_section (s : dictionary_file) : list byte :=
  drop (Z.to_nat (defs_section_offset (reserved_words s) (words_sect_size s)))
    (bytes (file s)).

(** ** Sessions *)

(** The calls that change a dictionary: [add_word<flush_words,
    skip_dup_check>(w, def)] and [flush()]. *)
Inductive operation : Type :=
| op_add (flush_words skip_dup_check : bool) (w def : list byte)
| op_flush.

Section Sessions.

Variable uninitialized : bool → Z → list byte.

Definition step (o : operation) (s : dictionary_file) : result dictionary_file :=
  match o with
  | op_add flush_words skip_dup_check w def =>
    '(_, s) ← add_word uninitialized flush_words skip_dup_check w def s; Ok s
  | op_flush => '(_, s) ← flush uninitialized s; Ok s
  end.

Fixpoint run (ops : list operation) (s : dictionary_file) : result dictionary_file :=
  match ops with
  | [] => Ok s
  | o :: ops' => s ← step o s; run ops' s
  end.

(** A dictionary created on a path that names nothing, then operated on. *)
Definition session (deduplicate check_defs : bool) (ops : list operation)
    : result dictionary_file :=
  s ← dictionary_file_at Missing true deduplicate check_defs; run ops s.

End Sessions.

(** The state a successful call returns. *)
Definition state_of (r : result dictionary_file) : dictionary_file :=
  match r with
  | Ok s => s
  | Err _ => no_dictionary
  end.

(** The dictionary just created on a path that names nothing. *)
Definition fresh_dictionary (deduplicate : bool) : dictionary_file :=
  state_of (dictionary_file_at Missing true deduplicate true).

(** The state after one word has been added to a fresh dictionary and
    not yet flushed. *)
Definition one_new_word : dictionary_file :=
  state_of (step no_leftover (op_add false false [x61] [x78]) (fresh_dictionary true)).

(** A run of [add_word<false, skip_dup_check>], one call for each pair. *)
Definition inserts (skip_dup_check : bool) (kvs : list (list byte * list byte))
    : list operation :=
  map (fun kv => op_add false skip_dup_check kv.1 kv.2) kvs.

Definition is_pow2 (x : Z) : Prop := ∃ k, 0 <= k ∧ x = 2 ^ k.

(** [p] is the smallest power of two that is at least [n]. *)
Definition smallest_pow2_covering (p n : Z) : Prop :=
  is_pow2 p ∧ n <= p ∧ ∀ q, is_pow2 q → n <= q → p <= q.

(** The section sizes of every state of a session. *)
Definition sizes_inv (s : dictionary_file) : Prop :=
  ∃ k1 k2, 5 <= k1 <= 31 ∧ 8 <= k2 <= 31
           ∧ reserved_words s = 2 ^ k1 ∧ words_sect_size s = 2 ^ k2.

(** One word of 256 bytes, added without flushing. *)
Definition long_word_ops : list operation :=
  [ op_add false false (replicate 256 x61) [x78] ].

(** The bytes the keys take in the words section, one null each. *)
Definition keys_len (ks : list (list byte)) : Z :=
  foldr (fun k acc => len k + 1 + acc) 0 ks.

(** ** The file format *)

Definition zeros (n : Z) : list byte := replicate (Z.to_nat n) x00.

(** The entries of an index table, four bytes each. *)
Fixpoint index_entries (inds : list Z) : list byte :=
  match inds with
  | [] => []
  | i :: inds' => uint32_LE i ++ index_entries inds'
  end.

(** The offsets of packed keys, the first at [off]. *)
Fixpoint word_offsets (ks : list (list byte)) (off : Z) : list Z :=
  match ks with
  | [] => []
  | k :: ks' => off :: word_offsets ks' (off + (len k + 1))
  end.

(** Packed keys, each with its null. *)
Fixpoint words_bytes (ks : list (list byte)) : list byte :=
  match ks with
  | [] => []
  | k :: ks' => (k ++ [x00]) ++ words_bytes ks'
  end.

Definition header (rw wss n : Z) : list byte :=
  magic_bytes ++ uint32_LE rw ++ uint32_LE wss ++ uint32_LE n.

(** An index table of [rw] slots whose first entries are [inds], stored
    plus one. *)
Definition index_table (rw : Z) (inds : list Z) : list byte :=
  index_entries (map (fun i => i + 1) inds) ++ zeros ((rw - len inds) * 4).

Definition words_section (wss : Z) (ks : list (list byte)) : list byte :=
  words_bytes ks ++ zeros (wss - keys_len ks).

(** The file that holds the entries [dw], in this order, and the defs
    section [defs]. *)
Definition layout (rw wss : Z) (dw : list word_info) (defs : list byte) : list byte :=
  header rw wss (len dw)
  ++ index_table rw (word_offsets (map word dw) 0)
  ++ index_table rw (map def_ind dw)
  ++ words_section wss (map word dw)
  ++ defs.

(** [defs] holds the record of the payload [v] at offset [d]. *)
Definition record_at (defs : list byte) (d : Z) (v : list byte) : Prop :=
  ∃ a b, defs = a ++ def_record v ++ b ∧ len a = d.

(** The bytes the records of the payloads take. *)
Definition defs_len (vs : list (list byte)) : Z :=
  foldr (fun v acc => 12 + len v + acc) 0 vs.

(** A key without a null byte. *)
Definition nul_free (k : list byte) : bool := forallb (fun b => negb (byte_eqb b x00)) k.

(** ** What a dictionary stores *)

(** The limits of the format: the index tables are addressed with a
    32-bit product, and word and def offsets are 32-bit values, the
    largest of which stands for "not found". *)
Definition fits (m : list (list byte * list byte)) : Prop :=
  len m <= 2 ^ 28 ∧ keys_len (map fst m) <= 2 ^ 31 ∧ defs_len (map snd m) < 2 ^ 32 - 1.

Definition fitsb (m : list (list byte * list byte)) : bool :=
  (len m <=? 2 ^ 28) && (keys_len (map fst m) <=? 2 ^ 31)
  && (defs_len (map snd m) <? 2 ^ 32 - 1).

(** No two different payloads have both the same length and the same
    FNV-1a hash. *)
Definition no_collision (vs : list (list byte)) : Prop :=
  ∀ v v', v ∈ vs → v' ∈ vs → len v = len v' →
    fnv1a v fnv_init = fnv1a v' fnv_init → v = v'.

Definition collision_free (vs : list (list byte)) : bool :=
  forallb (fun v =>
    forallb (fun v' =>
      negb ((len v =? len v') && (fnv1a v fnv_init =? fnv1a v' fnv_init))
      || bytes_eqb v v') vs) vs.

(** The dedup index names whole records of stored payloads, under their
    size and hash. *)
Definition dedup_index_ok (m : list (list byte * list byte)) (defs : list byte)
    (index : gmap Z (gmap Z (list Z))) : Prop :=
  ∀ size hash inner cands d,
    index !! size = Some inner → inner !! hash = Some cands → d ∈ cands →
    ∃ v, v ∈ map snd m ∧ record_at defs d v ∧ len v = size
         ∧ fnv1a v fnv_init = hash.

(** The state [s] stores exactly the pairs [m]: its file holds the
    entries [dw] and the defs section [defs]. *)
Record stored (m : list (list byte * list byte)) (dw : list word_info)
    (defs : list byte) (s : dictionary_file) : Prop := {
  st_open : file_open_type s ≠ no_file;
  st_rw : ∃ k, 5 <= k <= 28 ∧ reserved_words s = 2 ^ k;
  st_wss : ∃ k, 8 <= k <= 31 ∧ words_sect_size s = 2 ^ k;
  st_keys : map word (words s) ≡ₚ map fst m;
  st_nodup : NoDup (map fst m);
  st_nul : Forall (fun k => nul_free k = true) (map fst m);
  st_nonempty : Forall (fun v => 0 < len v) (map snd m);
  st_fits : fits m;
  st_file : bytes (file s) = layout (reserved_words s) (words_sect_size s) dw defs;
  st_room : len dw <= reserved_words s
            ∧ keys_len (map word dw) <= words_sect_size s;
  st_prefix : match first_new_word s with
              | None => dw ≡ₚ words s ∧ is_sorted (words s) = true
              | Some k => dw ≡ₚ take k (words s)
                          ∧ is_sorted (take k (words s)) = true
                          ∧ (k <= length (words s))%nat
              end;
  st_defs_len : len defs <= defs_len (map snd m);
  st_records : ∀ e, e ∈ words s →
                 ∃ v, (word e, v) ∈ m ∧ record_at defs (def_ind e) v;
  st_dedup : do_dedup s = true → dedup_index_ok m defs (existing_defs s)
}.

(** ** Sessions of insertions *)

(** Pairs a dictionary can hold: distinct keys without a null byte,
    definitions that are not empty, and sizes within the format. *)
Definition valid_pairs (kvs : list (list byte * list byte)) : bool :=
  distinct (map fst kvs)
  && forallb nul_free (map fst kvs)
  && forallb (fun v => 0 <? len v) (map snd kvs)
  && fitsb kvs.

(** Pairs that fit the sections of a fresh file. *)
Definition small_pairs (kvs : list (list byte * list byte)) : bool :=
  (len kvs <=? init_reserved_words) && (keys_len (map fst kvs) <=? init_words_sect_size).

(** Three words, two of which have the same definition. *)
Definition sample_pairs : list (list byte * list byte) :=
  [ ([x62], [x79]); ([x61], [x78; x78]); ([x63], [x79]) ].

(** What [read_inds] makes of the raw entries of an index table: the
    zero entries are skipped, the others are offsets plus one. *)
Definition decode_inds (raw : list Z) : list Z :=
  omap (fun i => if i =? 0 then None else Some (u32 (i - 1))) raw.

(** The dictionary [s] answers for exactly the pairs [kvs]: [contains]
    is true and [find] returns the definition for each of their keys, with
    or without the hash check; for every other word [contains] is false and
    [find] returns the empty optional. *)
Definition holds (s : dictionary_file) (kvs : list (list byte * list byte)) : Prop :=
  ∀ (k : list byte) (check_def : bool),
    (∀ v, (k, v) ∈ kvs →
       contains s k = true ∧ ∃ s', find k check_def s = Ok (Some v, s'))
    ∧ (k ∉ map fst kvs →
       contains s k = false ∧ find k check_def s = Ok (None, s)).

(** A stream positioned at the end of its contents. *)
Definition eof (l : list byte) : fstream := {| bytes := l; pos := len l |}.

(** The pairs a run of operations adds, in order. *)
Definition added (ops : list operation) : list (list byte * list byte) :=
  omap (fun o => match o with
                 | op_add _ _ w def => Some (w, def)
                 | op_flush => None
                 end) ops.

(** A session that adds two words and flushes after each, then adds
    thirty-two more with one flush: the index tables grow. *)
Definition growing_ops : list operation :=
  [ op_add true false [x7a; x7a] [x79]; op_add true true [x7a] [x78; x78] ]
  ++ map (fun i => op_add false false [byte_of (97 + Z.of_nat i); x61]
                     [byte_of (48 + Z.of_nat (i mod 3))]) (seq 0 32)
  ++ [ op_flush ].

(** The dictionary deduplicates, or all the pairs fit the sections of a
    fresh file, which then never grow. *)
Definition grows_safely (s : dictionary_file) (all : list (list byte * list byte)) : Prop :=
  do_dedup s = true
  ∨ (reserved_words s = 32 ∧ words_sect_size s = 256
     ∧ len all <= 32 ∧ keys_len (map fst all) <= 256).

(** What [find] returns, the object left aside; [None] when it throws. *)
Definition answer (k : list byte) (check_def : bool) (s : dictionary_file)
    : option (option (list byte)) :=
  match find k check_def s with
  | Ok (v, _) => Some v
  | Err _ => None
  end.

(** Every payload of [m] has candidates in the dedup index of [s], under
    its size and hash. *)
Definition indexed (m : list (list byte * list byte)) (s : dictionary_file) : Prop :=
  ∀ v, v ∈ map snd m →
    ∃ inner cands, existing_defs s !! len v = Some inner
                   ∧ inner !! fnv1a v fnv_init = Some cands ∧ cands ≠ [].

(** Two definitions of eight bytes with the same FNV-1a-64 hash. *)
Definition collision_a : list byte := [x81; x3a; xf6; xc1; xe1; x87; x87; x6b].
Definition collision_b : list byte := [x58; xf1; x0f; xe9; x0f; x9d; x07; x50].

(** ** The sizes of the sections *)

(** [y] is the first of [x], [2x], [4x], ..., each reduced to 32 bits as
    the loop [while (x < n) { x *= 2; }] computes them, that is at least
    [n]. *)
Definition doubling_from (x n y : Z) : Prop :=
  ∃ j, 0 <= j ∧ y = u32 (x * 2 ^ j) ∧ n <= y ∧ ∀ i, 0 <= i < j → u32 (x * 2 ^ i) < n.

(** The first 15 bytes of the file of [s] when its header carries the
    sizes of [s]: the magic bytes, [reserved_words] and [words_sect_size]. *)
Definition sizes_header (s : dictionary_file) : list byte :=
  magic_bytes ++ uint32_LE (reserved_words s) ++ uint32_LE (words_sect_size s).

(** The sizes are non-zero 32-bit values, and the header of the file
    carries them. *)
Definition sizes_ok (s : dictionary_file) : Prop :=
  0 < reserved_words s < 2 ^ 32 ∧ 0 < words_sect_size s < 2 ^ 32
  ∧ take 15 (bytes (file s)) = sizes_header s.

(** The stream begins with the 15 bytes [h] and stands behind them. *)
Definition keeps_header (h : list byte) (f : fstream) : Prop :=
  take 15 (bytes f) = h ∧ 15 <= pos f.

(** An empty dictionary file whose header reserves 3 index slots and a
    words section of 5 bytes. *)
Definition odd_sizes_file : list byte := layout 3 5 [] [].

(** Four words with one definition. *)
Definition four_words : list (list byte * list byte) :=
  [ ([x61], [x78]); ([x62], [x78]); ([x63], [x78]); ([x64], [x78]) ].


(** * Properties *)

(** ** Bytes and little-endian integers *)

Lemma byte_val_range (b : byte) : 0 <= byte_val b < 256.
Proof.
  unfold byte_val. pose proof (Byte.to_N_bounded b). lia.
Qed.

Lemma byte_of_val (b : byte) : byte_of (byte_val b) = b.
Proof.
  unfold byte_of. rewrite Z.mod_small by apply byte_val_range.
  unfold byte_val. rewrite N2Z.id, Byte.of_to_N. reflexivity.
Qed.

Lemma byte_val_of (z : Z) : byte_val (byte_of z) = z mod 256.
Proof.
  unfold byte_of, byte_val.
  assert (Hr : 0 <= z mod 256 < 256) by (apply Z.mod_pos_bound; lia).
  destruct (Byte.of_N (Z.to_N (z mod 256))) as [b|] eqn:E.
  - apply Byte.to_of_N in E. rewrite E. lia.
  - apply Byte.of_N_None_iff in E. lia.
Qed.

Lemma byte_val_inj (a b : byte) : byte_val a = byte_val b → a = b.
Proof.
  intros H. rewrite <- (byte_of_val a), <- (byte_of_val b). congruence.
Qed.

Lemma byte_eqb_eq (a b : byte) : byte_eqb a b = true ↔ a = b.
Proof.
  unfold byte_eqb. split.
  - apply Byte.byte_dec_bl.
  - apply Byte.byte_dec_lb.
Qed.

Lemma byte_eqb_refl (a : byte) : byte_eqb a a = true.
Proof. apply byte_eqb_eq. reflexivity. Qed.

Lemma bytes_eqb_eq (a b : list byte) : bytes_eqb a b = true ↔ a = b.
Proof.
  revert b. induction a as [|x a IH]; intros [|y b]; simpl; split;
    try congruence; try discriminate.
  - intros [Hx Ha]%andb_true_iff. apply byte_eqb_eq in Hx. apply IH in Ha. congruence.
  - intros [= -> ->]. apply andb_true_iff. split.
    + apply byte_eqb_refl.
    + apply IH. reflexivity.
Qed.

Lemma bytes_eqb_refl (a : list byte) : bytes_eqb a a = true.
Proof. apply bytes_eqb_eq. reflexivity. Qed.

Lemma bytes_eqb_neq (a b : list byte) : bytes_eqb a b = false ↔ a ≠ b.
Proof.
  split.
  - intros H ->. rewrite bytes_eqb_refl in H. discriminate.
  - intros H. destruct (bytes_eqb a b) eqn:E; [|reflexivity].
    apply bytes_eqb_eq in E. contradiction.
Qed.

Lemma digit_val (x k : Z) :
  0 <= k → byte_val (byte_of (Z.land (Z.shiftr x k) 255)) = (x / 2 ^ k) mod 256.
Proof.
  intros Hk. rewrite byte_val_of.
  change 255 with (Z.ones 8). rewrite Z.land_ones by lia.
  rewrite Z.shiftr_div_pow2 by lia.
  change (2 ^ 8) with 256. rewrite Z.mod_mod by lia. reflexivity.
Qed.

Lemma of_LE_cons (b : byte) (l : list byte) : of_LE (b :: l) = byte_val b + 256 * of_LE l.
Proof.
  unfold of_LE. simpl. rewrite Z.shiftl_mul_pow2 by lia. change (2 ^ 8) with 256. lia.
Qed.

Lemma of_uint32_LE (x : Z) : of_LE (uint32_LE x) = u32 x.
Proof.
  unfold uint32_LE, u32. rewrite !of_LE_cons.
  rewrite (digit_val x 8), (digit_val x 16), (digit_val x 24) by lia.
  replace (Z.land x 255) with (Z.land (Z.shiftr x 0) 255) by (rewrite Z.shiftr_0_r; reflexivity).
  rewrite (digit_val x 0) by lia.
  unfold of_LE; simpl fold_right.
  change (2 ^ 0) with 1. change (2 ^ 8) with 256. change (2 ^ 16) with 65536.
  change (2 ^ 24) with 16777216. change (2 ^ 32) with 4294967296.
  Z.div_mod_to_equations. lia.
Qed.

Lemma of_uint64_LE (x : Z) : of_LE (uint64_LE x) = u64 x.
Proof.
  unfold uint64_LE, u64. rewrite !of_LE_cons.
  rewrite (digit_val x 8), (digit_val x 16), (digit_val x 24), (digit_val x 32),
    (digit_val x 40), (digit_val x 48), (digit_val x 56) by lia.
  replace (Z.land x 255) with (Z.land (Z.shiftr x 0) 255) by (rewrite Z.shiftr_0_r; reflexivity).
  rewrite (digit_val x 0) by lia.
  unfold of_LE; simpl fold_right.
  change (2 ^ 0) with 1. change (2 ^ 8) with 256. change (2 ^ 16) with 65536.
  change (2 ^ 24) with 16777216. change (2 ^ 32) with 4294967296.
  change (2 ^ 40) with 1099511627776. change (2 ^ 48) with 281474976710656.
  change (2 ^ 56) with 72057594037927936. change (2 ^ 64) with 18446744073709551616.
  Z.div_mod_to_equations. lia.
Qed.

Lemma u32_small (x : Z) : 0 <= x < 2 ^ 32 → u32 x = x.
Proof. intros H. unfold u32. apply Z.mod_small. exact H. Qed.

Lemma u64_small (x : Z) : 0 <= x < 2 ^ 64 → u64 x = x.
Proof. intros H. unfold u64. apply Z.mod_small. exact H. Qed.

Lemma u32_range (x : Z) : 0 <= u32 x < 2 ^ 32.
Proof. unfold u32. apply Z.mod_pos_bound. lia. Qed.

Lemma u64_range (x : Z) : 0 <= u64 x < 2 ^ 64.
Proof. unfold u64. apply Z.mod_pos_bound. lia. Qed.

Lemma u32_idem (x : Z) : u32 (u32 x) = u32 x.
Proof. unfold u32. apply Z.mod_mod. lia. Qed.

Lemma u64_idem (x : Z) : u64 (u64 x) = u64 x.
Proof. unfold u64. apply Z.mod_mod. lia. Qed.

Lemma length_uint32_LE (x : Z) : length (uint32_LE x) = 4%nat.
Proof. reflexivity. Qed.

Lemma length_uint64_LE (x : Z) : length (uint64_LE x) = 8%nat.
Proof. reflexivity. Qed.

#[global] Arguments uint32_LE : simpl never.
#[global] Arguments uint64_LE : simpl never.
#[global] Arguments fnv1a : simpl never.

(** ** Reduction of the monad and of the record updates *)

Lemma bind_Ok {A B} (a : A) (f : A → result B) : (Ok a ≫= f) = f a.
Proof. reflexivity. Qed.

Lemma bind_Err {A B} (e : error) (f : A → result B) : (Err e ≫= f) = Err e.
Proof. reflexivity. Qed.

Ltac state_simpl :=
  cbn [mbind result_bind mret result_ret
       reserved_words words_sect_size words first_new_word file file_open_type
       existing_defs do_dedup created_file
       set_sizes set_words set_file set_existing_defs set_dedup
       bytes pos seek seek_end fst snd] in *.


(** ** The order on keys *)

Lemma key_compare_refl (a : list byte) : key_compare a a = Eq.
Proof.
  induction a as [|x a IH]; simpl; [reflexivity|].
  rewrite Z.compare_refl. exact IH.
Qed.

Lemma key_compare_eq (a b : list byte) : key_compare a b = Eq → a = b.
Proof.
  revert b. induction a as [|x a IH]; intros [|y b]; simpl; try discriminate.
  - reflexivity.
  - destruct (byte_val x ?= byte_val y) eqn:E; try discriminate.
    intros H. apply Z.compare_eq in E. apply byte_val_inj in E.
    f_equal; [exact E | apply IH, H].
Qed.

Lemma key_compare_antisym (a b : list byte) :
  key_compare b a = CompOpp (key_compare a b).
Proof.
  revert b. induction a as [|x a IH]; intros [|y b]; simpl; try reflexivity.
  rewrite (Z.compare_antisym (byte_val x) (byte_val y)).
  destruct (byte_val x ?= byte_val y); simpl; auto.
Qed.

Lemma key_compare_lt_trans (a b c : list byte) :
  key_compare a b = Lt → key_compare b c = Lt → key_compare a c = Lt.
Proof.
  revert b c. induction a as [|x a IH]; intros [|y b] [|z c]; simpl;
    try discriminate; try reflexivity.
  destruct (Z.compare_spec (byte_val x) (byte_val y)) as [Hxy|Hxy|Hxy];
    destruct (Z.compare_spec (byte_val y) (byte_val z)) as [Hyz|Hyz|Hyz];
    try discriminate; intros H1 H2.
  - rewrite Hxy, Hyz, Z.compare_refl. eapply IH; eassumption.
  - rewrite Hxy. apply Z.compare_lt_iff in Hyz. rewrite Hyz. reflexivity.
  - rewrite <- Hyz. apply Z.compare_lt_iff in Hxy. rewrite Hxy. reflexivity.
  - assert (Hxz : byte_val x < byte_val z) by lia.
    apply Z.compare_lt_iff in Hxz. rewrite Hxz. reflexivity.
Qed.

Lemma key_ltb_irrefl (a : list byte) : key_ltb a a = false.
Proof. unfold key_ltb. rewrite key_compare_refl. reflexivity. Qed.

Lemma key_ltb_trans (a b c : list byte) :
  key_ltb a b = true → key_ltb b c = true → key_ltb a c = true.
Proof.
  unfold key_ltb. intros H1 H2.
  destruct (key_compare a b) eqn:E1; try discriminate.
  destruct (key_compare b c) eqn:E2; try discriminate.
  rewrite (key_compare_lt_trans a b c E1 E2). reflexivity.
Qed.

Lemma key_ltb_asym (a b : list byte) : key_ltb a b = true → key_ltb b a = false.
Proof.
  unfold key_ltb. rewrite (key_compare_antisym a b).
  destruct (key_compare a b); simpl; congruence.
Qed.

Lemma key_ltb_total (a b : list byte) :
  key_ltb a b = false → key_ltb b a = false → a = b.
Proof.
  unfold key_ltb. rewrite (key_compare_antisym a b).
  destruct (key_compare a b) eqn:E; simpl; try discriminate.
  intros _ _. apply key_compare_eq, E.
Qed.

Lemma key_ltb_cases (a b : list byte) :
  key_ltb a b = true ∨ a = b ∨ key_ltb b a = true.
Proof.
  destruct (key_ltb a b) eqn:E1; [left; reflexivity|].
  destruct (key_ltb b a) eqn:E2; [right; right; reflexivity|].
  right; left. apply key_ltb_total; assumption.
Qed.

(** [a <= b] and [b < c] give [a < c]. *)
Lemma key_le_lt_trans (a b c : list byte) :
  key_ltb b a = false → key_ltb b c = true → key_ltb a c = true.
Proof.
  intros H1 H2. destruct (key_ltb_cases a b) as [H|[->|H]].
  - eapply key_ltb_trans; eassumption.
  - exact H2.
  - congruence.
Qed.

Lemma key_lt_le_trans (a b c : list byte) :
  key_ltb a b = true → key_ltb c b = false → key_ltb a c = true.
Proof.
  intros H1 H2. destruct (key_ltb_cases b c) as [H|[<-|H]].
  - eapply key_ltb_trans; eassumption.
  - exact H1.
  - congruence.
Qed.

Lemma key_le_trans (a b c : list byte) :
  key_ltb b a = false → key_ltb c b = false → key_ltb c a = false.
Proof.
  intros H1 H2. destruct (key_ltb c a) eqn:E; [|reflexivity].
  rewrite (key_lt_le_trans c a b E H1) in H2. discriminate.
Qed.

(** ** Sorting *)

Section SortBy.
Context {A : Type} (lt : A → A → bool).
Hypothesis lt_asym : ∀ a b, lt a b = true → lt b a = false.
Hypothesis le_trans : ∀ a b c, lt b a = false → lt c b = false → lt c a = false.

Let le (a b : A) : Prop := lt b a = false.

Lemma insert_by_perm (x : A) (l : list A) : insert_by lt x l ≡ₚ x :: l.
Proof.
  induction l as [|y l IH]; simpl; [reflexivity|].
  destruct (lt y x); [|reflexivity].
  rewrite IH. apply Permutation_swap.
Qed.

Lemma sort_by_perm (l : list A) : sort_by lt l ≡ₚ l.
Proof.
  induction l as [|x l IH]; simpl; [reflexivity|].
  rewrite insert_by_perm. rewrite IH. reflexivity.
Qed.

Lemma insert_by_sorted (x : A) (l : list A) :
  StronglySorted le l → StronglySorted le (insert_by lt x l).
Proof.
  induction 1 as [|y l Hs IH Hy]; simpl.
  - repeat constructor.
  - destruct (lt y x) eqn:E.
    + constructor; [exact IH|].
      rewrite insert_by_perm. constructor; [|exact Hy].
      unfold le. apply lt_asym, E.
    + constructor; [constructor; assumption|].
      constructor; [exact E|].
      eapply Forall_impl; [exact Hy|].
      intros z Hz. unfold le in *. eapply le_trans; eassumption.
Qed.

Lemma sort_by_sorted (l : list A) : StronglySorted le (sort_by lt l).
Proof.
  induction l as [|x l IH]; simpl; [constructor|].
  apply insert_by_sorted, IH.
Qed.

(** Sorting leaves a sorted vector as it is. *)
Lemma sort_by_id (l : list A) : StronglySorted le l → sort_by lt l = l.
Proof.
  induction 1 as [|x l Hs IH Hx]; simpl; [reflexivity|].
  rewrite IH. destruct l as [|y l]; simpl; [reflexivity|].
  inversion Hx as [|? ? Hxy _]; subst. unfold le in Hxy. rewrite Hxy. reflexivity.
Qed.

Lemma merge_by_perm (l1 l2 : list A) : merge_by lt l1 l2 ≡ₚ l1 ++ l2.
Proof.
  revert l2. induction l1 as [|a1 l1 IH1]; intros l2.
  - destruct l2; reflexivity.
  - induction l2 as [|a2 l2 IH2].
    + simpl. rewrite app_nil_r. reflexivity.
    + simpl. destruct (lt a2 a1).
      * simpl in IH2. rewrite IH2.
        change (a2 :: a1 :: l1 ++ l2 ≡ₚ (a1 :: l1) ++ a2 :: l2).
        rewrite (Permutation_middle (a1 :: l1) l2 a2). reflexivity.
      * rewrite IH1. reflexivity.
Qed.

Lemma merge_by_sorted (l1 l2 : list A) :
  StronglySorted le l1 → StronglySorted le l2 → StronglySorted le (merge_by lt l1 l2).
Proof.
  intros H1. revert l2. induction H1 as [|a1 l1 Hs1 IH1 Ha1]; intros l2 H2.
  - destruct l2; exact H2.
  - induction H2 as [|a2 l2 Hs2 IH2 Ha2].
    + simpl. constructor; assumption.
    + simpl. destruct (lt a2 a1) eqn:E.
      * constructor; [exact IH2|].
        simpl in IH2.
        change (Forall (le a2) (merge_by lt (a1 :: l1) l2)).
        rewrite merge_by_perm. apply Forall_app. split; [|exact Ha2].
        assert (Hle : le a2 a1) by (unfold le; apply lt_asym, E).
        constructor; [exact Hle|].
        eapply Forall_impl; [exact Ha1|].
        intros z Hz. unfold le in *. eapply le_trans; eassumption.
      * constructor; [apply IH1; constructor; assumption|].
        rewrite merge_by_perm. apply Forall_app. split; [exact Ha1|].
        constructor; [exact E|].
        eapply Forall_impl; [exact Ha2|].
        intros z Hz. unfold le in *. eapply le_trans; eassumption.
Qed.
End SortBy.

Section AdjacentFind.
Context {A : Type} (lt eq : A → A → bool).
Hypothesis le_neq_lt : ∀ a b, lt b a = false → eq a b = false → lt a b = true.
Hypothesis lt_trans : ∀ a b c, lt a b = true → lt b c = true → lt a c = true.

(** No two neighbours of a sorted vector are equal: it is strictly sorted. *)
Lemma adjacent_find_false_strict (l : list A) :
  StronglySorted (fun a b => lt b a = false) l →
  adjacent_find eq l = false →
  StronglySorted (fun a b => lt a b = true) l.
Proof.
  induction 1 as [|x l Hs IH Hx]; intros Hadj; [constructor|].
  destruct l as [|y l]; [repeat constructor|].
  simpl in Hadj. apply orb_false_iff in Hadj as [Hxy Hadj].
  specialize (IH Hadj).
  inversion Hx as [|? ? Hle _]; subst.
  assert (Hlt : lt x y = true) by (apply le_neq_lt; assumption).
  constructor; [exact IH|].
  constructor; [exact Hlt|].
  inversion IH as [|? ? _ Hy]; subst.
  eapply Forall_impl; [exact Hy|].
  intros z Hz. simpl in Hz. eapply lt_trans; eassumption.
Qed.

(** Two equal neighbours are two equal elements. *)
Lemma adjacent_find_true (l : list A) :
  adjacent_find eq l = true →
  ∃ l1 a b l2, l = l1 ++ a :: b :: l2 ∧ eq a b = true.
Proof.
  induction l as [|x l IH]; simpl; [discriminate|].
  destruct l as [|y l]; [discriminate|].
  intros [H|H]%orb_true_iff.
  - exists [], x, y, l. split; [reflexivity|exact H].
  - destruct (IH H) as (l1 & a & b & l2 & -> & Hab).
    exists (x :: l1), a, b, l2. split; [reflexivity|exact Hab].
Qed.
End AdjacentFind.

(** ** The two searches of [find_def_ind] *)

Lemma lower_bound_S (fuel : nat) (v : list word_info) (first count : nat)
    (value : list byte) :
  lower_bound (S fuel) v first count value =
  if (count =? 0)%nat then first
  else match v !! (first + count / 2)%nat with
       | Some e =>
         if key_ltb (word e) value
         then lower_bound fuel v (first + count / 2 + 1) (count - (count / 2 + 1)) value
         else lower_bound fuel v first (count / 2) value
       | None => first
       end.
Proof. reflexivity. Qed.

Lemma lower_bound_spec (fuel : nat) (v : list word_info) (first count : nat)
    (value : list byte) :
  (count <= fuel)%nat → (first + count <= length v)%nat →
  sorted_upto (first + count) v →
  let r := lower_bound fuel v first count value in
  (first <= r <= first + count)%nat
  ∧ (∀ i e, (first <= i < r)%nat → v !! i = Some e → key_ltb (word e) value = true)
  ∧ (∀ i e, (r <= i < first + count)%nat → v !! i = Some e →
       key_ltb (word e) value = false).
Proof.
  unfold sorted_upto.
  revert first count. induction fuel as [|fuel IH]; intros first count Hfuel Hlen Hsorted.
  - assert (count = 0%nat) as -> by lia. simpl. repeat split; intros; lia.
  - rewrite lower_bound_S. destruct (Nat.eqb_spec count 0) as [->|Hc].
    + repeat split; intros; lia.
    + assert (Hs : (count / 2 < count)%nat) by (apply Nat.div_lt; lia).
      destruct (v !! (first + count / 2)%nat) as [e|] eqn:He.
      2:{ apply lookup_ge_None in He. lia. }
      destruct (key_ltb (word e) value) eqn:Hlt.
      * destruct (IH (first + count / 2 + 1)%nat (count - (count / 2 + 1))%nat)
          as (Hr & Hlo & Hhi); [lia|lia| |].
        { intros i j a b Hij. apply Hsorted. lia. }
        split; [lia|split].
        -- intros i a Hi Ha.
           destruct (Nat.lt_ge_cases i (first + count / 2 + 1)) as [Hlow|Hhigh].
           ++ eapply key_le_lt_trans; [|exact Hlt].
              eapply (Hsorted i (first + count / 2)%nat); [lia|exact Ha|exact He].
           ++ eapply Hlo; [|exact Ha]. lia.
        -- intros i a Hi Ha. eapply Hhi; [|exact Ha]. lia.
      * destruct (IH first (count / 2)%nat) as (Hr & Hlo & Hhi); [lia|lia| |].
        { intros i j a b Hij. apply Hsorted. lia. }
        split; [lia|split].
        -- exact Hlo.
        -- intros i a Hi Ha.
           destruct (Nat.lt_ge_cases i (first + count / 2)) as [Hlow|Hhigh].
           ++ eapply Hhi; [|exact Ha]. lia.
           ++ eapply key_le_trans; [exact Hlt|].
              eapply (Hsorted (first + count / 2)%nat i); [lia|exact He|exact Ha].
Qed.

Lemma find_word_app (l1 l2 : list word_info) (w : list byte) :
  find_word (l1 ++ l2) w =
  match find_word l1 w with Some e => Some e | None => find_word l2 w end.
Proof.
  induction l1 as [|e l1 IH]; simpl; [reflexivity|].
  destruct (bytes_eqb (word e) w); [reflexivity|exact IH].
Qed.

Lemma find_word_Some (l : list word_info) (w : list byte) (e : word_info) :
  find_word l w = Some e → e ∈ l ∧ word e = w.
Proof.
  induction l as [|x l IH]; simpl; [discriminate|].
  destruct (bytes_eqb (word x) w) eqn:E.
  - intros [= <-]. split; [left|]. apply bytes_eqb_eq, E.
  - intros H. destruct (IH H) as [Hin Hw]. split; [right; exact Hin|exact Hw].
Qed.

Lemma find_word_None (l : list word_info) (w : list byte) :
  find_word l w = None ↔ w ∉ map word l.
Proof.
  induction l as [|x l IH]; simpl.
  - split; [intros _; apply not_elem_of_nil|reflexivity].
  - destruct (bytes_eqb (word x) w) eqn:E.
    + apply bytes_eqb_eq in E. split; [discriminate|].
      intros H. exfalso. apply H. rewrite E. left.
    + apply bytes_eqb_neq in E. rewrite IH, not_elem_of_cons.
      split; [intros H; split; [congruence|exact H]|intros [_ H]; exact H].
Qed.

(** The first entry of [l] for [w], by index. *)
Lemma find_word_first (l : list word_info) (w : list byte) (i : nat) (e : word_info) :
  l !! i = Some e → word e = w →
  (∀ j a, (j < i)%nat → l !! j = Some a → word a ≠ w) →
  find_word l w = Some e.
Proof.
  revert i. induction l as [|x l IH]; intros i Hi Hw Hbefore; [discriminate|].
  destruct i as [|i]; simpl in *.
  - injection Hi as ->. rewrite Hw, bytes_eqb_refl. reflexivity.
  - assert (Hx : word x ≠ w) by (apply (Hbefore 0%nat); [lia|reflexivity]).
    apply bytes_eqb_neq in Hx. rewrite Hx.
    apply (IH i); [exact Hi|exact Hw|].
    intros j a Hj Ha. apply (Hbefore (S j)); [lia|exact Ha].
Qed.

(** With a sorted prefix, [find_def_ind] returns the offset of the first
    entry for the word, or [not_found]. *)
Lemma find_def_ind_spec (s : dictionary_file) (w : list byte) :
  (match first_new_word s with
   | None => sorted_upto (length (words s)) (words s)
   | Some k => (k <= length (words s))%nat ∧ sorted_upto k (words s)
   end) →
  find_def_ind s w =
  match find_word (words s) w with Some e => def_ind e | None => not_found end.
Proof.
  intros Hinv. unfold find_def_ind.
  set (end_it := match first_new_word s with None => length (words s) | Some k => k end).
  assert (Hend : (end_it <= length (words s))%nat ∧ sorted_upto end_it (words s)).
  { unfold end_it. destruct (first_new_word s); [exact Hinv|split; [lia|exact Hinv]]. }
  clear Hinv. destruct Hend as [Hend Hsorted].
  destruct (lower_bound_spec end_it (words s) 0 end_it w) as (Hr & Hlo & Hhi);
    [lia|lia|exact Hsorted|].
  set (it := lower_bound end_it (words s) 0 end_it w) in *.
  assert (Hsplit : find_word (words s) w =
                   match find_word (take end_it (words s)) w with
                   | Some e => Some e
                   | None => find_word (drop end_it (words s)) w
                   end).
  { rewrite <- find_word_app, take_drop. reflexivity. }
  rewrite Hsplit. clear Hsplit.
  assert (Hbelow : ∀ j a, (j < it)%nat → words s !! j = Some a → word a ≠ w).
  { intros j a Hj Ha Heq. specialize (Hlo j a ltac:(lia) Ha).
    rewrite Heq, key_ltb_irrefl in Hlo. discriminate. }
  destruct (Nat.eqb_spec it end_it) as [Hit|Hit].
  - (* every entry of the prefix is smaller *)
    assert (Hnone : find_word (take end_it (words s)) w = None).
    { apply find_word_None. intros Hin.
      apply list_elem_of_fmap in Hin as (a & -> & Ha).
      apply list_elem_of_lookup in Ha as [j Hj].
      apply lookup_take_Some in Hj as [Hj Hjlt].
      apply (Hbelow j a); [lia|exact Hj|reflexivity]. }
    rewrite Hnone.
    destruct (Nat.eqb_spec end_it (length (words s))) as [Hall|Hsome].
    + rewrite drop_ge by lia. reflexivity.
    + reflexivity.
  - destruct (words s !! it) as [e|] eqn:He.
    2:{ apply lookup_ge_None in He. lia. }
    destruct (bytes_eqb (word e) w) eqn:Ew.
    + apply bytes_eqb_eq in Ew.
      rewrite (find_word_first (take end_it (words s)) w it e); [reflexivity| |exact Ew|].
      * rewrite lookup_take_lt by lia. exact He.
      * intros j a Hj Ha. apply lookup_take_Some in Ha as [Ha _].
        apply (Hbelow j a Hj Ha).
    + (* the entry at the lower bound is greater: the prefix has no entry *)
      apply bytes_eqb_neq in Ew.
      assert (Hnone : find_word (take end_it (words s)) w = None).
      { apply find_word_None. intros Hin.
        apply list_elem_of_fmap in Hin as (a & Hwa & Ha).
        apply list_elem_of_lookup in Ha as [j Hj].
        apply lookup_take_Some in Hj as [Hj Hjlt].
        destruct (Nat.lt_ge_cases j it) as [Hlow|Hhigh].
        - apply (Hbelow j a Hlow Hj). congruence.
        - assert (H1 : key_ltb (word e) w = false) by (apply (Hhi it e); [lia|exact He]).
          assert (H2 : key_ltb (word a) (word e) = false).
          { apply (Hsorted it j e a); [lia|exact He|exact Hj]. }
          rewrite <- Hwa in H2. apply Ew. apply key_ltb_total; assumption. }
      rewrite Hnone.
      destruct (Nat.eqb_spec end_it (length (words s))) as [Hall|Hsome].
      * rewrite drop_ge by lia. reflexivity.
      * reflexivity.
Qed.


(** ** The index invariant *)

Lemma is_sorted_strongly (v : list word_info) :
  is_sorted v = true → StronglySorted word_le v.
Proof.
  induction v as [|a v IH]; intros H; [constructor|].
  destruct v as [|b v]; [repeat constructor|].
  simpl in H. apply andb_true_iff in H as [Hab H].
  apply negb_true_iff in Hab. specialize (IH H).
  constructor; [exact IH|].
  constructor; [exact Hab|].
  inversion IH as [|? ? _ Hb]; subst.
  eapply Forall_impl; [exact Hb|].
  intros c Hc. unfold word_le, word_ltb in *. eapply key_le_trans; eassumption.
Qed.

Lemma strongly_sorted_upto (v : list word_info) (n : nat) :
  StronglySorted word_le (take n v) → sorted_upto n v.
Proof.
  intros Hs i j a b Hij Ha Hb.
  destruct (decide (i = j)) as [->|Hne].
  - assert (a = b) as -> by congruence. apply key_ltb_irrefl.
  - assert (Ha' : take n v !! i = Some a) by (rewrite lookup_take_lt by lia; exact Ha).
    assert (Hb' : take n v !! j = Some b) by (rewrite lookup_take_lt by lia; exact Hb).
    assert (Hlt : (i < j)%nat) by lia.
    clear Ha Hb Hij Hne. revert i j Hlt Ha' Hb'.
    induction Hs as [|x l Hs IH Hx]; intros i j Hlt Ha Hb; [discriminate|].
    destruct i as [|i]; destruct j as [|j]; try lia; simpl in *.
    + injection Ha as ->. rewrite Forall_forall in Hx.
      apply (Hx b). eapply list_elem_of_lookup_2, Hb.
    + apply (IH i j); [lia|assumption|assumption].
Qed.

Lemma is_sorted_upto (v : list word_info) (n : nat) :
  is_sorted (take n v) = true → sorted_upto n v.
Proof. intros H. apply strongly_sorted_upto, is_sorted_strongly, H. Qed.

Lemma distinct_NoDup (ks : list (list byte)) : distinct ks = true → NoDup ks.
Proof.
  induction ks as [|k ks IH]; simpl; intros H; [constructor|].
  apply andb_true_iff in H as [Hk H]. constructor; [|apply IH, H].
  intros Hin. rewrite forallb_forall in Hk.
  apply list_elem_of_In in Hin. specialize (Hk k Hin).
  rewrite bytes_eqb_refl in Hk. discriminate.
Qed.

Lemma NoDup_distinct (ks : list (list byte)) : NoDup ks → distinct ks = true.
Proof.
  induction 1 as [|k ks Hk Hnd IH]; simpl; [reflexivity|].
  rewrite IH, andb_true_r. apply forallb_forall. intros k' Hin.
  apply negb_true_iff, bytes_eqb_neq. intros ->.
  apply Hk, list_elem_of_In, Hin.
Qed.

Lemma index_ok_sorted (s : dictionary_file) :
  index_ok s = true →
  match first_new_word s with
  | None => sorted_upto (length (words s)) (words s)
  | Some k => (k <= length (words s))%nat ∧ sorted_upto k (words s)
  end.
Proof.
  unfold index_ok. intros [H _]%andb_true_iff.
  destruct (first_new_word s) as [k|].
  - apply andb_true_iff in H as [Hk H]. split; [apply Nat.leb_le, Hk|].
    apply is_sorted_upto, H.
  - apply is_sorted_upto. rewrite firstn_all. exact H.
Qed.

Lemma index_ok_NoDup (s : dictionary_file) :
  index_ok s = true → NoDup (map word (words s)).
Proof.
  unfold index_ok. intros [_ H]%andb_true_iff. apply distinct_NoDup, H.
Qed.

(** With distinct keys, the entry found for a stored word is that entry. *)
Lemma find_word_stored (l : list word_info) (e : word_info) :
  NoDup (map word l) → e ∈ l → find_word l (word e) = Some e.
Proof.
  induction l as [|x l IH]; intros Hnd Hin; [inversion Hin|].
  simpl in *. apply NoDup_cons in Hnd as [Hx Hnd].
  apply elem_of_cons in Hin as [->|Hin].
  - rewrite bytes_eqb_refl. reflexivity.
  - destruct (bytes_eqb (word x) (word e)) eqn:E.
    + apply bytes_eqb_eq in E. exfalso. apply Hx. rewrite E.
      apply list_elem_of_fmap. exists e. split; [reflexivity|exact Hin].
    + apply IH; assumption.
Qed.

Lemma find_def_ind_stored (s : dictionary_file) (e : word_info) :
  index_ok s = true → e ∈ words s → find_def_ind s (word e) = def_ind e.
Proof.
  intros Hok Hin. rewrite find_def_ind_spec by (apply index_ok_sorted, Hok).
  rewrite (find_word_stored (words s) e); [reflexivity| |exact Hin].
  apply index_ok_NoDup, Hok.
Qed.

Lemma find_def_ind_absent (s : dictionary_file) (w : list byte) :
  index_ok s = true → w ∉ map word (words s) → find_def_ind s w = not_found.
Proof.
  intros Hok Hin. rewrite find_def_ind_spec by (apply index_ok_sorted, Hok).
  apply find_word_None in Hin. rewrite Hin. reflexivity.
Qed.

Lemma find_None_iff (s : dictionary_file) (w : list byte) (c : bool) :
  find w c s = Ok (None, s) ↔ find_def_ind s w = not_found.
Proof.
  unfold find. destruct (Z.eqb_spec (find_def_ind s w) not_found) as [E|E].
  - split; auto.
  - split; [|contradiction].
    destruct (read_def_whole (find_def_ind s w) c s) as [[v s']|err]; simpl; discriminate.
Qed.

(** ** C10 *)

(** C10.  In a state that satisfies the index invariant, a stored word
    whose def offset is [2^32 - 1] is reported absent: [contains] returns
    false and [find] returns the empty optional, since [find_def_ind]
    returns that very value for "not found".  When no stored def offset is
    [2^32 - 1], [contains] is true exactly for the stored words and [find]
    returns the empty optional exactly for the others. *)
Theorem sentinel_offset_hides_word (s : dictionary_file) :
  index_ok s = true →
  (∀ e, e ∈ words s → def_ind e = 2 ^ 32 - 1 →
     contains s (word e) = false ∧ ∀ c, find (word e) c s = Ok (None, s))
  ∧ ((∀ e, e ∈ words s → def_ind e ≠ 2 ^ 32 - 1) →
     ∀ w, (contains s w = true ↔ w ∈ map word (words s))
          ∧ (∀ c, find w c s = Ok (None, s) ↔ w ∉ map word (words s))).
Proof.
  intros Hok. change (2 ^ 32 - 1) with not_found. split.
  - intros e Hin Hd.
    pose proof (find_def_ind_stored s e Hok Hin) as Hf. rewrite Hd in Hf.
    split.
    + unfold contains. rewrite Hf, Z.eqb_refl. reflexivity.
    + intros c. apply find_None_iff, Hf.
  - intros Hvalid w.
    assert (Hiff : find_def_ind s w = not_found ↔ w ∉ map word (words s)).
    { split.
      - intros Hf Hin. apply list_elem_of_fmap in Hin as (e & -> & He).
        rewrite (find_def_ind_stored s e Hok He) in Hf. exact (Hvalid e He Hf).
      - apply find_def_ind_absent, Hok. }
    split.
    + unfold contains. rewrite negb_true_iff, Z.eqb_neq, Hiff.
      split; [|tauto].
      intros Hnn. destruct (decide (w ∈ map word (words s))) as [H|H]; tauto.
    + intros c. rewrite find_None_iff. exact Hiff.
Qed.

Lemma sentinel_offset_hides_word_witness :
  index_ok sentinel_state = true
  ∧ contains sentinel_state [x62] = false
  ∧ find [x62] false sentinel_state = Ok (None, sentinel_state)
  ∧ contains sentinel_state [x61] = true.
Proof.
  split; [reflexivity|].
  destruct (sentinel_offset_hides_word sentinel_state eq_refl) as [Hhide _].
  destruct (Hhide {| word := [x62]; def_ind := 4294967295 |}) as [Hc Hf].
  - right. left.
  - reflexivity.
  - split; [exact Hc|]. split; [exact (Hf false)|reflexivity].
Defined.


(** ** Loading: the check of the index tables *)

Lemma strict_sorted_fst_NoDup (v : list (Z * Z)) :
  StronglySorted (fun a b : Z * Z => (a.1 <? b.1) = true) v → NoDup v.*1.
Proof.
  induction 1 as [|a v Hs IH Ha]; simpl; [constructor|].
  constructor; [|exact IH].
  intros Hin. apply list_elem_of_fmap in Hin as (b & Hab & Hb).
  rewrite Forall_forall in Ha. specialize (Ha b Hb). simpl in Ha. lia.
Qed.

Lemma adjacent_equal_not_NoDup (v : list (Z * Z)) :
  adjacent_find (fun a b : Z * Z => a.1 =? b.1) v = true → ¬ NoDup v.*1.
Proof.
  intros H Hnd. apply adjacent_find_true in H as (l1 & a & b & l2 & -> & Hab).
  rewrite fmap_app in Hnd. apply NoDup_app in Hnd as (_ & _ & Hnd).
  simpl in Hnd. apply NoDup_cons in Hnd as [Hnotin _].
  apply Hnotin. apply Z.eqb_eq in Hab. rewrite Hab. left.
Qed.

(** [sort_and_find_dup_zipped] reports a duplicate exactly when two word
    offsets are equal; the def offsets play no part. *)
Lemma sort_and_find_dup_zipped_spec (word_inds def_inds : list Z) :
  length word_inds = length def_inds →
  (sort_and_find_dup_zipped word_inds def_inds).1 = true ↔ ¬ NoDup word_inds.
Proof.
  intros Hlen. unfold sort_and_find_dup_zipped. simpl.
  set (lt := fun a b : Z * Z => a.1 <? b.1).
  set (v := sort_by lt (zip word_inds def_inds)).
  assert (Hperm : v.*1 ≡ₚ word_inds).
  { unfold v. rewrite (sort_by_perm lt). rewrite fst_zip by lia. reflexivity. }
  split.
  - intros H Hnd. apply adjacent_equal_not_NoDup in H. apply H.
    rewrite Hperm. exact Hnd.
  - intros Hdup.
    destruct (adjacent_find (fun a b : Z * Z => a.1 =? b.1) v) eqn:E; [reflexivity|].
    exfalso. apply Hdup. rewrite <- Hperm.
    apply strict_sorted_fst_NoDup.
    apply (adjacent_find_false_strict lt (fun a b : Z * Z => a.1 =? b.1)).
    + unfold lt. intros a b. lia.
    + unfold lt. intros a b c. lia.
    + unfold v. apply sort_by_sorted.
      * unfold lt. intros a b. lia.
      * unfold lt. intros a b c. lia.
    + exact E.
Qed.

Lemma read_file_stages (s : dictionary_file) :
  read_file s =
  '(rw, wss, word_inds, def_inds, f) ← read_tables (bytes (file s));
  if (sort_and_find_dup_zipped word_inds def_inds).1 then Err RepeatedIndices
  else read_sorted_words rw wss word_inds def_inds f s.
Proof.
  unfold read_file, read_tables, read_sorted_words, seek.
  unfold mbind, result_bind.
  repeat (match goal with
          | |- context [match ?x with _ => _ end] => destruct x
          end; try reflexivity).
Qed.

(** Two words that share one def offset load, and both are found. *)
Example shared_def_offset_accepted :
  (s ← dictionary_file_at (Regular shared_def_file) false true true;
   '(a, s) ← find [x61] true s;
   '(b, s) ← find [x62] true s;
   Ok (words s, a, b))
  = Ok ([ {| word := [x61]; def_ind := 0 |}; {| word := [x62]; def_ind := 0 |} ],
        Some [x78], Some [x78]).
Proof. vm_compute. reflexivity. Qed.


(** ** C6 *)

(** C6.  [open] accepts [truncated_file]: its header claims a words
    section of 256 bytes behind 8 bytes of index tables, so that the defs
    section would start at byte 283, and the file has 27 bytes; the size
    check of [read_file] compares [reserved_words * 8 + num_words], not the
    section sizes, with the file size.  [add_word] then reports the file
    as too small. *)
Theorem open_accepts_truncated_words_section :
  (s ← dictionary_file_at (Regular truncated_file) false true true;
   Ok (reserved_words s, words_sect_size s, len (bytes (file s)),
       defs_section_offset (reserved_words s) (words_sect_size s),
       failure (add_word no_leftover true false [x61] [x78] s)))
  = Ok (1, 256, 27, 283, Some IncorrectFileSize).
Proof. vm_compute. reflexivity. Qed.

(** ** C5 *)

(** C5.  On a fresh file opened without deduplication, [add_word] with an
    empty definition returns [true] and leaves a record of size 0 as the
    defs section, which the loader then rejects. *)
Theorem add_word_accepts_empty_def :
  (s0 ← dictionary_file_at Missing true false true;
   '(inserted, s) ← add_word no_leftover true false [x61] [] s0;
   Ok (inserted, words s, bytes_eqb (defs_section s) (def_record []),
       failure (dictionary_file_at (Regular (bytes (file s))) false true true)))
  = Ok (true, [ {| word := [x61]; def_ind := 0 |} ], true, Some ZeroDefinitionSize).
Proof. vm_compute. reflexivity. Qed.

(** ** C4 *)

(** C4.  On a fresh file opened without deduplication, adding one word of
    256 bytes makes [flush] rewrite the file, and [rewrite_file] writes the
    hash it has recomputed at the start of the record, over the size
    field: the twelve header bytes are the hash followed by the upper half
    of [fnv_init], not the size followed by the hash, and the definition
    can no longer be read. *)
Theorem rewrite_without_dedup_misplaces_hash :
  (s0 ← dictionary_file_at Missing true false true;
   '(inserted, s) ← add_word no_leftover true false (replicate 256 x61) [x78] s0;
   Ok (inserted, map def_ind (words s),
       bytes_eqb (defs_section s)
         (uint64_LE (fnv1a [x78] fnv_init) ++ drop 4 (uint64_LE fnv_init) ++ [x78]),
       bytes_eqb (defs_section s) (def_record [x78]),
       failure (find (replicate 256 x61) false s)))
  = Ok (true, [0], true, false, Some UnexpectedEOF).
Proof. vm_compute. reflexivity. Qed.

(** With deduplication the same insertion keeps the record intact. *)
Example rewrite_with_dedup_keeps_hash :
  (s0 ← dictionary_file_at Missing true true true;
   '(inserted, s) ← add_word no_leftover true false (replicate 256 x61) [x78] s0;
   '(found, s) ← find (replicate 256 x61) true s;
   Ok (inserted, bytes_eqb (defs_section s) (def_record [x78]), found))
  = Ok (true, true, Some [x78]).
Proof. vm_compute. reflexivity. Qed.


(** ** Growth of the sections *)

Lemma double_until_zero (fuel : nat) (bound : Z) :
  0 < bound → double_until fuel 0 bound = Err Diverges.
Proof.
  intros Hb. induction fuel as [|fuel IH]; simpl.
  - destruct (Z.ltb_spec 0 bound); [reflexivity|lia].
  - destruct (Z.ltb_spec 0 bound); [|lia]. exact IH.
Qed.

(** From a power of two the loop ends at the first power of two that is
    not below the bound, or never ends. *)
Lemma double_until_pow2 (fuel : nat) (k bound y : Z) :
  0 <= k <= 31 → double_until fuel (2 ^ k) bound = Ok y →
  ∃ j, k <= j <= 31 ∧ y = 2 ^ j ∧ bound <= y ∧ (k < j → 2 ^ (j - 1) < bound).
Proof.
  revert k. induction fuel as [|fuel IH]; intros k Hk H; simpl in H.
  - destruct (Z.ltb_spec (2 ^ k) bound); [discriminate|].
    injection H as <-. exists k. repeat split; lia.
  - destruct (Z.ltb_spec (2 ^ k) bound) as [Hlt|Hge].
    + destruct (Z.eq_dec k 31) as [->|Hne].
      * change (u32 (2 ^ 31 * 2)) with 0 in H.
        rewrite double_until_zero in H; [discriminate|].
        assert (0 < 2 ^ 31) by lia. lia.
      * assert (Hu : u32 (2 ^ k * 2) = 2 ^ (k + 1)).
        { rewrite Z.pow_add_r by lia. change (2 ^ 1) with 2.
          apply u32_small. split; [lia|].
          assert (2 ^ k <= 2 ^ 30) by (apply Z.pow_le_mono_r; lia). lia. }
        rewrite Hu in H. apply IH in H as (j & Hj & -> & Hb & Hs); [|lia].
        exists j. repeat split; try lia.
        intros _. destruct (Z.eq_dec j (k + 1)) as [->|Hne'].
        -- replace (k + 1 - 1) with k by lia. exact Hlt.
        -- apply Hs. lia.
    + injection H as <-. exists k. repeat split; lia.
Qed.

Lemma pow2_smallest (j bound : Z) :
  0 <= j → bound <= 2 ^ j → (2 ^ (j - 1) < bound ∨ bound <= 1 ∧ j = 0) →
  smallest_pow2_covering (2 ^ j) bound.
Proof.
  intros Hj Hb Hs. split; [exists j; split; [lia|reflexivity]|]. split; [exact Hb|].
  intros q (i & Hi & ->) Hq.
  destruct Hs as [Hs|[Hs ->]].
  - apply Z.pow_le_mono_r; [lia|].
    destruct (Z.le_gt_cases j i) as [H|H]; [exact H|].
    assert (2 ^ i <= 2 ^ (j - 1)) by (apply Z.pow_le_mono_r; lia). lia.
  - apply Z.pow_le_mono_r; lia.
Qed.

(** ** What the operations keep *)

Lemma reopen_as_fields (t : open_type) (s : dictionary_file) :
  reserved_words (reopen_as t s) = reserved_words s
  ∧ words_sect_size (reopen_as t s) = words_sect_size s
  ∧ words (reopen_as t s) = words s
  ∧ first_new_word (reopen_as t s) = first_new_word s
  ∧ existing_defs (reopen_as t s) = existing_defs s
  ∧ do_dedup (reopen_as t s) = do_dedup s
  ∧ bytes (file (reopen_as t s)) = bytes (file s).
Proof.
  unfold reopen_as. destruct (file_open_type s), t; repeat split.
Qed.

Lemma sort_words_fields (fnw : nat) (s s' : dictionary_file) :
  sort_words fnw s = Ok s' →
  reserved_words s' = reserved_words s
  ∧ words_sect_size s' = words_sect_size s
  ∧ words s' ≡ₚ words s
  ∧ first_new_word s' = None
  ∧ file s' = file s.
Proof.
  unfold sort_words. destruct (adjacent_find _ _); [discriminate|].
  intros [= <-]. simpl. repeat split.
  rewrite merge_by_perm, sort_by_perm, take_drop. reflexivity.
Qed.

Section Growth.

Variable uninitialized : bool → Z → list byte.

Lemma rewrite_def_word old_off start dedup e f f2 defs e' f' f2' defs' :
  rewrite_def uninitialized old_off start dedup e f f2 defs = Ok (e', f', f2', defs') →
  word e' = word e.
Proof.
  unfold rewrite_def. unfold mbind, result_bind.
  repeat match goal with
         | |- context [match ?x with _ => _ end] => destruct x; try discriminate
         end;
    intros [= <- _ _ _]; reflexivity.
Qed.

Lemma rewrite_defs_words old_off start dedup ws f f2 defs ws' f' f2' defs' :
  rewrite_defs uninitialized old_off start dedup ws f f2 defs = Ok (ws', f', f2', defs') →
  map word ws' = map word ws.
Proof.
  revert f f2 defs ws' f' f2' defs'.
  induction ws as [|e ws IH]; intros f f2 defs ws' f' f2' defs' H; simpl in H.
  - injection H as <- _ _ _. reflexivity.
  - destruct (rewrite_def _ _ _ _ _ _ _ _) as [[[[e1 f1] f21] defs1]|] eqn:E1;
      [|discriminate].
    simpl in H.
    destruct (rewrite_defs _ _ _ _ _ _ _ _) as [[[[ws1 f1'] f21'] defs1']|] eqn:E2;
      [|discriminate].
    simpl in H. injection H as <- _ _ _. simpl.
    rewrite (rewrite_def_word _ _ _ _ _ _ _ _ _ _ _ E1), (IH _ _ _ _ _ _ _ E2).
    reflexivity.
Qed.

Lemma rewrite_file_fields (old_rw old_wss : Z) (s s' : dictionary_file) :
  rewrite_file uninitialized old_rw old_wss s = Ok s' →
  reserved_words s' = reserved_words s
  ∧ words_sect_size s' = words_sect_size s
  ∧ map word (words s') = map word (words s)
  ∧ first_new_word s' = first_new_word s.
Proof.
  unfold rewrite_file.
  destruct (write_words _ _ _) as [bytes_written f2].
  destruct (rewrite_defs _ _ _ _ _ _ _ _) as [[[[ws f] f2'] defs]|] eqn:E; [|discriminate].
  simpl. intros [= <-].
  destruct (reopen_as_fields read_only
              (set_existing_defs defs
                 (set_words ws (first_new_word s)
                    (set_file
                       (write_nulls ((reserved_words s - len (words s)) * 4)
                          (fold_left
                             (λ (f0 : fstream) (e : word_info),
                                write_uint32_LE (u32 (def_ind e + 1)) f0) ws
                             (seek (inds_section_offset + u32 (reserved_words s * 4)) f2')))
                       (file_open_type s) s))))
    as (H1 & H2 & H3 & H4 & _).
  unfold open_in. rewrite H1, H2, H3, H4. simpl. repeat split.
  eapply rewrite_defs_words, E.
Qed.
End Growth.

Lemma total_len_keys (ws : list word_info) (init : Z) :
  total_len ws init = init + keys_len (map word ws).
Proof.
  revert init. induction ws as [|e ws IH]; intros init; simpl.
  - lia.
  - unfold total_len in *. simpl. rewrite IH. lia.
Qed.

Lemma keys_len_perm (ks ks' : list (list byte)) : ks ≡ₚ ks' → keys_len ks = keys_len ks'.
Proof.
  induction 1; simpl; try lia.
Qed.

Lemma keys_len_app (ks ks' : list (list byte)) :
  keys_len (ks ++ ks') = keys_len ks + keys_len ks'.
Proof.
  induction ks as [|k ks IH]; simpl; [reflexivity|]. rewrite IH. lia.
Qed.

Lemma keys_len_nonneg (ks : list (list byte)) : 0 <= keys_len ks.
Proof.
  induction ks as [|k ks IH]; simpl; [lia|]. unfold len. lia.
Qed.

Lemma len_perm {A} (l l' : list A) : l ≡ₚ l' → len l = len l'.
Proof. intros H. unfold len. rewrite (Permutation_length H). reflexivity. Qed.

Lemma len_map_word (ws ws' : list word_info) :
  map word ws ≡ₚ map word ws' → len ws = len ws'.
Proof.
  intros H. apply Permutation_length in H. rewrite !length_map in H.
  unfold len. lia.
Qed.

Section Flush.

Variable uninitialized : bool → Z → list byte.

Lemma flush_inv (s s' : dictionary_file) (b : bool) :
  flush uninitialized s = Ok (b, s') →
  match first_new_word s with
  | None => b = false ∧ s' = open_in s
  | Some fnw =>
    b = true ∧
    ∃ wss, double_until 32 (words_sect_size s) (keys_len (map word (words s))) = Ok wss ∧
      let s1 := set_sizes (reserved_words s) wss (open_in_out s) in
      if negb (wss =? words_sect_size s) || (reserved_words s <? len (words s)) then
        ∃ s2 rw, sort_words fnw s1 = Ok s2
          ∧ double_until 32 (reserved_words s) (len (words s2)) = Ok rw
          ∧ rewrite_file uninitialized (reserved_words s) (words_sect_size s)
              (set_sizes rw wss s2) = Ok s'
      else
        ∃ s2, sort_words fnw (set_file (flush_in_place fnw s1) (file_open_type s1) s1) = Ok s2
          ∧ s' = open_in s2
  end.
Proof.
  unfold flush. intros H.
  assert (H' : match first_new_word s with
    | Some fnw =>
        let s0 := open_in_out s in
        let cur_words_total_len := total_len (take fnw (words s0)) 0 in
        let words_total_len := total_len (drop fnw (words s0)) cur_words_total_len in
        let old_words_sect_size := words_sect_size s0 in
        wss ← double_until 32 (words_sect_size s0) words_total_len;
        let s1 := set_sizes (reserved_words s0) wss s0 in
        if negb (wss =? old_words_sect_size) || (reserved_words s1 <? len (words s1))
        then
         s2 ← sort_words fnw s1;
         let old_reserved_words := reserved_words s2 in
         rw ← double_until 32 (reserved_words s2) (len (words s2));
         s3 ← rewrite_file uninitialized old_reserved_words old_words_sect_size
                 (set_sizes rw wss s2);
         Ok (true, s3)
        else
         s2 ← sort_words fnw (set_file (flush_in_place fnw s1) (file_open_type s1) s1);
         Ok (true, open_in s2)
    | None => Ok (false, open_in s)
    end = Ok (b, s')).
  { destruct (file_open_type s); [discriminate|exact H..]. }
  clear H. destruct (first_new_word s) as [fnw|]; [|injection H' as <- <-; auto].
  destruct (reopen_as_fields read_write s) as (R1 & R2 & R3 & _).
  cbv zeta in H'. unfold open_in_out in *.
  assert (Htotal : total_len (drop fnw (words (reopen_as read_write s)))
                     (total_len (take fnw (words (reopen_as read_write s))) 0)
                   = keys_len (map word (words s))).
  { rewrite R3, !total_len_keys, Z.add_0_l, <- keys_len_app, <- map_app, take_drop.
    reflexivity. }
  rewrite Htotal, R2 in H'.
  destruct (double_until 32 (words_sect_size s) (keys_len (map word (words s))))
    as [wss|]; [|discriminate].
  state_simpl. rewrite ?R1, ?R3 in H'.
  split; [destruct (_ || _) in H'; cbv [mbind result_bind] in H';
          repeat match type of H' with
                 | context [match ?x with _ => _ end] => destruct x; try discriminate
                 end; congruence|].
  exists wss. split; [reflexivity|].
  destruct (negb (wss =? words_sect_size s) || (reserved_words s <? len (words s))).
  - destruct (sort_words fnw _) as [s2|] eqn:Hsort; [|discriminate]. state_simpl.
    pose proof (sort_words_fields _ _ _ Hsort) as (S1 & _). state_simpl.
    rewrite ?S1, ?R1 in H'.
    destruct (double_until 32 (reserved_words s) (len (words s2))) as [rw|] eqn:Hd;
      [|discriminate].
    state_simpl.
    destruct (rewrite_file _ _ _ _) as [s3|] eqn:Hrew; [|discriminate].
    state_simpl. injection H' as <- <-.
    exists s2, rw. rewrite ?R1. auto.
  - destruct (sort_words fnw _) as [s2|] eqn:Hsort; [|discriminate]. state_simpl.
    injection H' as <- <-.
    exists s2. rewrite ?R1. auto.
Qed.

(** What a successful [flush] does to the sizes and to the set of keys. *)
Lemma flush_sizes (s s' : dictionary_file) (b : bool) :
  sizes_inv s → flush uninitialized s = Ok (b, s') →
  sizes_inv s'
  ∧ reserved_words s <= reserved_words s'
  ∧ words_sect_size s <= words_sect_size s'
  ∧ map word (words s') ≡ₚ map word (words s)
  ∧ (reserved_words s' ≠ reserved_words s →
     smallest_pow2_covering (reserved_words s') (len (words s')))
  ∧ (words_sect_size s' ≠ words_sect_size s →
     smallest_pow2_covering (words_sect_size s') (total_len (words s') 0)).
Proof.
  intros (k1 & k2 & Hk1 & Hk2 & Hrw & Hwss) H. apply flush_inv in H.
  destruct (first_new_word s) as [fnw|].
  2:{ destruct H as [_ ->].
      destruct (reopen_as_fields read_only s) as (H1 & H2 & H3 & _).
      unfold open_in. rewrite H1, H2, H3.
      split; [exists k1, k2; repeat split; try lia; assumption|].
      repeat split; try lia; try reflexivity; congruence. }
  destruct H as (_ & wss & Hd & H). cbv zeta in H.
  rewrite Hwss in Hd.
  apply double_until_pow2 in Hd as (j2 & Hj2 & -> & Hb2 & Hs2); [|lia].
  destruct (reopen_as_fields read_write s) as (R1 & R2 & R3 & _).
  unfold open_in_out in H.
  destruct (negb (2 ^ j2 =? words_sect_size s) || (reserved_words s <? len (words s)))
    eqn:Hbranch.
  - destruct H as (s2 & rw & Hsort & Hd1 & Hrew).
    apply sort_words_fields in Hsort as (S1 & S2 & S3 & _). simpl in S1, S2, S3.
    rewrite Hrw in Hd1.
    apply double_until_pow2 in Hd1 as (j1 & Hj1 & -> & Hb1 & Hs1); [|lia].
    apply rewrite_file_fields in Hrew as (W1 & W2 & W3 & _). simpl in W1, W2, W3.
    assert (Hkeys : map word (words s') ≡ₚ map word (words s)).
    { rewrite W3. apply Permutation_map. rewrite S3, R3. reflexivity. }
    assert (Hlen : len (words s') = len (words s2)).
    { apply len_map_word. rewrite W3. reflexivity. }
    rewrite W1, W2, Hrw, Hwss.
    split; [exists j1, j2; repeat split; lia|].
    split; [apply Z.pow_le_mono_r; lia|].
    split; [apply Z.pow_le_mono_r; lia|].
    split; [exact Hkeys|].
    split.
    + intros Hne. apply pow2_smallest; [lia|lia|].
      left. rewrite Hlen. apply Hs1.
      destruct (Z.eq_dec j1 k1) as [->|]; [contradiction|lia].
    + intros Hne. rewrite total_len_keys, (keys_len_perm _ _ Hkeys), Z.add_0_l.
      apply pow2_smallest; [lia|lia|].
      left. apply Hs2.
      destruct (Z.eq_dec j2 k2) as [->|]; [contradiction|lia].
  - apply orb_false_iff in Hbranch as [Hsame Hfit].
    apply negb_false_iff, Z.eqb_eq in Hsame.
    destruct H as (s2 & Hsort & ->).
    apply sort_words_fields in Hsort as (S1 & S2 & S3 & _). simpl in S1, S2, S3.
    destruct (reopen_as_fields read_only s2) as (O1 & O2 & O3 & _).
    unfold open_in, sizes_inv. rewrite O1, O2, O3, S1, S2, Hsame, Hrw, Hwss.
    split; [exists k1, k2; repeat split; lia|].
    repeat split; try lia; try congruence.
    apply Permutation_map. rewrite S3, R3. reflexivity.
Qed.

Lemma get_existing_def_ind_fields (def : list byte) (s s' : dictionary_file) (r : option Z) :
  get_existing_def_ind def s = Ok (r, s') →
  reserved_words s' = reserved_words s
  ∧ words_sect_size s' = words_sect_size s
  ∧ words s' = words s
  ∧ first_new_word s' = first_new_word s
  ∧ existing_defs s' = existing_defs s
  ∧ do_dedup s' = do_dedup s
  ∧ file_open_type s' = file_open_type s
  ∧ bytes (file s') = bytes (file s).
Proof.
  unfold get_existing_def_ind.
  destruct (existing_defs s !! u32 (len def)) as [inner|]; [|intros [= <- <-]; repeat split].
  destruct (inner !! fnv1a def fnv_init) as [cands|]; [|intros [= <- <-]; repeat split].
  destruct (first_matching_def _ _ _ _ _) as [[r' f]|] eqn:E; [|discriminate].
  simpl. intros [= <- <-]. simpl. repeat split.
  clear -E. revert f r' E.
  generalize (file s) as f0.
  induction cands as [|c cands IH]; intros f0 f r E; simpl in E.
  - injection E as <- <-. reflexivity.
  - unfold get_def_hash, get_def_size_and_hash, read_uint32_LE, read_uint64_LE, read in E.
    unfold mbind, result_bind in E. simpl in E.
    repeat match type of E with
           | context [if ?c then _ else _] => destruct c; try discriminate
           end;
      try (injection E as <- <-; reflexivity);
      apply IH in E; exact E.
Qed.

(** [add_word<true, _>] is [add_word<false, _>] followed, when the word
    went in, by [flush]. *)
Lemma add_word_flushing (skip_dup_check : bool) (w def : list byte) (s : dictionary_file) :
  add_word uninitialized true skip_dup_check w def s =
  '(inserted, s1) ← add_word uninitialized false skip_dup_check w def s;
  if inserted : bool then '(_, s2) ← flush uninitialized s1; Ok (true, s2)
  else Ok (false, s1).
Proof.
  unfold add_word.
  destruct (file_open_type s); try reflexivity;
    (destruct (negb skip_dup_check && negb (find_def_ind s w =? not_found));
     [reflexivity|]);
    (destruct (append_word w def s) as [s1|]; [|reflexivity]);
    rewrite !bind_Ok; reflexivity.
Qed.

(** [add_word<false, _>] is the duplicate check and [append_word]. *)
Lemma add_word_unflushed (skip_dup_check : bool) (w def : list byte) (s : dictionary_file) :
  file_open_type s ≠ no_file →
  add_word uninitialized false skip_dup_check w def s =
  if negb skip_dup_check && negb (find_def_ind s w =? not_found) then Ok (false, s)
  else s' ← append_word w def s; Ok (true, s').
Proof.
  intros Hopen. unfold add_word. destruct (file_open_type s); [contradiction|reflexivity..].
Qed.

Lemma append_word_fields (w def : list byte) (s s' : dictionary_file) :
  append_word w def s = Ok s' →
  reserved_words s' = reserved_words s
  ∧ words_sect_size s' = words_sect_size s
  ∧ do_dedup s' = do_dedup s
  ∧ map word (words s') = map word (words s) ++ [w].
Proof.
  unfold append_word. intros H.
  set (s0 := match first_new_word s with
             | Some _ => s
             | None => set_words (words s) (Some (length (words s))) s
             end) in H.
  assert (Hs0 : reserved_words s0 = reserved_words s
                ∧ words_sect_size s0 = words_sect_size s
                ∧ do_dedup s0 = do_dedup s ∧ words s0 = words s)
    by (unfold s0; destruct (first_new_word s); repeat split).
  destruct Hs0 as (A1 & A2 & A3 & A4).
  destruct (if do_dedup s0 then get_existing_def_ind def s0 else Ok (None, s0))
    as [[existing s1]|] eqn:Hex; [|discriminate].
  assert (Hs1 : reserved_words s1 = reserved_words s0
                ∧ words_sect_size s1 = words_sect_size s0
                ∧ do_dedup s1 = do_dedup s0 ∧ words s1 = words s0)
    by (remember (do_dedup s0) as dd eqn:Hdd in Hex; destruct dd;
        [apply get_existing_def_ind_fields in Hex; tauto
        |injection Hex as <- <-; repeat split]).
  destruct Hs1 as (B1 & B2 & B3 & B4).
  state_simpl.
  destruct existing as [d|]; state_simpl.
  - injection H as <-. state_simpl. rewrite B1, B2, B3, B4, A1, A2, A3, A4.
    repeat split. rewrite map_app. reflexivity.
  - destruct (reopen_as_fields read_write s1) as (R1 & R2 & R3 & R4 & R5 & R6 & R7).
    unfold open_in_out in H.
    match type of H with
    | context [if ?c then _ else _] => destruct c; [discriminate|]
    end.
    injection H as <-.
    rewrite R6; destruct (do_dedup s1) eqn:Hdd; state_simpl.
    all: rewrite ?R1, ?R2, ?R3, ?R6, ?Hdd, B1, B2, B4, A1, A2, A4, <- ?A3, <- ?B3, ?Hdd.
    all: repeat split; rewrite map_app; reflexivity.
Qed.

Lemma add_word_unflushed_fields (skip_dup_check : bool) (w def : list byte)
    (s s' : dictionary_file) (inserted : bool) :
  add_word uninitialized false skip_dup_check w def s = Ok (inserted, s') →
  reserved_words s' = reserved_words s
  ∧ words_sect_size s' = words_sect_size s
  ∧ do_dedup s' = do_dedup s
  ∧ (inserted = false → s' = s)
  ∧ (inserted = true → map word (words s') = map word (words s) ++ [w]).
Proof.
  intros H.
  assert (Hopen : file_open_type s ≠ no_file).
  { intros E. unfold add_word in H. rewrite E in H. discriminate. }
  rewrite add_word_unflushed in H by exact Hopen.
  destruct (negb skip_dup_check && negb (find_def_ind s w =? not_found)).
  - injection H as <- <-. repeat split; discriminate.
  - destruct (append_word w def s) as [s1|] eqn:Happ; [|discriminate].
    rewrite bind_Ok in H. injection H as <- <-.
    apply append_word_fields in Happ as (F1 & F2 & F3 & F4).
    repeat split; try assumption; try discriminate. intros _. exact F4.
Qed.
End Flush.


(** ** The doubling loops of [flush] *)

Lemma u32_mul_idemp (a b : Z) : u32 (u32 a * b) = u32 (a * b).
Proof. unfold u32. apply Z.mul_mod_idemp_l. lia. Qed.

(** What the loop returns when it ends, from any 32-bit value. *)
Lemma double_until_doubling (fuel : nat) :
  ∀ x n y, 0 <= x < 2 ^ 32 → double_until fuel x n = Ok y → doubling_from x n y.
Proof.
  induction fuel as [|fuel IH]; intros x n y Hx H; cbn [double_until] in H.
  - destruct (Z.ltb_spec x n); [discriminate|]. injection H as <-.
    exists 0. rewrite Z.pow_0_r, Z.mul_1_r, u32_small by lia.
    repeat split; try lia.
  - destruct (Z.ltb_spec x n) as [Hlt|Hge].
    + apply IH in H; [|apply u32_range]. destruct H as (j & Hj & Hy & Hn & Hmin).
      exists (j + 1). split; [lia|]. split.
      { rewrite Hy, u32_mul_idemp, Z.pow_add_r by lia. f_equal.
        change (2 ^ 1) with 2. lia. }
      split; [exact Hn|]. intros i Hi.
      destruct (Z.eq_dec i 0) as [->|Hi0].
      * rewrite Z.pow_0_r, Z.mul_1_r, u32_small by lia. exact Hlt.
      * specialize (Hmin (i - 1)). rewrite u32_mul_idemp in Hmin.
        replace (x * 2 ^ i) with (x * 2 * 2 ^ (i - 1)); [apply Hmin; lia|].
        replace i with (i - 1 + 1) at 2 by lia.
        rewrite Z.pow_add_r by lia. change (2 ^ 1) with 2. lia.
    + injection H as <-.
      exists 0. rewrite Z.pow_0_r, Z.mul_1_r, u32_small by lia.
      repeat split; try lia.
Qed.

Lemma doubling_from_bounds (x n y : Z) :
  0 < x < 2 ^ 32 → doubling_from x n y → x <= y ∧ 0 < y < 2 ^ 32.
Proof.
  intros Hx (j & Hj & -> & Hn & Hmin).
  pose proof (u32_range (x * 2 ^ j)) as Hr.
  destruct (Z.eq_dec j 0) as [->|Hj0].
  - rewrite Z.pow_0_r, Z.mul_1_r, u32_small by lia. lia.
  - specialize (Hmin 0). rewrite Z.pow_0_r, Z.mul_1_r, u32_small in Hmin by lia.
    lia.
Qed.

Lemma is_pow2_exponent (x : Z) :
  is_pow2 x → x < 2 ^ 32 → ∃ k, 0 <= k <= 31 ∧ x = 2 ^ k.
Proof.
  intros (k & Hk & ->) Hx. exists k. split; [|reflexivity]. split; [lia|].
  destruct (Z.le_gt_cases k 31) as [H|H]; [exact H|].
  assert (2 ^ 32 <= 2 ^ k) by (apply Z.pow_le_mono_r; lia). lia.
Qed.

(** From a power of two the loop ends at a power of two, the smallest
    that covers the bound when it has moved. *)
Lemma double_until_smallest (fuel : nat) (x n y : Z) :
  is_pow2 x → x < 2 ^ 32 → double_until fuel x n = Ok y →
  is_pow2 y ∧ (y ≠ x → smallest_pow2_covering y n).
Proof.
  intros Hp Hx H. destruct (is_pow2_exponent x Hp Hx) as (k & Hk & ->).
  apply double_until_pow2 in H as (j & Hj & -> & Hb & Hs); [|lia].
  split; [exists j; split; [lia|reflexivity]|].
  intros Hne. apply pow2_smallest; [lia|exact Hb|].
  left. apply Hs. destruct (Z.eq_dec j k) as [->|]; [contradiction|lia].
Qed.


(** ** Lists of bytes and streams *)

Lemma len_nil {A} : len (@nil A) = 0.
Proof. reflexivity. Qed.

Lemma len_app {A} (a b : list A) : len (a ++ b) = len a + len b.
Proof. unfold len. rewrite length_app. lia. Qed.

Lemma len_cons {A} (x : A) (l : list A) : len (x :: l) = 1 + len l.
Proof. unfold len. simpl. lia. Qed.

Lemma len_nonneg {A} (l : list A) : 0 <= len l.
Proof. unfold len. lia. Qed.

Lemma len_zeros (n : Z) : len (zeros n) = Z.max 0 n.
Proof. unfold len, zeros. rewrite length_replicate. lia. Qed.

Lemma len_uint32_LE (x : Z) : len (uint32_LE x) = 4.
Proof. reflexivity. Qed.

Lemma len_uint64_LE (x : Z) : len (uint64_LE x) = 8.
Proof. reflexivity. Qed.

Lemma len_def_record (v : list byte) : len (def_record v) = 12 + len v.
Proof. unfold def_record. rewrite !len_app, len_uint32_LE, len_uint64_LE. lia. Qed.

Lemma len_map {A B} (f : A → B) (l : list A) : len (map f l) = len l.
Proof. unfold len. rewrite length_map. reflexivity. Qed.

Lemma zeros_add (n m : Z) : 0 <= n → 0 <= m → zeros (n + m) = zeros n ++ zeros m.
Proof.
  intros Hn Hm. unfold zeros. rewrite Z2Nat.inj_add by lia. apply replicate_add.
Qed.

Lemma zeros_nonpos (n : Z) : n <= 0 → zeros n = [].
Proof.
  intros Hn. unfold zeros. replace (Z.to_nat n) with 0%nat by lia. reflexivity.
Qed.

Lemma slice_at (a x b : list byte) : slice (a ++ x ++ b) (len a) (len x) = x.
Proof.
  unfold slice, len. rewrite !Nat2Z.id.
  rewrite drop_app_length. apply take_app_length.
Qed.

Lemma slice_at_end (a x : list byte) : slice (a ++ x) (len a) (len x) = x.
Proof.
  rewrite <- (app_nil_r x) at 1. apply slice_at.
Qed.

(** [read] at the start of a known segment. *)
Lemma read_at (f : fstream) (a x b : list byte) :
  bytes f = a ++ x ++ b → pos f = len a →
  read (len x) f = Ok (x, {| bytes := bytes f; pos := len a + len x |}).
Proof.
  intros Hb Hp. unfold read.
  assert (Hcond : (len x <=? 0) || (pos f + len x <=? len (bytes f)) = true).
  { apply orb_true_iff. right. apply Z.leb_le.
    rewrite Hb, Hp, !len_app. pose proof (len_nonneg b). lia. }
  rewrite Hcond. rewrite Hb at 1. rewrite Hp, slice_at.
  pose proof (len_nonneg x). rewrite Z.max_r by lia. reflexivity.
Qed.

Lemma read_uint32_LE_at (f : fstream) (a b : list byte) (v : Z) :
  bytes f = a ++ uint32_LE v ++ b → pos f = len a → 0 <= v < 2 ^ 32 →
  read_uint32_LE f = Ok (v, {| bytes := bytes f; pos := len a + 4 |}).
Proof.
  intros Hb Hp Hv. unfold read_uint32_LE.
  change 4 with (len (uint32_LE v)) at 1.
  rewrite (read_at f a (uint32_LE v) b Hb Hp). rewrite bind_Ok.
  rewrite of_uint32_LE, u32_idem, u32_small by exact Hv. reflexivity.
Qed.

Lemma read_uint64_LE_at (f : fstream) (a b : list byte) (v : Z) :
  bytes f = a ++ uint64_LE v ++ b → pos f = len a → 0 <= v < 2 ^ 64 →
  read_uint64_LE f = Ok (v, {| bytes := bytes f; pos := len a + 8 |}).
Proof.
  intros Hb Hp Hv. unfold read_uint64_LE.
  change 8 with (len (uint64_LE v)) at 1.
  rewrite (read_at f a (uint64_LE v) b Hb Hp). rewrite bind_Ok.
  rewrite of_uint64_LE, u64_idem, u64_small by exact Hv. reflexivity.
Qed.

(** Overwriting a segment by one of the same length. *)
Lemma overwrite_at (a x b d : list byte) :
  length d = length x → overwrite (a ++ x ++ b) (len a) d = a ++ d ++ b.
Proof.
  intros Hlen. unfold overwrite. destruct d as [|c d].
  - destruct x; [reflexivity|discriminate].
  - unfold len. rewrite Nat2Z.id.
    rewrite take_app_length.
    replace (length a - length (a ++ x ++ b))%nat with 0%nat
      by (rewrite length_app; lia).
    simpl replicate. rewrite app_nil_l.
    rewrite drop_app_add, Hlen, drop_app_length. reflexivity.
Qed.

Lemma overwrite_end (l d : list byte) : overwrite l (len l) d = l ++ d.
Proof.
  unfold overwrite. destruct d as [|c d]; [rewrite app_nil_r; reflexivity|].
  unfold len. rewrite Nat2Z.id. rewrite firstn_all, Nat.sub_diag.
  rewrite drop_ge by lia. simpl. rewrite app_nil_r. reflexivity.
Qed.

Lemma write_at (f : fstream) (a x b d : list byte) :
  bytes f = a ++ x ++ b → pos f = len a → length d = length x →
  write d f = {| bytes := a ++ d ++ b; pos := len a + len d |}.
Proof.
  intros Hb Hp Hlen. unfold write. rewrite Hb, Hp, overwrite_at by exact Hlen.
  reflexivity.
Qed.

Lemma write_end (f : fstream) (d : list byte) :
  pos f = len (bytes f) →
  write d f = {| bytes := bytes f ++ d; pos := len (bytes f) + len d |}.
Proof.
  intros Hp. unfold write. rewrite Hp, overwrite_end. reflexivity.
Qed.

Lemma stream_eq (f g : fstream) : bytes f = bytes g → pos f = pos g → f = g.
Proof. destruct f, g. simpl. intros -> ->. reflexivity. Qed.

Lemma write_end_bytes (f : fstream) (d : list byte) :
  pos f = len (bytes f) → bytes (write d f) = bytes f ++ d.
Proof. intros Hp. rewrite write_end by exact Hp. reflexivity. Qed.

Lemma write_end_pos (f : fstream) (d : list byte) :
  pos f = len (bytes f) → pos (write d f) = len (bytes (write d f)).
Proof.
  intros Hp. rewrite write_end by exact Hp. cbn [pos bytes]. rewrite len_app. reflexivity.
Qed.

Lemma write_pos (f : fstream) (d : list byte) : pos (write d f) = pos f + len d.
Proof. reflexivity. Qed.


(** ** The layout of the file *)

Lemma index_entries_cons (i : Z) (inds : list Z) :
  index_entries (i :: inds) = uint32_LE i ++ index_entries inds.
Proof. reflexivity. Qed.

Lemma words_bytes_cons (k : list byte) (ks : list (list byte)) :
  words_bytes (k :: ks) = (k ++ [x00]) ++ words_bytes ks.
Proof. reflexivity. Qed.

Lemma keys_len_cons (k : list byte) (ks : list (list byte)) :
  keys_len (k :: ks) = len k + 1 + keys_len ks.
Proof. reflexivity. Qed.

Lemma word_offsets_cons (k : list byte) (ks : list (list byte)) (off : Z) :
  word_offsets (k :: ks) off = off :: word_offsets ks (off + (len k + 1)).
Proof. reflexivity. Qed.

Lemma len_index_entries (inds : list Z) : len (index_entries inds) = 4 * len inds.
Proof.
  induction inds as [|i inds IH]; [reflexivity|].
  rewrite index_entries_cons, len_app, len_uint32_LE, len_cons, IH. lia.
Qed.

Lemma len_words_bytes (ks : list (list byte)) : len (words_bytes ks) = keys_len ks.
Proof.
  induction ks as [|k ks IH]; [reflexivity|].
  rewrite words_bytes_cons, keys_len_cons, !len_app, IH. change (len [x00]) with 1. lia.
Qed.

Lemma len_index_table (rw : Z) (inds : list Z) :
  len inds <= rw → len (index_table rw inds) = 4 * rw.
Proof.
  intros H. unfold index_table.
  rewrite len_app, len_index_entries, len_map, len_zeros. lia.
Qed.

Lemma len_words_section (wss : Z) (ks : list (list byte)) :
  keys_len ks <= wss → len (words_section wss ks) = wss.
Proof.
  intros H. unfold words_section. rewrite len_app, len_words_bytes, len_zeros. lia.
Qed.

Lemma len_header (rw wss n : Z) : len (header rw wss n) = 19.
Proof. reflexivity. Qed.

Lemma len_word_offsets (ks : list (list byte)) (off : Z) :
  len (word_offsets ks off) = len ks.
Proof.
  revert off. induction ks as [|k ks IH]; intros off; [reflexivity|].
  rewrite word_offsets_cons, !len_cons, IH. reflexivity.
Qed.

Lemma index_entries_app (a b : list Z) :
  index_entries (a ++ b) = index_entries a ++ index_entries b.
Proof.
  induction a as [|i a IH]; [reflexivity|].
  rewrite <- app_comm_cons, !index_entries_cons, IH, app_assoc. reflexivity.
Qed.

Lemma words_bytes_app (a b : list (list byte)) :
  words_bytes (a ++ b) = words_bytes a ++ words_bytes b.
Proof.
  induction a as [|k a IH]; [reflexivity|].
  rewrite <- app_comm_cons, !words_bytes_cons, IH, !app_assoc. reflexivity.
Qed.

Lemma word_offsets_app (a b : list (list byte)) (off : Z) :
  word_offsets (a ++ b) off = word_offsets a off ++ word_offsets b (off + keys_len a).
Proof.
  revert off. induction a as [|k a IH]; intros off.
  - simpl. rewrite Z.add_0_r. reflexivity.
  - rewrite <- app_comm_cons, !word_offsets_cons, keys_len_cons, IH, <- app_comm_cons.
    do 3 f_equal. lia.
Qed.

(** The part of the file before the defs section. *)
Lemma layout_defs (rw wss : Z) (dw : list word_info) (defs : list byte) :
  0 <= rw → rw * 8 < 2 ^ 32 → len dw <= rw → keys_len (map word dw) <= wss →
  ∃ pre, layout rw wss dw defs = pre ++ defs
         ∧ len pre = defs_section_offset rw wss
         ∧ ∀ defs', layout rw wss dw defs' = pre ++ defs'.
Proof.
  intros Hrw Hrw8 Hn Hk.
  exists (header rw wss (len dw)
          ++ index_table rw (word_offsets (map word dw) 0)
          ++ index_table rw (map def_ind dw)
          ++ words_section wss (map word dw)).
  split; [|split].
  - unfold layout. rewrite <- !app_assoc. reflexivity.
  - rewrite !len_app, len_header, !len_index_table, len_words_section; try assumption.
    + unfold defs_section_offset, words_section_offset.
      rewrite u32_small by lia. change inds_section_offset with 19. lia.
    + rewrite len_map. exact Hn.
    + rewrite len_word_offsets, len_map. exact Hn.
  - intros defs'. unfold layout. rewrite <- !app_assoc. reflexivity.
Qed.

Lemma record_at_app (defs x : list byte) (d : Z) (v : list byte) :
  record_at defs d v → record_at (defs ++ x) d v.
Proof.
  intros (a & b & -> & Ha). exists a, (b ++ x).
  rewrite <- !app_assoc. auto.
Qed.

Lemma record_at_end (defs : list byte) (v : list byte) :
  record_at (defs ++ def_record v) (len defs) v.
Proof.
  exists defs, []. rewrite app_nil_r. auto.
Qed.

Lemma record_at_bounds (defs : list byte) (d : Z) (v : list byte) :
  record_at defs d v → 0 <= d ∧ d + 12 + len v <= len defs.
Proof.
  intros (a & b & -> & <-).
  rewrite !len_app, len_def_record.
  pose proof (len_nonneg a). pose proof (len_nonneg b). lia.
Qed.

(** ** FNV-1a *)

Lemma fnv1a_app (a b : list byte) (init : Z) :
  fnv1a (a ++ b) init = fnv1a b (fnv1a a init).
Proof. unfold fnv1a. apply fold_left_app. Qed.

Lemma fnv1a_range (data : list byte) (init : Z) :
  0 <= init < 2 ^ 64 → 0 <= fnv1a data init < 2 ^ 64.
Proof.
  revert init. induction data as [|b data IH]; intros init Hinit; [exact Hinit|].
  unfold fnv1a in *. simpl. apply IH. apply u64_range.
Qed.

Lemma fnv_init_range : 0 <= fnv_init < 2 ^ 64.
Proof. unfold fnv_init. lia. Qed.

(** ** Reading a record *)

Section ReadRecord.

Variables (f : fstream) (A B v : list byte) (off d : Z).
Hypothesis Hbytes : bytes f = A ++ def_record v ++ B.
Hypothesis Hpos : off + d = len A.
Hypothesis Hsize : 0 < len v < 2 ^ 32.

Lemma record_size_at (p : Z) :
  read_uint32_LE (seek (off + d) {| bytes := bytes f; pos := p |})
  = Ok (len v, {| bytes := bytes f; pos := len A + 4 |}).
Proof.
  rewrite (read_uint32_LE_at (seek (off + d) {| bytes := bytes f; pos := p |})
             A (uint64_LE (fnv1a v fnv_init) ++ v ++ B) (len v)).
  - reflexivity.
  - cbn [pos bytes seek]. rewrite Hbytes. unfold def_record. rewrite <- !app_assoc. reflexivity.
  - cbn [pos bytes seek]. exact Hpos.
  - lia.
Qed.

Lemma record_hash_at :
  read_uint64_LE {| bytes := bytes f; pos := len A + 4 |}
  = Ok (fnv1a v fnv_init, {| bytes := bytes f; pos := len A + 12 |}).
Proof.
  rewrite (read_uint64_LE_at {| bytes := bytes f; pos := len A + 4 |}
             (A ++ uint32_LE (len v)) (v ++ B) (fnv1a v fnv_init)).
  - rewrite len_app, len_uint32_LE.
    replace (len A + 4 + 8) with (len A + 12) by lia. reflexivity.
  - cbn [pos bytes seek]. rewrite Hbytes. unfold def_record. rewrite <- !app_assoc. reflexivity.
  - cbn [pos bytes seek]. rewrite len_app, len_uint32_LE. reflexivity.
  - apply fnv1a_range, fnv_init_range.
Qed.

Lemma record_payload_at :
  read (len v) {| bytes := bytes f; pos := len A + 12 |}
  = Ok (v, {| bytes := bytes f; pos := len A + 12 + len v |}).
Proof.
  rewrite (read_at {| bytes := bytes f; pos := len A + 12 |}
             (A ++ uint32_LE (len v) ++ uint64_LE (fnv1a v fnv_init)) v B).
  - rewrite !len_app, len_uint32_LE, len_uint64_LE.
    replace (len A + (4 + 8)) with (len A + 12) by lia. reflexivity.
  - cbn [pos bytes seek]. rewrite Hbytes. unfold def_record. rewrite <- !app_assoc. reflexivity.
  - cbn [pos bytes seek]. rewrite !len_app, len_uint32_LE, len_uint64_LE. lia.
Qed.

Lemma get_def_size_and_hash_at (expected : Z) :
  expected = 0 ∨ expected = len v →
  get_def_size_and_hash d expected off f
  = Ok ((len v, fnv1a v fnv_init), {| bytes := bytes f; pos := len A + 12 |}).
Proof.
  intros Hexp. unfold get_def_size_and_hash.
  change (seek (off + d) f) with (seek (off + d) {| bytes := bytes f; pos := pos f |}).
  rewrite record_size_at, bind_Ok.
  destruct (Z.eqb_spec (len v) 0) as [H0|_]; [lia|].
  assert (Hskip : negb (expected =? 0) && negb (len v =? expected) = false).
  { destruct Hexp as [->| ->]; [reflexivity|].
    rewrite Z.eqb_refl, andb_false_r. reflexivity. }
  rewrite Hskip, record_hash_at, bind_Ok. reflexivity.
Qed.

Lemma get_def_hash_at :
  get_def_hash d (len v) off f
  = Ok (Some (fnv1a v fnv_init), {| bytes := bytes f; pos := len A + 12 |}).
Proof.
  unfold get_def_hash. rewrite get_def_size_and_hash_at by auto. rewrite bind_Ok.
  destruct (Z.eqb_spec (len v) 0) as [H0|_]; [lia|reflexivity].
Qed.

End ReadRecord.


(** ** Lookups in a state that stores [m] *)

Lemma defs_len_elem (vs : list (list byte)) (v : list byte) :
  v ∈ vs → 12 + len v <= defs_len vs.
Proof.
  induction vs as [|x vs IH]; intros Hin; [inversion Hin|].
  simpl. apply elem_of_cons in Hin as [->|Hin].
  - assert (0 <= defs_len vs); [|lia].
    clear. induction vs as [|y vs IH]; simpl; [lia|]. pose proof (len_nonneg y). lia.
  - specialize (IH Hin). pose proof (len_nonneg x). lia.
Qed.

Lemma defs_len_nonneg (vs : list (list byte)) : 0 <= defs_len vs.
Proof.
  induction vs as [|y vs IH]; simpl; [lia|]. pose proof (len_nonneg y). lia.
Qed.

Lemma defs_len_app (a b : list (list byte)) : defs_len (a ++ b) = defs_len a + defs_len b.
Proof.
  induction a as [|x a IH]; simpl; [reflexivity|]. rewrite IH. lia.
Qed.

Lemma NoDup_fst_unique {A B} (m : list (A * B)) (k : A) (v v' : B) :
  NoDup (map fst m) → (k, v) ∈ m → (k, v') ∈ m → v = v'.
Proof.
  induction m as [|[k0 v0] m IH]; intros Hnd H1 H2; [inversion H1|].
  simpl in Hnd. apply NoDup_cons in Hnd as [Hnotin Hnd].
  apply elem_of_cons in H1 as [H1|H1]; apply elem_of_cons in H2 as [H2|H2].
  - congruence.
  - injection H1 as -> ->. exfalso. apply Hnotin.
    apply list_elem_of_fmap. exists (k0, v'). auto.
  - injection H2 as -> ->. exfalso. apply Hnotin.
    apply list_elem_of_fmap. exists (k0, v). auto.
  - apply IH; assumption.
Qed.

Section Stored.

Variables (m : list (list byte * list byte)) (dw : list word_info) (defs : list byte).
Variable s : dictionary_file.
Hypothesis Hst : stored m dw defs s.

Lemma stored_rw_bounds : 32 <= reserved_words s ∧ reserved_words s * 8 < 2 ^ 32.
Proof.
  destruct (st_rw _ _ _ _ Hst) as (k & Hk & ->).
  assert (2 ^ 5 <= 2 ^ k) by (apply Z.pow_le_mono_r; lia).
  assert (2 ^ k <= 2 ^ 28) by (apply Z.pow_le_mono_r; lia).
  lia.
Qed.

Lemma stored_wss_bounds : 256 <= words_sect_size s < 2 ^ 32.
Proof.
  destruct (st_wss _ _ _ _ Hst) as (k & Hk & ->).
  assert (2 ^ 8 <= 2 ^ k) by (apply Z.pow_le_mono_r; lia).
  assert (2 ^ k <= 2 ^ 31) by (apply Z.pow_le_mono_r; lia).
  lia.
Qed.

Lemma stored_NoDup_words : NoDup (map word (words s)).
Proof.
  rewrite (st_keys _ _ _ _ Hst). apply (st_nodup _ _ _ _ Hst).
Qed.

Lemma stored_index_ok : index_ok s = true.
Proof.
  unfold index_ok. apply andb_true_iff. split.
  - pose proof (st_prefix _ _ _ _ Hst) as Hp.
    destruct (first_new_word s) as [k|].
    + destruct Hp as (_ & Hs & Hk). apply andb_true_iff. split; [|exact Hs].
      apply Nat.leb_le. exact Hk.
    + apply Hp.
  - apply NoDup_distinct, stored_NoDup_words.
Qed.

Lemma stored_payload_size (v : list byte) : v ∈ map snd m → 0 < len v < 2 ^ 32.
Proof.
  intros Hin. split.
  - pose proof (st_nonempty _ _ _ _ Hst) as Hne. rewrite Forall_forall in Hne.
    apply Hne, Hin.
  - pose proof (defs_len_elem _ _ Hin). destruct (st_fits _ _ _ _ Hst) as (_ & _ & ?). lia.
Qed.

(** The file around the record of a stored word. *)
Lemma stored_record (e : word_info) :
  e ∈ words s →
  ∃ v A B, (word e, v) ∈ m
           ∧ bytes (file s) = A ++ def_record v ++ B
           ∧ defs_section_offset (reserved_words s) (words_sect_size s) + def_ind e = len A
           ∧ 0 < len v < 2 ^ 32
           ∧ 0 <= def_ind e < 2 ^ 32 - 1 - 12.
Proof.
  intros Hin.
  destruct (st_records _ _ _ _ Hst e Hin) as (v & Hv & Hrec).
  pose proof (record_at_bounds _ _ _ Hrec) as Hb.
  destruct Hrec as (a & b & Hdefs & Ha).
  destruct stored_rw_bounds as [Hrw Hrw8].
  destruct (st_room _ _ _ _ Hst) as [Hn Hk].
  destruct (layout_defs (reserved_words s) (words_sect_size s) dw defs)
    as (pre & Hlay & Hpre & _); try lia.
  assert (Hvin : v ∈ map snd m).
  { apply list_elem_of_fmap. exists (word e, v). auto. }
  exists v, (pre ++ a), b. split; [exact Hv|]. split; [|split; [|split]].
  - rewrite (st_file _ _ _ _ Hst), Hlay, Hdefs, <- !app_assoc. reflexivity.
  - rewrite len_app, Hpre, Ha. reflexivity.
  - apply stored_payload_size, Hvin.
  - pose proof (st_defs_len _ _ _ _ Hst). destruct (st_fits _ _ _ _ Hst) as (_ & _ & ?).
    pose proof (stored_payload_size v Hvin). lia.
Qed.

Lemma stored_key_entry (k : list byte) :
  k ∈ map fst m → ∃ e, e ∈ words s ∧ word e = k.
Proof.
  intros Hin. rewrite <- (st_keys _ _ _ _ Hst) in Hin.
  apply list_elem_of_fmap in Hin as (e & -> & He). exists e. auto.
Qed.

(** A change of the stream position or of the open mode stores the same. *)
Lemma stored_set_file (f : fstream) (t : open_type) :
  bytes f = bytes (file s) → t ≠ no_file → stored m dw defs (set_file f t s).
Proof.
  intros Hb Ht. destruct Hst. constructor; simpl; try assumption.
  rewrite Hb. assumption.
Qed.

Lemma stored_reopen_as (t : open_type) :
  t ≠ no_file → stored m dw defs (reopen_as t s).
Proof.
  intros Ht. unfold reopen_as.
  destruct (file_open_type s) eqn:E, t; try exact Hst; try contradiction;
    apply stored_set_file; (reflexivity || discriminate).
Qed.

Lemma stored_find (k v : list byte) (c : bool) :
  (k, v) ∈ m →
  contains s k = true
  ∧ ∃ s', find k c s = Ok (Some v, s') ∧ stored m dw defs s'
          ∧ words s' = words s ∧ first_new_word s' = first_new_word s
          ∧ existing_defs s' = existing_defs s ∧ do_dedup s' = do_dedup s
          ∧ reserved_words s' = reserved_words s
          ∧ words_sect_size s' = words_sect_size s.
Proof.
  intros Hkv.
  assert (Hk : k ∈ map fst m) by (apply list_elem_of_fmap; exists (k, v); auto).
  destruct (stored_key_entry k Hk) as (e & He & <-).
  pose proof (find_def_ind_stored s e stored_index_ok He) as Hfind.
  destruct (stored_record e He) as (v' & A & B & Hv' & Hbytes & Hoff & Hsize & Hd).
  assert (v' = v) as -> by (eapply NoDup_fst_unique; [apply (st_nodup _ _ _ _ Hst)|eassumption..]).
  assert (Hvalid : (def_ind e =? not_found) = false).
  { apply Z.eqb_neq. change not_found with (2 ^ 32 - 1). lia. }
  split.
  - unfold contains. rewrite Hfind, Hvalid. reflexivity.
  - unfold find. rewrite Hfind, Hvalid. unfold read_def_whole.
    change (seek (defs_section_offset (reserved_words s) (words_sect_size s) + def_ind e)
              (file s))
      with (seek (defs_section_offset (reserved_words s) (words_sect_size s) + def_ind e)
              {| bytes := bytes (file s); pos := pos (file s) |}).
    rewrite (record_size_at (file s) A B v _ _ Hbytes Hoff Hsize), bind_Ok.
    rewrite (record_hash_at (file s) A B v Hbytes), bind_Ok.
    rewrite (record_payload_at (file s) A B v Hbytes), bind_Ok.
    rewrite Z.eqb_refl, andb_false_r, bind_Ok.
    eexists. split; [reflexivity|]. split; [|repeat split].
    apply stored_set_file; [reflexivity|apply (st_open _ _ _ _ Hst)].
Qed.

Lemma stored_find_absent (k : list byte) (c : bool) :
  k ∉ map fst m → contains s k = false ∧ find k c s = Ok (None, s).
Proof.
  intros Hk. rewrite <- (st_keys _ _ _ _ Hst) in Hk.
  pose proof (find_def_ind_absent s k stored_index_ok Hk) as Hfind.
  split.
  - unfold contains. rewrite Hfind, Z.eqb_refl. reflexivity.
  - apply find_None_iff, Hfind.
Qed.

End Stored.


(** ** The dedup index *)

Lemma dedup_index_ok_mono (m m' : list (list byte * list byte)) (defs x : list byte)
    (index : gmap Z (gmap Z (list Z))) :
  dedup_index_ok m defs index → dedup_index_ok (m ++ m') (defs ++ x) index.
Proof.
  intros H size hash inner cands d H1 H2 H3.
  destruct (H size hash inner cands d H1 H2 H3) as (v & Hv & Hrec & Hlen & Hh).
  exists v. split; [|split; [apply record_at_app, Hrec|auto]].
  rewrite map_app. apply elem_of_app. left. exact Hv.
Qed.

Lemma dedup_index_ok_empty (m : list (list byte * list byte)) (defs : list byte) :
  dedup_index_ok m defs ∅.
Proof.
  intros size hash inner cands d H1. rewrite lookup_empty in H1. discriminate.
Qed.

Lemma dedup_index_ok_push (m : list (list byte * list byte)) (defs : list byte)
    (index : gmap Z (gmap Z (list Z))) (v : list byte) (d : Z) :
  dedup_index_ok m defs index →
  v ∈ map snd m → record_at defs d v →
  dedup_index_ok m defs (push_existing_def (len v) (fnv1a v fnv_init) d index).
Proof.
  intros H Hv Hrec size hash inner cands d' H1 H2 H3.
  unfold push_existing_def in H1.
  destruct (decide (size = len v)) as [->|Hsize].
  2:{ rewrite lookup_insert_ne in H1 by congruence. eapply H; eassumption. }
  rewrite lookup_insert_eq in H1. injection H1 as <-.
  destruct (decide (hash = fnv1a v fnv_init)) as [->|Hhash].
  2:{ rewrite lookup_insert_ne in H2 by congruence.
      destruct (index !! len v) as [inner0|] eqn:E; simpl in H2.
      - eapply H; eassumption.
      - rewrite lookup_empty in H2. discriminate. }
  rewrite lookup_insert_eq in H2. injection H2 as <-.
  apply elem_of_app in H3 as [H3|H3].
  - destruct (index !! len v) as [inner0|] eqn:E; simpl in H3.
    + destruct (inner0 !! fnv1a v fnv_init) as [l|] eqn:E2; simpl in H3.
      * eapply H; eassumption.
      * inversion H3.
    + rewrite lookup_empty in H3. simpl in H3. inversion H3.
  - apply list_elem_of_singleton in H3 as ->. exists v. auto.
Qed.

(** The candidates of a valid index all carry the hash they are filed
    under, so the first one is taken. *)
Lemma first_matching_def_first (cands : list Z) (size hash off : Z) (f : fstream) :
  (∀ c, c ∈ cands →
     ∃ v A B, bytes f = A ++ def_record v ++ B ∧ off + c = len A
              ∧ 0 < len v < 2 ^ 32 ∧ len v = size ∧ fnv1a v fnv_init = hash) →
  ∃ f', first_matching_def cands size hash off f = Ok (head cands, f')
        ∧ bytes f' = bytes f.
Proof.
  intros H. destruct cands as [|c cands]; simpl.
  - exists f. auto.
  - destruct (H c) as (v & A & B & Hb & Hoff & Hsz & <- & <-); [left|].
    rewrite (get_def_hash_at f A B v off c Hb Hoff Hsz), bind_Ok.
    rewrite Z.eqb_refl. eexists. split; [reflexivity|reflexivity].
Qed.

Lemma collision_free_no_collision (vs : list (list byte)) :
  collision_free vs = true → no_collision vs.
Proof.
  unfold collision_free, no_collision. intros H v v' Hv Hv' Hlen Hh.
  rewrite forallb_forall in H. apply list_elem_of_In in Hv, Hv'.
  specialize (H v Hv). rewrite forallb_forall in H. specialize (H v' Hv').
  rewrite Hlen, Hh, !Z.eqb_refl in H. simpl in H. apply bytes_eqb_eq, H.
Qed.

Lemma no_collision_perm (vs vs' : list (list byte)) :
  vs ≡ₚ vs' → no_collision vs → no_collision vs'.
Proof.
  intros Hp H v v' Hv Hv'. apply H; rewrite Hp; assumption.
Qed.

Lemma no_collision_sub (vs vs' : list (list byte)) :
  (∀ v, v ∈ vs' → v ∈ vs) → no_collision vs → no_collision vs'.
Proof.
  intros Hsub H v v' Hv Hv'. apply H; apply Hsub; assumption.
Qed.

Section AddWord.

Variable uninitialized : bool → Z → list byte.
Variables (m : list (list byte * list byte)) (dw : list word_info) (defs : list byte).
Variable s : dictionary_file.
Hypothesis Hst : stored m dw defs s.

(** [get_existing_def_ind] on a stored state: a hit names a record of the
    very payload, as long as no other stored payload collides with it. *)
Lemma get_existing_def_ind_stored (def : list byte) :
  do_dedup s = true → 0 < len def < 2 ^ 32 →
  no_collision (def :: map snd m) →
  ∃ r f, get_existing_def_ind def s = Ok (r, set_file f (file_open_type s) s)
         ∧ bytes f = bytes (file s)
         ∧ ∀ c, r = Some c → record_at defs c def.
Proof.
  intros Hdd Hlen Hnc. unfold get_existing_def_ind.
  rewrite u32_small by lia.
  destruct (existing_defs s !! len def) as [inner|] eqn:E1.
  2:{ exists None, (file s). destruct s; simpl. repeat split. discriminate. }
  destruct (inner !! fnv1a def fnv_init) as [cands|] eqn:E2.
  2:{ exists None, (file s). destruct s; simpl. repeat split. discriminate. }
  pose proof (st_dedup _ _ _ _ Hst Hdd) as Hidx.
  destruct (stored_rw_bounds m dw defs s Hst) as [Hrw Hrw8].
  destruct (st_room _ _ _ _ Hst) as [Hn Hk].
  destruct (layout_defs (reserved_words s) (words_sect_size s) dw defs)
    as (pre & Hlay & Hpre & _); try lia.
  assert (Hcands : ∀ c, c ∈ cands →
            ∃ v A B, bytes (file s) = A ++ def_record v ++ B
                     ∧ defs_section_offset (reserved_words s) (words_sect_size s) + c = len A
                     ∧ 0 < len v < 2 ^ 32 ∧ len v = len def
                     ∧ fnv1a v fnv_init = fnv1a def fnv_init
                     ∧ record_at defs c v ∧ v ∈ map snd m).
  { intros c Hc. destruct (Hidx _ _ _ _ c E1 E2 Hc) as (v & Hv & Hrec & Hl & Hh).
    pose proof Hrec as (a & b & Hdefs & Ha).
    exists v, (pre ++ a), b. repeat split; try assumption; try lia.
    - rewrite (st_file _ _ _ _ Hst), Hlay, Hdefs, <- !app_assoc. reflexivity.
    - rewrite len_app, Hpre, Ha. reflexivity. }
  destruct (first_matching_def_first cands (len def) (fnv1a def fnv_init)
              (defs_section_offset (reserved_words s) (words_sect_size s)) (file s))
    as (f' & Hf' & Hb').
  { intros c Hc. destruct (Hcands c Hc) as (v & A & B & ? & ? & ? & ? & ? & _).
    exists v, A, B. auto. }
  rewrite Hf', bind_Ok. exists (head cands), f'. split; [reflexivity|].
  split; [exact Hb'|].
  intros c Hc. destruct cands as [|c0 cands]; [discriminate|]. injection Hc as ->.
  destruct (Hcands c) as (v & _ & _ & _ & _ & _ & Hl & Hh & Hrec & Hv); [left|].
  assert (v = def) as ->; [|exact Hrec].
  apply Hnc; [right; exact Hv|left|exact Hl|exact Hh].
Qed.

Lemma layout_app (rw wss : Z) (x : list byte) :
  layout rw wss dw (defs ++ x) = layout rw wss dw defs ++ x.
Proof. unfold layout. rewrite <- !app_assoc. reflexivity. Qed.

(** Marking the index as having new words. *)
Lemma stored_mark_new :
  stored m dw defs
    match first_new_word s with
    | None => set_words (words s) (Some (length (words s))) s
    | Some _ => s
    end.
Proof.
  pose proof (st_prefix _ _ _ _ Hst) as Hp.
  destruct (first_new_word s) as [k|] eqn:Hfnw; [exact Hst|].
  destruct Hst. constructor; simpl; try assumption.
  rewrite firstn_all. destruct Hp as [Hp1 Hp2]. auto.
Qed.

(** One more entry, whose record lies in the defs section, possibly
    extended by [x]. *)
Lemma stored_extend (s' : dictionary_file) (w def x : list byte) (c : Z) (k : nat) :
  first_new_word s = Some k →
  file_open_type s' ≠ no_file →
  reserved_words s' = reserved_words s →
  words_sect_size s' = words_sect_size s →
  words s' = words s ++ [ {| word := w; def_ind := c |} ] →
  first_new_word s' = Some k →
  bytes (file s') = bytes (file s) ++ x →
  record_at (defs ++ x) c def →
  len x <= 12 + len def →
  (do_dedup s' = true →
   dedup_index_ok (m ++ [(w, def)]) (defs ++ x) (existing_defs s')) →
  w ∉ map fst m → nul_free w = true → 0 < len def →
  fits (m ++ [(w, def)]) →
  stored (m ++ [(w, def)]) dw (defs ++ x) s'.
Proof.
  intros Hfnw Hopen Hrw Hwss Hwords Hfnw' Hbytes Hrec Hx Hidx Hw Hnul Hdef Hfits.
  pose proof (st_prefix _ _ _ _ Hst) as Hp. rewrite Hfnw in Hp.
  destruct Hp as (Hp1 & Hp2 & Hp3).
  constructor.
  - exact Hopen.
  - rewrite Hrw. apply (st_rw _ _ _ _ Hst).
  - rewrite Hwss. apply (st_wss _ _ _ _ Hst).
  - rewrite Hwords, !map_app. simpl. rewrite (st_keys _ _ _ _ Hst). reflexivity.
  - rewrite map_app. simpl. apply NoDup_app. split; [apply (st_nodup _ _ _ _ Hst)|].
    split; [|apply NoDup_singleton].
    intros k' Hk' Hin. apply list_elem_of_singleton in Hin as ->. contradiction.
  - rewrite map_app. apply Forall_app. split; [apply (st_nul _ _ _ _ Hst)|].
    repeat constructor. exact Hnul.
  - rewrite map_app. apply Forall_app. split; [apply (st_nonempty _ _ _ _ Hst)|].
    repeat constructor. exact Hdef.
  - exact Hfits.
  - rewrite Hbytes, (st_file _ _ _ _ Hst), Hrw, Hwss, layout_app. reflexivity.
  - rewrite Hrw, Hwss. apply (st_room _ _ _ _ Hst).
  - rewrite Hfnw', Hwords. rewrite take_app_le by exact Hp3.
    split; [exact Hp1|]. split; [exact Hp2|]. rewrite length_app. lia.
  - rewrite len_app, map_app, defs_len_app. simpl.
    pose proof (st_defs_len _ _ _ _ Hst). lia.
  - intros e He. rewrite Hwords in He. apply elem_of_app in He as [He|He].
    + destruct (st_records _ _ _ _ Hst e He) as (v & Hv & Hr).
      exists v. split; [apply elem_of_app; left; exact Hv|apply record_at_app, Hr].
    + apply list_elem_of_singleton in He as ->. simpl.
      exists def. split; [apply elem_of_app; right; left|exact Hrec].
  - exact Hidx.
Qed.

End AddWord.


(** ** [append_word] on a state that stores [m] *)

Lemma reopen_as_type (t : open_type) (s : dictionary_file) :
  file_open_type (reopen_as t s) = t.
Proof.
  unfold reopen_as. destruct (file_open_type s) eqn:E, t; try reflexivity; exact E.
Qed.

Lemma write_record_end (f : fstream) (def : list byte) :
  pos f = len (bytes f) →
  write def (write_uint64_LE (fnv1a def fnv_init) (write_uint32_LE (len def) f))
  = {| bytes := bytes f ++ def_record def;
       pos := len (bytes f) + len (def_record def) |}.
Proof.
  intros Hp. unfold write_uint64_LE, write_uint32_LE.
  apply stream_eq; cbn [bytes pos].
  - rewrite !write_end_bytes by (repeat apply write_end_pos; exact Hp).
    unfold def_record. rewrite <- !app_assoc. reflexivity.
  - rewrite !write_pos, Hp, len_def_record, len_uint32_LE, len_uint64_LE. lia.
Qed.

Section Append.

Variables (m : list (list byte * list byte)) (dw : list word_info) (defs : list byte).
Variables (w def : list byte).
Hypothesis Hw : w ∉ map fst m.
Hypothesis Hnul : nul_free w = true.
Hypothesis Hdef : 0 < len def.
Hypothesis Hfits : fits (m ++ [(w, def)]).

Lemma appended_def_size : 0 < len def < 2 ^ 32.
Proof.
  split; [exact Hdef|]. destruct Hfits as (_ & _ & H).
  rewrite map_app, defs_len_app in H. simpl in H.
  pose proof (defs_len_nonneg (map snd m)). lia.
Qed.

(** The path of [append_word] that writes a record. *)
Lemma stored_write_def (s1 : dictionary_file) (k : nat) :
  stored m dw defs s1 → first_new_word s1 = Some k →
  ∃ s',
    (let s := open_in_out s1 in
     let f := seek_end (file s) in
     let cur_def_offset :=
       pos f - defs_section_offset (reserved_words s) (words_sect_size s) in
     if cur_def_offset <? 0 then Err IncorrectFileSize
     else
       let s := set_words (words s ++ [{| word := w; def_ind := u32 cur_def_offset |}])
                  (first_new_word s) s in
       let hash := fnv1a def fnv_init in
       let s := if do_dedup s
                then set_existing_defs
                       (push_existing_def (u32 (len def)) hash (u32 cur_def_offset)
                          (existing_defs s)) s
                else s in
       let f := write_uint32_LE (u32 (len def)) f in
       let f := write_uint64_LE hash f in
       let f := write def f in
       Ok (set_file f (file_open_type s) s)) = Ok s'
    ∧ stored (m ++ [(w, def)]) dw (defs ++ def_record def) s'
    ∧ do_dedup s' = do_dedup s1
    ∧ reserved_words s' = reserved_words s1
    ∧ words_sect_size s' = words_sect_size s1
    ∧ first_new_word s' = Some k.
Proof.
  intros Hst1 Hfnw. cbv zeta.
  pose proof (stored_reopen_as m dw defs s1 Hst1 read_write ltac:(discriminate)) as Hst2.
  destruct (reopen_as_fields read_write s1) as (R1 & R2 & R3 & R4 & R5 & R6 & R7).
  pose proof (reopen_as_type read_write s1) as R8.
  unfold open_in_out. remember (reopen_as read_write s1) as s2 eqn:Hs2 in *.
  destruct (stored_rw_bounds m dw defs s2 Hst2) as [Hrw Hrw8].
  destruct (st_room _ _ _ _ Hst2) as [Hn Hk].
  destruct (layout_defs (reserved_words s2) (words_sect_size s2) dw defs)
    as (pre & Hlay & Hpre & _); try lia.
  assert (Hbytes : bytes (file s2) = pre ++ defs).
  { rewrite (st_file _ _ _ _ Hst2). exact Hlay. }
  assert (Hcur : pos (seek_end (file s2))
                 - defs_section_offset (reserved_words s2) (words_sect_size s2) = len defs).
  { cbn [pos seek_end]. rewrite Hbytes, len_app, Hpre. lia. }
  rewrite Hcur.
  pose proof (len_nonneg defs) as Hdl.
  destruct (Z.ltb_spec (len defs) 0) as [Hneg|_]; [lia|].
  pose proof appended_def_size as Hsz.
  pose proof (st_defs_len _ _ _ _ Hst2) as Hdefs_len.
  assert (Hfits' := Hfits). destruct Hfits' as (_ & _ & Hfd).
  rewrite map_app, defs_len_app in Hfd. simpl in Hfd.
  rewrite (u32_small (len defs)) by lia.
  rewrite (u32_small (len def)) by lia.
  rewrite write_record_end by reflexivity.
  assert (Hrec : record_at (defs ++ def_record def) (len defs) def)
    by apply record_at_end.
  cbn [do_dedup set_words].
  destruct (do_dedup s2) eqn:Hdd2.
  all: eexists; split; [reflexivity|].
  all: split;
    [|cbn [do_dedup reserved_words words_sect_size first_new_word
           set_file set_existing_defs set_words];
      rewrite ?Hdd2, <- ?R6, ?R1, ?R2, ?R4; auto].
  all: apply (stored_extend m dw defs s2 Hst2 _ w def (def_record def) (len defs) k);
    cbn [do_dedup reserved_words words_sect_size first_new_word words file bytes
         file_open_type existing_defs set_file set_existing_defs set_words seek_end];
    rewrite ?R8, ?R4; try assumption; try reflexivity; try discriminate.
  all: try (rewrite len_def_record; lia).
  - intros _. apply dedup_index_ok_push.
    + apply dedup_index_ok_mono. apply (st_dedup _ _ _ _ Hst2 Hdd2).
    + rewrite map_app. apply elem_of_app. right. left.
    + exact Hrec.
  - intros Hc. rewrite Hdd2 in Hc. discriminate.
Qed.

Lemma stored_append (s : dictionary_file) :
  stored m dw defs s →
  (do_dedup s = true → no_collision (map snd (m ++ [(w, def)]))) →
  ∃ s' x, append_word w def s = Ok s'
          ∧ stored (m ++ [(w, def)]) dw (defs ++ x) s'
          ∧ do_dedup s' = do_dedup s
          ∧ reserved_words s' = reserved_words s
          ∧ words_sect_size s' = words_sect_size s
          ∧ is_Some (first_new_word s').
Proof.
  intros Hst Hnc. unfold append_word.
  pose proof (stored_mark_new m dw defs s Hst) as Hst0.
  set (s0 := match first_new_word s with
             | Some _ => s
             | None => set_words (words s) (Some (length (words s))) s
             end) in *.
  assert (Hs0 : reserved_words s0 = reserved_words s
                ∧ words_sect_size s0 = words_sect_size s
                ∧ do_dedup s0 = do_dedup s
                ∧ ∃ k, first_new_word s0 = Some k).
  { unfold s0. destruct (first_new_word s) as [k|] eqn:E; repeat split; eauto. }
  destruct Hs0 as (A1 & A2 & A3 & k & A4).
  pose proof appended_def_size as Hsz.
  destruct (do_dedup s0) eqn:Hdd.
  - assert (Hnc' : no_collision (def :: map snd m)).
    { eapply no_collision_perm; [|apply Hnc; rewrite <- A3; reflexivity].
      rewrite map_app. simpl. symmetry. apply Permutation_cons_append. }
    destruct (get_existing_def_ind_stored m dw defs s0 Hst0 def Hdd Hsz Hnc')
      as (r & f & Hget & Hb & Hr).
    rewrite Hget, bind_Ok.
    assert (Hst1 : stored m dw defs (set_file f (file_open_type s0) s0)).
    { apply stored_set_file; [exact Hst0|exact Hb|apply (st_open _ _ _ _ Hst0)]. }
    destruct r as [c|].
    + exists (set_words
                (words (set_file f (file_open_type s0) s0) ++ [{| word := w; def_ind := c |}])
                (first_new_word (set_file f (file_open_type s0) s0))
                (set_file f (file_open_type s0) s0)), [].
      split; [reflexivity|].
      split; [|cbn; repeat split; rewrite ?A4; eauto; congruence].
      apply (stored_extend m dw defs _ Hst1 _ w def [] c k); try assumption;
        try reflexivity.
      * apply (st_open _ _ _ _ Hst1).
      * cbn. rewrite app_nil_r. reflexivity.
      * rewrite app_nil_r. apply Hr. reflexivity.
      * rewrite len_nil. lia.
      * intros _. cbn. apply dedup_index_ok_mono.
        apply (st_dedup _ _ _ _ Hst0 Hdd).
    + destruct (stored_write_def (set_file f (file_open_type s0) s0) k Hst1 A4)
        as (s' & Heq & Hst' & F1 & F2 & F3 & F4).
      exists s', (def_record def). split; [exact Heq|]. split; [exact Hst'|].
      rewrite F1, F2, F3, F4. cbn. repeat split; eauto; congruence.
  - rewrite bind_Ok.
    destruct (stored_write_def s0 k Hst0 A4) as (s' & Heq & Hst' & F1 & F2 & F3 & F4).
    exists s', (def_record def). split; [exact Heq|]. split; [exact Hst'|].
    rewrite F1, F2, F3, F4. repeat split; eauto; congruence.
Qed.

End Append.


(** ** Consecutive writes *)

Lemma write_nil (f : fstream) : write [] f = f.
Proof.
  apply stream_eq; [reflexivity|]. cbn [pos write]. rewrite len_nil. lia.
Qed.

Lemma overwrite_ne (l : list byte) (p : Z) (d : list byte) :
  d ≠ [] →
  overwrite l p d
  = (take (Z.to_nat p) l ++ replicate (Z.to_nat p - length l) x00)
      ++ d ++ drop (Z.to_nat p + length d) l.
Proof.
  intros Hd. destruct d as [|c d]; [contradiction|].
  unfold overwrite. rewrite <- app_assoc. reflexivity.
Qed.

Lemma write_write (f : fstream) (a b : list byte) :
  0 <= pos f → write b (write a f) = write (a ++ b) f.
Proof.
  intros Hpos. destruct (decide (a = [])) as [->|Ha].
  { rewrite write_nil. reflexivity. }
  destruct (decide (b = [])) as [->|Hb].
  { rewrite write_nil, app_nil_r. reflexivity. }
  apply stream_eq.
  2:{ cbn [pos write]. rewrite len_app. lia. }
  cbn [bytes pos write].
  rewrite (overwrite_ne _ _ a Ha), (overwrite_ne _ _ b Hb).
  rewrite (overwrite_ne _ _ (a ++ b)) by (destruct a; [contradiction|discriminate]).
  set (p := Z.to_nat (pos f)).
  replace (Z.to_nat (pos f + len a)) with (p + length a)%nat by (unfold p, len; lia).
  set (l := bytes f).
  set (P := take p l ++ replicate (p - length l) x00).
  assert (HP : length P = p).
  { unfold P. rewrite length_app, length_take, length_replicate. lia. }
  rewrite (app_assoc P a).
  rewrite take_app_length' by (rewrite length_app; lia).
  replace (p + length a - length ((P ++ a) ++ drop (p + length a) l))%nat
    with 0%nat by (rewrite !length_app; lia).
  rewrite drop_app_add' by (rewrite length_app; lia).
  rewrite drop_drop. simpl replicate. rewrite app_nil_r.
  rewrite <- !app_assoc. do 3 f_equal.
  rewrite length_app. f_equal. lia.
Qed.

Lemma write_pos_nonneg (f : fstream) (d : list byte) : 0 <= pos f → 0 <= pos (write d f).
Proof. intros H. rewrite write_pos. pose proof (len_nonneg d). lia. Qed.

(** A loop of [write_uint32_LE] is one write of the entries. *)
Lemma fold_write_uint32_LE {A} (g : A → Z) (l : list A) (f : fstream) :
  0 <= pos f →
  fold_left (fun f x => write_uint32_LE (g x) f) l f = write (index_entries (map g l)) f.
Proof.
  revert f. induction l as [|x l IH]; intros f Hpos.
  - simpl. rewrite write_nil. reflexivity.
  - simpl fold_left. rewrite IH by (apply write_pos_nonneg, Hpos).
    unfold write_uint32_LE. rewrite write_write by exact Hpos.
    rewrite map_cons, index_entries_cons. reflexivity.
Qed.

(** The loop of [flush] over the new words is one write of the packed
    words; the offsets it records are those of the packed words. *)
Lemma write_new_words_spec (ws : list word_info) (off : Z) (f : fstream) :
  0 <= pos f →
  write_new_words ws off f
  = (word_offsets (map word ws) off, write (words_bytes (map word ws)) f).
Proof.
  revert off f. induction ws as [|e ws IH]; intros off f Hpos.
  - simpl. rewrite write_nil. reflexivity.
  - simpl write_new_words. rewrite IH by (apply write_pos_nonneg, Hpos).
    rewrite write_write by exact Hpos.
    rewrite map_cons, words_bytes_cons, word_offsets_cons. reflexivity.
Qed.

(** The four bytes written depend on the low 32 bits only. *)
Lemma digit_u32 (x k : Z) :
  0 <= k <= 24 → ((x mod 2 ^ 32) / 2 ^ k) mod 256 = (x / 2 ^ k) mod 256.
Proof.
  intros Hk. rewrite (Z.mod_eq x (2 ^ 32)) by lia.
  assert (H32 : 2 ^ 32 = 2 ^ (24 - k) * 256 * 2 ^ k).
  { change 256 with (2 ^ 8). rewrite <- !Z.pow_add_r by lia. f_equal. lia. }
  set (q := x / 2 ^ 32).
  assert (E : x - 2 ^ 32 * q = x + (- q * 2 ^ (24 - k) * 256) * 2 ^ k)
    by (rewrite H32; ring).
  rewrite E, Z.div_add by (apply Z.pow_nonzero; lia).
  replace (- q * 2 ^ (24 - k) * 256) with ((- q * 2 ^ (24 - k)) * 256) by ring.
  rewrite Z_mod_plus_full. reflexivity.
Qed.

Lemma uint32_LE_u32 (x : Z) : uint32_LE (u32 x) = uint32_LE x.
Proof.
  unfold uint32_LE, u32.
  assert (D : ∀ k, 0 <= k <= 24 →
    byte_of (Z.land (Z.shiftr (x mod 2 ^ 32) k) 255) = byte_of (Z.land (Z.shiftr x k) 255)).
  { intros k Hk. apply byte_val_inj. rewrite !digit_val by lia. apply digit_u32; lia. }
  pose proof (D 0) as D0. rewrite !Z.shiftr_0_r in D0.
  rewrite D0, (D 8), (D 16), (D 24) by lia. reflexivity.
Qed.

Lemma index_entries_u32 {A} (g : A → Z) (l : list A) :
  index_entries (map (fun x => u32 (g x)) l) = index_entries (map g l).
Proof.
  induction l as [|x l IH]; [reflexivity|].
  rewrite !map_cons, !index_entries_cons, IH, uint32_LE_u32. reflexivity.
Qed.

Lemma map_succ_word_offsets (ks : list (list byte)) (off : Z) :
  map (fun i => i + 1) (word_offsets ks off) = word_offsets ks (off + 1).
Proof.
  revert off. induction ks as [|k ks IH]; intros off; [reflexivity|].
  rewrite !word_offsets_cons, map_cons, IH. do 2 f_equal. lia.
Qed.

Lemma keys_len_take_drop (k : nat) (ws : list word_info) :
  keys_len (map word ws)
  = keys_len (map word (take k ws)) + keys_len (map word (drop k ws)).
Proof. rewrite <- keys_len_app, <- map_app, take_drop. reflexivity. Qed.

(** ** The in-place path of [flush] on a laid-out file *)

Lemma flush_in_place_layout (s : dictionary_file) (k : nat) (dw : list word_info)
    (defs : list byte) :
  bytes (file s) = layout (reserved_words s) (words_sect_size s) dw defs →
  0 <= reserved_words s → reserved_words s * 8 < 2 ^ 32 →
  length dw = k → (k <= length (words s))%nat →
  keys_len (map word (take k (words s))) = keys_len (map word dw) →
  len (words s) <= reserved_words s →
  keys_len (map word (words s)) <= words_sect_size s →
  bytes (flush_in_place k s)
  = layout (reserved_words s) (words_sect_size s) (dw ++ drop k (words s)) defs.
Proof.
  intros Hfile Hrw0 Hrw Hk Hkle Hkeys Hroom Hwss.
  unfold flush_in_place.
  rewrite total_len_keys, Z.add_0_l, Hkeys.
  pose proof (keys_len_take_drop k (words s)) as Hsplit. rewrite Hkeys in Hsplit.
  set (rw := reserved_words s) in *. set (wss := words_sect_size s) in *.
  set (tl := drop k (words s)) in *.
  set (L := keys_len (map word dw)) in *.
  set (Lt := keys_len (map word tl)) in *.
  assert (HL : 0 <= L) by apply keys_len_nonneg.
  assert (HLt : 0 <= Lt) by apply keys_len_nonneg.
  assert (Hn : len dw = Z.of_nat k) by (unfold len; lia).
  assert (Ht : len tl = len (words s) - Z.of_nat k).
  { unfold tl, len. rewrite length_drop. lia. }
  assert (Hwso : words_section_offset rw = 19 + 8 * rw).
  { unfold words_section_offset. rewrite u32_small by lia.
    change inds_section_offset with 19. lia. }
  rewrite Hwso. change inds_section_offset with 19.
  rewrite write_new_words_spec by (cbn [pos seek]; lia).
  cbv iota beta.
  rewrite !fold_write_uint32_LE by (cbn [pos seek]; lia).
  rewrite !index_entries_u32.
  unfold write_uint32_LE. rewrite uint32_LE_u32.
  (* the pieces of the file *)
  unfold layout, header, index_table, words_section in Hfile |- *.
  rewrite !map_app, word_offsets_app, !map_app, !index_entries_app, words_bytes_app.
  rewrite keys_len_app, !len_app, ?len_map, ?len_word_offsets, ?len_map.
  fold L Lt. rewrite Z.add_0_l.
  rewrite len_word_offsets, !len_map in Hfile. fold L in Hfile.
  set (t := len tl) in *.
  set (H0 := magic_bytes ++ uint32_LE rw ++ uint32_LE wss).
  assert (HH0 : len H0 = 15).
  { unfold H0. rewrite !len_app, !len_uint32_LE. reflexivity. }
  set (WTa := index_entries (map (fun i => i + 1) (word_offsets (map word dw) 0))) in *.
  set (DTa := index_entries (map (fun i => i + 1) (map def_ind dw))) in *.
  set (WSa := words_bytes (map word dw)) in *.
  set (WTn := index_entries (map (fun i => i + 1) (word_offsets (map word tl) L))).
  set (DTn := index_entries (map (fun i => i + 1) (map def_ind tl))).
  set (WSn := words_bytes (map word tl)).
  assert (HWTa : len WTa = 4 * Z.of_nat k).
  { unfold WTa. rewrite len_index_entries, len_map, len_word_offsets, len_map. lia. }
  assert (HDTa : len DTa = 4 * Z.of_nat k).
  { unfold DTa. rewrite len_index_entries, !len_map. lia. }
  assert (HWSa : len WSa = L) by apply len_words_bytes.
  assert (HWTn : len WTn = 4 * t).
  { unfold WTn. rewrite len_index_entries, len_map, len_word_offsets, len_map. reflexivity. }
  assert (HDTn : len DTn = 4 * t).
  { unfold DTn. rewrite len_index_entries, !len_map. reflexivity. }
  assert (HWSn : len WSn = Lt) by apply len_words_bytes.
  assert (Ht0 : 0 <= t) by apply len_nonneg.
  set (Z4 := zeros (4 * t)).
  set (ZT := zeros ((rw - (len dw + t)) * 4)).
  set (ZS := zeros (wss - (L + Lt))).
  assert (Hz1 : zeros ((rw - len dw) * 4) = Z4 ++ ZT).
  { unfold Z4, ZT. rewrite <- zeros_add by lia. f_equal. lia. }
  assert (Hz2 : zeros (wss - L) = zeros Lt ++ ZS).
  { unfold ZS. rewrite <- zeros_add by lia. f_equal. lia. }
  rewrite Hz1, Hz2 in Hfile.
  assert (HZ4 : len Z4 = 4 * t) by (unfold Z4; rewrite len_zeros; lia).
  assert (HZT : len ZT = 4 * (rw - Z.of_nat k - t)) by (unfold ZT; rewrite len_zeros; lia).
  assert (HZL : len (zeros Lt) = Lt) by (rewrite len_zeros; lia).
  (* the number of words *)
  rewrite (write_at (seek (19 - 4) (file s)) H0 (uint32_LE (len dw))
             ((WTa ++ Z4 ++ ZT) ++ (DTa ++ Z4 ++ ZT) ++ (WSa ++ zeros Lt ++ ZS) ++ defs)
             (uint32_LE (len (words s)))).
  2:{ cbn [bytes seek]. rewrite Hfile. unfold H0. rewrite <- !app_assoc. reflexivity. }
  2:{ cbn [pos seek]. lia. }
  2:{ rewrite !length_uint32_LE. reflexivity. }
  (* the new words *)
  unfold seek; cbn [bytes pos].
  rewrite (write_at _ (H0 ++ uint32_LE (len (words s)) ++ (WTa ++ Z4 ++ ZT)
                        ++ (DTa ++ Z4 ++ ZT) ++ WSa) (zeros Lt) (ZS ++ defs) WSn).
  2:{ cbn [bytes]. rewrite <- !app_assoc. reflexivity. }
  2:{ cbn [pos]. rewrite ?len_app, len_uint32_LE. lia. }
  2:{ unfold len in *; lia. }
  (* their word indices *)
  unfold seek; cbn [bytes pos].
  fold WTn.
  rewrite (write_at _ (H0 ++ uint32_LE (len (words s)) ++ WTa) Z4
             (ZT ++ (DTa ++ Z4 ++ ZT) ++ WSa ++ WSn ++ ZS ++ defs) WTn).
  2:{ cbn [bytes]. rewrite <- !app_assoc. reflexivity. }
  2:{ cbn [pos]. rewrite ?len_app, len_uint32_LE. lia. }
  2:{ unfold len in *; lia. }
  (* their def indices *)
  unfold seek; cbn [bytes pos].
  replace (map (fun e => def_ind e + 1) tl) with (map (fun i => i + 1) (map def_ind tl))
    by (rewrite map_map; reflexivity).
  fold DTn.
  rewrite (write_at _ (H0 ++ uint32_LE (len (words s)) ++ (WTa ++ WTn ++ ZT) ++ DTa) Z4
             (ZT ++ WSa ++ WSn ++ ZS ++ defs) DTn).
  2:{ cbn [bytes]. rewrite <- !app_assoc. reflexivity. }
  2:{ cbn [pos]. rewrite ?len_app, len_uint32_LE. lia. }
  2:{ unfold len in *; lia. }
  cbn [bytes].
  replace (len dw + t) with (len (words s)) by lia.
  unfold H0. rewrite <- !app_assoc. reflexivity.
Qed.


(** ** Sorting the index of distinct keys *)

Lemma word_ltb_asym (a b : word_info) : word_ltb a b = true → word_ltb b a = false.
Proof. apply key_ltb_asym. Qed.

Lemma word_le_trans (a b c : word_info) :
  word_ltb b a = false → word_ltb c b = false → word_ltb c a = false.
Proof. unfold word_ltb. apply key_le_trans. Qed.

Lemma strongly_is_sorted (v : list word_info) :
  StronglySorted word_le v → is_sorted v = true.
Proof.
  induction 1 as [|a v Hs IH Ha]; [reflexivity|].
  destruct v as [|b v]; [reflexivity|].
  change (negb (word_ltb b a) && is_sorted (b :: v) = true).
  rewrite IH, andb_true_r. inversion Ha as [|? ? Hab _]; subst.
  unfold word_le in Hab. rewrite Hab. reflexivity.
Qed.

Lemma adjacent_find_distinct (l : list word_info) :
  NoDup (map word l) → adjacent_find word_eqb l = false.
Proof.
  intros Hnd. destruct (adjacent_find word_eqb l) eqn:E; [|reflexivity].
  apply adjacent_find_true in E as (l1 & a & b & l2 & -> & Hab).
  apply bytes_eqb_eq in Hab.
  rewrite map_app, !map_cons in Hnd. apply NoDup_app in Hnd as (_ & _ & Hnd).
  apply NoDup_cons in Hnd as [Hnd _]. exfalso. apply Hnd. rewrite Hab. left.
Qed.

Lemma sort_words_ok (k : nat) (s : dictionary_file) :
  NoDup (map word (words s)) → is_sorted (take k (words s)) = true →
  ∃ ws, sort_words k s = Ok (set_words ws None s)
        ∧ ws ≡ₚ words s ∧ is_sorted ws = true.
Proof.
  intros Hnd Hs. unfold sort_words.
  rewrite adjacent_find_distinct.
  2:{ rewrite (sort_by_perm word_ltb).
      rewrite <- (take_drop k (words s)), map_app in Hnd.
      apply NoDup_app in Hnd as (_ & _ & Hnd). exact Hnd. }
  eexists. split; [reflexivity|]. split.
  - rewrite merge_by_perm, sort_by_perm, take_drop. reflexivity.
  - apply strongly_is_sorted.
    apply (merge_by_sorted word_ltb word_ltb_asym word_le_trans).
    + apply is_sorted_strongly, Hs.
    + apply (sort_by_sorted word_ltb word_ltb_asym word_le_trans).
Qed.

(** A state with the same fields, up to the stream position, stores the
    same. *)
Lemma stored_fields (m : list (list byte * list byte)) (dw : list word_info)
    (defs : list byte) (s s' : dictionary_file) :
  stored m dw defs s →
  file_open_type s' ≠ no_file →
  reserved_words s' = reserved_words s →
  words_sect_size s' = words_sect_size s →
  words s' = words s →
  first_new_word s' = first_new_word s →
  bytes (file s') = bytes (file s) →
  existing_defs s' = existing_defs s →
  do_dedup s' = do_dedup s →
  stored m dw defs s'.
Proof.
  intros [] Ho Hrw Hwss Hw Hf Hb He Hd.
  constructor; rewrite ?Hrw, ?Hwss, ?Hw, ?Hf, ?Hb, ?He, ?Hd; assumption.
Qed.

Section FlushPaths.

Variable uninitialized : bool → Z → list byte.

(** [flush] with new words in the index. *)
Lemma flush_some (s : dictionary_file) (k : nat) :
  file_open_type s ≠ no_file → first_new_word s = Some k →
  flush uninitialized s =
  (wss ← double_until 32 (words_sect_size s) (keys_len (map word (words s)));
   let s1 := set_sizes (reserved_words s) wss (open_in_out s) in
   if negb (wss =? words_sect_size s) || (reserved_words s <? len (words s)) then
     s2 ← sort_words k s1;
     rw ← double_until 32 (reserved_words s2) (len (words s2));
     s3 ← rewrite_file uninitialized (reserved_words s2) (words_sect_size s)
            (set_sizes rw wss s2);
     Ok (true, s3)
   else
     s2 ← sort_words k (set_file (flush_in_place k s1) (file_open_type s1) s1);
     Ok (true, open_in s2)).
Proof.
  intros Hopen Hfnw. unfold flush. rewrite Hfnw.
  destruct (reopen_as_fields read_write s) as (R1 & R2 & R3 & _).
  assert (Htotal : total_len (drop k (words (open_in_out s)))
                     (total_len (take k (words (open_in_out s))) 0)
                   = keys_len (map word (words s))).
  { unfold open_in_out. rewrite R3, !total_len_keys, Z.add_0_l, <- keys_len_app,
      <- map_app, take_drop. reflexivity. }
  unfold open_in_out in *.
  destruct (file_open_type s) eqn:E; [contradiction|..]; cbv zeta;
    rewrite Htotal, R2;
    (destruct (double_until 32 (words_sect_size s) (keys_len (map word (words s))))
       as [wss|e]; [|reflexivity]);
    rewrite !bind_Ok; cbn [reserved_words words_sect_size words set_sizes];
    rewrite ?R1, ?R3; reflexivity.
Qed.

Lemma double_until_ge (fuel : nat) (x bound : Z) :
  bound <= x → double_until fuel x bound = Ok x.
Proof.
  intros H. destruct fuel; simpl; (destruct (x <? bound) eqn:E; [lia|reflexivity]).
Qed.

(** The index and the file after the in-place writes and the sort. *)
Lemma stored_flushed_in_place (m : list (list byte * list byte)) (dw : list word_info)
    (defs : list byte) (s : dictionary_file) (k : nat) (ws : list word_info) :
  stored m dw defs s → first_new_word s = Some k →
  keys_len (map word (words s)) <= words_sect_size s →
  len (words s) <= reserved_words s →
  ws ≡ₚ words s → is_sorted ws = true →
  stored m (dw ++ drop k (words s)) defs
    (set_words ws None (set_file (flush_in_place k s) (file_open_type s) s)).
Proof.
  intros Hst Hfnw Hwss Hrw Hperm Hsorted.
  pose proof (stored_rw_bounds _ _ _ _ Hst) as [Hrw0 Hrw8].
  destruct Hst as [Ho Hrwk Hwssk Hkeysm Hnd Hnul Hne Hfits Hfile Hroom Hprefix Hdl Hrec Hdedup].
  rewrite Hfnw in Hprefix. destruct Hprefix as (Hdw & Hpre & Hk).
  assert (Hlen : length dw = k).
  { rewrite (Permutation_length Hdw), length_take. lia. }
  assert (Hkeys : keys_len (map word (take k (words s))) = keys_len (map word dw)).
  { apply keys_len_perm, Permutation_map. symmetry. exact Hdw. }
  constructor; cbn [file_open_type reserved_words words_sect_size words first_new_word
                    file existing_defs do_dedup set_words set_file]; try assumption.
  - rewrite Hperm. assumption.
  - apply flush_in_place_layout; try assumption; lia.
  - split.
    + rewrite len_app. unfold len in *. rewrite length_drop. lia.
    + rewrite map_app, keys_len_app, <- Hkeys, <- keys_len_take_drop. exact Hwss.
  - split; [|exact Hsorted].
    rewrite Hperm, Hdw, take_drop. reflexivity.
  - intros e He. apply Hrec. rewrite <- Hperm. exact He.
Qed.

(** [flush] when the new words fit: the file is updated in place. *)
Lemma stored_flush_fast (m : list (list byte * list byte)) (dw : list word_info)
    (defs : list byte) (s : dictionary_file) (k : nat) :
  stored m dw defs s → first_new_word s = Some k →
  keys_len (map word (words s)) <= words_sect_size s →
  len (words s) <= reserved_words s →
  ∃ s', flush uninitialized s = Ok (true, s')
        ∧ stored m (dw ++ drop k (words s)) defs s'
        ∧ first_new_word s' = None
        ∧ do_dedup s' = do_dedup s
        ∧ reserved_words s' = reserved_words s
        ∧ words_sect_size s' = words_sect_size s.
Proof.
  intros Hst Hfnw Hwss Hrw.
  rewrite (flush_some s k) by (apply Hst || exact Hfnw).
  rewrite double_until_ge by exact Hwss. rewrite bind_Ok. cbv zeta.
  rewrite Z.eqb_refl. replace (reserved_words s <? len (words s)) with false by lia.
  cbn [negb orb].
  destruct (reopen_as_fields read_write s) as (R1 & R2 & R3 & R4 & R5 & R6 & R7).
  set (s1 := set_sizes (reserved_words s) (words_sect_size s) (open_in_out s)).
  assert (Hst1 : stored m dw defs s1).
  { apply (stored_fields m dw defs (open_in_out s));
      [apply stored_reopen_as; [exact Hst|discriminate]|..]; try reflexivity.
    - apply (stored_reopen_as m dw defs s Hst read_write). discriminate.
    - cbn. symmetry. exact R1.
    - cbn. symmetry. exact R2. }
  assert (W1 : words s1 = words s) by exact R3.
  assert (F1 : first_new_word s1 = Some k) by (unfold s1; cbn; unfold open_in_out; congruence).
  destruct (sort_words_ok k (set_file (flush_in_place k s1) (file_open_type s1) s1))
    as (ws & Hsort & Hperm & Hsorted).
  { cbn [words set_file]. rewrite W1. apply (stored_NoDup_words _ _ _ _ Hst). }
  { cbn [words set_file]. pose proof (st_prefix _ _ _ _ Hst1) as Hp.
    rewrite F1 in Hp. apply Hp. }
  rewrite Hsort, bind_Ok. eexists. split; [reflexivity|].
  cbn [words set_file] in Hperm.
  assert (Hst2 : stored m (dw ++ drop k (words s1)) defs
            (set_words ws None (set_file (flush_in_place k s1) (file_open_type s1) s1))).
  { apply stored_flushed_in_place; try assumption.
    - rewrite W1. exact Hwss.
    - rewrite W1. exact Hrw. }
  rewrite W1 in Hst2.
  split; [apply stored_reopen_as; [exact Hst2|discriminate]|].
  destruct (reopen_as_fields read_only
              (set_words ws None (set_file (flush_in_place k s1) (file_open_type s1) s1)))
    as (O1 & O2 & O3 & O4 & O5 & O6 & O7).
  unfold open_in. rewrite O1, O2, O4, O6. cbn. unfold open_in_out. rewrite R6.
  repeat split.
Qed.

(** [flush] without new words. *)
Lemma stored_flush_none (m : list (list byte * list byte)) (dw : list word_info)
    (defs : list byte) (s : dictionary_file) :
  stored m dw defs s → first_new_word s = None →
  flush uninitialized s = Ok (false, open_in s) ∧ stored m dw defs (open_in s).
Proof.
  intros Hst Hfnw. split.
  - unfold flush. rewrite Hfnw. pose proof (st_open _ _ _ _ Hst) as Ho.
    destruct (file_open_type s); [contradiction|reflexivity..].
  - apply stored_reopen_as; [exact Hst|discriminate].
Qed.

End FlushPaths.

Lemma is_sorted_words (a b : list word_info) :
  map word a = map word b → is_sorted a = is_sorted b.
Proof.
  revert b. induction a as [|x a IH]; intros [|y b] H; try discriminate; [reflexivity|].
  injection H as Hxy H.
  destruct a as [|x' a]; destruct b as [|y' b]; try discriminate; [reflexivity|].
  change (negb (word_ltb x' x) && is_sorted (x' :: a)
          = negb (word_ltb y' y) && is_sorted (y' :: b)).
  rewrite (IH (y' :: b) H). injection H as Hxy' _.
  unfold word_ltb. rewrite Hxy, Hxy'. reflexivity.
Qed.


(** ** Reading a payload in batches *)

Lemma num_batches_ceil (size : Z) :
  0 < size < 2 ^ 32 → Z.of_nat (num_batches size) = (size + 4095) / 4096.
Proof.
  intros H. unfold num_batches, batch_size. rewrite u32_small by lia.
  replace (size + 4095) with (size - 1 + 1 * 4096) by lia.
  rewrite Z.div_add by lia.
  assert (0 <= (size - 1) / 4096) by (apply Z.div_pos; lia). lia.
Qed.

Lemma ceil_step (n : Z) : (n + 4095) / 4096 = (n - 4096 + 4095) / 4096 + 1.
Proof.
  replace (n + 4095) with (n - 4096 + 4095 + 1 * 4096) by lia.
  rewrite Z.div_add by lia. reflexivity.
Qed.

Lemma ceil_small (n : Z) : 0 < n <= 4096 → (n + 4095) / 4096 = 1.
Proof.
  intros H. replace (n + 4095) with (n - 1 + 1 * 4096) by lia.
  rewrite Z.div_add by lia. rewrite Z.div_small by lia. reflexivity.
Qed.

Lemma ceil_pos (n : Z) : 0 < n → 0 < (n + 4095) / 4096.
Proof.
  intros H. apply Z.div_str_pos. lia.
Qed.

Lemma ceil_zero (n : Z) : 0 <= n → (n + 4095) / 4096 = 0 → n = 0.
Proof.
  intros H0 H. destruct (Z.eq_dec n 0) as [E|E]; [exact E|].
  pose proof (ceil_pos n). lia.
Qed.

(** Batch [i] of a payload of which [rest] is still to be read. *)
Lemma read_def_batched_at (f : fstream) (P rest B : list byte) (i size start : Z) :
  bytes f = P ++ rest ++ B →
  len P = start + i * batch_size →
  len rest = size - i * batch_size →
  0 < len rest →
  read_def_batched i size start f
  = Ok ((take (Z.to_nat (Z.min (len rest) batch_size)) rest, Z.min (len rest) batch_size),
        {| bytes := bytes f; pos := len P + Z.min (len rest) batch_size |}).
Proof.
  intros Hb HP Hrest Hpos. unfold read_def_batched.
  rewrite <- Hrest, <- HP.
  set (r := Z.min (len rest) batch_size).
  assert (Hr : 0 < r <= len rest) by (unfold r, batch_size; lia).
  set (x := take (Z.to_nat r) rest).
  assert (Hx : len x = r).
  { unfold x, len. rewrite length_take. unfold len in Hr. lia. }
  rewrite <- Hx at 1.
  rewrite (read_at (seek (len P) f) P x (drop (Z.to_nat r) rest ++ B)).
  - rewrite bind_Ok. cbn [bytes seek]. rewrite Hx. reflexivity.
  - cbn [bytes seek]. rewrite Hb. unfold x.
    rewrite (app_assoc (take _ _)), take_drop. reflexivity.
  - reflexivity.
Qed.

Lemma hash_batches_payload (n : nat) :
  ∀ (f : fstream) (P rest B : list byte) (i size start h : Z),
  bytes f = P ++ rest ++ B →
  len P = start + i * batch_size →
  len rest = size - i * batch_size →
  Z.of_nat n = (len rest + 4095) / 4096 →
  ∃ f', hash_batches n i size start h f = Ok (fnv1a rest h, f') ∧ bytes f' = bytes f.
Proof.
  induction n as [|n IH]; intros f P rest B i size start h Hb HP Hrest Hn.
  - assert (E : len rest = 0) by (apply ceil_zero; [apply len_nonneg|lia]).
    destruct rest; [|unfold len in E; simpl in E; lia].
    exists f. split; reflexivity.
  - assert (Hpos : 0 < len rest).
    { destruct (Z.eq_dec (len rest) 0) as [E|E]; [rewrite E in Hn; change ((0 + 4095) / 4096) with 0 in Hn; lia|].
      pose proof (len_nonneg rest). lia. }
    cbn [hash_batches].
    rewrite (read_def_batched_at f P rest B i size start Hb HP Hrest Hpos), bind_Ok.
    destruct (Z_le_gt_dec (len rest) 4096) as [Hle|Hgt].
    + (* the last batch *)
      assert (n = 0%nat) by (rewrite ceil_small in Hn by lia; lia). subst n.
      unfold batch_size. rewrite Z.min_l by lia.
      unfold len at 1. rewrite Nat2Z.id, firstn_all.
      eexists. split; reflexivity.
    + unfold batch_size in *. rewrite Z.min_r by lia.
      set (x := take (Z.to_nat 4096) rest).
      assert (Hx : len x = 4096).
      { unfold x, len. rewrite length_take. unfold len in Hgt. lia. }
      destruct (IH {| bytes := bytes f; pos := len P + 4096 |} (P ++ x)
                  (drop (Z.to_nat 4096) rest) B (i + 1) size start (fnv1a x h))
        as (f' & Hh & Hb').
      * cbn [bytes]. rewrite Hb. unfold x.
        rewrite <- app_assoc, (app_assoc (take _ _)), take_drop. reflexivity.
      * rewrite len_app, Hx. lia.
      * unfold len. rewrite length_drop. unfold len in Hrest, Hgt. lia.
      * assert (Hd : len (drop (Z.to_nat 4096) rest) = len rest - 4096).
        { unfold len. rewrite length_drop. unfold len in Hgt. lia. }
        rewrite Hd. rewrite (ceil_step (len rest)) in Hn. lia.
      * exists f'. split; [|exact Hb'].
        rewrite Hh. rewrite <- fnv1a_app. unfold x. rewrite take_drop. reflexivity.
Qed.

Section HashRecord.

Variables (f : fstream) (A B v : list byte) (off d : Z).
Hypothesis Hbytes : bytes f = A ++ def_record v ++ B.
Hypothesis Hpos : off + d = len A.
Hypothesis Hsize : 0 < len v < 2 ^ 32.

Lemma hash_existing_def_at (expected : Z) :
  expected = 0 ∨ expected = len v →
  ∃ f', hash_existing_def d expected off f = Ok (Some (fnv1a v fnv_init), f')
        ∧ bytes f' = bytes f.
Proof.
  intros Hexp. unfold hash_existing_def.
  change (seek (off + d) f) with (seek (off + d) {| bytes := bytes f; pos := pos f |}).
  rewrite (record_size_at f A B v off d Hbytes Hpos Hsize), bind_Ok.
  destruct (Z.eqb_spec (len v) 0) as [H0|_]; [lia|].
  assert (Hskip : negb (expected =? 0) && negb (len v =? expected) = false).
  { destruct Hexp as [->| ->]; [reflexivity|].
    rewrite Z.eqb_refl, andb_false_r. reflexivity. }
  rewrite Hskip.
  destruct (hash_batches_payload (num_batches (len v))
              (ignore 8 {| bytes := bytes f; pos := len A + 4 |})
              (A ++ uint32_LE (len v) ++ uint64_LE (fnv1a v fnv_init)) v B
              0 (len v) (off + d + 12) fnv_init) as (f' & Hh & Hb).
  - cbn [bytes ignore]. rewrite Hbytes. unfold def_record. rewrite <- !app_assoc.
    reflexivity.
  - rewrite !len_app, len_uint32_LE, len_uint64_LE. lia.
  - lia.
  - apply num_batches_ceil, Hsize.
  - rewrite Hh, bind_Ok. exists f'. split; [reflexivity|exact Hb].
Qed.

Lemma hash_existing_def_other_size (expected : Z) :
  expected ≠ 0 → expected ≠ len v →
  hash_existing_def d expected off f
  = Ok (None, {| bytes := bytes f; pos := len A + 4 |}).
Proof.
  intros H0 Hne. unfold hash_existing_def.
  change (seek (off + d) f) with (seek (off + d) {| bytes := bytes f; pos := pos f |}).
  rewrite (record_size_at f A B v off d Hbytes Hpos Hsize), bind_Ok.
  destruct (Z.eqb_spec (len v) 0) as [E|_]; [lia|].
  destruct (Z.eqb_spec expected 0) as [E|_]; [contradiction|].
  destruct (Z.eqb_spec (len v) expected) as [E|_]; [congruence|].
  reflexivity.
Qed.

End HashRecord.


(** ** A fresh dictionary, and runs of insertions *)

Lemma fitsb_fits (m : list (list byte * list byte)) : fitsb m = true → fits m.
Proof.
  unfold fitsb, fits. intros H.
  apply andb_true_iff in H as [H H3]. apply andb_true_iff in H as [H1 H2].
  apply Z.leb_le in H1, H2. apply Z.ltb_lt in H3. auto.
Qed.

Lemma fits_prefix (m m' : list (list byte * list byte)) : fits (m ++ m') → fits m.
Proof.
  unfold fits. rewrite !map_app, len_app, keys_len_app, defs_len_app.
  pose proof (len_nonneg m'). pose proof (keys_len_nonneg (map fst m')).
  pose proof (defs_len_nonneg (map snd m')). lia.
Qed.

Lemma created_file_layout (deduplicate : bool) :
  bytes (file (fresh_dictionary deduplicate)) = layout 32 256 [] [].
Proof. destruct deduplicate; vm_compute; reflexivity. Qed.

Lemma stored_create (deduplicate : bool) :
  stored [] [] [] (fresh_dictionary deduplicate).
Proof.
  constructor.
  - destruct deduplicate; discriminate.
  - exists 5. split; [lia|]. destruct deduplicate; reflexivity.
  - exists 8. split; [lia|]. destruct deduplicate; reflexivity.
  - destruct deduplicate; reflexivity.
  - constructor.
  - constructor.
  - constructor.
  - unfold fits. repeat split; vm_compute; (reflexivity || discriminate).
  - rewrite created_file_layout. destruct deduplicate; reflexivity.
  - destruct deduplicate; split; vm_compute; discriminate.
  - destruct deduplicate; cbn; split; reflexivity.
  - vm_compute. discriminate.
  - destruct deduplicate; intros e He; inversion He.
  - intros _. destruct deduplicate; apply dedup_index_ok_empty.
Qed.

Lemma created_state (deduplicate check_defs : bool) :
  dictionary_file_at Missing true deduplicate check_defs = Ok (fresh_dictionary deduplicate).
Proof. reflexivity. Qed.

Section Insertions.

Variable uninitialized : bool → Z → list byte.

(** [add_word<false, _>] of a new word on a stored state. *)
Lemma stored_add (m : list (list byte * list byte)) (dw : list word_info)
    (defs : list byte) (s : dictionary_file) (skip_dup_check : bool) (w def : list byte) :
  stored m dw defs s →
  w ∉ map fst m → nul_free w = true → 0 < len def →
  fits (m ++ [(w, def)]) →
  (do_dedup s = true → no_collision (map snd (m ++ [(w, def)]))) →
  ∃ s' x, add_word uninitialized false skip_dup_check w def s = Ok (true, s')
          ∧ stored (m ++ [(w, def)]) dw (defs ++ x) s'
          ∧ do_dedup s' = do_dedup s
          ∧ reserved_words s' = reserved_words s
          ∧ words_sect_size s' = words_sect_size s
          ∧ is_Some (first_new_word s').
Proof.
  intros Hst Hw Hnul Hdef Hfits Hnc.
  rewrite add_word_unflushed by apply Hst.
  assert (Habs : find_def_ind s w = not_found).
  { apply find_def_ind_absent; [apply (stored_index_ok _ _ _ _ Hst)|].
    rewrite (st_keys _ _ _ _ Hst). exact Hw. }
  rewrite Habs, Z.eqb_refl. cbn [negb]. rewrite andb_false_r.
  destruct (stored_append m dw defs w def Hw Hnul Hdef Hfits s Hst Hnc)
    as (s' & x & Happ & Hst' & Hrest).
  exists s', x. rewrite Happ, bind_Ok. split; [reflexivity|]. split; [exact Hst'|exact Hrest].
Qed.

(** A run of insertions of new words on a stored state. *)
Lemma stored_inserts (dw : list word_info) (skip_dup_check : bool)
    (kvs : list (list byte * list byte)) :
  ∀ (m : list (list byte * list byte)) (defs : list byte) (s : dictionary_file),
  stored m dw defs s →
  NoDup (map fst (m ++ kvs)) →
  Forall (fun k => nul_free k = true) (map fst kvs) →
  Forall (fun v => 0 < len v) (map snd kvs) →
  fits (m ++ kvs) →
  (do_dedup s = true → no_collision (map snd (m ++ kvs))) →
  ∃ s' defs', run uninitialized (inserts skip_dup_check kvs) s = Ok s'
              ∧ stored (m ++ kvs) dw defs' s'
              ∧ do_dedup s' = do_dedup s
              ∧ reserved_words s' = reserved_words s
              ∧ words_sect_size s' = words_sect_size s
              ∧ (kvs ≠ [] → is_Some (first_new_word s')).
Proof.
  induction kvs as [|[w def] kvs IH]; intros m defs s Hst Hnd Hnul Hne Hfits Hnc.
  - exists s, defs. rewrite app_nil_r.
    split; [reflexivity|]. split; [exact Hst|].
    split; [reflexivity|]. split; [reflexivity|]. split; [reflexivity|].
    intros H. contradiction.
  - apply Forall_cons in Hnul as [Hw Hnul]. apply Forall_cons in Hne as [Hdef Hne].
    replace (m ++ (w, def) :: kvs) with ((m ++ [(w, def)]) ++ kvs) in *
      by (rewrite <- app_assoc; reflexivity).
    destruct (stored_add m dw defs s skip_dup_check w def Hst) as (s1 & x & Hadd & Hst1 & D1 & R1 & W1 & F1).
    + rewrite !map_app in Hnd. apply NoDup_app in Hnd as (Hnd & _ & _).
      apply NoDup_app in Hnd as (_ & Hdisj & _).
      intros Hin. apply (Hdisj w Hin). left.
    + exact Hw.
    + exact Hdef.
    + apply (fits_prefix _ kvs), Hfits.
    + intros Hdd. eapply no_collision_sub; [|apply Hnc, Hdd].
      intros v Hv. rewrite map_app. apply elem_of_app. left. exact Hv.
    + destruct (IH (m ++ [(w, def)]) (defs ++ x) s1 Hst1 Hnd Hnul Hne Hfits)
        as (s' & defs' & Hrun & Hst' & D2 & R2 & W2 & F2).
      { rewrite D1. exact Hnc. }
      exists s', defs'. split.
      { cbn [inserts map run step]. cbn [fst snd]. rewrite Hadd, !bind_Ok. exact Hrun. }
      split; [exact Hst'|].
      split; [congruence|]. split; [congruence|]. split; [congruence|].
      intros _. destruct kvs as [|kv kvs]; [|apply F2; discriminate].
      cbn [inserts map run] in Hrun. injection Hrun as <-. exact F1.
Qed.

End Insertions.

(** The checks of [valid_pairs], as propositions. *)
Lemma valid_pairs_spec (kvs : list (list byte * list byte)) :
  valid_pairs kvs = true →
  NoDup (map fst kvs)
  ∧ Forall (fun k => nul_free k = true) (map fst kvs)
  ∧ Forall (fun v => 0 < len v) (map snd kvs)
  ∧ fits kvs.
Proof.
  unfold valid_pairs. intros H.
  apply andb_true_iff in H as [H H4]. apply andb_true_iff in H as [H H3].
  apply andb_true_iff in H as [H1 H2].
  split; [apply distinct_NoDup, H1|].
  split; [rewrite Forall_forall; intros k Hk; rewrite forallb_forall in H2;
          apply H2, list_elem_of_In, Hk|].
  split; [|apply fitsb_fits, H4].
  rewrite Forall_forall. intros v Hv. rewrite forallb_forall in H3.
  apply list_elem_of_In in Hv. specialize (H3 v Hv). apply Z.ltb_lt in H3. exact H3.
Qed.


(** ** Loading a laid-out file: the index tables *)

Lemma read_inds_entries (raw : list Z) :
  ∀ (f : fstream) (P R : list byte),
  Forall (fun i => 0 <= i < 2 ^ 32) raw →
  bytes f = P ++ index_entries raw ++ R → pos f = len P →
  read_inds (length raw) f
  = Ok (decode_inds raw, {| bytes := bytes f; pos := len P + 4 * len raw |}).
Proof.
  induction raw as [|i raw IH]; intros f P R Hraw Hb Hp.
  - cbn [read_inds length decode_inds omap list_omap]. change (len (@nil Z)) with 0. rewrite Z.mul_0_r, Z.add_0_r, <- Hp.
    destruct f; reflexivity.
  - apply Forall_cons in Hraw as [Hi Hraw].
    cbn [read_inds length].
    rewrite index_entries_cons, <- app_assoc in Hb.
    rewrite (read_uint32_LE_at f P (index_entries raw ++ R) i Hb Hp Hi), bind_Ok.
    rewrite (IH {| bytes := bytes f; pos := len P + 4 |} (P ++ uint32_LE i) R Hraw).
    + rewrite bind_Ok. cbn [bytes]. rewrite len_app, len_uint32_LE, len_cons.
      replace (len P + 4 + 4 * len raw) with (len P + 4 * (1 + len raw)) by lia.
      unfold decode_inds. cbn [omap list_omap]. destruct (i =? 0); reflexivity.
    + cbn [bytes]. rewrite Hb, <- app_assoc. reflexivity.
    + cbn [pos]. rewrite len_app, len_uint32_LE. reflexivity.
Qed.

Lemma index_entries_zeros (k : nat) :
  index_entries (replicate k 0) = zeros (4 * Z.of_nat k).
Proof.
  induction k as [|k IH]; [reflexivity|].
  cbn [replicate]. rewrite index_entries_cons, IH.
  replace (4 * Z.of_nat (S k)) with (4 + 4 * Z.of_nat k) by lia.
  rewrite zeros_add by lia. reflexivity.
Qed.

Lemma decode_inds_table (inds : list Z) (k : nat) :
  Forall (fun i => 0 <= i < 2 ^ 32 - 1) inds →
  decode_inds (map (fun i => i + 1) inds ++ replicate k 0) = inds.
Proof.
  intros H. unfold decode_inds. rewrite omap_app.
  assert (Hz : omap (fun i => if i =? 0 then None else Some (u32 (i - 1))) (replicate k 0)
               = []).
  { induction k as [|k IH]; [reflexivity|]. cbn [replicate omap list_omap]. exact IH. }
  rewrite Hz, app_nil_r.
  induction H as [|i inds Hi H IH]; [reflexivity|].
  cbn [map omap list_omap]. destruct (Z.eqb_spec (i + 1) 0) as [E|_]; [lia|].
  cbn. rewrite IH. replace (i + 1 - 1) with i by lia. rewrite u32_small by lia.
  reflexivity.
Qed.

(** Reading the [rw] slots of an index table gives back its entries. *)
Lemma read_inds_table (rw : Z) (inds : list Z) (f : fstream) (P R : list byte) :
  Forall (fun i => 0 <= i < 2 ^ 32 - 1) inds →
  len inds <= rw →
  bytes f = P ++ index_table rw inds ++ R → pos f = len P →
  read_inds (Z.to_nat rw) f = Ok (inds, {| bytes := bytes f; pos := len P + 4 * rw |}).
Proof.
  intros Hinds Hlen Hb Hp.
  set (k := Z.to_nat (rw - len inds)).
  set (raw := map (fun i => i + 1) inds ++ replicate k 0).
  assert (Hraw_len : length raw = Z.to_nat rw).
  { unfold raw, k. rewrite length_app, length_map, length_replicate. unfold len in *. lia. }
  assert (Hraw : index_entries raw = index_table rw inds).
  { unfold raw, index_table. rewrite index_entries_app, index_entries_zeros.
    unfold k. do 2 f_equal. pose proof (len_nonneg inds). lia. }
  rewrite <- Hraw_len.
  rewrite (read_inds_entries raw f P R).
  - unfold raw at 1. rewrite decode_inds_table by exact Hinds.
    do 3 f_equal. unfold len at 2. rewrite Hraw_len. pose proof (len_nonneg inds). lia.
  - unfold raw. apply Forall_app. split.
    + rewrite Forall_map. eapply Forall_impl; [exact Hinds|]. cbn. intros; lia.
    + apply Forall_replicate. lia.
  - rewrite Hraw. exact Hb.
  - exact Hp.
Qed.

Lemma word_offsets_range (ks : list (list byte)) (off : Z) :
  Forall (fun i => off <= i < off + keys_len ks) (word_offsets ks off).
Proof.
  revert off. induction ks as [|k ks IH]; intros off; [constructor|].
  rewrite word_offsets_cons, keys_len_cons.
  pose proof (len_nonneg k). pose proof (keys_len_nonneg ks).
  constructor; [lia|].
  eapply Forall_impl; [apply IH|]. cbn. intros i Hi. lia.
Qed.

Lemma keys_len_count (ks : list (list byte)) : len ks <= keys_len ks.
Proof.
  induction ks as [|k ks IH]; [reflexivity|].
  rewrite keys_len_cons, len_cons. pose proof (len_nonneg k). lia.
Qed.

(** The header and the two index tables of a laid-out file. *)
Lemma read_tables_layout (rw wss : Z) (dw : list word_info) (defs : list byte) :
  0 < rw → rw * 8 < 2 ^ 32 → 0 < wss < 2 ^ 32 →
  len dw <= rw → keys_len (map word dw) <= wss →
  Forall (fun e => 0 <= def_ind e < 2 ^ 32 - 1) dw →
  read_tables (layout rw wss dw defs)
  = Ok (rw, wss, word_offsets (map word dw) 0, map def_ind dw,
        {| bytes := layout rw wss dw defs; pos := 19 + 8 * rw |}).
Proof.
  intros Hrw0 Hrw8 Hwss Hn HL Hdinds. unfold read_tables.
  set (contents := layout rw wss dw defs).
  set (WT := index_table rw (word_offsets (map word dw) 0)).
  set (DT := index_table rw (map def_ind dw)).
  set (WS := words_section wss (map word dw)).
  assert (Hc : contents
               = magic_bytes ++ uint32_LE rw ++ uint32_LE wss ++ uint32_LE (len dw)
                 ++ WT ++ DT ++ WS ++ defs).
  { unfold contents, layout, header. rewrite <- !app_assoc. reflexivity. }
  assert (HWT : len WT = 4 * rw).
  { unfold WT. apply len_index_table. rewrite len_word_offsets, len_map. exact Hn. }
  assert (HDT : len DT = 4 * rw).
  { unfold DT. apply len_index_table. rewrite len_map. exact Hn. }
  assert (HWS : len WS = wss) by (apply len_words_section, HL).
  pose proof (len_nonneg dw) as Hn0. pose proof (len_nonneg defs) as Hd0.
  pose proof (keys_len_count (map word dw)) as Hcount. rewrite len_map in Hcount.
  assert (Hsize : len contents = 19 + 8 * rw + wss + len defs).
  { rewrite Hc, !len_app, !len_uint32_LE, HWT, HDT, HWS. change (len magic_bytes) with 7.
    lia. }
  (* the magic bytes *)
  rewrite (read_at {| bytes := contents; pos := 0 |} [] magic_bytes
             (uint32_LE rw ++ uint32_LE wss ++ uint32_LE (len dw)
              ++ WT ++ DT ++ WS ++ defs)); [|exact Hc|reflexivity].
  rewrite bind_Ok, bytes_eqb_refl. cbn [negb bytes].
  (* the three numbers *)
  rewrite (read_uint32_LE_at _ magic_bytes
             (uint32_LE wss ++ uint32_LE (len dw) ++ WT ++ DT ++ WS ++ defs) rw);
    [|exact Hc|reflexivity|lia].
  rewrite bind_Ok. destruct (Z.eqb_spec rw 0) as [E|_]; [lia|]. cbn [bytes].
  rewrite (read_uint32_LE_at _ (magic_bytes ++ uint32_LE rw)
             (uint32_LE (len dw) ++ WT ++ DT ++ WS ++ defs) wss);
    [|cbn [bytes]; rewrite Hc, <- !app_assoc; reflexivity
     |cbn [pos]; rewrite len_app, len_uint32_LE; reflexivity|lia].
  rewrite bind_Ok. destruct (Z.eqb_spec wss 0) as [E|_]; [lia|]. cbn [bytes].
  rewrite (read_uint32_LE_at _ (magic_bytes ++ uint32_LE rw ++ uint32_LE wss)
             (WT ++ DT ++ WS ++ defs) (len dw));
    [|cbn [bytes]; rewrite Hc, <- !app_assoc; reflexivity
     |cbn [pos]; rewrite !len_app, !len_uint32_LE; reflexivity|lia].
  rewrite bind_Ok. cbn [bytes].
  replace (len dw >? rw) with false by lia.
  replace (rw * 8 + len dw >? len contents) with false by lia.
  (* the tables *)
  rewrite (read_inds_table rw (word_offsets (map word dw) 0) _
             (magic_bytes ++ uint32_LE rw ++ uint32_LE wss ++ uint32_LE (len dw))
             (DT ++ WS ++ defs)).
  2:{ eapply Forall_impl; [apply word_offsets_range|]. cbn. intros i Hi. lia. }
  2:{ rewrite len_word_offsets, len_map. exact Hn. }
  2:{ cbn [bytes]. rewrite Hc, <- !app_assoc. reflexivity. }
  2:{ cbn [pos]. rewrite !len_app, !len_uint32_LE. reflexivity. }
  rewrite bind_Ok. cbn [bytes].
  rewrite (read_inds_table rw (map def_ind dw) _
             (magic_bytes ++ uint32_LE rw ++ uint32_LE wss ++ uint32_LE (len dw) ++ WT)
             (WS ++ defs)).
  2:{ rewrite Forall_map. exact Hdinds. }
  2:{ rewrite len_map. exact Hn. }
  2:{ cbn [bytes]. rewrite Hc, <- !app_assoc. reflexivity. }
  2:{ cbn [pos]. rewrite !len_app, !len_uint32_LE, HWT. change (len magic_bytes) with 7. lia. }
  rewrite bind_Ok. cbn [bytes].
  rewrite len_word_offsets, !len_map, Z.eqb_refl. cbn [negb orb].
  do 3 f_equal. rewrite !len_app, !len_uint32_LE, HWT. change (len magic_bytes) with 7. lia.
Qed.

(** ** Loading a laid-out file: the words *)

Lemma read_chars_key (k R : list byte) (limit : Z) :
  nul_free k = true → len k < limit →
  read_chars (k ++ x00 :: R) limit = Ok k.
Proof.
  revert limit. induction k as [|c k IH]; intros limit Hnul Hlim.
  - cbn [app read_chars]. change (len (@nil byte)) with 0 in Hlim.
    destruct (Z.leb_spec limit 0) as [E|_]; [lia|]. reflexivity.
  - rewrite len_cons in Hlim. pose proof (len_nonneg k).
    cbn [nul_free forallb] in Hnul. apply andb_true_iff in Hnul as [Hc Hnul].
    apply negb_true_iff in Hc.
    cbn [app read_chars].
    destruct (Z.leb_spec limit 0) as [E|_]; [lia|]. rewrite Hc.
    rewrite (IH (limit - 1) Hnul) by lia. reflexivity.
Qed.

Lemma read_words_layout (wso wss : Z) (f : fstream) (R : list byte) (dw : list word_info) :
  ∀ (off : Z) (P : list byte),
  bytes f = P ++ words_bytes (map word dw) ++ R →
  len P = wso + off → 0 <= off →
  off + keys_len (map word dw) <= wss → wss < 2 ^ 32 →
  Forall (fun k => nul_free k = true) (map word dw) →
  read_words (zip (word_offsets (map word dw) off) (map def_ind dw)) wso wss f = Ok dw.
Proof.
  induction dw as [|e dw IH]; intros off P Hb HP Hoff Hfit Hwss Hnul; [reflexivity|].
  rewrite !map_cons in *. apply Forall_cons in Hnul as [Hk Hnul].
  rewrite word_offsets_cons. rewrite keys_len_cons in Hfit.
  rewrite words_bytes_cons, <- !app_assoc in Hb.
  pose proof (len_nonneg (word e)). pose proof (keys_len_nonneg (map word dw)).
  cbn [zip zip_with read_words].
  assert (Hdrop : drop (Z.to_nat (wso + off)) (bytes f)
                  = word e ++ x00 :: (words_bytes (map word dw) ++ R)).
  { rewrite Hb, <- HP. unfold len. rewrite Nat2Z.id, drop_app_length. reflexivity. }
  rewrite Hdrop, u32_small by lia.
  rewrite read_chars_key by (exact Hk || lia). rewrite bind_Ok.
  rewrite (IH (off + (len (word e) + 1)) (P ++ word e ++ [x00])).
  - rewrite bind_Ok. destruct e; reflexivity.
  - rewrite Hb, <- !app_assoc. reflexivity.
  - rewrite !len_app. change (len [x00]) with 1. lia.
  - lia.
  - lia.
  - exact Hwss.
  - exact Hnul.
Qed.

Lemma zip_offsets_sorted (ks : list (list byte)) :
  ∀ (off : Z) (ds : list Z),
  StronglySorted (fun a b : Z * Z => (a.1 <? b.1) = true) (zip (word_offsets ks off) ds).
Proof.
  induction ks as [|k ks IH]; intros off ds; [constructor|].
  rewrite word_offsets_cons. destruct ds as [|d ds]; [constructor|].
  cbn [zip zip_with]. constructor; [apply IH|].
  pose proof (word_offsets_range ks (off + (len k + 1))) as Hr.
  pose proof (len_nonneg k).
  rewrite Forall_forall. intros [i d'] Hin. cbn [fst].
  assert (Hi : i ∈ word_offsets ks (off + (len k + 1))) by (eapply elem_of_zip_l, Hin).
  rewrite Forall_forall in Hr. specialize (Hr i Hi). cbn in Hr. lia.
Qed.

Lemma strongly_sorted_impl {A} (R1 R2 : A → A → Prop) (l : list A) :
  (∀ a b, R1 a b → R2 a b) → StronglySorted R1 l → StronglySorted R2 l.
Proof.
  intros Himp. induction 1 as [|a l Hs IH Ha]; constructor; [exact IH|].
  eapply Forall_impl; [exact Ha|]. intros b. apply Himp.
Qed.

Lemma strict_sorted_no_adjacent (v : list (Z * Z)) :
  StronglySorted (fun a b : Z * Z => (a.1 <? b.1) = true) v →
  adjacent_find (fun a b : Z * Z => a.1 =? b.1) v = false.
Proof.
  induction 1 as [|a v Hs IH Ha]; [reflexivity|].
  destruct v as [|b v]; [reflexivity|].
  change ((a.1 =? b.1) || adjacent_find (fun a b : Z * Z => a.1 =? b.1) (b :: v) = false).
  rewrite IH, orb_false_r.
  inversion Ha as [|? ? Hab _]; subst. lia.
Qed.

(** The offsets of a laid-out file are in order already. *)
Lemma sort_zipped_offsets (ks : list (list byte)) (ds : list Z) :
  sort_and_find_dup_zipped (word_offsets ks 0) ds = (false, zip (word_offsets ks 0) ds).
Proof.
  unfold sort_and_find_dup_zipped.
  pose proof (zip_offsets_sorted ks 0 ds) as Hs.
  rewrite sort_by_id.
  - rewrite strict_sorted_no_adjacent by exact Hs. reflexivity.
  - eapply strongly_sorted_impl; [|exact Hs]. cbn. intros a b Hab. lia.
Qed.

Lemma read_file_layout (s : dictionary_file) (rw wss : Z) (dw : list word_info)
    (defs : list byte) :
  bytes (file s) = layout rw wss dw defs →
  0 < rw → rw * 8 < 2 ^ 32 → 0 < wss < 2 ^ 32 →
  len dw <= rw → keys_len (map word dw) <= wss →
  Forall (fun e => 0 <= def_ind e < 2 ^ 32 - 1) dw →
  Forall (fun k => nul_free k = true) (map word dw) →
  NoDup (map word dw) →
  read_file s
  = Ok (set_words (sort_by word_ltb dw) (first_new_word s)
          (set_sizes rw wss
             (set_file {| bytes := layout rw wss dw defs; pos := 19 + 8 * rw |}
                (file_open_type s) s))).
Proof.
  intros Hb Hrw0 Hrw8 Hwss Hn HL Hdinds Hnul Hnd.
  rewrite read_file_stages, Hb.
  rewrite read_tables_layout by assumption. rewrite bind_Ok.
  rewrite sort_zipped_offsets. cbn [fst snd].
  unfold read_sorted_words. rewrite sort_zipped_offsets. cbn [snd].
  assert (Hwso : words_section_offset rw = 19 + 8 * rw).
  { unfold words_section_offset. rewrite u32_small by lia.
    change inds_section_offset with 19. lia. }
  rewrite (read_words_layout (words_section_offset rw) wss _
             (zeros (wss - keys_len (map word dw)) ++ defs) dw 0
             (header rw wss (len dw) ++ index_table rw (word_offsets (map word dw) 0)
              ++ index_table rw (map def_ind dw))).
  - rewrite bind_Ok. unfold sort_and_find_dup.
    rewrite adjacent_find_distinct; [reflexivity|].
    rewrite (sort_by_perm word_ltb). exact Hnd.
  - cbn [bytes]. unfold layout, words_section. rewrite <- !app_assoc. reflexivity.
  - rewrite !len_app, len_header, !len_index_table, Hwso;
      rewrite ?len_word_offsets, ?len_map; lia.
  - lia.
  - lia.
  - lia.
  - exact Hnul.
Qed.

(** ** Loading a laid-out file: the definitions *)

Lemma load_defs_stored (m : list (list byte * list byte)) (defs pre : list byte)
    (deduplicate check_defs : bool) (ws : list word_info) :
  ∀ s : dictionary_file,
  bytes (file s) = pre ++ defs →
  len pre = defs_section_offset (reserved_words s) (words_sect_size s) →
  (∀ e, e ∈ ws → ∃ v, v ∈ map snd m ∧ record_at defs (def_ind e) v ∧ 0 < len v < 2 ^ 32) →
  dedup_index_ok m defs (existing_defs s) →
  ∃ s', load_defs ws deduplicate check_defs s = Ok s'
        ∧ reserved_words s' = reserved_words s
        ∧ words_sect_size s' = words_sect_size s
        ∧ words s' = words s
        ∧ first_new_word s' = first_new_word s
        ∧ file_open_type s' = file_open_type s
        ∧ bytes (file s') = bytes (file s)
        ∧ dedup_index_ok m defs (existing_defs s').
Proof.
  induction ws as [|e ws IH]; intros s Hb Hpre Hrec Hidx.
  - exists s. repeat split; assumption.
  - destruct (Hrec e) as (v & Hv & (a & b & Hdefs & Ha) & Hsize); [left|].
    assert (Hbytes : bytes (file s) = (pre ++ a) ++ def_record v ++ b).
    { rewrite Hb, Hdefs, <- !app_assoc. reflexivity. }
    assert (Hpos : defs_section_offset (reserved_words s) (words_sect_size s) + def_ind e
                   = len (pre ++ a)).
    { rewrite len_app. lia. }
    cbn [load_defs].
    rewrite (get_def_size_and_hash_at (file s) (pre ++ a) b v _ _ Hbytes Hpos Hsize 0)
      by (left; reflexivity).
    rewrite bind_Ok.
    set (f1 := {| bytes := bytes (file s); pos := len (pre ++ a) + 12 |}).
    destruct (hash_existing_def_at f1 (pre ++ a) b v _ _ Hbytes Hpos Hsize (len v))
      as (f2 & Hh & Hb2); [right; reflexivity|].
    set (s1 := if deduplicate
               then set_existing_defs
                      (push_existing_def (len v) (fnv1a v fnv_init) (def_ind e)
                         (existing_defs s)) s
               else s).
    assert (Hs1 : reserved_words s1 = reserved_words s
                  ∧ words_sect_size s1 = words_sect_size s
                  ∧ words s1 = words s
                  ∧ first_new_word s1 = first_new_word s
                  ∧ file_open_type s1 = file_open_type s
                  ∧ dedup_index_ok m defs (existing_defs s1)).
    { unfold s1. destruct deduplicate; cbn; repeat split; try assumption.
      apply dedup_index_ok_push; try assumption.
      exists a, b. auto. }
    destruct Hs1 as (S1 & S2 & S3 & S4 & S5 & S6).
    assert (Hstep : ∃ f, (if check_defs
                          then hash_existing_def (def_ind e) (len v)
                                 (defs_section_offset (reserved_words s) (words_sect_size s)) f1
                          else Ok (Some (fnv1a v fnv_init), f1))
                         = Ok (Some (fnv1a v fnv_init), f)
                         ∧ bytes f = bytes (file s)).
    { destruct check_defs; [exists f2; split; [exact Hh|exact Hb2]|exists f1; split; reflexivity]. }
    destruct Hstep as (f & Hf & Hbf). rewrite Hf, bind_Ok, Z.eqb_refl. cbn [negb].
    destruct (IH (set_file f (file_open_type s1) s1)) as (s' & Hload & R1 & R2 & R3 & R4 & R5 & R6 & R7).
    + cbn [file set_file]. rewrite Hbf. exact Hb.
    + cbn [reserved_words words_sect_size set_file]. rewrite S1, S2. exact Hpre.
    + intros e' He'. apply Hrec. right. exact He'.
    + cbn [existing_defs set_file]. exact S6.
    + exists s'. split; [exact Hload|].
      cbn [reserved_words words_sect_size words first_new_word file_open_type file set_file]
        in R1, R2, R3, R4, R5, R6.
      rewrite R1, R2, R3, R4, R5, R6, S1, S2, S3, S4, S5, Hbf. repeat split. exact R7.
Qed.

(** ** Opening the file of a stored state *)

Lemma stored_reopen (m : list (list byte * list byte)) (dw : list word_info)
    (defs : list byte) (s : dictionary_file) (create deduplicate check_defs : bool) :
  stored m dw defs s → first_new_word s = None →
  ∃ s', dictionary_file_at (Regular (bytes (file s))) create deduplicate check_defs = Ok s'
        ∧ stored m dw defs s'
        ∧ do_dedup s' = deduplicate
        ∧ first_new_word s' = None
        ∧ reserved_words s' = reserved_words s
        ∧ words_sect_size s' = words_sect_size s.
Proof.
  intros Hst Hfnw.
  pose proof (stored_rw_bounds _ _ _ _ Hst) as [Hrw0 Hrw8].
  pose proof (stored_wss_bounds _ _ _ _ Hst) as Hwss.
  pose proof (stored_NoDup_words _ _ _ _ Hst) as Hnd.
  pose proof (st_room _ _ _ _ Hst) as [Hn HL].
  pose proof (st_prefix _ _ _ _ Hst) as Hp. rewrite Hfnw in Hp. destruct Hp as [Hdw Hsorted].
  pose proof (st_file _ _ _ _ Hst) as Hfile.
  set (rw := reserved_words s) in *. set (wss := words_sect_size s) in *.
  assert (Hrange : Forall (fun e => 0 <= def_ind e < 2 ^ 32 - 1) dw).
  { rewrite Forall_forall. intros e He. rewrite Hdw in He.
    destruct (stored_record _ _ _ _ Hst e He) as (v & A & B & _ & _ & _ & _ & Hd). lia. }
  assert (Hkeys : map word dw ≡ₚ map fst m).
  { rewrite <- (st_keys _ _ _ _ Hst). apply Permutation_map, Hdw. }
  assert (Hnul : Forall (fun k => nul_free k = true) (map word dw)).
  { rewrite Hkeys. apply (st_nul _ _ _ _ Hst). }
  assert (Hnd' : NoDup (map word dw)).
  { rewrite Hkeys. apply (st_nodup _ _ _ _ Hst). }
  unfold dictionary_file_at, open.
  set (s0 := open_in (set_file {| bytes := bytes (file s); pos := 0 |} none
                        (set_dedup deduplicate (created_file no_dictionary)
                           (set_file (file no_dictionary) none no_dictionary)))).
  assert (Hs0 : s0 = {| file := {| bytes := bytes (file s); pos := 0 |};
                        file_open_type := read_only;
                        reserved_words := 0; words_sect_size := 0;
                        words := []; first_new_word := None;
                        existing_defs := ∅; do_dedup := deduplicate;
                        created_file := false |}) by reflexivity.
  rewrite (read_file_layout s0 rw wss dw defs); try assumption; try lia.
  rewrite bind_Ok.
  set (s1 := set_words (sort_by word_ltb dw) (first_new_word s0)
               (set_sizes rw wss
                  (set_file {| bytes := layout rw wss dw defs; pos := 19 + 8 * rw |}
                     (file_open_type s0) s0))).
  destruct (layout_defs rw wss dw defs) as (pre & Hlay & Hpre & _); try assumption; try lia.
  assert (Hload : ∃ s2, (if deduplicate || check_defs
                         then load_defs (words s1) deduplicate check_defs s1
                         else Ok s1) = Ok s2
                        ∧ reserved_words s2 = rw ∧ words_sect_size s2 = wss
                        ∧ words s2 = sort_by word_ltb dw
                        ∧ first_new_word s2 = None
                        ∧ file_open_type s2 = read_only
                        ∧ bytes (file s2) = layout rw wss dw defs
                        ∧ (deduplicate = true → dedup_index_ok m defs (existing_defs s2))).
  { destruct (deduplicate || check_defs) eqn:Hany.
    - destruct (load_defs_stored m defs pre deduplicate check_defs (words s1) s1)
        as (s2 & Hl & R1 & R2 & R3 & R4 & R5 & R6 & R7).
      + exact Hlay.
      + exact Hpre.
      + intros e He. cbn [words s1 set_words] in He.
        rewrite (sort_by_perm word_ltb), Hdw in He.
        destruct (st_records _ _ _ _ Hst e He) as (v & Hv & Hrec).
        assert (Hv' : v ∈ map snd m) by (apply list_elem_of_fmap; exists (word e, v); auto).
        exists v. split; [exact Hv'|]. split; [exact Hrec|].
        apply (stored_payload_size _ _ _ _ Hst v Hv').
      + exact (dedup_index_ok_empty m defs).
      + exists s2. split; [exact Hl|].
        split; [exact R1|]. split; [exact R2|]. split; [exact R3|]. split; [exact R4|].
        split; [exact R5|]. split; [exact R6|]. intros _. exact R7.
    - exists s1. split; [reflexivity|].
      split; [reflexivity|]. split; [reflexivity|]. split; [reflexivity|].
      split; [reflexivity|]. split; [reflexivity|]. split; [reflexivity|].
      intros ->. discriminate. }
  destruct Hload as (s2 & Hl & R1 & R2 & R3 & R4 & R5 & R6 & R7).
  rewrite Hl, bind_Ok. eexists. split; [reflexivity|].
  split; [|repeat split; assumption].
  destruct Hst as [Ho Hrwk Hwssk Hkeysm Hndm Hnulm Hne Hfits Hfile' Hroom Hprefix Hdl Hrec Hdedup].
  constructor;
    cbn [file_open_type reserved_words words_sect_size words first_new_word file
         existing_defs do_dedup set_dedup];
    rewrite ?R1, ?R2, ?R3, ?R4, ?R5, ?R6; cbv beta iota; try assumption; try reflexivity.
  - discriminate.
  - rewrite (sort_by_perm word_ltb). exact Hkeys.
  - split; [symmetry; apply (sort_by_perm word_ltb)|].
    apply strongly_is_sorted, (sort_by_sorted word_ltb word_ltb_asym word_le_trans).
  - intros e He. rewrite (sort_by_perm word_ltb), Hdw in He. apply Hrec, He.
Qed.


(** * The rewrite of the file with deduplication *)

Section RewriteBatches.

Variable uninitialized : bool → Z → list byte.

(** Copying a payload batch by batch appends it to [file2]. *)
Lemma copy_batches_payload (n : nat) :
  ∀ (f f2 : fstream) (P rest B : list byte) (i size start h : Z),
  bytes f = P ++ rest ++ B →
  len P = start + i * batch_size →
  len rest = size - i * batch_size →
  Z.of_nat n = (len rest + 4095) / 4096 →
  pos f2 = len (bytes f2) →
  ∃ f', copy_batches n i size start true h f f2
        = Ok (h, f', {| bytes := bytes f2 ++ rest; pos := len (bytes f2) + len rest |})
        ∧ bytes f' = bytes f.
Proof.
  induction n as [|n IH]; intros f f2 P rest B i size start h Hb HP Hrest Hn Hend.
  - assert (E : len rest = 0) by (apply ceil_zero; [apply len_nonneg|lia]).
    destruct rest; [|unfold len in E; simpl in E; lia].
    exists f. split; [|reflexivity].
    cbn [copy_batches]. rewrite app_nil_r. change (len (@nil byte)) with 0.
    rewrite Z.add_0_r, <- Hend. destruct f2; reflexivity.
  - assert (Hpos : 0 < len rest).
    { destruct (Z.eq_dec (len rest) 0) as [E|E];
        [rewrite E in Hn; change ((0 + 4095) / 4096) with 0 in Hn; lia|].
      pose proof (len_nonneg rest). lia. }
    cbn [copy_batches].
    rewrite (read_def_batched_at f P rest B i size start Hb HP Hrest Hpos), bind_Ok.
    destruct (Z_le_gt_dec (len rest) 4096) as [Hle|Hgt].
    + assert (n = 0%nat) by (rewrite ceil_small in Hn by lia; lia). subst n.
      unfold batch_size. rewrite Z.min_l by lia.
      replace (take (Z.to_nat (len rest)) rest) with rest
        by (unfold len; rewrite Nat2Z.id, firstn_all; reflexivity).
      cbn [copy_batches]. eexists. split; [rewrite (write_end f2 rest Hend); reflexivity|].
      reflexivity.
    + unfold batch_size in *. rewrite Z.min_r by lia.
      set (x := take (Z.to_nat 4096) rest).
      assert (Hx : len x = 4096).
      { unfold x, len. rewrite length_take. unfold len in Hgt. lia. }
      assert (Hd : len (drop (Z.to_nat 4096) rest) = len rest - 4096).
      { unfold len. rewrite length_drop. unfold len in Hgt. lia. }
      rewrite (write_end f2 x Hend).
      destruct (IH {| bytes := bytes f; pos := len P + 4096 |}
                  {| bytes := bytes f2 ++ x; pos := len (bytes f2) + len x |}
                  (P ++ x) (drop (Z.to_nat 4096) rest) B (i + 1) size start h)
        as (f' & Hc & Hb').
      * cbn [bytes]. rewrite Hb. unfold x.
        rewrite <- app_assoc, (app_assoc (take _ _)), take_drop. reflexivity.
      * rewrite len_app, Hx. lia.
      * rewrite Hd. lia.
      * rewrite Hd. rewrite (ceil_step (len rest)) in Hn. lia.
      * cbn [bytes pos]. rewrite len_app. reflexivity.
      * exists f'. split; [|exact Hb'].
        rewrite Hc. do 2 f_equal. apply stream_eq; cbn [bytes pos].
        -- rewrite <- app_assoc. unfold x. rewrite take_drop. reflexivity.
        -- rewrite len_app, Hx, Hd. lia.
Qed.

(** Comparing two payloads of the same size batch by batch: no mismatch
    is reported unless the payloads differ or the bytes of the two arrays
    beyond the last batch do. *)
Lemma compare_batches_spec (n : nat) :
  ∀ (f f2 : fstream) (P rest B P2 rest2 B2 : list byte) (i size p p2 : Z),
  bytes f = P ++ rest ++ B → len P = p + i * batch_size →
  bytes f2 = P2 ++ rest2 ++ B2 → len P2 = p2 + i * batch_size →
  len rest = size - i * batch_size → len rest2 = len rest →
  Z.of_nat n = (len rest + 4095) / 4096 →
  ∃ mismatch f' f2', compare_batches uninitialized n i size p p2 f f2 = Ok (mismatch, f', f2')
                     ∧ bytes f' = bytes f ∧ bytes f2' = bytes f2
                     ∧ (mismatch = false → rest = rest2).
Proof.
  induction n as [|n IH];
    intros f f2 P rest B P2 rest2 B2 i size p p2 Hb HP Hb2 HP2 Hrest Hrest2 Hn.
  - assert (E : len rest = 0) by (apply ceil_zero; [apply len_nonneg|lia]).
    assert (rest = []) by (destruct rest; [reflexivity|unfold len in E; simpl in E; lia]).
    assert (rest2 = []).
    { destruct rest2; [reflexivity|unfold len in *; simpl in *; lia]. }
    subst. exists false, f, f2. repeat split.
  - assert (Hpos : 0 < len rest).
    { destruct (Z.eq_dec (len rest) 0) as [E|E];
        [rewrite E in Hn; change ((0 + 4095) / 4096) with 0 in Hn; lia|].
      pose proof (len_nonneg rest). lia. }
    cbn [compare_batches].
    rewrite (read_def_batched_at f P rest B i size p Hb HP Hrest Hpos), bind_Ok.
    rewrite (read_def_batched_at f2 P2 rest2 B2 i size p2 Hb2 HP2) by lia.
    rewrite bind_Ok, Hrest2, Z.eqb_refl. cbn [negb orb].
    set (r := Z.min (len rest) batch_size).
    assert (Hr : 0 < r <= len rest) by (unfold r, batch_size; lia).
    destruct (bytes_eqb (whole_array uninitialized false (p + i * batch_size)
                           (take (Z.to_nat r) rest))
                        (whole_array uninitialized true (p2 + i * batch_size)
                           (take (Z.to_nat r) rest2))) eqn:Hcmp; cbn [negb].
    2:{ eexists true, _, _. split; [reflexivity|]. repeat split. discriminate. }
    apply bytes_eqb_eq in Hcmp. unfold whole_array in Hcmp.
    apply app_inj_1 in Hcmp as [Hdata _].
    2:{ rewrite !length_take. unfold len in *. lia. }
    destruct (Z_le_gt_dec (len rest) 4096) as [Hle|Hgt].
    + assert (n = 0%nat) by (rewrite ceil_small in Hn by lia; lia). subst n.
      cbn [compare_batches]. eexists false, _, _. split; [reflexivity|]. repeat split.
      unfold r, batch_size in Hdata. rewrite Z.min_l in Hdata by lia.
      rewrite take_ge in Hdata by (unfold len; lia).
      rewrite take_ge in Hdata by (unfold len in *; lia). intros _. exact Hdata.
    + assert (Hr4 : r = 4096) by (unfold r, batch_size; lia).
      assert (Hd : len (drop (Z.to_nat r) rest) = len rest - 4096).
      { unfold len. rewrite length_drop. unfold len in Hgt. lia. }
      assert (Hd2 : len (drop (Z.to_nat r) rest2) = len rest - 4096).
      { unfold len. rewrite length_drop. unfold len in *. lia. }
      assert (Hx : len (take (Z.to_nat r) rest) = 4096).
      { unfold len. rewrite length_take. unfold len in Hgt. lia. }
      assert (Hx2 : len (take (Z.to_nat r) rest2) = 4096).
      { unfold len. rewrite length_take. unfold len in *. lia. }
      destruct (IH {| bytes := bytes f; pos := len P + r |}
                  {| bytes := bytes f2; pos := len P2 + r |}
                  (P ++ take (Z.to_nat r) rest) (drop (Z.to_nat r) rest) B
                  (P2 ++ take (Z.to_nat r) rest2) (drop (Z.to_nat r) rest2) B2
                  (i + 1) size p p2)
        as (mm & f' & f2' & Hc & Hbf & Hbf2 & Hmm).
      * cbn [bytes]. rewrite Hb, <- app_assoc, (app_assoc (take _ _)), take_drop.
        reflexivity.
      * rewrite len_app, Hx. unfold batch_size in *. lia.
      * cbn [bytes]. rewrite Hb2, <- app_assoc, (app_assoc (take _ _)), take_drop.
        reflexivity.
      * rewrite len_app, Hx2. unfold batch_size in *. lia.
      * rewrite Hd. unfold batch_size in *. lia.
      * rewrite Hd, Hd2. reflexivity.
      * rewrite Hd. rewrite (ceil_step (len rest)) in Hn. lia.
      * exists mm, f', f2'. split; [exact Hc|]. split; [exact Hbf|]. split; [exact Hbf2|].
        intros Hfalse. specialize (Hmm Hfalse).
        rewrite <- (take_drop (Z.to_nat r) rest), <- (take_drop (Z.to_nat r) rest2).
        rewrite Hdata, Hmm. reflexivity.
Qed.

End RewriteBatches.

Section RewriteDefs.

Variable uninitialized : bool → Z → list byte.
Variables (m : list (list byte * list byte)) (pre_old defs P2 : list byte).
Variables (old_off start : Z).
Hypothesis Hold : len pre_old = old_off.
Hypothesis Hstart : len P2 = start.

(** The search of [rewrite_file] among the records already written: a
    hit is a record of the very payload. *)
Lemma find_written_def_spec (v a b nd : list byte) (d : Z) (cands : list Z) :
  len a = d → 0 < len v < 2 ^ 32 →
  (∀ c, c ∈ cands → ∃ v', record_at nd c v' ∧ len v' = len v
                          ∧ fnv1a v' fnv_init = fnv1a v fnv_init) →
  ∀ f f2 : fstream,
  bytes f = (pre_old ++ a) ++ def_record v ++ b →
  bytes f2 = P2 ++ nd →
  ∃ r f' f2', find_written_def uninitialized cands (len v) (fnv1a v fnv_init)
                (old_off + d) start f f2 = Ok (r, f', f2')
              ∧ bytes f' = bytes f ∧ bytes f2' = bytes f2
              ∧ (∀ c, r = Some c → record_at nd c v).
Proof.
  intros Ha Hv. induction cands as [|c cands IH]; intros Hc f f2 Hb Hb2.
  - exists None, f, f2. repeat split. discriminate.
  - assert (Hpos : old_off + d = len (pre_old ++ a)) by (rewrite len_app; lia).
    destruct (Hc c) as (v' & (a' & b' & Hnd & Ha') & Hlen & Hhash); [left|].
    assert (Hv' : 0 < len v' < 2 ^ 32) by lia.
    assert (Hbytes2 : bytes f2 = (P2 ++ a') ++ def_record v' ++ b').
    { rewrite Hb2, Hnd, <- !app_assoc. reflexivity. }
    assert (Hpos2 : start + c = len (P2 ++ a')) by (rewrite len_app; lia).
    cbn [find_written_def].
    change (seek (old_off + d) f) with (seek (old_off + d) {| bytes := bytes f; pos := pos f |}).
    rewrite (record_size_at f (pre_old ++ a) b v old_off d Hb Hpos Hv), bind_Ok.
    rewrite Z.eqb_refl. cbn [negb].
    change (seek (start + c) f2)
      with (seek (start + c) {| bytes := bytes f2; pos := pos f2 |}).
    rewrite (record_size_at f2 (P2 ++ a') b' v' start c Hbytes2 Hpos2 Hv'), bind_Ok.
    rewrite Hlen, Z.eqb_refl. cbn [negb].
    rewrite (record_hash_at f2 (P2 ++ a') b' v' Hbytes2), bind_Ok.
    rewrite Hhash, Z.eqb_refl. cbn [negb].
    destruct (compare_batches_spec uninitialized (num_batches (len v))
                {| bytes := bytes f; pos := len (pre_old ++ a) + 4 |}
                {| bytes := bytes f2; pos := len (P2 ++ a') + 12 |}
                ((pre_old ++ a) ++ uint32_LE (len v) ++ uint64_LE (fnv1a v fnv_init)) v b
                ((P2 ++ a') ++ uint32_LE (len v') ++ uint64_LE (fnv1a v' fnv_init)) v' b'
                0 (len v) (old_off + d + 12) (start + (c + 12)))
      as (mm & f' & f2' & Hcmp & Hbf & Hbf2 & Hmm).
    + cbn [bytes]. rewrite Hb. unfold def_record. rewrite <- !app_assoc. reflexivity.
    + rewrite !len_app, len_uint32_LE, len_uint64_LE in *. lia.
    + cbn [bytes]. rewrite Hbytes2. unfold def_record. rewrite <- !app_assoc. reflexivity.
    + rewrite !len_app, len_uint32_LE, len_uint64_LE in *. lia.
    + lia.
    + exact Hlen.
    + apply num_batches_ceil, Hv.
    + rewrite Hcmp, bind_Ok. destruct mm.
      * destruct (IH (fun c' Hc' => Hc c' (list_elem_of_further _ _ _ Hc')) f' f2')
          as (r & f'' & f2'' & Hfind & Hbf' & Hbf2' & Hr).
        { rewrite Hbf. exact Hb. }
        { rewrite Hbf2. exact Hb2. }
        exists r, f'', f2''. split; [exact Hfind|].
        split; [rewrite Hbf', Hbf; reflexivity|].
        split; [rewrite Hbf2', Hbf2; reflexivity|exact Hr].
      * exists (Some c), f', f2'. split; [reflexivity|].
        split; [exact Hbf|]. split; [exact Hbf2|].
        intros c0 [= <-]. rewrite (Hmm eq_refl). exists a', b'. auto.
Qed.

End RewriteDefs.

Section RewriteDefStep.

Variable uninitialized : bool → Z → list byte.
Variables (m : list (list byte * list byte)) (pre_old defs P2 : list byte).
Variables (old_off start : Z).
Hypothesis Hold : len pre_old = old_off.
Hypothesis Hstart : len P2 = start.

Lemma dedup_index_ok_grow (nd x : list byte) (idx : gmap Z (gmap Z (list Z))) :
  dedup_index_ok m nd idx → dedup_index_ok m (nd ++ x) idx.
Proof.
  intros H. pose proof (dedup_index_ok_mono m [] nd x idx H) as H'.
  rewrite app_nil_r in H'. exact H'.
Qed.

(** The record a round of [rewrite_file] appends to [file2]. *)
Lemma copy_def_record (v a b nd : list byte) (d : Z) (f f2 : fstream) :
  len a = d → 0 < len v < 2 ^ 32 →
  bytes f = (pre_old ++ a) ++ def_record v ++ b →
  bytes f2 = P2 ++ nd →
  ∃ f', copy_batches (num_batches (len v)) 0 (len v) (old_off + d + 12) true
          (fnv1a v fnv_init) f
          (write_uint64_LE (fnv1a v fnv_init) (write_uint32_LE (len v) (seek_end f2)))
        = Ok (fnv1a v fnv_init, f',
              {| bytes := P2 ++ nd ++ def_record v;
                 pos := len (P2 ++ nd ++ def_record v) |})
        ∧ bytes f' = bytes f.
Proof.
  intros Ha Hv Hb Hb2.
  set (h := fnv1a v fnv_init).
  set (g := write_uint64_LE h (write_uint32_LE (len v) (seek_end f2))).
  assert (Hg : g = {| bytes := (P2 ++ nd) ++ uint32_LE (len v) ++ uint64_LE h;
                      pos := len ((P2 ++ nd) ++ uint32_LE (len v) ++ uint64_LE h) |}).
  { unfold g, write_uint64_LE, write_uint32_LE.
    rewrite (write_end (seek_end f2)) by reflexivity.
    rewrite write_end by (cbn [pos bytes]; rewrite len_app; reflexivity).
    cbn [bytes seek_end]. rewrite Hb2. apply stream_eq; cbn [bytes pos].
    - rewrite <- !app_assoc. reflexivity.
    - rewrite !len_app. lia. }
  destruct (copy_batches_payload (num_batches (len v)) f g
              ((pre_old ++ a) ++ uint32_LE (len v) ++ uint64_LE h) v b
              0 (len v) (old_off + d + 12) h) as (f' & Hc & Hb').
  - rewrite Hb. unfold def_record. rewrite <- !app_assoc. reflexivity.
  - rewrite !len_app, len_uint32_LE, len_uint64_LE. lia.
  - lia.
  - apply num_batches_ceil, Hv.
  - rewrite Hg. reflexivity.
  - exists f'. split; [|exact Hb'].
    rewrite Hc. do 2 f_equal. rewrite Hg. apply stream_eq; cbn [bytes pos].
    + unfold def_record. rewrite <- !app_assoc. reflexivity.
    + unfold def_record, h. rewrite !len_app, !len_uint32_LE, !len_uint64_LE. lia.
Qed.

(** One round of the loop of [rewrite_file] with deduplication: the
    entry gets the offset of a record of its payload in [file2], an old one
    or one appended now. *)
Lemma rewrite_def_spec (e : word_info) (v nd : list byte)
    (idx : gmap Z (gmap Z (list Z))) (f f2 : fstream) :
  bytes f = pre_old ++ defs → record_at defs (def_ind e) v →
  0 < len v < 2 ^ 32 → v ∈ map snd m →
  bytes f2 = P2 ++ nd → dedup_index_ok m nd idx →
  len nd + 12 + len v < 2 ^ 32 →
  ∃ e' f' f2' idx' x,
    rewrite_def uninitialized old_off start true e f f2 idx = Ok (e', f', f2', idx')
    ∧ bytes f' = bytes f ∧ bytes f2' = P2 ++ nd ++ x
    ∧ word e' = word e ∧ record_at (nd ++ x) (def_ind e') v
    ∧ dedup_index_ok m (nd ++ x) idx'
    ∧ len x <= 12 + len v.
Proof.
  intros Hb (a & b & Hdefs & Ha) Hv Hvm Hb2 Hidx Hnd.
  assert (Hbytes : bytes f = (pre_old ++ a) ++ def_record v ++ b).
  { rewrite Hb, Hdefs, <- !app_assoc. reflexivity. }
  assert (Hpos : old_off + def_ind e = len (pre_old ++ a)) by (rewrite len_app; lia).
  pose proof (len_nonneg nd) as Hnd0.
  assert (Hnew : u32 (pos (seek_end f2) - start) = len nd).
  { cbn [pos seek_end]. rewrite Hb2, len_app, Hstart.
    replace (start + len nd - start) with (len nd) by lia. apply u32_small. lia. }
  assert (Happend : ∀ fcur f2cur, bytes fcur = bytes f → bytes f2cur = bytes f2 →
    ∃ f', copy_batches (num_batches (len v)) 0 (len v) (old_off + def_ind e + 12) true
            (fnv1a v fnv_init) fcur
            (write_uint64_LE (fnv1a v fnv_init) (write_uint32_LE (len v) (seek_end f2cur)))
          = Ok (fnv1a v fnv_init, f',
                {| bytes := P2 ++ nd ++ def_record v;
                   pos := len (P2 ++ nd ++ def_record v) |})
          ∧ bytes f' = bytes f).
  { intros fcur f2cur Hc1 Hc2.
    destruct (copy_def_record v a b nd (def_ind e) fcur f2cur Ha Hv) as (f' & Hc & Hb');
      [rewrite Hc1; exact Hbytes|rewrite Hc2; exact Hb2|].
    exists f'. split; [exact Hc|]. rewrite Hb'. exact Hc1. }
  assert (Hfinal : ∀ f2cur, bytes f2cur = bytes f2 →
    let e' := {| word := word e; def_ind := u32 (pos (seek_end f2cur) - start) |} in
    record_at (nd ++ def_record v) (def_ind e') v
    ∧ dedup_index_ok m (nd ++ def_record v)
        (push_existing_def (len v) (fnv1a v fnv_init) (def_ind e') idx)).
  { intros f2cur Hc2. cbn [def_ind].
    replace (u32 (pos (seek_end f2cur) - start)) with (len nd)
      by (rewrite <- Hnew; cbn [pos seek_end]; rewrite Hc2; reflexivity).
    split; [apply record_at_end|].
    apply dedup_index_ok_push; [apply dedup_index_ok_grow, Hidx|exact Hvm|apply record_at_end]. }
  unfold rewrite_def. cbv zeta.
  change (seek (old_off + def_ind e) f)
    with (seek (old_off + def_ind e) {| bytes := bytes f; pos := pos f |}).
  rewrite (record_size_at f (pre_old ++ a) b v old_off (def_ind e) Hbytes Hpos Hv), bind_Ok.
  destruct (Z.eqb_spec (len v) 0) as [E|_]; [lia|].
  set (f1 := {| bytes := bytes f; pos := len (pre_old ++ a) + 4 |}).
  destruct (idx !! len v) as [inner|] eqn:Hidx1.
  - rewrite (get_def_size_and_hash_at f1 (pre_old ++ a) b v old_off (def_ind e)
               Hbytes Hpos Hv (len v)) by (right; reflexivity).
    rewrite bind_Ok, Z.eqb_refl.
    set (f1' := {| bytes := bytes f1; pos := len (pre_old ++ a) + 12 |}).
    destruct (inner !! fnv1a v fnv_init) as [cands|] eqn:Hin.
    + destruct (find_written_def_spec uninitialized pre_old P2 old_off start Hold Hstart
                  v a b nd (def_ind e) cands Ha Hv) with (f := f1') (f2 := f2)
        as (r & f' & f2' & Hfind & Hbf & Hbf2 & Hr).
      { intros c Hc. destruct (Hidx _ _ _ _ c Hidx1 Hin Hc) as (v' & _ & Hrec & Hl & Hh).
        exists v'. auto. }
      { exact Hbytes. }
      { exact Hb2. }
      rewrite Hfind, !bind_Ok.
      destruct r as [c|].
      * specialize (Hr c eq_refl).
        pose proof (record_at_bounds _ _ _ Hr) as Hcb.
        exists {| word := word e; def_ind := u32 c |}, f', f2', idx, [].
        split; [reflexivity|]. split; [exact Hbf|].
        split; [rewrite app_nil_r, Hbf2; exact Hb2|]. split; [reflexivity|].
        rewrite app_nil_r. cbn [def_ind]. rewrite u32_small by lia.
        split; [exact Hr|]. split; [exact Hidx|].
        change (len (@nil byte)) with 0. lia.
      * cbn [negb]. rewrite bind_Ok.
        destruct (Happend f' f2' Hbf Hbf2) as (f'' & Hc & Hb'').
        rewrite Hc, bind_Ok. cbn [negb].
        destruct (Hfinal f2' Hbf2) as (Hrec & Hpush).
        eexists _, _, _, _, (def_record v).
        split; [reflexivity|]. split; [exact Hb''|]. split; [reflexivity|].
        split; [reflexivity|]. split; [exact Hrec|]. split; [exact Hpush|].
        rewrite len_def_record. lia.
    + rewrite !bind_Ok. cbn [negb]. rewrite bind_Ok.
      destruct (Happend f1' f2 eq_refl eq_refl) as (f'' & Hc & Hb'').
      rewrite Hc, bind_Ok. cbn [negb].
      destruct (Hfinal f2 eq_refl) as (Hrec & Hpush).
      eexists _, _, _, _, (def_record v).
      split; [reflexivity|]. split; [exact Hb''|]. split; [reflexivity|].
      split; [reflexivity|]. split; [exact Hrec|]. split; [exact Hpush|].
      rewrite len_def_record. lia.
  - rewrite !bind_Ok. cbn [negb].
    change (seek (old_off + def_ind e + 4) f1)
      with {| bytes := bytes f; pos := old_off + def_ind e + 4 |}.
    rewrite Hpos.
    rewrite (record_hash_at f (pre_old ++ a) b v Hbytes), bind_Ok.
    rewrite <- Hpos.
    destruct (Happend {| bytes := bytes f; pos := old_off + def_ind e + 12 |} f2
                eq_refl eq_refl) as (f'' & Hc & Hb'').
    rewrite Hc, bind_Ok. cbn [negb].
    destruct (Hfinal f2 eq_refl) as (Hrec & Hpush).
    eexists _, _, _, _, (def_record v).
    split; [reflexivity|]. split; [exact Hb''|]. split; [reflexivity|].
    split; [reflexivity|]. split; [exact Hrec|]. split; [exact Hpush|].
    rewrite len_def_record. lia.
Qed.

(** The loop of [rewrite_file] over the index. *)
Lemma rewrite_defs_spec (l : list word_info) (vs : list (list byte)) :
  Forall2 (fun e v => record_at defs (def_ind e) v ∧ v ∈ map snd m ∧ 0 < len v < 2 ^ 32)
    l vs →
  ∀ (nd : list byte) (idx : gmap Z (gmap Z (list Z))) (f f2 : fstream),
  bytes f = pre_old ++ defs → bytes f2 = P2 ++ nd → dedup_index_ok m nd idx →
  len nd + defs_len vs < 2 ^ 32 →
  ∃ l' f' f2' idx' x,
    rewrite_defs uninitialized old_off start true l f f2 idx = Ok (l', f', f2', idx')
    ∧ bytes f' = bytes f ∧ bytes f2' = P2 ++ nd ++ x
    ∧ map word l' = map word l
    ∧ Forall2 (fun e' v => record_at (nd ++ x) (def_ind e') v) l' vs
    ∧ dedup_index_ok m (nd ++ x) idx'
    ∧ len x <= defs_len vs.
Proof.
  induction 1 as [|e v l vs (Hrec & Hvm & Hv) Hall IH]; intros nd idx f f2 Hb Hb2 Hidx Hlen.
  - exists [], f, f2, idx, []. rewrite !app_nil_r.
    split; [reflexivity|]. split; [reflexivity|]. split; [exact Hb2|].
    split; [reflexivity|]. split; [constructor|]. split; [exact Hidx|]. reflexivity.
  - change (defs_len (v :: vs)) with (12 + len v + defs_len vs) in *.
    pose proof (defs_len_nonneg vs) as Hvs0.
    destruct (rewrite_def_spec e v nd idx f f2 Hb Hrec Hv Hvm Hb2 Hidx)
      as (e1 & f1 & f21 & idx1 & x1 & Hstep & Hbf1 & Hbf21 & Hw1 & Hrec1 & Hidx1 & Hx1);
      [lia|].
    destruct (IH (nd ++ x1) idx1 f1 f21) as (l' & f' & f2' & idx' & x2 & Hloop & Hbf & Hbf2
                                            & Hws & Hrecs & Hidx' & Hx2).
    + rewrite Hbf1. exact Hb.
    + rewrite Hbf21, app_assoc. reflexivity.
    + exact Hidx1.
    + rewrite len_app. lia.
    + exists (e1 :: l'), f', f2', idx', (x1 ++ x2).
      cbn [rewrite_defs]. rewrite Hstep, bind_Ok, Hloop, bind_Ok.
      split; [reflexivity|]. split; [rewrite Hbf, Hbf1; reflexivity|].
      split; [rewrite Hbf2, <- !app_assoc; reflexivity|].
      split; [cbn [map]; rewrite Hw1, Hws; reflexivity|].
      rewrite (app_assoc nd x1 x2).
      split; [constructor; [apply record_at_app, Hrec1|exact Hrecs]|].
      split; [exact Hidx'|]. rewrite len_app. lia.
Qed.

End RewriteDefStep.

(** ** The head of the new file *)

Lemma write_eof (d l : list byte) : write d (eof l) = eof (l ++ d).
Proof.
  rewrite (write_end (eof l) d) by reflexivity.
  unfold eof. cbn [bytes]. rewrite len_app. reflexivity.
Qed.

Lemma write_nulls_eof (n : Z) (l : list byte) : write_nulls n (eof l) = eof (l ++ zeros n).
Proof. unfold write_nulls. apply write_eof. Qed.

Lemma write_uint32_LE_eof (x : Z) (l : list byte) :
  write_uint32_LE x (eof l) = eof (l ++ uint32_LE x).
Proof. unfold write_uint32_LE. apply write_eof. Qed.

Lemma write_word_inds_eof (ws : list word_info) :
  ∀ (bw : Z) (l : list byte),
  0 <= bw → bw + keys_len (map word ws) < 2 ^ 32 →
  write_word_inds ws bw (eof l)
  = eof (l ++ index_entries (map (fun i => i + 1) (word_offsets (map word ws) bw))).
Proof.
  induction ws as [|e ws IH]; intros bw l Hbw Hfit.
  - cbn. rewrite app_nil_r. reflexivity.
  - rewrite map_cons, keys_len_cons in Hfit.
    pose proof (len_nonneg (word e)). pose proof (keys_len_nonneg (map word ws)).
    cbn [write_word_inds]. rewrite write_uint32_LE_eof, uint32_LE_u32.
    rewrite u32_small by lia. rewrite IH by lia.
    rewrite map_cons, word_offsets_cons, map_cons, index_entries_cons, <- app_assoc.
    reflexivity.
Qed.

Lemma write_words_eof (ws : list word_info) :
  ∀ (bw : Z) (l : list byte),
  0 <= bw → bw + keys_len (map word ws) < 2 ^ 32 →
  write_words ws bw (eof l)
  = (bw + keys_len (map word ws), eof (l ++ words_bytes (map word ws))).
Proof.
  induction ws as [|e ws IH]; intros bw l Hbw Hfit.
  - cbn. rewrite app_nil_r, Z.add_0_r. reflexivity.
  - rewrite map_cons, keys_len_cons in Hfit.
    pose proof (len_nonneg (word e)). pose proof (keys_len_nonneg (map word ws)).
    cbn [write_words]. rewrite write_eof, u32_small by lia. rewrite IH by lia.
    rewrite map_cons, keys_len_cons, words_bytes_cons, <- app_assoc.
    f_equal. lia.
Qed.

(** ** The payloads of the index entries *)

Lemma defs_len_perm (a b : list (list byte)) : a ≡ₚ b → defs_len a = defs_len b.
Proof. induction 1; simpl; lia. Qed.

Lemma values_of_index (m : list (list byte * list byte)) (l : list word_info)
    (R : word_info → list byte → Prop) :
  NoDup (map fst m) → map word l ≡ₚ map fst m →
  (∀ e, e ∈ l → ∃ v, (word e, v) ∈ m ∧ R e v) →
  ∃ vs, Forall2 (fun e v => (word e, v) ∈ m ∧ R e v) l vs
        ∧ defs_len vs = defs_len (map snd m).
Proof.
  intros Hnd Hperm Hall.
  assert (Hvs : ∃ vs, Forall2 (fun e v => (word e, v) ∈ m ∧ R e v) l vs).
  { clear Hperm. induction l as [|e l IH]; [exists []; constructor|].
    destruct (Hall e) as (v & Hv); [left|].
    destruct IH as (vs & Hvs); [intros e' He'; apply Hall; right; exact He'|].
    exists (v :: vs). constructor; assumption. }
  destruct Hvs as (vs & Hvs). exists vs. split; [exact Hvs|].
  pose proof (Forall2_length _ _ _ Hvs) as Hlen.
  set (ps := zip (map word l) vs).
  assert (Hfst : map fst ps = map word l).
  { unfold ps. apply fst_zip. rewrite length_map. lia. }
  assert (Hsnd : map snd ps = vs).
  { unfold ps. apply snd_zip. rewrite length_map. lia. }
  assert (Hps : ps ≡ₚ m).
  { apply NoDup_Permutation.
    - apply (NoDup_fmap_1 fst). change (NoDup (map fst ps)). rewrite Hfst, Hperm. exact Hnd.
    - apply (NoDup_fmap_1 fst). exact Hnd.
    - intros [k v]. split.
      + intros Hin. apply list_elem_of_lookup in Hin as (i & Hi).
        unfold ps in Hi. apply lookup_zip_with_Some in Hi as (k' & v' & Heq & Hk & Hv).
        injection Heq as <- <-.
        rewrite list_lookup_fmap in Hk.
        destruct (l !! i) as [e|] eqn:He; [|discriminate]. injection Hk as <-.
        destruct (Forall2_lookup_lr _ _ _ _ _ _ Hvs He Hv) as [Hm _]. exact Hm.
      + intros Hin.
        assert (Hk : k ∈ map word l).
        { rewrite Hperm. apply list_elem_of_fmap. exists (k, v). auto. }
        apply list_elem_of_fmap in Hk as (e & -> & He).
        apply list_elem_of_lookup in He as (i & Hi).
        destruct (Forall2_lookup_l _ _ _ _ _ Hvs Hi) as (v' & Hv' & Hm & _).
        assert (v' = v) by (eapply NoDup_fst_unique; eassumption). subst v'.
        apply list_elem_of_lookup. exists i. unfold ps.
        apply lookup_zip_with_Some. exists (word e), v.
        split; [reflexivity|]. split; [|exact Hv'].
        rewrite list_lookup_fmap, Hi. reflexivity. }
  rewrite <- Hsnd. apply defs_len_perm, Permutation_map, Hps.
Qed.

(** ** [rewrite_file] on a stored index *)

Section RewriteFile.

Variable uninitialized : bool → Z → list byte.

Lemma rewrite_file_stored (m : list (list byte * list byte)) (dw_old : list word_info)
    (defs : list byte) (old_rw old_wss : Z) (s : dictionary_file) :
  file_open_type s ≠ no_file → do_dedup s = true → first_new_word s = None →
  bytes (file s) = layout old_rw old_wss dw_old defs →
  0 <= old_rw → old_rw * 8 < 2 ^ 32 →
  len dw_old <= old_rw → keys_len (map word dw_old) <= old_wss →
  (∃ k, 5 <= k <= 28 ∧ reserved_words s = 2 ^ k) →
  (∃ k, 8 <= k <= 31 ∧ words_sect_size s = 2 ^ k) →
  len (words s) <= reserved_words s →
  keys_len (map word (words s)) <= words_sect_size s →
  map word (words s) ≡ₚ map fst m → NoDup (map fst m) →
  Forall (fun k => nul_free k = true) (map fst m) →
  Forall (fun v => 0 < len v) (map snd m) →
  fits m →
  is_sorted (words s) = true →
  (∀ e, e ∈ words s → ∃ v, (word e, v) ∈ m ∧ record_at defs (def_ind e) v) →
  ∃ s' nd, rewrite_file uninitialized old_rw old_wss s = Ok s'
           ∧ stored m (words s') nd s'
           ∧ first_new_word s' = None
           ∧ do_dedup s' = true
           ∧ reserved_words s' = reserved_words s
           ∧ words_sect_size s' = words_sect_size s.
Proof.
  intros Hopen Hdd Hfnw Hfile Hor0 Hor8 Hon Hokl Hrwk Hwssk Hn HL Hkeys Hnd Hnul Hne Hfits
    Hsorted Hrecs.
  assert (Hrwb : 32 <= reserved_words s <= 2 ^ 28).
  { destruct Hrwk as (k & Hk & ->).
    assert (2 ^ 5 <= 2 ^ k) by (apply Z.pow_le_mono_r; lia).
    assert (2 ^ k <= 2 ^ 28) by (apply Z.pow_le_mono_r; lia). lia. }
  assert (Hwssb : 256 <= words_sect_size s <= 2 ^ 31).
  { destruct Hwssk as (k & Hk & ->).
    assert (2 ^ 8 <= 2 ^ k) by (apply Z.pow_le_mono_r; lia).
    assert (2 ^ k <= 2 ^ 31) by (apply Z.pow_le_mono_r; lia). lia. }
  pose proof (len_nonneg (words s)) as Hn0.
  pose proof (keys_len_nonneg (map word (words s))) as HL0.
  destruct (layout_defs old_rw old_wss dw_old defs Hor0 Hor8 Hon Hokl)
    as (pre_old & Hlay & Hpre & _).
  unfold rewrite_file. cbv zeta.
  set (rw := reserved_words s) in *. set (wss := words_sect_size s) in *.
  set (ws := words s) in *.
  change {| bytes := []; pos := 0 |} with (eof []).
  rewrite write_eof, !write_uint32_LE_eof, uint32_LE_u32.
  rewrite write_word_inds_eof by lia.
  rewrite !write_nulls_eof. rewrite write_words_eof by lia.
  rewrite Z.add_0_l, !write_nulls_eof, Hdd.
  (* the head of the new file *)
  set (ks := map word ws) in *.
  set (P2 := header rw wss (len ws) ++ index_table rw (word_offsets ks 0)
             ++ zeros (rw * 4) ++ words_section wss ks).
  assert (Hlo : len (word_offsets ks 0) = len ws)
    by (rewrite len_word_offsets; unfold ks; apply len_map).
  match goal with
  | |- context [eof ?l] => replace l with P2
  end.
  2:{ unfold P2, header, index_table, words_section.
      rewrite !u32_small by lia. rewrite Hlo.
      rewrite <- !app_assoc. reflexivity. }
  change (pos (eof P2)) with (len P2).
  (* the payloads *)
  destruct (values_of_index m ws (fun e v => record_at defs (def_ind e) v) Hnd Hkeys Hrecs)
    as (vs & Hvs & Hdl).
  assert (Hvs' : Forall2 (fun e v => record_at defs (def_ind e) v ∧ v ∈ map snd m
                                     ∧ 0 < len v < 2 ^ 32) ws vs).
  { eapply Forall2_impl; [exact Hvs|]. cbn. intros e v [Hm Hrec].
    assert (Hv : v ∈ map snd m) by (apply list_elem_of_fmap; exists (word e, v); auto).
    split; [exact Hrec|]. split; [exact Hv|].
    rewrite Forall_forall in Hne. specialize (Hne v Hv).
    pose proof (defs_len_elem _ _ Hv). destruct Hfits as (_ & _ & ?). lia. }
  destruct Hfits as (Hf1 & Hf2 & Hf3).
  destruct (rewrite_defs_spec uninitialized m pre_old defs P2
              (defs_section_offset old_rw old_wss) (len P2) Hpre eq_refl ws vs Hvs'
              [] ∅ (file s) (eof P2))
    as (ws' & f' & f2' & idx' & x & Hloop & Hbf & Hbf2 & Hws & Hrecs' & Hidx' & Hx).
  { rewrite Hfile. exact Hlay. }
  { cbn [bytes eof]. rewrite app_nil_r. reflexivity. }
  { apply dedup_index_ok_empty. }
  { change (len (@nil byte)) with 0. lia. }
  rewrite Hloop, bind_Ok. cbn [app] in Hbf2, Hrecs', Hidx'.
  (* the def indices *)
  assert (Hlen' : len ws' = len ws).
  { rewrite <- (len_map word ws'), Hws, len_map. reflexivity. }
  set (F := write_nulls ((rw - len ws) * 4)
              (fold_left (fun f0 e => write_uint32_LE (u32 (def_ind e + 1)) f0) ws'
                 (seek (inds_section_offset + u32 (rw * 4)) f2'))).
  assert (HF : bytes F = layout rw wss ws' x).
  { unfold F. rewrite fold_write_uint32_LE by (cbn [pos seek]; rewrite u32_small by lia;
      change inds_section_offset with 19; lia).
    rewrite index_entries_u32. unfold write_nulls. rewrite write_write
      by (cbn [pos seek]; rewrite u32_small by lia; change inds_section_offset with 19; lia).
    rewrite u32_small by lia.
    rewrite (write_at _ (header rw wss (len ws) ++ index_table rw (word_offsets ks 0))
               (zeros (rw * 4)) (words_section wss ks ++ x)).
    - cbn [bytes]. unfold layout, index_table. rewrite Hws. fold ks.
      rewrite len_map, !Hlen', <- (map_map def_ind (fun i => i + 1)), <- !app_assoc.
      reflexivity.
    - cbn [bytes seek]. rewrite Hbf2. unfold P2. rewrite <- !app_assoc. reflexivity.
    - cbn [pos seek]. rewrite len_app, len_header, len_index_table
        by (rewrite Hlo; lia).
      change inds_section_offset with 19. lia.
    - apply Nat2Z.inj. change (len (index_entries (map (fun e => def_ind e + 1) ws')
                                   ++ replicate (Z.to_nat ((rw - len ws) * 4)) x00)
                               = len (zeros (rw * 4))).
      rewrite len_app, len_index_entries, len_map, len_zeros, Hlen'.
      change (len (replicate (Z.to_nat ((rw - len ws) * 4)) x00))
        with (len (zeros ((rw - len ws) * 4))).
      rewrite len_zeros. lia. }
  set (s_in := set_existing_defs idx' (set_words ws' (first_new_word s)
                 (set_file F (file_open_type s) s))).
  assert (Hst : stored m ws' x s_in).
  { constructor; unfold s_in;
      cbn [file_open_type reserved_words words_sect_size words first_new_word file
           existing_defs do_dedup set_existing_defs set_words set_file].
    - exact Hopen.
    - exact Hrwk.
    - exact Hwssk.
    - rewrite Hws. exact Hkeys.
    - exact Hnd.
    - exact Hnul.
    - exact Hne.
    - unfold fits. auto.
    - exact HF.
    - split; [rewrite Hlen'; exact Hn|]. rewrite Hws. exact HL.
    - rewrite Hfnw. split; [reflexivity|].
      rewrite (is_sorted_words ws' ws Hws). exact Hsorted.
    - rewrite <- Hdl. exact Hx.
    - intros e' He'. apply list_elem_of_lookup in He' as (i & Hi).
      destruct (Forall2_lookup_l _ _ _ _ _ Hrecs' Hi) as (v & Hv & Hrec).
      assert (He : ∃ e, ws !! i = Some e ∧ word e = word e').
      { assert (Hl : map word ws !! i = Some (word e')).
        { rewrite <- Hws, list_lookup_fmap, Hi. reflexivity. }
        rewrite list_lookup_fmap in Hl.
        destruct (ws !! i) as [e|]; [|discriminate]. injection Hl as Hl. eauto. }
      destruct He as (e & He & Hw).
      destruct (Forall2_lookup_lr _ _ _ _ _ _ Hvs He Hv) as [Hm _].
      exists v. rewrite <- Hw. split; [exact Hm|exact Hrec].
    - intros _. exact Hidx'. }
  exists (open_in s_in), x. split; [reflexivity|].
  destruct (reopen_as_fields read_only s_in) as (O1 & O2 & O3 & O4 & _ & O6 & _).
  unfold open_in. rewrite O1, O2, O3, O4, O6.
  split; [apply (stored_reopen_as m ws' x s_in Hst read_only); discriminate|].
  unfold s_in. cbn. repeat split; assumption.
Qed.

End RewriteFile.

(** ** [flush] on a stored state, in place or through the rewrite *)

Lemma double_until_total (fuel : nat) :
  ∀ j bound : Z, 0 <= j <= 31 → bound <= 2 ^ 31 → 31 - j < Z.of_nat fuel →
  ∃ y, double_until fuel (2 ^ j) bound = Ok y.
Proof.
  induction fuel as [|fuel IH]; intros j bound Hj Hb Hfuel; [lia|].
  cbn [double_until]. destruct (Z.ltb_spec (2 ^ j) bound) as [Hlt|Hge]; [|eauto].
  assert (Hj31 : j < 31).
  { destruct (Z.eq_dec j 31) as [->|]; [lia|lia]. }
  assert (Hpow : u32 (2 ^ j * 2) = 2 ^ (j + 1)).
  { rewrite Z.pow_add_r by lia. change (2 ^ 1) with 2.
    apply u32_small. split; [lia|].
    assert (2 ^ j <= 2 ^ 30) by (apply Z.pow_le_mono_r; lia). lia. }
  rewrite Hpow. apply IH; lia.
Qed.

(** The sizes [flush] settles on. *)
Lemma double_until_grows (k kmax bound : Z) :
  0 <= k <= kmax → kmax <= 31 → bound <= 2 ^ kmax →
  ∃ j, k <= j <= kmax ∧ double_until 32 (2 ^ k) bound = Ok (2 ^ j) ∧ bound <= 2 ^ j
       ∧ (2 ^ k < bound → k < j).
Proof.
  intros Hk Hmax Hb.
  assert (Hb31 : bound <= 2 ^ 31).
  { assert (2 ^ kmax <= 2 ^ 31) by (apply Z.pow_le_mono_r; lia). lia. }
  destruct (double_until_total 32 k bound) as (y & Hy); [lia|exact Hb31|lia|].
  destruct (double_until_pow2 32 k bound y) as (j & Hj & -> & Hcover & Hsmall); [lia|exact Hy|].
  exists j. split.
  - split; [lia|].
    destruct (Z_le_gt_dec j kmax) as [Hle|Hgt]; [exact Hle|].
    assert (2 ^ (j - 1) < bound) by (apply Hsmall; lia).
    assert (2 ^ kmax <= 2 ^ (j - 1)) by (apply Z.pow_le_mono_r; lia). lia.
  - split; [exact Hy|]. split; [exact Hcover|].
    intros Hlt. destruct (Z.eq_dec j k) as [->|]; lia.
Qed.

Section FlushAny.

Variable uninitialized : bool → Z → list byte.

(** [flush] when the new words do not fit and the dictionary
    deduplicates: the file is rewritten. *)
Lemma stored_flush_rewrite (m : list (list byte * list byte)) (dw : list word_info)
    (defs : list byte) (s : dictionary_file) (k : nat) :
  stored m dw defs s → first_new_word s = Some k → do_dedup s = true →
  ¬ (len (words s) <= reserved_words s
     ∧ keys_len (map word (words s)) <= words_sect_size s) →
  ∃ s' dw' defs', flush uninitialized s = Ok (true, s')
                  ∧ stored m dw' defs' s'
                  ∧ first_new_word s' = None
                  ∧ do_dedup s' = true.
Proof.
  intros Hst Hfnw Hdd Hnofit.
  pose proof (stored_rw_bounds _ _ _ _ Hst) as [Hrw0 Hrw8].
  pose proof (stored_NoDup_words _ _ _ _ Hst) as Hndw.
  destruct (st_rw _ _ _ _ Hst) as (k1 & Hk1 & Hrw).
  destruct (st_wss _ _ _ _ Hst) as (k2 & Hk2 & Hwss).
  destruct (st_fits _ _ _ _ Hst) as (Hf1 & Hf2 & Hf3).
  pose proof (st_room _ _ _ _ Hst) as [Hroom1 Hroom2].
  pose proof (st_prefix _ _ _ _ Hst) as Hp. rewrite Hfnw in Hp.
  destruct Hp as (Hdw & Hsorted & Hk).
  assert (Hlen : len (words s) = len m).
  { rewrite <- (len_map word), <- (len_map fst m). apply len_perm, (st_keys _ _ _ _ Hst). }
  assert (Hkl : keys_len (map word (words s)) = keys_len (map fst m)).
  { apply keys_len_perm, (st_keys _ _ _ _ Hst). }
  rewrite (flush_some uninitialized s k) by (apply Hst || exact Hfnw).
  destruct (double_until_grows k2 31 (keys_len (map word (words s))))
    as (j2 & Hj2 & Hd2 & Hc2 & Hg2); [lia|lia|lia|].
  rewrite <- Hwss in Hd2. rewrite Hd2, bind_Ok. cbv zeta.
  destruct (reopen_as_fields read_write s) as (R1 & R2 & R3 & R4 & R5 & R6 & R7).
  assert (Hcond : negb (2 ^ j2 =? words_sect_size s) || (reserved_words s <? len (words s))
                  = true).
  { apply orb_true_iff.
    destruct (Z_le_gt_dec (keys_len (map word (words s))) (words_sect_size s)) as [Hle|Hgt].
    - right. apply Z.ltb_lt.
      destruct (Z_le_gt_dec (len (words s)) (reserved_words s)); [tauto|lia].
    - left. apply negb_true_iff, Z.eqb_neq. rewrite Hwss in *.
      assert (k2 < j2) by (apply Hg2; lia).
      assert (2 ^ k2 < 2 ^ j2) by (apply Z.pow_lt_mono_r; lia). lia. }
  rewrite Hcond.
  set (s1 := set_sizes (reserved_words s) (2 ^ j2) (open_in_out s)).
  destruct (sort_words_ok k s1) as (ws & Hsort & Hperm & Hs).
  { cbn [words s1 set_sizes]. unfold open_in_out. rewrite R3. exact Hndw. }
  { cbn [words s1 set_sizes]. unfold open_in_out. rewrite R3. exact Hsorted. }
  cbn [words s1 set_sizes] in Hperm. unfold open_in_out in Hperm. rewrite R3 in Hperm.
  rewrite Hsort, bind_Ok.
  cbn [reserved_words words set_words s1 set_sizes].
  assert (Hlenws : len ws = len (words s)) by (apply len_perm, Hperm).
  destruct (double_until_grows k1 28 (len ws)) as (j1 & Hj1 & Hd1 & Hc1 & _); [lia|lia|lia|].
  rewrite <- Hrw in Hd1. rewrite Hd1, bind_Ok.
  destruct (rewrite_file_stored uninitialized m dw defs (reserved_words s)
              (words_sect_size s)
              (set_sizes (2 ^ j1) (2 ^ j2) (set_words ws None s1)))
    as (s' & nd & Hrew & Hst' & F' & D' & _);
    [unfold s1;
     cbn [file_open_type reserved_words words_sect_size words first_new_word file
          existing_defs do_dedup set_sizes set_words set_file] ..|].
  - unfold open_in_out. rewrite reopen_as_type. discriminate.
  - unfold open_in_out. rewrite R6. exact Hdd.
  - reflexivity.
  - unfold open_in_out. rewrite R7. apply (st_file _ _ _ _ Hst).
  - lia.
  - exact Hrw8.
  - exact Hroom1.
  - exact Hroom2.
  - exists j1. split; [lia|reflexivity].
  - exists j2. split; [lia|reflexivity].
  - lia.
  - rewrite (keys_len_perm _ _ (Permutation_map word Hperm)). exact Hc2.
  - rewrite (Permutation_map word Hperm). apply (st_keys _ _ _ _ Hst).
  - apply (st_nodup _ _ _ _ Hst).
  - apply (st_nul _ _ _ _ Hst).
  - apply (st_nonempty _ _ _ _ Hst).
  - apply (st_fits _ _ _ _ Hst).
  - exact Hs.
  - intros e He. rewrite Hperm in He. apply (st_records _ _ _ _ Hst e He).
  - rewrite Hrew, bind_Ok. exists s', (words s'), nd. auto.
Qed.

(** [flush] on a stored state: it returns, and the state stores the same
    pairs, none of them pending. *)
Lemma stored_flush (m : list (list byte * list byte)) (dw : list word_info)
    (defs : list byte) (s : dictionary_file) :
  stored m dw defs s →
  do_dedup s = true
  ∨ (len (words s) <= reserved_words s
     ∧ keys_len (map word (words s)) <= words_sect_size s) →
  ∃ b s' dw' defs', flush uninitialized s = Ok (b, s')
                    ∧ stored m dw' defs' s'
                    ∧ first_new_word s' = None
                    ∧ do_dedup s' = do_dedup s
                    ∧ (len (words s) <= reserved_words s
                       ∧ keys_len (map word (words s)) <= words_sect_size s →
                       reserved_words s' = reserved_words s
                       ∧ words_sect_size s' = words_sect_size s).
Proof.
  intros Hst Hcase.
  destruct (first_new_word s) as [k|] eqn:Hfnw.
  - destruct (Z_le_gt_dec (len (words s)) (reserved_words s)) as [H1|H1];
      [destruct (Z_le_gt_dec (keys_len (map word (words s))) (words_sect_size s))
         as [H2|H2]|].
    + destruct (stored_flush_fast uninitialized m dw defs s k Hst Hfnw H2 H1)
        as (s' & Hfl & Hst' & F & D & R & W).
      exists true, s', (dw ++ drop k (words s)), defs. auto 10.
    + destruct Hcase as [Hdd|[_ ?]]; [|lia].
      destruct (stored_flush_rewrite m dw defs s k Hst Hfnw Hdd) as (s' & dw' & defs' & Hfl & Hst' & F & D);
        [lia|].
      exists true, s', dw', defs'. split; [exact Hfl|]. split; [exact Hst'|].
      split; [exact F|]. split; [congruence|]. lia.
    + destruct Hcase as [Hdd|[? _]]; [|lia].
      destruct (stored_flush_rewrite m dw defs s k Hst Hfnw Hdd) as (s' & dw' & defs' & Hfl & Hst' & F & D);
        [lia|].
      exists true, s', dw', defs'. split; [exact Hfl|]. split; [exact Hst'|].
      split; [exact F|]. split; [congruence|]. lia.
  - destruct (stored_flush_none uninitialized m dw defs s Hst Hfnw) as (Hfl & Hst').
    exists false, (open_in s), dw, defs.
    destruct (reopen_as_fields read_only s) as (O1 & O2 & _ & O4 & _ & O6 & _).
    unfold open_in in *. rewrite O1, O2, O4, O6. auto 10.
Qed.

End FlushAny.


(** * Further properties of the code *)

(** ** Little-endian integers *)

Lemma digit_u64 (x k : Z) :
  0 <= k <= 56 → ((x mod 2 ^ 64) / 2 ^ k) mod 256 = (x / 2 ^ k) mod 256.
Proof.
  intros Hk. rewrite (Z.mod_eq x (2 ^ 64)) by lia.
  assert (H64 : 2 ^ 64 = 2 ^ (56 - k) * 256 * 2 ^ k).
  { change 256 with (2 ^ 8). rewrite <- !Z.pow_add_r by lia. f_equal. lia. }
  set (q := x / 2 ^ 64).
  assert (E : x - 2 ^ 64 * q = x + (- q * 2 ^ (56 - k) * 256) * 2 ^ k)
    by (rewrite H64; ring).
  rewrite E, Z.div_add by (apply Z.pow_nonzero; lia).
  replace (- q * 2 ^ (56 - k) * 256) with ((- q * 2 ^ (56 - k)) * 256) by ring.
  rewrite Z_mod_plus_full. reflexivity.
Qed.

Lemma uint64_LE_u64 (x : Z) : uint64_LE (u64 x) = uint64_LE x.
Proof.
  unfold uint64_LE, u64.
  assert (D : ∀ k, 0 <= k <= 56 →
    byte_of (Z.land (Z.shiftr (x mod 2 ^ 64) k) 255) = byte_of (Z.land (Z.shiftr x k) 255)).
  { intros k Hk. apply byte_val_inj. rewrite !digit_val by lia. apply digit_u64; lia. }
  pose proof (D 0) as D0. rewrite !Z.shiftr_0_r in D0.
  rewrite D0, (D 8), (D 16), (D 24), (D 32), (D 40), (D 48), (D 56) by lia. reflexivity.
Qed.

(** The file after a write: what was before the position (with zeros up
    to it when it lies past the end), the data, and what was behind. *)
Lemma write_bytes_split (d : list byte) (f : fstream) :
  d ≠ [] → 0 <= pos f →
  ∃ a b, bytes (write d f) = a ++ d ++ b ∧ len a = pos f.
Proof.
  intros Hd Hpos. cbn [bytes write]. rewrite (overwrite_ne _ _ d Hd).
  eexists _, _. split; [reflexivity|].
  unfold len. rewrite length_app, length_take, length_replicate. lia.
Qed.

(** X1.  A 32-bit value written by [write_uint32_LE] at any position of a
    file, also past its end, is read back by [read_uint32_LE] from that
    position, reduced modulo [2^32]; the read leaves the stream four bytes
    further. *)
Theorem write_read_uint32_LE (x : Z) (f : fstream) :
  0 <= pos f →
  read_uint32_LE (seek (pos f) (write_uint32_LE x f))
  = Ok (u32 x, seek (pos f + 4) (write_uint32_LE x f)).
Proof.
  intros Hpos. unfold write_uint32_LE. rewrite <- (uint32_LE_u32 x).
  destruct (write_bytes_split (uint32_LE (u32 x)) f) as (a & b & Hb & Ha);
    [discriminate|exact Hpos|].
  rewrite (read_uint32_LE_at _ a b (u32 x)).
  - unfold seek. cbn [bytes pos]. rewrite Ha. reflexivity.
  - cbn [bytes seek]. exact Hb.
  - cbn [pos seek]. symmetry. exact Ha.
  - apply u32_range.
Qed.

Lemma write_read_uint32_LE_witness :
  read_uint32_LE (seek 3 (write_uint32_LE (2 ^ 32 + 258) {| bytes := [x61]; pos := 3 |}))
  = Ok (258, seek 7 (write_uint32_LE (2 ^ 32 + 258) {| bytes := [x61]; pos := 3 |})).
Proof.
  apply (write_read_uint32_LE (2 ^ 32 + 258) {| bytes := [x61]; pos := 3 |}).
  simpl. lia.
Defined.

(** X2.  The same for 64-bit values: [read_uint64_LE] returns what
    [write_uint64_LE] wrote at that position, reduced modulo [2^64]. *)
Theorem write_read_uint64_LE (x : Z) (f : fstream) :
  0 <= pos f →
  read_uint64_LE (seek (pos f) (write_uint64_LE x f))
  = Ok (u64 x, seek (pos f + 8) (write_uint64_LE x f)).
Proof.
  intros Hpos. unfold write_uint64_LE. rewrite <- (uint64_LE_u64 x).
  destruct (write_bytes_split (uint64_LE (u64 x)) f) as (a & b & Hb & Ha);
    [discriminate|exact Hpos|].
  rewrite (read_uint64_LE_at _ a b (u64 x)).
  - unfold seek. cbn [bytes pos]. rewrite Ha. reflexivity.
  - cbn [bytes seek]. exact Hb.
  - cbn [pos seek]. symmetry. exact Ha.
  - apply u64_range.
Qed.

Lemma write_read_uint64_LE_witness :
  read_uint64_LE (seek 0 (write_uint64_LE (-1) {| bytes := []; pos := 0 |}))
  = Ok (2 ^ 64 - 1, seek 8 (write_uint64_LE (-1) {| bytes := []; pos := 0 |})).
Proof.
  apply (write_read_uint64_LE (-1) {| bytes := []; pos := 0 |}).
  simpl. lia.
Defined.

(** ** Looking a word up *)

(** X3.  In an index that satisfies its invariant (the entries before
    [first_new_word] sorted, all keys distinct), [find_def_ind] returns
    the def offset of the entry whose word is [w], be it in the sorted
    part, which is searched by bisection, or among the new words, which
    are scanned; when no entry has the word [w] it returns [0xFFFFFFFF]. *)
Theorem find_def_ind_by_word (s : dictionary_file) (w : list byte) :
  index_ok s = true →
  (∀ e, e ∈ words s → word e = w → find_def_ind s w = def_ind e)
  ∧ (w ∉ map word (words s) → find_def_ind s w = not_found).
Proof.
  intros Hok. split.
  - intros e He <-. apply find_def_ind_stored; assumption.
  - apply find_def_ind_absent, Hok.
Qed.

Lemma find_def_ind_by_word_witness :
  find_def_ind sentinel_state [x61] = 7
  ∧ find_def_ind sentinel_state [x63] = not_found.
Proof.
  destruct (find_def_ind_by_word sentinel_state [x61] eq_refl) as [Hin _].
  destruct (find_def_ind_by_word sentinel_state [x63] eq_refl) as [_ Hout].
  split.
  - apply (Hin {| word := [x61]; def_ind := 7 |}); [left|reflexivity].
  - apply Hout. vm_compute. intros H. inversion H as [|? ? ? H']; subst.
    inversion H' as [|? ? ? H'']; subst. inversion H''.
Defined.

Section MoreOnAddWord.

Variable uninitialized : bool → Z → list byte.

(** X4.  With the duplicate check ([skip_dup_check = false]), [add_word]
    of a word the index holds, at a def offset other than [0xFFFFFFFF],
    returns [false] and changes nothing: neither the index nor the file,
    whatever the definition and whether or not it was asked to flush. *)
Theorem add_word_existing_key (flush_words : bool) (s : dictionary_file)
    (e : word_info) (def : list byte) :
  file_open_type s ≠ no_file → index_ok s = true →
  e ∈ words s → def_ind e ≠ not_found →
  add_word uninitialized flush_words false (word e) def s = Ok (false, s).
Proof.
  intros Hopen Hok He Hd. unfold add_word.
  rewrite (find_def_ind_stored s e Hok He).
  destruct (Z.eqb_spec (def_ind e) not_found) as [E|E]; [contradiction|].
  cbn [negb andb]. destruct (file_open_type s); [contradiction|reflexivity..].
Qed.

(** The index after the body of [add_word]. *)
Lemma append_word_words (w def : list byte) (s s' : dictionary_file) :
  append_word w def s = Ok s' →
  ∃ d, words s' = words s ++ [ {| word := w; def_ind := d |} ]
       ∧ first_new_word s' = Some (default (length (words s)) (first_new_word s)).
Proof.
  unfold append_word. intros H.
  set (s0 := match first_new_word s with
             | Some _ => s
             | None => set_words (words s) (Some (length (words s))) s
             end) in H.
  assert (Hs0 : words s0 = words s
                ∧ first_new_word s0 = Some (default (length (words s)) (first_new_word s)))
    by (unfold s0; destruct (first_new_word s) eqn:E; split; cbn; congruence).
  destruct Hs0 as (A1 & A2).
  destruct (if do_dedup s0 then get_existing_def_ind def s0 else Ok (None, s0))
    as [[existing s1]|] eqn:Hex; [|discriminate].
  assert (Hs1 : words s1 = words s0 ∧ first_new_word s1 = first_new_word s0)
    by (remember (do_dedup s0) as dd eqn:Hdd in Hex; destruct dd;
        [apply get_existing_def_ind_fields in Hex; tauto
        |injection Hex as <- <-; split; reflexivity]).
  destruct Hs1 as (B1 & B2).
  state_simpl.
  destruct existing as [d|]; state_simpl.
  - injection H as <-. state_simpl. exists d. rewrite B1, B2, A1, A2. split; reflexivity.
  - destruct (reopen_as_fields read_write s1) as (R1 & R2 & R3 & R4 & R5 & R6 & R7).
    unfold open_in_out in H.
    match type of H with
    | context [if ?c then _ else _] => destruct c; [discriminate|]
    end.
    injection H as <-. eexists.
    rewrite R6; destruct (do_dedup s1); state_simpl;
      rewrite R3, R4, B1, B2, A1, A2; split; reflexivity.
Qed.

Lemma is_sorted_take_app (k : nat) (v x : list word_info) :
  (k <= length v)%nat → take k (v ++ x) = take k v.
Proof. intros Hk. rewrite take_app_le by exact Hk. reflexivity. Qed.

(** X5.  An [add_word] that returns [true] without flushing has put one
    entry for the word at the end of the index and changed no other; if
    the word was not in the index before, the index satisfies its
    invariant again, and [find_def_ind] finds the new word at once, at
    the offset the entry records. *)
Theorem add_word_new_key (skip_dup_check : bool) (w def : list byte)
    (s s' : dictionary_file) :
  index_ok s = true → w ∉ map word (words s) →
  add_word uninitialized false skip_dup_check w def s = Ok (true, s') →
  ∃ d, words s' = words s ++ [ {| word := w; def_ind := d |} ]
       ∧ index_ok s' = true
       ∧ find_def_ind s' w = d.
Proof.
  intros Hok Hw H.
  assert (Hopen : file_open_type s ≠ no_file).
  { intros E. unfold add_word in H. rewrite E in H. discriminate. }
  rewrite add_word_unflushed in H by exact Hopen.
  rewrite (find_def_ind_absent s w Hok Hw), Z.eqb_refl in H.
  cbn [negb andb] in H. rewrite andb_false_r in H.
  destruct (append_word w def s) as [s1|] eqn:Happ; [|discriminate].
  rewrite bind_Ok in H. injection H as <-.
  destruct (append_word_words w def s s1 Happ) as (d & Hwords & Hfnw).
  exists d. split; [exact Hwords|].
  assert (Hok' : index_ok s1 = true).
  { pose proof (index_ok_NoDup s Hok) as Hnd.
    unfold index_ok in *. rewrite Hfnw, Hwords.
    apply andb_true_iff in Hok as [Hsorted Hdist].
    apply andb_true_iff. split.
    - destruct (first_new_word s) as [k|]; cbn [default from_option id].
      + apply andb_true_iff in Hsorted as [Hk Hs].
        apply Nat.leb_le in Hk. apply andb_true_iff. split.
        * apply Nat.leb_le. rewrite length_app. lia.
        * rewrite is_sorted_take_app by exact Hk. exact Hs.
      + apply andb_true_iff. split.
        * apply Nat.leb_le. rewrite length_app. lia.
        * rewrite is_sorted_take_app by lia. rewrite firstn_all. exact Hsorted.
    - apply NoDup_distinct. rewrite map_app. apply NoDup_app. split; [exact Hnd|].
      split; [|apply NoDup_singleton].
      intros k Hk Hk'. apply list_elem_of_singleton in Hk'. subst k. exact (Hw Hk). }
  split; [exact Hok'|].
  apply (find_def_ind_stored s1 {| word := w; def_ind := d |} Hok').
  rewrite Hwords. apply elem_of_app. right. left.
Qed.

End MoreOnAddWord.

Lemma add_word_existing_key_witness :
  add_word no_leftover true false [x61] [x7a] sentinel_state = Ok (false, sentinel_state).
Proof.
  apply (add_word_existing_key no_leftover true sentinel_state
           {| word := [x61]; def_ind := 7 |} [x7a]).
  - discriminate.
  - reflexivity.
  - left.
  - discriminate.
Defined.

Lemma add_word_new_key_witness :
  ∃ d, words (state_of (step no_leftover (op_add false false [x61] [x78])
                          (fresh_dictionary true)))
       = words (fresh_dictionary true) ++ [ {| word := [x61]; def_ind := d |} ]
     ∧ index_ok (state_of (step no_leftover (op_add false false [x61] [x78])
                             (fresh_dictionary true))) = true
     ∧ find_def_ind (state_of (step no_leftover (op_add false false [x61] [x78])
                                 (fresh_dictionary true))) [x61] = d.
Proof.
  apply (add_word_new_key no_leftover false [x61] [x78] (fresh_dictionary true)).
  - reflexivity.
  - intros H. vm_compute in H. inversion H.
  - vm_compute. reflexivity.
Defined.

(** ** Sorting the new words *)

Lemma word_le_neq_lt (a b : word_info) :
  word_ltb b a = false → word_eqb a b = false → word_ltb a b = true.
Proof.
  unfold word_ltb, word_eqb. intros Hle Hne. apply bytes_eqb_neq in Hne.
  destruct (key_ltb_cases (word a) (word b)) as [H|[H|H]]; [exact H|contradiction|congruence].
Qed.

Lemma word_ltb_trans (a b c : word_info) :
  word_ltb a b = true → word_ltb b c = true → word_ltb a c = true.
Proof. unfold word_ltb. apply key_ltb_trans. Qed.

Lemma strict_sorted_words_NoDup (l : list word_info) :
  StronglySorted (fun a b => word_ltb a b = true) l → NoDup (map word l).
Proof.
  induction 1 as [|a l Hs IH Ha]; simpl; [constructor|].
  constructor; [|exact IH].
  intros Hin. apply list_elem_of_fmap in Hin as (b & Hab & Hb).
  rewrite Forall_forall in Ha. specialize (Ha b Hb).
  unfold word_ltb in Ha. rewrite Hab, key_ltb_irrefl in Ha. discriminate.
Qed.

(** Two equal neighbours after the sort mean two equal words before. *)
Lemma adjacent_find_sorted_words (l : list word_info) :
  adjacent_find word_eqb (sort_by word_ltb l) = true ↔ ¬ NoDup (map word l).
Proof.
  split.
  - intros H Hnd.
    rewrite adjacent_find_distinct in H; [discriminate|].
    rewrite (sort_by_perm word_ltb). exact Hnd.
  - intros Hdup.
    destruct (adjacent_find word_eqb (sort_by word_ltb l)) eqn:E; [reflexivity|].
    exfalso. apply Hdup.
    rewrite <- (sort_by_perm word_ltb l).
    apply strict_sorted_words_NoDup.
    apply (adjacent_find_false_strict word_ltb word_eqb word_le_neq_lt word_ltb_trans).
    + apply (sort_by_sorted word_ltb word_ltb_asym word_le_trans).
    + exact E.
Qed.

(** X6.  [sort_words] raises "Repeated words were inserted" exactly when
    two of the words added since the last flush are equal; a new word
    equal to one of the words before [first_new_word] is not noticed.
    Otherwise it leaves a permutation of the index, with no new words. *)
Theorem sort_words_repeats (k : nat) (s : dictionary_file) :
  (sort_words k s = Err RepeatedWordsInserted ↔ ¬ NoDup (map word (drop k (words s))))
  ∧ (∀ s', sort_words k s = Ok s' →
       words s' ≡ₚ words s ∧ first_new_word s' = None
       ∧ NoDup (map word (drop k (words s)))).
Proof.
  pose proof (adjacent_find_sorted_words (drop k (words s))) as Hadj.
  unfold sort_words.
  destruct (adjacent_find word_eqb (sort_by word_ltb (drop k (words s)))) eqn:E.
  - split; [split; [intros _; apply Hadj; reflexivity|reflexivity]|discriminate].
  - assert (Hnd : NoDup (map word (drop k (words s)))).
    { destruct (decide (NoDup (map word (drop k (words s))))) as [H|H]; [exact H|].
      apply Hadj in H. discriminate. }
    split.
    + split; [discriminate|]. intros H. contradiction.
    + intros s' [= <-]. cbn [words first_new_word set_words].
      split; [|split; [reflexivity|exact Hnd]].
      rewrite merge_by_perm, sort_by_perm, take_drop. reflexivity.
Qed.

(** ** Flushing *)

Lemma reopen_as_same (t : open_type) (s : dictionary_file) :
  file_open_type s = t → t = read_only ∨ t = read_write → reopen_as t s = s.
Proof.
  intros <- [E|E]; unfold reopen_as; rewrite E; reflexivity.
Qed.

Section MoreOnFlush.

Variable uninitialized : bool → Z → list byte.

Lemma rewrite_file_type (old_rw old_wss : Z) (s s' : dictionary_file) :
  rewrite_file uninitialized old_rw old_wss s = Ok s' → file_open_type s' = read_only.
Proof.
  unfold rewrite_file.
  destruct (write_words _ _ _) as [bytes_written f2].
  destruct (rewrite_defs _ _ _ _ _ _ _ _) as [[[[ws f] f2'] defs]|]; [|discriminate].
  cbn [mbind result_bind]. intros [= <-]. apply reopen_as_type.
Qed.

Lemma flush_result (s s' : dictionary_file) (b : bool) :
  flush uninitialized s = Ok (b, s') →
  file_open_type s' = read_only ∧ first_new_word s' = None
  ∧ (b = true ↔ is_Some (first_new_word s)).
Proof.
  intros H. apply flush_inv in H.
  destruct (first_new_word s) as [k|] eqn:Hfnw.
  - destruct H as (-> & wss & _ & H). cbv zeta in H.
    assert (Hb : true = true ↔ is_Some (Some k)) by (split; eauto).
    destruct (negb (wss =? words_sect_size s) || (reserved_words s <? len (words s))).
    + destruct H as (s2 & rw & Hsort & _ & Hrew).
      apply sort_words_fields in Hsort as (_ & _ & _ & S4 & _).
      split; [eapply rewrite_file_type, Hrew|].
      split; [|exact Hb].
      apply rewrite_file_fields in Hrew as (_ & _ & _ & W4). rewrite W4. exact S4.
    + destruct H as (s2 & Hsort & ->).
      apply sort_words_fields in Hsort as (_ & _ & _ & S4 & _).
      split; [apply reopen_as_type|]. split; [|exact Hb].
      destruct (reopen_as_fields read_only s2) as (_ & _ & _ & O4 & _).
      unfold open_in. rewrite O4. exact S4.
  - destruct H as (-> & ->). split; [apply reopen_as_type|].
    split.
    + destruct (reopen_as_fields read_only s) as (_ & _ & _ & O4 & _).
      unfold open_in. rewrite O4. exact Hfnw.
    + split; [discriminate|]. intros [x Hx]. discriminate.
Qed.

(** X7.  [flush] returns [true] exactly when the index held words added
    since the last flush.  After a [flush] that returns, none is pending
    and the file is open for reading: a second [flush] returns [false] and
    changes nothing. *)
Theorem flush_twice (s s' : dictionary_file) (b : bool) :
  flush uninitialized s = Ok (b, s') →
  (b = true ↔ is_Some (first_new_word s))
  ∧ first_new_word s' = None
  ∧ flush uninitialized s' = Ok (false, s').
Proof.
  intros H. destruct (flush_result s s' b H) as (Ht & Hf & Hb).
  split; [exact Hb|]. split; [exact Hf|].
  unfold flush. rewrite Ht, Hf. unfold open_in.
  rewrite (reopen_as_same read_only s' Ht) by (left; reflexivity). reflexivity.
Qed.

(** X8.  [flush] keeps the invariant of the index and the set of keys:
    when the index satisfies the invariant (sorted up to [first_new_word],
    keys distinct), a [flush] that returns leaves an index with the same
    keys, sorted all through, which satisfies the invariant again, whether
    the file was updated in place or rewritten. *)
Theorem flush_keeps_index (s s' : dictionary_file) (b : bool) :
  index_ok s = true → flush uninitialized s = Ok (b, s') →
  map word (words s') ≡ₚ map word (words s)
  ∧ is_sorted (words s') = true
  ∧ index_ok s' = true.
Proof.
  intros Hok H.
  destruct (flush_result s s' b H) as (_ & Hf & _).
  pose proof (index_ok_NoDup s Hok) as Hnd.
  assert (Hmain : map word (words s') ≡ₚ map word (words s) ∧ is_sorted (words s') = true).
  { apply flush_inv in H.
    unfold index_ok in Hok. apply andb_true_iff in Hok as [Hsorted _].
    destruct (first_new_word s) as [k|] eqn:Hfnw.
    - apply andb_true_iff in Hsorted as [_ Hsorted].
      destruct H as (_ & wss & _ & H). cbv zeta in H.
      destruct (reopen_as_fields read_write s) as (_ & _ & R3 & _).
      unfold open_in_out in H.
      destruct (negb (wss =? words_sect_size s) || (reserved_words s <? len (words s))).
      + destruct H as (s2 & rw & Hsort & _ & Hrew).
        destruct (sort_words_ok k (set_sizes (reserved_words s) wss (reopen_as read_write s)))
          as (ws & Hsort' & Hperm & Hs).
        { cbn [words set_sizes]. rewrite R3. exact Hnd. }
        { cbn [words set_sizes]. rewrite R3. exact Hsorted. }
        rewrite Hsort' in Hsort. injection Hsort as <-.
        apply rewrite_file_fields in Hrew as (_ & _ & W3 & _).
        cbn [words set_sizes set_words] in W3, Hperm. rewrite R3 in Hperm.
        split.
        * rewrite W3. apply Permutation_map, Hperm.
        * rewrite (is_sorted_words _ _ W3). exact Hs.
      + destruct H as (s2 & Hsort & ->).
        match type of Hsort with
        | sort_words k ?x = _ =>
          destruct (sort_words_ok k x) as (ws & Hsort' & Hperm & Hs)
        end.
        { cbn [words set_sizes set_file]. rewrite R3. exact Hnd. }
        { cbn [words set_sizes set_file]. rewrite R3. exact Hsorted. }
        rewrite Hsort' in Hsort. injection Hsort as <-.
        cbn [words set_sizes set_file] in Hperm. rewrite R3 in Hperm.
        match goal with
        | |- context [open_in ?x] =>
          destruct (reopen_as_fields read_only x) as (_ & _ & O3 & _)
        end.
        unfold open_in. rewrite O3. cbn [words set_words].
        split; [apply Permutation_map, Hperm|exact Hs].
    - destruct H as (_ & ->).
      destruct (reopen_as_fields read_only s) as (_ & _ & O3 & _).
      unfold open_in. rewrite O3. split; [reflexivity|exact Hsorted]. }
  destruct Hmain as [Hperm Hs]. split; [exact Hperm|]. split; [exact Hs|].
  unfold index_ok. rewrite Hf, Hs. cbn [andb].
  apply NoDup_distinct. rewrite Hperm. exact Hnd.
Qed.

End MoreOnFlush.

Lemma flush_twice_witness :
  (true = true ↔ is_Some (first_new_word one_new_word))
  ∧ first_new_word (state_of (step no_leftover op_flush one_new_word)) = None
  ∧ flush no_leftover (state_of (step no_leftover op_flush one_new_word))
    = Ok (false, state_of (step no_leftover op_flush one_new_word)).
Proof.
  apply (flush_twice no_leftover one_new_word
           (state_of (step no_leftover op_flush one_new_word)) true).
  vm_compute. reflexivity.
Defined.

Lemma flush_keeps_index_witness :
  map word (words (state_of (step no_leftover op_flush one_new_word)))
    ≡ₚ map word (words one_new_word)
  ∧ is_sorted (words (state_of (step no_leftover op_flush one_new_word))) = true
  ∧ index_ok (state_of (step no_leftover op_flush one_new_word)) = true.
Proof.
  apply (flush_keeps_index no_leftover one_new_word
           (state_of (step no_leftover op_flush one_new_word)) true).
  - vm_compute. reflexivity.
  - vm_compute. reflexivity.
Defined.


(** ** Sessions on a fresh dictionary *)

Lemma stored_holds (m : list (list byte * list byte)) (dw : list word_info)
    (defs : list byte) (s : dictionary_file) :
  stored m dw defs s → holds s m.
Proof.
  intros Hst k c. split.
  - intros v Hkv. destruct (stored_find m dw defs s Hst k v c Hkv) as (Hc & s' & Hf & _).
    split; [exact Hc|]. exists s'. exact Hf.
  - intros Hk. apply (stored_find_absent m dw defs s Hst k c Hk).
Qed.

Section SmallSessions.

Variable uninitialized : bool → Z → list byte.

Lemma run_app (a b : list operation) (s : dictionary_file) :
  run uninitialized (a ++ b) s = (s1 ← run uninitialized a s; run uninitialized b s1).
Proof.
  revert s. induction a as [|o a IH]; intros s; [reflexivity|].
  cbn [app run]. destruct (step uninitialized o s) as [s1|e]; [|reflexivity].
  rewrite !bind_Ok. apply IH.
Qed.

(** The state after the insertions, before any flush. *)
Lemma inserts_stored (deduplicate check_defs skip_dup_check : bool)
    (kvs : list (list byte * list byte)) :
  valid_pairs kvs = true →
  (deduplicate = true → collision_free (map snd kvs) = true) →
  ∃ s defs, session uninitialized deduplicate check_defs (inserts skip_dup_check kvs) = Ok s
            ∧ stored kvs [] defs s
            ∧ do_dedup s = deduplicate
            ∧ reserved_words s = 32 ∧ words_sect_size s = 256.
Proof.
  intros Hvalid Hcoll.
  destruct (valid_pairs_spec kvs Hvalid) as (Hnd & Hnul & Hne & Hfits).
  unfold session. rewrite created_state, bind_Ok.
  destruct (stored_inserts uninitialized [] skip_dup_check kvs [] []
              (fresh_dictionary deduplicate) (stored_create deduplicate))
    as (s & defs & Hrun & Hst & D & R & W & _); try assumption.
  - intros Hdd. apply collision_free_no_collision, Hcoll.
    destruct deduplicate; [reflexivity|discriminate].
  - exists s, defs. split; [exact Hrun|]. split; [exact Hst|].
    rewrite D, R, W. destruct deduplicate; repeat split.
Qed.


(** *** Any run of [add_word] and [flush] *)

Lemma added_cons_add (fl sk : bool) (w def : list byte) (ops : list operation) :
  added (op_add fl sk w def :: ops) = (w, def) :: added ops.
Proof. reflexivity. Qed.

Lemma added_cons_flush (ops : list operation) : added (op_flush :: ops) = added ops.
Proof. reflexivity. Qed.

Lemma added_app (a b : list operation) : added (a ++ b) = added a ++ added b.
Proof. unfold added. apply omap_app. Qed.

Lemma added_inserts (sk : bool) (kvs : list (list byte * list byte)) :
  added (inserts sk kvs) = kvs.
Proof.
  induction kvs as [|[k v] kvs IH]; [reflexivity|].
  cbn [inserts map]. rewrite added_cons_add. cbn [fst snd]. f_equal. exact IH.
Qed.

(** [flush] on a stored state that [grows_safely]. *)
Lemma stored_flush_safely (m rest : list (list byte * list byte)) (dw : list word_info)
    (defs : list byte) (s : dictionary_file) :
  stored m dw defs s → grows_safely s (m ++ rest) →
  ∃ b s' dw' defs', flush uninitialized s = Ok (b, s')
                    ∧ stored m dw' defs' s'
                    ∧ do_dedup s' = do_dedup s
                    ∧ grows_safely s' (m ++ rest).
Proof.
  intros Hst Hsafe.
  assert (Hlen : len (words s) = len m).
  { rewrite <- (len_map word), <- (len_map fst m). apply len_perm, (st_keys _ _ _ _ Hst). }
  assert (Hkl : keys_len (map word (words s)) = keys_len (map fst m)).
  { apply keys_len_perm, (st_keys _ _ _ _ Hst). }
  assert (Hfit : do_dedup s = true ∨ len (words s) <= reserved_words s
                                     ∧ keys_len (map word (words s)) <= words_sect_size s).
  { destruct Hsafe as [Hdd|(R & W & Hn & HL)]; [left; exact Hdd|right].
    rewrite map_app, len_app, keys_len_app in *.
    pose proof (len_nonneg rest). pose proof (keys_len_nonneg (map fst rest)). lia. }
  destruct (stored_flush uninitialized m dw defs s Hst Hfit)
    as (b & s' & dw' & defs' & Hfl & Hst' & _ & D & Hsizes).
  exists b, s', dw', defs'. split; [exact Hfl|]. split; [exact Hst'|]. split; [exact D|].
  destruct Hsafe as [Hdd|(R & W & Hn & HL)]; [left; congruence|right].
  destruct Hsizes as [R' W'].
  { rewrite map_app, len_app, keys_len_app in *.
    pose proof (len_nonneg rest). pose proof (keys_len_nonneg (map fst rest)). lia. }
  rewrite R', W'. auto.
Qed.

(** A run of operations that add new words, on a stored state. *)
Lemma stored_run (ops : list operation) :
  ∀ (m : list (list byte * list byte)) (dw : list word_info) (defs : list byte)
    (s : dictionary_file),
  stored m dw defs s →
  NoDup (map fst (m ++ added ops)) →
  Forall (fun k => nul_free k = true) (map fst (added ops)) →
  Forall (fun v => 0 < len v) (map snd (added ops)) →
  fits (m ++ added ops) →
  (do_dedup s = true → no_collision (map snd (m ++ added ops))) →
  grows_safely s (m ++ added ops) →
  ∃ s' dw' defs', run uninitialized ops s = Ok s'
                  ∧ stored (m ++ added ops) dw' defs' s'
                  ∧ do_dedup s' = do_dedup s.
Proof.
  induction ops as [|o ops IH]; intros m dw defs s Hst Hnd Hnul Hne Hfits Hnc Hsafe.
  - exists s, dw, defs. cbn [added omap list_omap]. rewrite app_nil_r. auto.
  - destruct o as [fl sk w def|].
    + rewrite added_cons_add in *.
      apply Forall_cons in Hnul as [Hw Hnul]. apply Forall_cons in Hne as [Hdef Hne].
      replace (m ++ (w, def) :: added ops) with ((m ++ [(w, def)]) ++ added ops) in *
        by (rewrite <- app_assoc; reflexivity).
      destruct (stored_add uninitialized m dw defs s sk w def Hst)
        as (s1 & x & Hadd & Hst1 & D1 & R1 & W1 & _).
      { rewrite !map_app in Hnd. apply NoDup_app in Hnd as (Hnd & _ & _).
        apply NoDup_app in Hnd as (_ & Hdisj & _).
        intros Hin. apply (Hdisj w Hin). left. }
      { exact Hw. }
      { exact Hdef. }
      { apply (fits_prefix _ (added ops)), Hfits. }
      { intros Hdd. eapply no_collision_sub; [|apply Hnc, Hdd].
        intros v Hv. rewrite map_app. apply elem_of_app. left. exact Hv. }
      assert (Hsafe1 : grows_safely s1 ((m ++ [(w, def)]) ++ added ops)).
      { destruct Hsafe as [Hdd|(R & W & Hn)]; [left; congruence|right].
        rewrite R1, W1. auto. }
      assert (Hstep : ∃ s2 dw2 defs2,
                step uninitialized (op_add fl sk w def) s = Ok s2
                ∧ stored (m ++ [(w, def)]) dw2 defs2 s2
                ∧ do_dedup s2 = do_dedup s
                ∧ grows_safely s2 ((m ++ [(w, def)]) ++ added ops)).
      { destruct fl.
        - destruct (stored_flush_safely (m ++ [(w, def)]) (added ops) dw (defs ++ x) s1
                      Hst1 Hsafe1) as (b & s2 & dw2 & defs2 & Hfl & Hst2 & D2 & Hsafe2).
          exists s2, dw2, defs2. split; [|split; [exact Hst2|split; [congruence|exact Hsafe2]]].
          cbn [step]. rewrite add_word_flushing, Hadd, bind_Ok, Hfl, !bind_Ok. reflexivity.
        - exists s1, dw, (defs ++ x). split; [|auto].
          cbn [step]. rewrite Hadd, bind_Ok. reflexivity. }
      destruct Hstep as (s2 & dw2 & defs2 & Hstep & Hst2 & D2 & Hsafe2).
      destruct (IH (m ++ [(w, def)]) dw2 defs2 s2 Hst2 Hnd Hnul Hne Hfits)
        as (s' & dw' & defs' & Hrun & Hst' & D').
      { rewrite D2. exact Hnc. }
      { exact Hsafe2. }
      exists s', dw', defs'. cbn [run]. rewrite Hstep, bind_Ok.
      split; [exact Hrun|]. split; [exact Hst'|congruence].
    + rewrite added_cons_flush in *.
      destruct (stored_flush_safely m (added ops) dw defs s Hst Hsafe)
        as (b & s2 & dw2 & defs2 & Hfl & Hst2 & D2 & Hsafe2).
      destruct (IH m dw2 defs2 s2 Hst2 Hnd Hnul Hne Hfits)
        as (s' & dw' & defs' & Hrun & Hst' & D').
      { rewrite D2. exact Hnc. }
      { exact Hsafe2. }
      exists s', dw', defs'. cbn [run step]. rewrite Hfl, !bind_Ok.
      split; [exact Hrun|]. split; [exact Hst'|congruence].
Qed.

(** The state a session reaches. *)
Lemma session_stored (deduplicate check_defs : bool) (ops : list operation) :
  valid_pairs (added ops) = true →
  (deduplicate = true → collision_free (map snd (added ops)) = true) →
  deduplicate = true ∨ small_pairs (added ops) = true →
  ∃ s dw defs, session uninitialized deduplicate check_defs ops = Ok s
               ∧ stored (added ops) dw defs s.
Proof.
  intros Hvalid Hcoll Hmode.
  destruct (valid_pairs_spec _ Hvalid) as (Hnd & Hnul & Hne & Hfits).
  unfold session. rewrite created_state, bind_Ok.
  destruct (stored_run ops [] [] [] (fresh_dictionary deduplicate) (stored_create deduplicate))
    as (s & dw & defs & Hrun & Hst & _); try assumption.
  - intros Hdd. apply collision_free_no_collision, Hcoll.
    destruct deduplicate; [reflexivity|discriminate].
  - destruct Hmode as [->|Hsmall]; [left; reflexivity|right].
    unfold small_pairs in Hsmall. apply andb_true_iff in Hsmall as [Hn HL].
    apply Z.leb_le in Hn, HL. destruct deduplicate; repeat split; assumption.
  - exists s, dw, defs. auto.
Qed.

End SmallSessions.


(** ** Hashing a stored definition *)

(** X9.  [hash_existing_def] reads the payload of a record in batches of
    4096 bytes and chains FNV-1a over them; for a record of 1 to
    [2^32 - 1] payload bytes, when the expected size is 0 or the size of
    the record, it returns the FNV-1a-64 hash of the whole payload, that is
    the very value [add_word] stores in the header; for another expected
    size it returns the empty optional.  The file is left as it was. *)
Theorem hash_existing_def_payload (f : fstream) (A B v : list byte) (off d expected : Z) :
  bytes f = A ++ def_record v ++ B → off + d = len A → 0 < len v < 2 ^ 32 →
  ∃ f', hash_existing_def d expected off f
        = Ok (if (expected =? 0) || (expected =? len v)
              then Some (fnv1a v fnv_init) else None, f')
        ∧ bytes f' = bytes f.
Proof.
  intros Hb Hp Hs.
  destruct (Z.eqb_spec expected 0) as [E0|E0].
  - cbn [orb]. apply (hash_existing_def_at f A B v off d Hb Hp Hs). left. exact E0.
  - destruct (Z.eqb_spec expected (len v)) as [E1|E1]; cbn [orb].
    + apply (hash_existing_def_at f A B v off d Hb Hp Hs). right. exact E1.
    + eexists. split; [apply (hash_existing_def_other_size f A B v off d Hb Hp Hs); assumption|].
      reflexivity.
Qed.

Lemma hash_existing_def_payload_witness :
  ∃ f', hash_existing_def 2 0 1 {| bytes := [x00; x00; x00] ++ def_record [x78; x79] ++ [x00];
                                   pos := 0 |}
        = Ok (Some (fnv1a [x78; x79] fnv_init), f')
        ∧ bytes f' = [x00; x00; x00] ++ def_record [x78; x79] ++ [x00].
Proof.
  apply (hash_existing_def_payload
           {| bytes := [x00; x00; x00] ++ def_record [x78; x79] ++ [x00]; pos := 0 |}
           [x00; x00; x00] [x00] [x78; x79] 1 2 0).
  - reflexivity.
  - reflexivity.
  - vm_compute. split; reflexivity.
Defined.

(** ** Insertions, flush and reopening *)

Section SessionProperties.

Variable uninitialized : bool → Z → list byte.

(** X10.  Words added to a fresh dictionary are found before any flush.
    For pairs with distinct keys without null bytes and definitions that
    are not empty, within the limits of the format, and, when the
    dictionary deduplicates, with no two different definitions of the same
    size and FNV-1a hash: every [add_word<false, _>] goes through, and then
    [contains] and [find] answer for exactly these pairs. *)
Theorem inserted_words_found (deduplicate check_defs skip_dup_check : bool)
    (kvs : list (list byte * list byte)) :
  valid_pairs kvs = true →
  (deduplicate = true → collision_free (map snd kvs) = true) →
  ∃ s, session uninitialized deduplicate check_defs (inserts skip_dup_check kvs) = Ok s
       ∧ holds s kvs.
Proof.
  intros Hvalid Hcoll.
  destruct (inserts_stored uninitialized deduplicate check_defs skip_dup_check kvs
              Hvalid Hcoll) as (s & defs & Hrun & Hst & _).
  exists s. split; [exact Hrun|]. eapply stored_holds, Hst.
Qed.


(** X12.  Any session on a fresh dictionary, with deduplication.  For a
    run of [add_word] calls, flushing or not, checking for duplicates or
    not, and of [flush] calls in any order, which adds pairs with distinct
    keys without null bytes and definitions that are not empty, within the
    limits of the format, no two different definitions having the same size
    and FNV-1a hash: every call goes through, however often the file is
    rewritten to grow, and then [contains] and [find] answer for exactly
    the pairs added.  Without deduplication the same holds as long as the
    pairs fit the sections of the fresh file (32 words, 256 bytes of
    keys). *)
Theorem session_holds (deduplicate check_defs : bool) (ops : list operation) :
  valid_pairs (added ops) = true →
  (deduplicate = true → collision_free (map snd (added ops)) = true) →
  deduplicate = true ∨ small_pairs (added ops) = true →
  ∃ s, session uninitialized deduplicate check_defs ops = Ok s
       ∧ num_words s = len (added ops)
       ∧ holds s (added ops).
Proof.
  intros Hvalid Hcoll Hmode.
  destruct (session_stored uninitialized deduplicate check_defs ops Hvalid Hcoll Hmode)
    as (s & dw & defs & Hrun & Hst).
  exists s. split; [exact Hrun|]. split; [|eapply stored_holds, Hst].
  unfold num_words. rewrite <- (len_map word), <- (len_map fst (added ops)).
  apply len_perm, (st_keys _ _ _ _ Hst).
Qed.

(** X13.  Round trip through the file.  The file such a session leaves
    after a last [flush], opened again with any options (deduplication and
    the check of the hashes on or off), loads without error, and the new
    object holds as many words as were added and answers for exactly the
    pairs added. *)
Theorem dictionary_round_trip (deduplicate check_defs : bool) (ops : list operation) :
  valid_pairs (added ops) = true →
  (deduplicate = true → collision_free (map snd (added ops)) = true) →
  deduplicate = true ∨ small_pairs (added ops) = true →
  ∃ s, session uninitialized deduplicate check_defs (ops ++ [op_flush]) = Ok s
       ∧ ∀ create deduplicate' check_defs',
           ∃ s', dictionary_file_at (Regular (bytes (file s))) create deduplicate' check_defs'
                 = Ok s'
                 ∧ num_words s' = len (added ops)
                 ∧ holds s' (added ops).
Proof.
  intros Hvalid Hcoll Hmode.
  assert (Hadded : added (ops ++ [op_flush]) = added ops).
  { rewrite added_app. cbn. apply app_nil_r. }
  destruct (session_stored uninitialized deduplicate check_defs (ops ++ [op_flush]))
    as (s & dw & defs & Hrun & Hst); rewrite ?Hadded; try assumption.
  rewrite Hadded in Hst.
  assert (Hfnw : first_new_word s = None).
  { unfold session in Hrun. rewrite created_state, bind_Ok, run_app in Hrun.
    destruct (run uninitialized ops (fresh_dictionary deduplicate)) as [s1|]; [|discriminate].
    rewrite bind_Ok in Hrun. cbn [run step] in Hrun.
    destruct (flush uninitialized s1) as [[b s2]|] eqn:Hfl; [|discriminate].
    rewrite !bind_Ok in Hrun. injection Hrun as <-.
    apply (flush_result uninitialized s1 s2 b Hfl). }
  exists s. split; [exact Hrun|]. intros create dd' cd'.
  destruct (stored_reopen (added ops) dw defs s create dd' cd' Hst Hfnw)
    as (s' & Hopen & Hst' & _).
  exists s'. split; [exact Hopen|]. split; [|eapply stored_holds, Hst'].
  unfold num_words. rewrite <- (len_map word), <- (len_map fst (added ops)).
  apply len_perm, (st_keys _ _ _ _ Hst').
Qed.

Lemma holds_answer (s : dictionary_file) (kvs : list (list byte * list byte))
    (k : list byte) (c : bool) :
  NoDup (map fst kvs) → holds s kvs →
  (∀ v, (k, v) ∈ kvs → contains s k = true ∧ answer k c s = Some (Some v))
  ∧ (k ∉ map fst kvs → contains s k = false ∧ answer k c s = Some None).
Proof.
  intros Hnd Hh. destruct (Hh k c) as [Hin Hout]. split.
  - intros v Hv. destruct (Hin v Hv) as (Hc & s' & Hf). split; [exact Hc|].
    unfold answer. rewrite Hf. reflexivity.
  - intros Hk. destruct (Hout Hk) as (Hc & Hf). split; [exact Hc|].
    unfold answer. rewrite Hf. reflexivity.
Qed.

(** X14.  Deduplication is not observable through lookups, collisions
    apart: for a session whose pairs fit the sections of a fresh file and
    include no two different definitions of the same size and FNV-1a hash,
    the run with deduplication and the run without both go through, and
    [contains] and [find] return the same for every word in the two
    dictionaries. *)
Theorem dedup_unobservable (check_defs : bool) (ops : list operation) :
  valid_pairs (added ops) = true →
  collision_free (map snd (added ops)) = true →
  small_pairs (added ops) = true →
  ∃ s_on s_off,
    session uninitialized true check_defs ops = Ok s_on
    ∧ session uninitialized false check_defs ops = Ok s_off
    ∧ ∀ k check_def, contains s_on k = contains s_off k
                     ∧ answer k check_def s_on = answer k check_def s_off.
Proof.
  intros Hvalid Hcoll Hsmall.
  destruct (valid_pairs_spec _ Hvalid) as (Hnd & _).
  destruct (session_holds true check_defs ops Hvalid) as (s_on & Hon & _ & Hhon);
    [auto|auto|].
  destruct (session_holds false check_defs ops Hvalid) as (s_off & Hoff & _ & Hhoff);
    [discriminate|auto|].
  exists s_on, s_off. split; [exact Hon|]. split; [exact Hoff|].
  intros k c.
  destruct (holds_answer s_on (added ops) k c Hnd Hhon) as [Hin1 Hout1].
  destruct (holds_answer s_off (added ops) k c Hnd Hhoff) as [Hin2 Hout2].
  destruct (decide (k ∈ map fst (added ops))) as [Hk|Hk].
  - apply list_elem_of_fmap in Hk as ([k' v] & -> & Hkv). cbn [fst] in *.
    destruct (Hin1 v Hkv) as [-> ->]. destruct (Hin2 v Hkv) as [-> ->]. split; reflexivity.
  - destruct (Hout1 Hk) as [-> ->]. destruct (Hout2 Hk) as [-> ->]. split; reflexivity.
Qed.

End SessionProperties.

Lemma inserted_words_found_witness :
  ∃ s, session no_leftover true true (inserts false sample_pairs) = Ok s
       ∧ holds s sample_pairs.
Proof.
  apply (inserted_words_found no_leftover true true false sample_pairs).
  - reflexivity.
  - intros _. vm_compute. reflexivity.
Defined.


Lemma session_holds_witness :
  ∃ s, session no_leftover true true growing_ops = Ok s
       ∧ num_words s = len (added growing_ops)
       ∧ holds s (added growing_ops).
Proof.
  apply (session_holds no_leftover true true growing_ops).
  - vm_compute. reflexivity.
  - intros _. vm_compute. reflexivity.
  - left. reflexivity.
Defined.

Lemma dictionary_round_trip_witness :
  ∃ s, session no_leftover true false (growing_ops ++ [op_flush]) = Ok s
       ∧ ∀ create deduplicate' check_defs',
           ∃ s', dictionary_file_at (Regular (bytes (file s))) create deduplicate' check_defs'
                 = Ok s'
                 ∧ num_words s' = len (added growing_ops)
                 ∧ holds s' (added growing_ops).
Proof.
  apply (dictionary_round_trip no_leftover true false growing_ops).
  - vm_compute. reflexivity.
  - intros _. vm_compute. reflexivity.
  - left. reflexivity.
Defined.

Lemma dedup_unobservable_witness :
  ∃ s_on s_off,
    session no_leftover true true (inserts false sample_pairs ++ [op_flush]) = Ok s_on
    ∧ session no_leftover false true (inserts false sample_pairs ++ [op_flush]) = Ok s_off
    ∧ ∀ k check_def, contains s_on k = contains s_off k
                     ∧ answer k check_def s_on = answer k check_def s_off.
Proof.
  apply (dedup_unobservable no_leftover true (inserts false sample_pairs ++ [op_flush])).
  - vm_compute. reflexivity.
  - vm_compute. reflexivity.
  - vm_compute. reflexivity.
Defined.


(** ** What deduplication takes for the same definition *)

Lemma push_lookup_new (size hash ind : Z) (idx : gmap Z (gmap Z (list Z))) :
  ∃ inner cands, push_existing_def size hash ind idx !! size = Some inner
                 ∧ inner !! hash = Some cands ∧ cands ≠ [].
Proof.
  unfold push_existing_def. eexists _, _.
  split; [apply lookup_insert_eq|]. split; [apply lookup_insert_eq|].
  intros H. apply app_eq_nil in H as [_ H]. discriminate.
Qed.

Lemma push_lookup_old (size hash ind : Z) (idx : gmap Z (gmap Z (list Z)))
    (size' hash' : Z) (inner : gmap Z (list Z)) (cands : list Z) :
  idx !! size' = Some inner → inner !! hash' = Some cands → cands ≠ [] →
  ∃ inner' cands', push_existing_def size hash ind idx !! size' = Some inner'
                   ∧ inner' !! hash' = Some cands' ∧ cands' ≠ [].
Proof.
  intros H1 H2 H3. unfold push_existing_def.
  destruct (decide (size = size')) as [->|Hs].
  - rewrite H1. cbn [default from_option id].
    destruct (decide (hash = hash')) as [->|Hh].
    + rewrite H2. cbn [default from_option id].
      eexists _, _. split; [apply lookup_insert_eq|]. split; [apply lookup_insert_eq|].
      intros H. apply app_eq_nil in H as [_ H]. discriminate.
    + eexists _, cands. split; [apply lookup_insert_eq|].
      split; [rewrite lookup_insert_ne by exact Hh; exact H2|exact H3].
  - exists inner, cands. split; [rewrite lookup_insert_ne by exact Hs; exact H1|auto].
Qed.

Lemma first_matching_def_hit (cands : list Z) (size hash off : Z) (f f' : fstream) (c : Z) :
  first_matching_def cands size hash off f = Ok (Some c, f') → cands ≠ [].
Proof. destruct cands; [discriminate|discriminate]. Qed.

(** The dedup index after the body of [add_word]: what was indexed stays
    indexed, and the definition is indexed now. *)
Lemma append_word_indexed (m : list (list byte * list byte)) (w def : list byte)
    (s s' : dictionary_file) :
  append_word w def s = Ok s' → do_dedup s = true → 0 < len def < 2 ^ 32 →
  indexed m s → indexed (m ++ [(w, def)]) s'.
Proof.
  unfold append_word. intros H Hdd Hlen Hidx.
  set (s0 := match first_new_word s with
             | Some _ => s
             | None => set_words (words s) (Some (length (words s))) s
             end) in H.
  assert (Hs0 : do_dedup s0 = true ∧ existing_defs s0 = existing_defs s)
    by (unfold s0; destruct (first_new_word s); split; assumption || reflexivity).
  destruct Hs0 as (A1 & A2). rewrite A1 in H.
  destruct (get_existing_def_ind def s0) as [[existing s1]|] eqn:Hex; [|discriminate].
  pose proof (get_existing_def_ind_fields def s0 s1 existing Hex)
    as (_ & _ & _ & _ & B5 & B6 & _).
  rewrite bind_Ok in H.
  assert (Hkeep : ∀ idx' : gmap Z (gmap Z (list Z)), (∀ size h inner cands,
              existing_defs s !! size = Some inner → inner !! h = Some cands → cands ≠ [] →
              ∃ inner' cands', idx' !! size = Some inner' ∧ inner' !! h = Some cands'
                               ∧ cands' ≠ []) →
            (∃ inner cands, idx' !! len def = Some inner
                            ∧ inner !! fnv1a def fnv_init = Some cands ∧ cands ≠ []) →
            ∀ v, v ∈ map snd (m ++ [(w, def)]) →
              ∃ inner cands, idx' !! len v = Some inner
                             ∧ inner !! fnv1a v fnv_init = Some cands ∧ cands ≠ []).
  { intros idx' Hold Hnew v Hv. rewrite map_app in Hv. apply elem_of_app in Hv as [Hv|Hv].
    - destruct (Hidx v Hv) as (inner & cands & H1 & H2 & H3). eapply Hold; eassumption.
    - apply list_elem_of_singleton in Hv. subst v. exact Hnew. }
  destruct existing as [d|].
  - (* a record of that size and hash was found *)
    injection H as <-. unfold indexed.
    cbn [existing_defs set_words]. rewrite B5, A2.
    apply Hkeep; [eauto|].
    unfold get_existing_def_ind in Hex. rewrite u32_small in Hex by lia. rewrite A2 in Hex.
    destruct (existing_defs s !! len def) as [inner|] eqn:E1; [|discriminate].
    destruct (inner !! fnv1a def fnv_init) as [cands|] eqn:E2; [|discriminate].
    destruct (first_matching_def _ _ _ _ _) as [[r f]|] eqn:Hfm; [|discriminate].
    rewrite bind_Ok in Hex. injection Hex as -> _.
    exists inner, cands. split; [reflexivity|]. split; [exact E2|].
    eapply first_matching_def_hit, Hfm.
  - (* a record is written and indexed *)
    destruct (reopen_as_fields read_write s1) as (_ & _ & _ & _ & R5 & R6 & _).
    unfold open_in_out in H. cbv zeta in H.
    match type of H with
    | context [if ?c then _ else _] => destruct c; [discriminate|]
    end.
    injection H as <-. unfold indexed.
    cbn [existing_defs do_dedup set_words set_file]. rewrite R6, B6, A1.
    cbn [existing_defs set_existing_defs set_words]. rewrite R5, B5, A2.
    rewrite (u32_small (len def)) by lia.
    apply Hkeep.
    + intros size h inner cands. apply push_lookup_old.
    + apply push_lookup_new.
Qed.

Section Collisions.

Variable uninitialized : bool → Z → list byte.

Lemma add_word_is_append (sk : bool) (w def : list byte) (s s' : dictionary_file) :
  index_ok s = true → w ∉ map word (words s) →
  add_word uninitialized false sk w def s = Ok (true, s') →
  append_word w def s = Ok s'.
Proof.
  intros Hok Hw H.
  assert (Hopen : file_open_type s ≠ no_file).
  { intros E. unfold add_word in H. rewrite E in H. discriminate. }
  rewrite add_word_unflushed in H by exact Hopen.
  rewrite (find_def_ind_absent s w Hok Hw), Z.eqb_refl in H.
  cbn [negb andb] in H. rewrite andb_false_r in H.
  destruct (append_word w def s) as [s1|]; [|discriminate].
  rewrite bind_Ok in H. injection H as <-. reflexivity.
Qed.

(** A run of insertions with deduplication indexes every definition. *)
Lemma stored_inserts_indexed (dw : list word_info) (skip_dup_check : bool)
    (kvs : list (list byte * list byte)) :
  ∀ (m : list (list byte * list byte)) (defs : list byte) (s : dictionary_file),
  stored m dw defs s → do_dedup s = true → indexed m s →
  NoDup (map fst (m ++ kvs)) →
  Forall (fun k => nul_free k = true) (map fst kvs) →
  Forall (fun v => 0 < len v) (map snd kvs) →
  fits (m ++ kvs) →
  no_collision (map snd (m ++ kvs)) →
  ∃ s' defs', run uninitialized (inserts skip_dup_check kvs) s = Ok s'
              ∧ stored (m ++ kvs) dw defs' s'
              ∧ do_dedup s' = true
              ∧ indexed (m ++ kvs) s'
              ∧ (kvs ≠ [] → is_Some (first_new_word s')).
Proof.
  induction kvs as [|[w def] kvs IH]; intros m defs s Hst Hdd Hidx Hnd Hnul Hne Hfits Hnc.
  - exists s, defs. rewrite app_nil_r.
    split; [reflexivity|]. split; [exact Hst|]. split; [exact Hdd|]. split; [exact Hidx|].
    intros H. contradiction.
  - apply Forall_cons in Hnul as [Hw Hnul]. apply Forall_cons in Hne as [Hdef Hne].
    replace (m ++ (w, def) :: kvs) with ((m ++ [(w, def)]) ++ kvs) in *
      by (rewrite <- app_assoc; reflexivity).
    assert (Hfresh : w ∉ map fst m).
    { rewrite !map_app in Hnd. apply NoDup_app in Hnd as (Hnd & _ & _).
      apply NoDup_app in Hnd as (_ & Hdisj & _).
      intros Hin. apply (Hdisj w Hin). left. }
    assert (Hfits1 : fits (m ++ [(w, def)])) by (apply (fits_prefix _ kvs), Hfits).
    destruct (stored_add uninitialized m dw defs s skip_dup_check w def Hst Hfresh Hw Hdef Hfits1)
      as (s1 & x & Hadd & Hst1 & D1 & R1 & W1 & F1).
    { intros _. eapply no_collision_sub; [|exact Hnc].
      intros v Hv. rewrite map_app. apply elem_of_app. left. exact Hv. }
    assert (Happ : append_word w def s = Ok s1).
    { apply (add_word_is_append skip_dup_check); [apply (stored_index_ok _ _ _ _ Hst)| |exact Hadd].
      rewrite (st_keys _ _ _ _ Hst). exact Hfresh. }
    assert (Hidx1 : indexed (m ++ [(w, def)]) s1).
    { apply (append_word_indexed m w def s s1 Happ Hdd); [|exact Hidx].
      apply (appended_def_size m w def Hdef Hfits1). }
    destruct (IH (m ++ [(w, def)]) (defs ++ x) s1 Hst1) as (s' & defs' & Hrun & Hst' & D' & Hidx' & F');
      try assumption; [congruence|].
    exists s', defs'. split.
    { cbn [inserts map run step]. cbn [fst snd]. rewrite Hadd, !bind_Ok. exact Hrun. }
    split; [exact Hst'|]. split; [exact D'|]. split; [exact Hidx'|].
    intros _. destruct kvs as [|kv kvs]; [|apply F'; discriminate].
    cbn [inserts map run] in Hrun. injection Hrun as <-. exact F1.
Qed.

(** [add_word] of a definition that has the size and the hash of a
    stored one, on a stored and indexed state. *)
Lemma stored_add_same_hash (m : list (list byte * list byte)) (dw : list word_info)
    (defs : list byte) (s : dictionary_file) (sk : bool) (k : nat)
    (w def v : list byte) :
  stored m dw defs s → do_dedup s = true → indexed m s →
  first_new_word s = Some k →
  no_collision (map snd m) → v ∈ map snd m →
  len def = len v → fnv1a def fnv_init = fnv1a v fnv_init →
  w ∉ map fst m → nul_free w = true → fits (m ++ [(w, v)]) →
  ∃ s', add_word uninitialized false sk w def s = Ok (true, s')
        ∧ stored (m ++ [(w, v)]) dw defs s'
        ∧ bytes (file s') = bytes (file s).
Proof.
  intros Hst Hdd Hidx Hfnw Hnc Hv Hlen Hhash Hw Hnul Hfits.
  pose proof (stored_payload_size _ _ _ _ Hst v Hv) as Hsize.
  rewrite add_word_unflushed by apply Hst.
  assert (Habs : find_def_ind s w = not_found).
  { apply find_def_ind_absent; [apply (stored_index_ok _ _ _ _ Hst)|].
    rewrite (st_keys _ _ _ _ Hst). exact Hw. }
  rewrite Habs, Z.eqb_refl. cbn [negb]. rewrite andb_false_r.
  unfold append_word. rewrite Hfnw, Hdd.
  unfold get_existing_def_ind. rewrite Hlen, Hhash, u32_small by lia.
  destruct (Hidx v Hv) as (inner & cands & E1 & E2 & Hcands).
  rewrite E1, E2.
  pose proof (st_dedup _ _ _ _ Hst Hdd) as Hsound.
  destruct (stored_rw_bounds m dw defs s Hst) as [Hrw Hrw8].
  destruct (st_room _ _ _ _ Hst) as [Hn Hk].
  destruct (layout_defs (reserved_words s) (words_sect_size s) dw defs)
    as (pre & Hlay & Hpre & _); try lia.
  assert (Hrecs : ∀ c, c ∈ cands → record_at defs c v).
  { intros c Hc. destruct (Hsound _ _ _ _ c E1 E2 Hc) as (v' & Hv' & Hrec & Hl & Hh).
    assert (v' = v) as -> by (apply Hnc; assumption). exact Hrec. }
  destruct (first_matching_def_first cands (len v) (fnv1a v fnv_init)
              (defs_section_offset (reserved_words s) (words_sect_size s)) (file s))
    as (f' & Hf' & Hb').
  { intros c Hc. destruct (Hrecs c Hc) as (a & b & Hdefs & Ha).
    exists v, (pre ++ a), b.
    split; [rewrite (st_file _ _ _ _ Hst), Hlay, Hdefs, <- !app_assoc; reflexivity|].
    split; [rewrite len_app, Hpre, Ha; reflexivity|]. auto. }
  rewrite Hf', !bind_Ok.
  destruct cands as [|c cands]; [contradiction|]. cbn [head].
  rewrite bind_Ok. eexists. split; [reflexivity|].
  cbn [words first_new_word file set_file set_words bytes].
  split; [|exact Hb'].
  rewrite <- (app_nil_r defs).
  apply (stored_extend m dw defs s Hst _ w v [] c k);
    cbn [file_open_type reserved_words words_sect_size words first_new_word file
         existing_defs do_dedup set_words set_file];
    try assumption; try reflexivity.
  - apply Hst.
  - rewrite Hb', app_nil_r. reflexivity.
  - rewrite app_nil_r. apply Hrecs. left.
  - change (len (@nil byte)) with 0. lia.
  - intros _. apply dedup_index_ok_mono, Hsound.
  - lia.
Qed.

(** X15.  What deduplication takes for the same definition.  On a fresh
    dictionary with deduplication, after insertions of pairs (distinct
    null-free keys, non-empty definitions, no two different definitions of
    the same size and FNV-1a hash), [add_word] of a new word with a
    definition [v2] that has the size and the hash of a stored definition
    [v1] writes no record and binds the word to the record of [v1]: the
    dictionary then answers for the new word with [v1], whether or not
    [v2] has the bytes of [v1]. *)
Theorem same_size_and_hash_shares_record (check_defs sk : bool)
    (kvs : list (list byte * list byte)) (k2 v1 v2 : list byte) :
  valid_pairs (kvs ++ [(k2, v1)]) = true →
  collision_free (map snd kvs) = true →
  v1 ∈ map snd kvs →
  len v2 = len v1 → fnv1a v2 fnv_init = fnv1a v1 fnv_init →
  ∃ s1 s, session uninitialized true check_defs (inserts sk kvs) = Ok s1
          ∧ step uninitialized (op_add false sk k2 v2) s1 = Ok s
          ∧ bytes (file s) = bytes (file s1)
          ∧ holds s (kvs ++ [(k2, v1)]).
Proof.
  intros Hvalid Hcoll Hv1 Hlen Hhash.
  destruct (valid_pairs_spec _ Hvalid) as (Hnd & Hnul & Hne & Hfits).
  rewrite map_app in Hnul, Hne.
  apply Forall_app in Hnul as [Hnul Hnul2]. apply Forall_app in Hne as [Hne _].
  apply Forall_cons in Hnul2 as [Hnul2 _].
  pose proof (collision_free_no_collision _ Hcoll) as Hnc.
  unfold session. rewrite created_state, bind_Ok.
  destruct (stored_inserts_indexed [] sk kvs [] [] (fresh_dictionary true) (stored_create true))
    as (s1 & defs1 & Hrun & Hst1 & D1 & Hidx1 & F1); try assumption; try reflexivity.
  - intros v Hv. inversion Hv.
  - rewrite map_app in Hnd. apply NoDup_app in Hnd as (Hnd & _). exact Hnd.
  - apply (fits_prefix _ [(k2, v1)]), Hfits.
  - cbn [app] in Hrun, Hst1, Hidx1.
    destruct F1 as [k Hk].
    { intros ->. inversion Hv1. }
    destruct (stored_add_same_hash kvs [] defs1 s1 sk k k2 v2 v1 Hst1 D1 Hidx1 Hk Hnc Hv1
                Hlen Hhash) as (s & Hadd & Hst & Hb).
    + rewrite map_app in Hnd. apply NoDup_app in Hnd as (_ & Hdisj & _).
      intros Hin. apply (Hdisj k2 Hin). left.
    + exact Hnul2.
    + exact Hfits.
    + exists s1, s. split; [exact Hrun|].
      split; [cbn [step]; rewrite Hadd, bind_Ok; reflexivity|].
      split; [exact Hb|]. eapply stored_holds, Hst.
Qed.

End Collisions.

Lemma same_size_and_hash_shares_record_witness :
  ∃ s1 s, session no_leftover true true (inserts false [([x61], collision_a)]) = Ok s1
          ∧ step no_leftover (op_add false false [x62] collision_b) s1 = Ok s
          ∧ bytes (file s) = bytes (file s1)
          ∧ holds s ([([x61], collision_a)] ++ [([x62], collision_a)]).
Proof.
  apply (same_size_and_hash_shares_record no_leftover true false
           [([x61], collision_a)] [x62] collision_a collision_b).
  - vm_compute. reflexivity.
  - vm_compute. reflexivity.
  - left.
  - reflexivity.
  - vm_compute. reflexivity.
Defined.


(** ** A pending word added twice *)

Lemma open_in_out_type (t : dictionary_file) : file_open_type (open_in_out t) = read_write.
Proof.
  unfold open_in_out, reopen_as. destruct (file_open_type t) eqn:E; cbn; auto.
Qed.

(** [append_word] returns on a stored state, whatever the word. *)
Lemma append_word_returns (m : list (list byte * list byte)) (dw : list word_info)
    (defs : list byte) (s : dictionary_file) (w def : list byte) :
  stored m dw defs s → 0 < len def < 2 ^ 32 →
  (do_dedup s = true → no_collision (def :: map snd m)) →
  ∃ s', append_word w def s = Ok s' ∧ file_open_type s' ≠ no_file.
Proof.
  intros Hst Hlen Hnc. unfold append_word.
  pose proof (stored_mark_new m dw defs s Hst) as Hst0.
  set (s0 := match first_new_word s with
             | Some _ => s
             | None => set_words (words s) (Some (length (words s))) s
             end) in *.
  assert (Hdd0 : do_dedup s0 = do_dedup s).
  { unfold s0. destruct (first_new_word s); reflexivity. }
  assert (Hwrite : ∀ t : dictionary_file, stored m dw defs t →
            (pos (seek_end (file (open_in_out t)))
             - defs_section_offset (reserved_words (open_in_out t))
                 (words_sect_size (open_in_out t)) <? 0) = false).
  { intros t Ht. apply Z.ltb_ge.
    destruct (reopen_as_fields read_write t) as (R1 & R2 & _ & _ & _ & _ & R7).
    unfold open_in_out. rewrite R1, R2. unfold seek_end. cbn [pos]. rewrite R7.
    destruct (stored_rw_bounds m dw defs t Ht) as [Hrw Hrw8].
    destruct (st_room _ _ _ _ Ht) as [Hn Hk].
    destruct (layout_defs (reserved_words t) (words_sect_size t) dw defs)
      as (pre & Hlay & Hpre & _); try lia.
    rewrite (st_file _ _ _ _ Ht), Hlay, len_app, Hpre.
    pose proof (len_nonneg defs). lia. }
  destruct (do_dedup s0) eqn:Hdd.
  - destruct (get_existing_def_ind_stored m dw defs s0 Hst0 def Hdd Hlen)
      as (r & f & Hget & Hb & _).
    { apply Hnc. congruence. }
    rewrite Hget, bind_Ok.
    assert (Hst1 : stored m dw defs (set_file f (file_open_type s0) s0)).
    { apply stored_set_file; [exact Hst0|exact Hb|apply (st_open _ _ _ _ Hst0)]. }
    destruct r as [c|].
    + eexists. split; [reflexivity|]. cbn. apply (st_open _ _ _ _ Hst0).
    + cbv zeta. rewrite (Hwrite _ Hst1).
      eexists. split; [reflexivity|].
      match goal with |- context [if ?b then _ else _] => destruct b end;
        cbn [file_open_type set_file set_existing_defs set_words];
        rewrite open_in_out_type; discriminate.
  - rewrite bind_Ok. cbv zeta. rewrite (Hwrite _ Hst0).
    eexists. split; [reflexivity|].
    match goal with |- context [if ?b then _ else _] => destruct b end;
        cbn [file_open_type set_file set_existing_defs set_words];
        rewrite open_in_out_type; discriminate.
Qed.

Section PendingTwice.

Variable uninitialized : bool → Z → list byte.

(** [flush] with two equal words among the new ones. *)
Lemma flush_repeated (s : dictionary_file) (k : nat) (j : Z) :
  file_open_type s ≠ no_file → first_new_word s = Some k →
  words_sect_size s = 2 ^ j → 0 <= j <= 31 →
  keys_len (map word (words s)) <= 2 ^ 31 →
  ¬ NoDup (map word (drop k (words s))) →
  flush uninitialized s = Err RepeatedWordsInserted.
Proof.
  intros Hopen Hfnw Hwss Hj Hkeys Hdup.
  rewrite (flush_some uninitialized s k Hopen Hfnw).
  destruct (double_until_total 32 j (keys_len (map word (words s)))) as [y Hy];
    [lia|exact Hkeys|lia|].
  rewrite Hwss, Hy, bind_Ok. cbv zeta.
  destruct (reopen_as_fields read_write s) as (_ & _ & R3 & _).
  apply adjacent_find_sorted_words in Hdup.
  destruct (negb (y =? 2 ^ j) || (reserved_words s <? len (words s)));
    unfold sort_words, open_in_out; cbn [words set_sizes set_file];
    rewrite R3, Hdup; reflexivity.
Qed.

(** X16.  A pending word added again.  After insertions of pairs with
    distinct null-free keys and non-empty definitions into a fresh
    dictionary, [add_word<false, true>] (no duplicate check) of a word that
    is among them returns and the index counts the word twice; the next
    [flush] raises "Repeated words were inserted". *)
Theorem repeated_word_fails_flush (deduplicate check_defs sk : bool)
    (kvs : list (list byte * list byte)) (w d : list byte) :
  valid_pairs kvs = true → fitsb (kvs ++ [(w, d)]) = true →
  w ∈ map fst kvs → 0 < len d →
  (deduplicate = true → collision_free (map snd (kvs ++ [(w, d)])) = true) →
  ∃ s, session uninitialized deduplicate check_defs
         (inserts sk kvs ++ [op_add false true w d]) = Ok s
       ∧ num_words s = len kvs + 1
       ∧ flush uninitialized s = Err RepeatedWordsInserted.
Proof.
  intros Hvalid Hfitsb Hw Hd Hcoll.
  destruct (valid_pairs_spec _ Hvalid) as (Hnd & Hnul & Hne & Hfits).
  apply fitsb_fits in Hfitsb. destruct Hfitsb as (_ & Hkeys & Hdefs).
  unfold session. rewrite created_state, bind_Ok, run_app.
  assert (Hnc : deduplicate = true → no_collision (map snd (kvs ++ [(w, d)]))).
  { intros Hdd. apply collision_free_no_collision, Hcoll, Hdd. }
  assert (Hdd0 : do_dedup (fresh_dictionary deduplicate) = deduplicate)
    by (destruct deduplicate; reflexivity).
  destruct (stored_inserts uninitialized [] sk kvs [] [] (fresh_dictionary deduplicate)
              (stored_create deduplicate))
    as (s1 & defs1 & Hrun & Hst1 & D1 & _ & W1 & F1); try assumption.
  { rewrite Hdd0. intros Hdd. eapply no_collision_sub; [|apply Hnc, Hdd].
    cbn [app]. rewrite map_app. intros v Hv. apply elem_of_app. left. exact Hv. }
  cbn [app] in Hrun, Hst1. rewrite Hrun, bind_Ok.
  assert (Hkvs : kvs ≠ []) by (intros ->; inversion Hw).
  destruct (F1 Hkvs) as [k Hk].
  destruct (append_word_returns kvs [] defs1 s1 w d Hst1) as (s2 & Happ & Hopen2).
  { rewrite map_app, defs_len_app in Hdefs. cbn [map snd] in Hdefs.
    unfold defs_len at 2 in Hdefs. cbn [foldr] in Hdefs.
    pose proof (defs_len_nonneg (map snd kvs)). lia. }
  { rewrite D1, Hdd0. intros Hdd. eapply no_collision_perm; [|apply Hnc, Hdd].
    rewrite map_app. cbn [map snd]. symmetry. apply Permutation_cons_append. }
  destruct (append_word_words w d s1 s2 Happ) as (c & Hwords & Hfnw).
  rewrite Hk in Hfnw. cbn [default from_option id] in Hfnw.
  destruct (append_word_fields w d s1 s2 Happ) as (_ & W2 & _ & Hmap).
  exists s2. split.
  { cbn [run step]. rewrite (add_word_unflushed uninitialized true w d s1)
      by apply (st_open _ _ _ _ Hst1).
    cbn [negb andb]. rewrite Happ, !bind_Ok. reflexivity. }
  assert (Hwk : map word (words s1) ≡ₚ map fst kvs) by apply (st_keys _ _ _ _ Hst1).
  split.
  { unfold num_words. rewrite Hwords, len_app.
    apply Permutation_length in Hwk. rewrite !length_map in Hwk.
    unfold len. rewrite Hwk. cbn [length]. lia. }
  assert (Hk0 : drop k (words s1) = words s1).
  { pose proof (st_prefix _ _ _ _ Hst1) as Hp. rewrite Hk in Hp.
    destruct Hp as (Hp & _). apply Permutation_nil_l in Hp.
    rewrite <- (take_drop k (words s1)) at 2. rewrite <- Hp. reflexivity. }
  apply (flush_repeated s2 k 8); [exact Hopen2|exact Hfnw| |lia| |].
  - rewrite W2, W1. destruct deduplicate; reflexivity.
  - rewrite Hmap, keys_len_app, (keys_len_perm _ _ Hwk).
    rewrite map_app, keys_len_app in Hkeys. exact Hkeys.
  - rewrite Hwords, drop_app_le.
    2:{ pose proof (st_prefix _ _ _ _ Hst1) as Hp. rewrite Hk in Hp. lia. }
    rewrite Hk0, map_app. cbn [map word].
    intros Hnd2. apply NoDup_app in Hnd2 as (_ & Hdisj & _).
    apply (Hdisj w); [|left].
    rewrite Hwk. exact Hw.
Qed.

End PendingTwice.

Lemma repeated_word_fails_flush_witness :
  ∃ s, session no_leftover true true
         (inserts false sample_pairs ++ [op_add false true [x61] [x7a]]) = Ok s
       ∧ num_words s = len sample_pairs + 1
       ∧ flush no_leftover s = Err RepeatedWordsInserted.
Proof.
  apply (repeated_word_fails_flush no_leftover true true false sample_pairs [x61] [x7a]).
  - vm_compute. reflexivity.
  - vm_compute. reflexivity.
  - right. left.
  - reflexivity.
  - intros _. vm_compute. reflexivity.
Defined.


(** ** What [open] has checked of a file it accepts *)

Lemma read_ok (n : Z) (f f' : fstream) (x : list byte) :
  read n f = Ok (x, f') → 0 < n →
  x = slice (bytes f) (pos f) n ∧ bytes f' = bytes f ∧ pos f' = pos f + n
  ∧ pos f + n <= len (bytes f).
Proof.
  unfold read. intros H Hn.
  destruct (Z.leb_spec n 0) as [|_]; [lia|]. cbn [orb] in H.
  destruct (Z.leb_spec (pos f + n) (len (bytes f))) as [Hle|]; [|discriminate].
  injection H as <- <-. cbn [bytes pos]. repeat split; [lia|exact Hle].
Qed.

Lemma read_uint32_LE_ok (f f' : fstream) (v : Z) :
  read_uint32_LE f = Ok (v, f') →
  v = u32 (of_LE (slice (bytes f) (pos f) 4)) ∧ bytes f' = bytes f
  ∧ pos f' = pos f + 4 ∧ pos f + 4 <= len (bytes f).
Proof.
  unfold read_uint32_LE. intros H.
  destruct (read 4 f) as [[chars f1]|e] eqn:E; [|discriminate].
  rewrite bind_Ok in H. injection H as <- <-.
  destruct (read_ok 4 f f1 chars E) as (-> & Hb & Hp & Hle); [lia|]. auto.
Qed.

Lemma read_inds_ok (n : nat) :
  ∀ (f f' : fstream) (l : list Z),
  read_inds n f = Ok (l, f') →
  bytes f' = bytes f ∧ pos f' = pos f + 4 * Z.of_nat n
  ∧ ((0 < n)%nat → pos f' <= len (bytes f)).
Proof.
  induction n as [|n IH]; intros f f' l H.
  - injection H as <- <-. repeat split; [lia|lia].
  - cbn [read_inds] in H.
    destruct (read_uint32_LE f) as [[ind f1]|e] eqn:E1; [|discriminate].
    rewrite bind_Ok in H.
    destruct (read_inds n f1) as [[rest f2]|e] eqn:E2; [|discriminate].
    rewrite bind_Ok in H. injection H as _ <-.
    destruct (read_uint32_LE_ok f f1 ind E1) as (_ & Hb1 & Hp1 & Hle1).
    destruct (IH f1 f2 rest E2) as (Hb2 & Hp2 & Hle2).
    split; [congruence|]. split; [lia|]. intros _.
    destruct n as [|n]; [rewrite Hp2; cbn; lia|].
    rewrite <- Hb1. apply Hle2. lia.
Qed.

(** The header checks of [read_file]. *)
Lemma read_tables_ok (contents : list byte) (rw wss : Z) (word_inds def_inds : list Z)
    (f : fstream) :
  read_tables contents = Ok (rw, wss, word_inds, def_inds, f) →
  take 7 contents = magic_bytes
  ∧ rw = u32 (of_LE (slice contents 7 4))
  ∧ wss = u32 (of_LE (slice contents 11 4))
  ∧ len word_inds = u32 (of_LE (slice contents 15 4))
  ∧ len def_inds = len word_inds
  ∧ 0 < rw ∧ 0 < wss ∧ len word_inds <= rw
  ∧ 19 + 8 * rw <= len contents.
Proof.
  unfold read_tables. cbv zeta. change (len magic_bytes) with 7. intros H.
  destruct (read 7 _) as [[arr f0]|e] eqn:E0; [|discriminate].
  rewrite bind_Ok in H.
  destruct (read_ok 7 _ f0 arr E0) as (Harr & Hb0 & Hp0 & _); [lia|].
  cbn [bytes pos] in Harr, Hb0, Hp0.
  destruct (bytes_eqb magic_bytes arr) eqn:Em; [|discriminate]. cbn [negb] in H.
  apply bytes_eqb_eq in Em.
  destruct (read_uint32_LE f0) as [[rw' f1]|e] eqn:E1; [|discriminate].
  rewrite bind_Ok in H.
  destruct (read_uint32_LE_ok f0 f1 rw' E1) as (Hrw & Hb1 & Hp1 & _).
  destruct (Z.eqb_spec rw' 0) as [|Hrw0]; [discriminate|].
  destruct (read_uint32_LE f1) as [[wss' f2]|e] eqn:E2; [|discriminate].
  rewrite bind_Ok in H.
  destruct (read_uint32_LE_ok f1 f2 wss' E2) as (Hwss & Hb2 & Hp2 & _).
  destruct (Z.eqb_spec wss' 0) as [|Hwss0]; [discriminate|].
  destruct (read_uint32_LE f2) as [[n f3]|e] eqn:E3; [|discriminate].
  rewrite bind_Ok in H.
  destruct (read_uint32_LE_ok f2 f3 n E3) as (Hn & Hb3 & Hp3 & _).
  destruct (Z.gtb_spec n rw') as [|Hnrw]; [discriminate|].
  destruct (Z.gtb_spec (rw' * 8 + n) (len contents)) as [|_]; [discriminate|].
  destruct (read_inds (Z.to_nat rw') f3) as [[wi f4]|e] eqn:E4; [|discriminate].
  rewrite bind_Ok in H.
  destruct (read_inds (Z.to_nat rw') f4) as [[di f5]|e] eqn:E5; [|discriminate].
  rewrite bind_Ok in H.
  destruct (Z.eqb_spec (len wi) n) as [Hwi|]; [|discriminate].
  destruct (Z.eqb_spec (len di) n) as [Hdi|]; [|discriminate].
  cbn [negb orb] in H. injection H as <- <- <- <- <-.
  assert (Hrange : 0 <= rw' < 2 ^ 32) by (rewrite Hrw; apply u32_range).
  destruct (read_inds_ok _ f3 f4 wi E4) as (Hb4 & Hp4 & _).
  destruct (read_inds_ok _ f4 f5 di E5) as (Hb5 & Hp5 & Hle5).
  rewrite Hb0 in Hb1. rewrite Hb1 in Hb2. rewrite Hb2 in Hb3. rewrite Hb3 in Hb4.
  rewrite Hp0 in Hp1. rewrite Hp1 in Hp2. rewrite Hp2 in Hp3.
  rewrite Hb0, Hp0 in Hrw. rewrite Hb1, Hp1 in Hwss. rewrite Hb2, Hp2 in Hn.
  split.
  { rewrite Em, Harr. unfold slice. reflexivity. }
  split; [exact Hrw|]. split; [exact Hwss|].
  split; [rewrite Hwi; exact Hn|]. split; [lia|].
  split; [lia|]. split.
  { assert (0 <= wss' < 2 ^ 32) by (rewrite Hwss; apply u32_range). lia. }
  split; [lia|].
  rewrite Hb4 in Hle5. rewrite Hp5, Hp4, Hp3 in Hle5.
  assert (0 < Z.to_nat rw')%nat by lia. specialize (Hle5 H). lia.
Qed.

Lemma read_chars_nul_free (rest : list byte) :
  ∀ (limit : Z) (w : list byte), read_chars rest limit = Ok w → nul_free w = true.
Proof.
  induction rest as [|c rest IH]; intros limit w H.
  - cbn [read_chars] in H. destruct (limit <=? 0); [|discriminate].
    injection H as <-. reflexivity.
  - cbn [read_chars] in H. destruct (limit <=? 0); [injection H as <-; reflexivity|].
    destruct (byte_eqb c x00) eqn:Ec; [injection H as <-; reflexivity|].
    destruct (read_chars rest (limit - 1)) as [w'|e] eqn:E; [|discriminate].
    rewrite bind_Ok in H. injection H as <-.
    unfold nul_free. cbn [forallb]. rewrite Ec. cbn [negb andb]. apply (IH _ _ E).
Qed.

Lemma read_words_ok (v : list (Z * Z)) (section_off wss : Z) (f : fstream) :
  ∀ ws, read_words v section_off wss f = Ok ws →
    Forall (fun e => nul_free (word e) = true) ws ∧ length ws = length v.
Proof.
  induction v as [|[word_off def_off] v IH]; intros ws H.
  - injection H as <-. split; [constructor|reflexivity].
  - cbn [read_words] in H.
    destruct (read_chars _ _) as [w|e] eqn:E1; [|discriminate].
    rewrite bind_Ok in H.
    destruct (read_words v section_off wss f) as [ws'|e] eqn:E2; [|discriminate].
    rewrite bind_Ok in H. injection H as <-.
    destruct (IH ws' eq_refl) as [Hf Hl].
    split; [constructor; [exact (read_chars_nul_free _ _ _ E1)|exact Hf]|].
    cbn [length]. rewrite Hl. reflexivity.
Qed.

(** The index [sort_and_find_dup] lets through. *)
Lemma sorted_words_index (ws : list word_info) :
  adjacent_find word_eqb (sort_by word_ltb ws) = false →
  is_sorted (sort_by word_ltb ws) = true
  ∧ distinct (map word (sort_by word_ltb ws)) = true.
Proof.
  intros Hadj.
  pose proof (sort_by_sorted word_ltb word_ltb_asym word_le_trans ws) as Hs.
  split; [apply strongly_is_sorted, Hs|].
  apply NoDup_distinct, strict_sorted_words_NoDup.
  apply (adjacent_find_false_strict word_ltb word_eqb word_le_neq_lt word_ltb_trans);
    assumption.
Qed.

(** The loop of [open] over the loaded words leaves the index alone. *)
Lemma load_defs_fields (ws : list word_info) (deduplicate check_defs : bool) :
  ∀ s s', load_defs ws deduplicate check_defs s = Ok s' →
    words s' = words s ∧ first_new_word s' = first_new_word s
    ∧ reserved_words s' = reserved_words s ∧ words_sect_size s' = words_sect_size s.
Proof.
  induction ws as [|e ws IH]; intros s s' H.
  - injection H as <-. auto.
  - cbn [load_defs] in H. cbv zeta in H.
    destruct (get_def_size_and_hash _ _ _ _) as [[[size hash] f]|er] eqn:E1; [|discriminate].
    rewrite bind_Ok in H.
    match type of H with
    | (mbind _ ?c) = _ => destruct c as [[h f1]|er] eqn:E2; [|discriminate]
    end.
    rewrite bind_Ok in H.
    match type of H with
    | (if ?c then _ else _) = _ => destruct c; [discriminate|]
    end.
    apply IH in H. destruct H as (H1 & H2 & H3 & H4).
    destruct deduplicate; cbn in H1, H2, H3, H4; auto.
Qed.

(** X17.  What [open] has checked of a regular file it accepts, whatever
    the file holds otherwise: the file begins with the magic bytes; the
    three little-endian fields after them are the object's
    [reserved_words], [words_sect_size] and [num_words], the first two not
    zero and the count at most [reserved_words]; both index tables lie
    within the file; and the loaded index is sorted, holds no word twice,
    has no pending word and no word with a null byte.  A file that fails
    one of these is rejected. *)
Theorem open_loads_valid_index (contents : list byte)
    (create_if_not_exists deduplicate check_defs : bool) (s : dictionary_file) :
  dictionary_file_at (Regular contents) create_if_not_exists deduplicate check_defs = Ok s →
  take 7 contents = magic_bytes
  ∧ reserved_words s = u32 (of_LE (slice contents 7 4))
  ∧ words_sect_size s = u32 (of_LE (slice contents 11 4))
  ∧ num_words s = u32 (of_LE (slice contents 15 4))
  ∧ 0 < reserved_words s ∧ 0 < words_sect_size s
  ∧ num_words s <= reserved_words s
  ∧ inds_section_offset + 8 * reserved_words s <= len contents
  ∧ first_new_word s = None ∧ index_ok s = true
  ∧ Forall (fun e => nul_free (word e) = true) (words s)
  ∧ do_dedup s = deduplicate ∧ created_file s = false.
Proof.
  unfold dictionary_file_at, open. cbv zeta. intros H.
  match type of H with
  | (mbind _ (read_file ?t)) = _ => set (s0 := t) in H
  end.
  assert (Hb0 : bytes (file s0) = contents).
  { unfold s0, open_in.
    destruct (reopen_as_fields read_only
                (set_file {| bytes := contents; pos := 0 |} none
                   (set_dedup deduplicate (created_file no_dictionary)
                      (set_file (file no_dictionary) none no_dictionary))))
      as (_ & _ & _ & _ & _ & _ & R7).
    rewrite R7. reflexivity. }
  assert (Hf0 : first_new_word s0 = None).
  { unfold s0, open_in.
    destruct (reopen_as_fields read_only
                (set_file {| bytes := contents; pos := 0 |} none
                   (set_dedup deduplicate (created_file no_dictionary)
                      (set_file (file no_dictionary) none no_dictionary))))
      as (_ & _ & _ & R4 & _).
    rewrite R4. reflexivity. }
  destruct (read_file s0) as [s1|e] eqn:E1; [|discriminate].
  rewrite bind_Ok in H.
  rewrite read_file_stages, Hb0 in E1.
  destruct (read_tables contents) as [[[[[rw wss] wi] di] f]|e] eqn:Et; [|discriminate].
  rewrite bind_Ok in E1.
  destruct (read_tables_ok contents rw wss wi di f Et)
    as (Hmagic & Hrw & Hwss & Hn & Hdi & Hrw0 & Hwss0 & Hnrw & Hfile).
  destruct ((sort_and_find_dup_zipped wi di).1) eqn:Ez; [discriminate|].
  unfold read_sorted_words in E1.
  destruct (read_words _ _ _ _) as [ws|e] eqn:Ew; [|discriminate].
  rewrite bind_Ok in E1. unfold sort_and_find_dup in E1.
  destruct (adjacent_find word_eqb (sort_by word_ltb ws)) eqn:Ea; [discriminate|].
  injection E1 as <-.
  destruct (read_words_ok _ _ _ _ ws Ew) as [Hnul Hlen].
  destruct (sorted_words_index ws Ea) as [Hsorted Hdistinct].
  assert (Hlenws : len (sort_by word_ltb ws) = len wi).
  { rewrite (len_perm _ _ (sort_by_perm word_ltb ws)). unfold len. rewrite Hlen.
    unfold sort_and_find_dup_zipped. cbn [snd].
    rewrite (Permutation_length (sort_by_perm _ (zip wi di))).
    rewrite length_zip. unfold len in Hdi. lia. }
  assert (Hload : ∃ s2, words s2 = sort_by word_ltb ws ∧ first_new_word s2 = None
                        ∧ reserved_words s2 = rw ∧ words_sect_size s2 = wss
                        ∧ s = set_dedup deduplicate false s2).
  { destruct (deduplicate || check_defs).
    - match type of H with
      | (mbind _ ?c) = _ => destruct c as [s2|e] eqn:E2; [|discriminate]
      end.
      rewrite bind_Ok in H. injection H as <-.
      apply load_defs_fields in E2. destruct E2 as (L1 & L2 & L3 & L4).
      exists s2. rewrite L1, L2, L3, L4.
      repeat split; try reflexivity; exact Hf0.
    - rewrite bind_Ok in H. injection H as <-.
      eexists. repeat split; try reflexivity; exact Hf0. }
  destruct Hload as (s2 & L1 & L2 & L3 & L4 & ->).
  unfold num_words, index_ok.
  cbn [set_dedup words reserved_words words_sect_size first_new_word do_dedup created_file].
  rewrite L1, L2, L3, L4, Hlenws, Hsorted, Hdistinct.
  change inds_section_offset with 19.
  repeat split; try assumption; try lia.
  rewrite Forall_forall in Hnul. apply Forall_forall. intros e He. apply Hnul.
  rewrite <- (sort_by_perm word_ltb ws). exact He.
Qed.

Lemma open_loads_valid_index_witness :
  take 7 shared_def_file = magic_bytes
  ∧ reserved_words (state_of (dictionary_file_at (Regular shared_def_file) false true true))
    = u32 (of_LE (slice shared_def_file 7 4))
  ∧ words_sect_size (state_of (dictionary_file_at (Regular shared_def_file) false true true))
    = u32 (of_LE (slice shared_def_file 11 4))
  ∧ num_words (state_of (dictionary_file_at (Regular shared_def_file) false true true))
    = u32 (of_LE (slice shared_def_file 15 4))
  ∧ 0 < reserved_words (state_of (dictionary_file_at (Regular shared_def_file) false true true))
  ∧ 0 < words_sect_size (state_of (dictionary_file_at (Regular shared_def_file) false true true))
  ∧ num_words (state_of (dictionary_file_at (Regular shared_def_file) false true true))
    <= reserved_words (state_of (dictionary_file_at (Regular shared_def_file) false true true))
  ∧ inds_section_offset
    + 8 * reserved_words (state_of (dictionary_file_at (Regular shared_def_file) false true true))
    <= len shared_def_file
  ∧ first_new_word (state_of (dictionary_file_at (Regular shared_def_file) false true true))
    = None
  ∧ index_ok (state_of (dictionary_file_at (Regular shared_def_file) false true true)) = true
  ∧ Forall (fun e => nul_free (word e) = true)
      (words (state_of (dictionary_file_at (Regular shared_def_file) false true true)))
  ∧ do_dedup (state_of (dictionary_file_at (Regular shared_def_file) false true true)) = true
  ∧ created_file (state_of (dictionary_file_at (Regular shared_def_file) false true true))
    = false.
Proof.
  apply (open_loads_valid_index shared_def_file false true true).
  vm_compute. reflexivity.
Defined.


(** ** Loading: repeated offsets in the index tables *)

(** The payloads that the entries of a def-index table name. *)
Lemma payloads_of_entries (dw : list word_info) (defs : list byte) :
  (∀ e, e ∈ dw → ∃ v, record_at defs (def_ind e) v ∧ 0 < len v < 2 ^ 32) →
  ∃ m : list (list byte * list byte),
    ∀ e, e ∈ dw → ∃ v, v ∈ map snd m ∧ record_at defs (def_ind e) v ∧ 0 < len v < 2 ^ 32.
Proof.
  induction dw as [|e dw IH]; intros H.
  - exists []. intros e He. inversion He.
  - destruct IH as [m Hm]. { intros e' He'. apply H. right. exact He'. }
    destruct (H e) as (v & Hrec & Hlen); [left|].
    exists (([], v) :: m). intros e' He'. apply elem_of_cons in He' as [->|He'].
    + exists v. split; [left|auto].
    + destruct (Hm e' He') as (v' & Hv' & Hr).
      exists v'. split; [right; exact Hv'|exact Hr].
Qed.

(** A file of the format whose word offsets are those of its packed words
    and whose def offsets name records loads, whatever def offsets repeat,
    and every word is found with the record its def offset names. *)
Lemma layout_file_opens (rw wss : Z) (dw : list word_info) (defs : list byte)
    (create deduplicate check_defs : bool) :
  0 < rw → rw * 8 < 2 ^ 32 → 0 < wss < 2 ^ 32 →
  len dw <= rw → keys_len (map word dw) <= wss →
  NoDup (map word dw) → Forall (fun k => nul_free k = true) (map word dw) →
  (∀ e, e ∈ dw → 0 <= def_ind e < 2 ^ 32 - 1
                 ∧ ∃ v, record_at defs (def_ind e) v ∧ 0 < len v < 2 ^ 32) →
  ∃ s, dictionary_file_at (Regular (layout rw wss dw defs)) create deduplicate check_defs
       = Ok s
       ∧ words s = sort_by word_ltb dw
       ∧ ∀ e v check_def, e ∈ dw → record_at defs (def_ind e) v → 0 < len v < 2 ^ 32 →
           contains s (word e) = true
           ∧ ∃ s', find (word e) check_def s = Ok (Some v, s').
Proof.
  intros Hrw0 Hrw8 Hwss Hn HL Hnd Hnul Hent.
  assert (Hrange : Forall (fun e => 0 <= def_ind e < 2 ^ 32 - 1) dw).
  { rewrite Forall_forall. intros e He. apply (Hent e He). }
  destruct (payloads_of_entries dw defs) as [m Hm].
  { intros e He. apply (Hent e He). }
  unfold dictionary_file_at, open.
  set (s0 := open_in (set_file {| bytes := layout rw wss dw defs; pos := 0 |} none
                        (set_dedup deduplicate (created_file no_dictionary)
                           (set_file (file no_dictionary) none no_dictionary)))).
  rewrite (read_file_layout s0 rw wss dw defs); try assumption; try lia; try reflexivity.
  rewrite bind_Ok.
  set (s1 := set_words (sort_by word_ltb dw) (first_new_word s0)
               (set_sizes rw wss
                  (set_file {| bytes := layout rw wss dw defs; pos := 19 + 8 * rw |}
                     (file_open_type s0) s0))).
  destruct (layout_defs rw wss dw defs) as (pre & Hlay & Hpre & _); try assumption; try lia.
  assert (Hload : ∃ s2, (if deduplicate || check_defs
                         then load_defs (words s1) deduplicate check_defs s1
                         else Ok s1) = Ok s2
                        ∧ reserved_words s2 = rw ∧ words_sect_size s2 = wss
                        ∧ words s2 = sort_by word_ltb dw
                        ∧ first_new_word s2 = None
                        ∧ bytes (file s2) = layout rw wss dw defs).
  { destruct (deduplicate || check_defs) eqn:Hany.
    - destruct (load_defs_stored m defs pre deduplicate check_defs (words s1) s1)
        as (s2 & Hl & R1 & R2 & R3 & R4 & R5 & R6 & R7).
      + exact Hlay.
      + exact Hpre.
      + intros e He. cbn [words s1 set_words] in He.
        rewrite (sort_by_perm word_ltb) in He. apply (Hm e He).
      + exact (dedup_index_ok_empty m defs).
      + exists s2. split; [exact Hl|].
        split; [exact R1|]. split; [exact R2|]. split; [exact R3|]. split; [exact R4|].
        exact R6.
    - exists s1. repeat split; reflexivity. }
  destruct Hload as (s2 & Hl & R1 & R2 & R3 & R4 & R6).
  rewrite Hl, bind_Ok. eexists. split; [reflexivity|].
  split; [exact R3|].
  intros e v check_def He Hrec Hlen.
  set (s := set_dedup deduplicate false s2).
  assert (Hok : index_ok s = true).
  { unfold index_ok, s. cbn [set_dedup first_new_word words]. rewrite R4, R3.
    apply andb_true_iff. split.
    - apply strongly_is_sorted, (sort_by_sorted word_ltb word_ltb_asym word_le_trans).
    - apply NoDup_distinct. rewrite (sort_by_perm word_ltb). exact Hnd. }
  assert (Hin : e ∈ words s).
  { unfold s. cbn [set_dedup words]. rewrite R3, (sort_by_perm word_ltb). exact He. }
  pose proof (find_def_ind_stored s e Hok Hin) as Hfind.
  assert (Hvalid : (def_ind e =? not_found) = false).
  { apply Z.eqb_neq. change not_found with (2 ^ 32 - 1).
    destruct (Hent e He) as [Hd _]. lia. }
  split; [unfold contains; rewrite Hfind, Hvalid; reflexivity|].
  destruct Hrec as (a & b & Hdefs & Ha).
  assert (Hbytes : bytes (file s) = (pre ++ a) ++ def_record v ++ b).
  { unfold s. cbn [set_dedup file]. rewrite R6, Hlay, Hdefs, <- !app_assoc. reflexivity. }
  assert (Hoff : defs_section_offset (reserved_words s) (words_sect_size s) + def_ind e
                 = len (pre ++ a)).
  { unfold s. cbn [set_dedup reserved_words words_sect_size]. rewrite R1, R2, len_app. lia. }
  unfold find. rewrite Hfind, Hvalid. unfold read_def_whole.
  change (seek (defs_section_offset (reserved_words s) (words_sect_size s) + def_ind e)
            (file s))
    with (seek (defs_section_offset (reserved_words s) (words_sect_size s) + def_ind e)
            {| bytes := bytes (file s); pos := pos (file s) |}).
  rewrite (record_size_at (file s) (pre ++ a) b v _ _ Hbytes Hoff Hlen), bind_Ok.
  rewrite (record_hash_at (file s) (pre ++ a) b v Hbytes), bind_Ok.
  rewrite (record_payload_at (file s) (pre ++ a) b v Hbytes), bind_Ok.
  rewrite Z.eqb_refl, andb_false_r, bind_Ok.
  eexists. reflexivity.
Qed.

(** ** C7 *)

(** C7.  The two index tables are not treated alike.  A file that passes
    the checks of [read_file] up to the count of valid indices and in whose
    word-index table two entries hold the same nonzero offset is rejected by
    [open] with "Found repeated indices", whatever the options.  A file of
    the format whose word-index table holds the offsets of its packed
    words (distinct, null-free words) and whose def-index table holds
    offsets of records of the defs section is accepted by [open] with every
    combination of options, whether or not entries of the def-index table
    repeat: the index holds exactly the entries of the tables, and
    [contains] and [find] answer for every word with the record its def
    offset names, shared or not. *)
Theorem repeated_word_offsets_rejected :
  (∀ (contents : list byte) (rw wss : Z) (word_inds def_inds : list Z) (f : fstream),
     read_tables contents = Ok (rw, wss, word_inds, def_inds, f) →
     ¬ NoDup word_inds →
     ∀ create deduplicate check_defs,
       dictionary_file_at (Regular contents) create deduplicate check_defs
       = Err RepeatedIndices)
  ∧ (∀ (rw wss : Z) (dw : list word_info) (defs : list byte),
       0 < rw → rw * 8 < 2 ^ 32 → 0 < wss < 2 ^ 32 →
       len dw <= rw → keys_len (map word dw) <= wss →
       NoDup (map word dw) → Forall (fun k => nul_free k = true) (map word dw) →
       (∀ e, e ∈ dw → 0 <= def_ind e < 2 ^ 32 - 1
                      ∧ ∃ v, record_at defs (def_ind e) v ∧ 0 < len v < 2 ^ 32) →
       ∀ create deduplicate check_defs,
         ∃ s, dictionary_file_at (Regular (layout rw wss dw defs))
                create deduplicate check_defs = Ok s
              ∧ words s = sort_by word_ltb dw
              ∧ ∀ e v check_def, e ∈ dw → record_at defs (def_ind e) v →
                  0 < len v < 2 ^ 32 →
                  contains s (word e) = true
                  ∧ ∃ s', find (word e) check_def s = Ok (Some v, s')).
Proof.
  split.
  - intros contents rw wss word_inds def_inds f Htab Hdup create deduplicate check_defs.
    assert (Hlen : length word_inds = length def_inds).
    { unfold read_tables in Htab. unfold mbind, result_bind in Htab.
      repeat match type of Htab with
             | context [match ?x with _ => _ end] => destruct x eqn:?; try discriminate
             end.
      injection Htab as <- <- <- <- <-.
      match goal with H : _ || _ = false |- _ => apply orb_false_iff in H as [H1 H2] end.
      apply negb_false_iff, Z.eqb_eq in H1, H2. unfold len in *. lia. }
    apply (sort_and_find_dup_zipped_spec word_inds def_inds Hlen) in Hdup.
    unfold dictionary_file_at, open.
    rewrite read_file_stages.
    match goal with
    | |- context [read_tables ?b] => change b with contents
    end.
    rewrite Htab, bind_Ok, Hdup. reflexivity.
  - intros rw wss dw defs Hrw0 Hrw8 Hwss Hn HL Hnd Hnul Hent create deduplicate check_defs.
    apply layout_file_opens; assumption.
Qed.

Lemma repeated_word_offsets_rejected_witness :
  dictionary_file_at (Regular shared_word_file) false true true = Err RepeatedIndices
  ∧ ∃ s, dictionary_file_at
           (Regular (layout 2 4 [ {| word := [x61]; def_ind := 0 |};
                                  {| word := [x62]; def_ind := 0 |} ] (def_record [x78])))
           false true true = Ok s
         ∧ words s = sort_by word_ltb [ {| word := [x61]; def_ind := 0 |};
                                        {| word := [x62]; def_ind := 0 |} ]
         ∧ ∀ e v check_def,
             e ∈ [ {| word := [x61]; def_ind := 0 |}; {| word := [x62]; def_ind := 0 |} ] →
             record_at (def_record [x78]) (def_ind e) v → 0 < len v < 2 ^ 32 →
             contains s (word e) = true
             ∧ ∃ s', find (word e) check_def s = Ok (Some v, s').
Proof.
  destruct repeated_word_offsets_rejected as [Hrej Hacc].
  split.
  - assert (Htab : ∃ f, read_tables shared_word_file = Ok (2, 4, [0; 0], [0; 13], f)).
    { eexists. vm_compute. reflexivity. }
    destruct Htab as [f Htab].
    apply (Hrej _ _ _ _ _ _ Htab). intros Hnd. apply NoDup_cons in Hnd as [Hnotin _].
    apply Hnotin. left.
  - apply Hacc.
    + lia.
    + lia.
    + lia.
    + apply Z.leb_le. reflexivity.
    + apply Z.leb_le. reflexivity.
    + apply NoDup_cons. split; [|apply NoDup_singleton].
      intros H. apply list_elem_of_singleton in H. discriminate.
    + repeat constructor.
    + intros e He. cbn [map].
      assert (Hd : def_ind e = 0).
      { apply elem_of_cons in He as [->|He]; [reflexivity|].
        apply list_elem_of_singleton in He as ->. reflexivity. }
      rewrite Hd. split; [lia|].
      exists [x78]. split; [|split; [reflexivity|reflexivity]].
      exists [], []. split; [rewrite app_nil_r; reflexivity|reflexivity].
Defined.


(** ** Reads leave the file as it is *)

Lemma read_bytes (n : Z) (f f' : fstream) (x : list byte) :
  read n f = Ok (x, f') → bytes f' = bytes f.
Proof.
  unfold read. destruct (_ || _); [|discriminate]. intros [= _ <-]. reflexivity.
Qed.

Lemma read_uint32_LE_bytes (f f' : fstream) (v : Z) :
  read_uint32_LE f = Ok (v, f') → bytes f' = bytes f.
Proof.
  unfold read_uint32_LE. destruct (read 4 f) as [[c f1]|] eqn:E; [|discriminate].
  rewrite bind_Ok. intros [= _ <-]. exact (read_bytes _ _ _ _ E).
Qed.

Lemma read_uint64_LE_bytes (f f' : fstream) (v : Z) :
  read_uint64_LE f = Ok (v, f') → bytes f' = bytes f.
Proof.
  unfold read_uint64_LE. destruct (read 8 f) as [[c f1]|] eqn:E; [|discriminate].
  rewrite bind_Ok. intros [= _ <-]. exact (read_bytes _ _ _ _ E).
Qed.

Lemma read_def_batched_bytes (i size p : Z) (f f' : fstream) (r : list byte * Z) :
  read_def_batched i size p f = Ok (r, f') → bytes f' = bytes f.
Proof.
  unfold read_def_batched. cbv zeta.
  destruct (read _ _) as [[d f1]|] eqn:E; [|discriminate].
  rewrite bind_Ok. intros [= _ <-]. exact (read_bytes _ _ _ _ E).
Qed.

Lemma get_def_size_and_hash_bytes (d expected off : Z) (f f' : fstream) (r : Z * Z) :
  get_def_size_and_hash d expected off f = Ok (r, f') → bytes f' = bytes f.
Proof.
  unfold get_def_size_and_hash. cbv zeta.
  destruct (read_uint32_LE _) as [[size f1]|] eqn:E1; [|discriminate].
  rewrite bind_Ok. apply read_uint32_LE_bytes in E1. cbn [seek bytes] in E1.
  destruct (size =? 0); [discriminate|].
  destruct (_ && _); [intros [= _ <-]; exact E1|].
  destruct (read_uint64_LE f1) as [[hash f2]|] eqn:E2; [|discriminate].
  rewrite bind_Ok. intros [= _ <-]. apply read_uint64_LE_bytes in E2. congruence.
Qed.

Lemma hash_batches_bytes (n : nat) :
  ∀ (i size p h h' : Z) (f f' : fstream),
  hash_batches n i size p h f = Ok (h', f') → bytes f' = bytes f.
Proof.
  induction n as [|n IH]; intros i size p h h' f f' H; cbn [hash_batches] in H.
  - injection H as _ <-. reflexivity.
  - destruct (read_def_batched i size p f) as [[[data amt] f1]|] eqn:E; [|discriminate].
    rewrite bind_Ok in H. apply IH in H. apply read_def_batched_bytes in E. congruence.
Qed.

Lemma hash_existing_def_bytes (d expected off : Z) (f f' : fstream) (r : option Z) :
  hash_existing_def d expected off f = Ok (r, f') → bytes f' = bytes f.
Proof.
  unfold hash_existing_def. cbv zeta.
  destruct (read_uint32_LE _) as [[size f1]|] eqn:E1; [|discriminate].
  rewrite bind_Ok. apply read_uint32_LE_bytes in E1. cbn [seek bytes] in E1.
  destruct (size =? 0); [discriminate|].
  destruct (_ && _); [intros [= _ <-]; exact E1|].
  destruct (hash_batches _ _ _ _ _ _) as [[h f2]|] eqn:E2; [|discriminate].
  rewrite bind_Ok. intros [= _ <-]. apply hash_batches_bytes in E2.
  cbn [ignore bytes] in E2. congruence.
Qed.

Lemma load_defs_bytes (ws : list word_info) (deduplicate check_defs : bool) :
  ∀ s s', load_defs ws deduplicate check_defs s = Ok s' →
    bytes (file s') = bytes (file s).
Proof.
  induction ws as [|e ws IH]; intros s s' H.
  - injection H as <-. reflexivity.
  - cbn [load_defs] in H. cbv zeta in H.
    destruct (get_def_size_and_hash _ _ _ _) as [[[size hash] f]|er] eqn:E1; [|discriminate].
    rewrite bind_Ok in H. apply get_def_size_and_hash_bytes in E1.
    match type of H with
    | (mbind _ ?c) = _ => destruct c as [[h f1]|er] eqn:E2; [|discriminate]
    end.
    rewrite bind_Ok in H.
    assert (Hf1 : bytes f1 = bytes f).
    { destruct check_defs; [apply hash_existing_def_bytes in E2; exact E2|].
      injection E2 as _ <-. reflexivity. }
    match type of H with
    | (if ?c then _ else _) = _ => destruct c; [discriminate|]
    end.
    apply IH in H. cbn [set_file file] in H. congruence.
Qed.

Section ReadsOfRewrite.

Variable uninitialized : bool → Z → list byte.

Lemma compare_batches_bytes (n : nat) :
  ∀ (i size p p2 : Z) (f f2 f' f2' : fstream) (b : bool),
  compare_batches uninitialized n i size p p2 f f2 = Ok (b, f', f2') →
  bytes f' = bytes f ∧ bytes f2' = bytes f2.
Proof.
  induction n as [|n IH]; intros i size p p2 f f2 f' f2' b H; cbn [compare_batches] in H.
  - injection H as _ <- <-. split; reflexivity.
  - destruct (read_def_batched i size p f) as [[[data amt] f1]|] eqn:E1; [|discriminate].
    rewrite bind_Ok in H.
    destruct (read_def_batched i size p2 f2) as [[[data2 amt2] f21]|] eqn:E2; [|discriminate].
    rewrite bind_Ok in H.
    apply read_def_batched_bytes in E1, E2.
    destruct (_ || _).
    + injection H as _ <- <-. split; assumption.
    + apply IH in H as [H1 H2]. split; congruence.
Qed.

Lemma find_written_def_bytes (cands : list Z) :
  ∀ (size old_hash cur start : Z) (f f2 f' f2' : fstream) (r : option Z),
  find_written_def uninitialized cands size old_hash cur start f f2 = Ok (r, f', f2') →
  bytes f' = bytes f ∧ bytes f2' = bytes f2.
Proof.
  induction cands as [|c cands IH]; intros size old_hash cur start f f2 f' f2' r H;
    cbn [find_written_def] in H.
  - injection H as _ <- <-. split; reflexivity.
  - destruct (read_uint32_LE (seek cur f)) as [[rs f1]|] eqn:E1; [|discriminate].
    rewrite bind_Ok in H. apply read_uint32_LE_bytes in E1. cbn [seek bytes] in E1.
    destruct (negb (rs =? size)).
    { apply IH in H as [H1 H2]. split; congruence. }
    destruct (read_uint32_LE (seek (start + c) f2)) as [[rs2 f21]|] eqn:E2; [|discriminate].
    rewrite bind_Ok in H. apply read_uint32_LE_bytes in E2. cbn [seek bytes] in E2.
    destruct (negb (rs2 =? size)).
    { apply IH in H as [H1 H2]. split; congruence. }
    destruct (read_uint64_LE f21) as [[h2 f22]|] eqn:E3; [|discriminate].
    rewrite bind_Ok in H. apply read_uint64_LE_bytes in E3.
    destruct (negb (h2 =? old_hash)).
    { apply IH in H as [H1 H2]. split; congruence. }
    destruct (compare_batches _ _ _ _ _ _ _ _) as [[[mm f3] f23]|] eqn:E4; [|discriminate].
    rewrite bind_Ok in H. apply compare_batches_bytes in E4 as [E4 E5].
    destruct mm.
    + apply IH in H as [H1 H2]. split; congruence.
    + injection H as _ <- <-. split; congruence.
Qed.

End ReadsOfRewrite.

(** ** Writes behind the header leave it as it is *)

Section HeaderFrame.

Variable h : list byte.
Hypothesis Hh : length h = 15%nat.

Lemma header_len (f : fstream) : take 15 (bytes f) = h → 15 <= len (bytes f).
Proof.
  intros Ht. rewrite <- Ht in Hh. rewrite length_take in Hh. unfold len. lia.
Qed.

Lemma write_keeps (d : list byte) (f : fstream) :
  keeps_header h f → keeps_header h (write d f).
Proof.
  intros [Ht Hp]. split; [|rewrite write_pos; pose proof (len_nonneg d); lia].
  unfold write. cbn [bytes]. destruct d as [|c d]; [exact Ht|].
  rewrite overwrite_ne by discriminate.
  pose proof (header_len f Ht) as Hl. unfold len in Hl.
  rewrite <- app_assoc, take_app_le by (rewrite length_take; lia).
  rewrite take_take. replace (15 `min` Z.to_nat (pos f))%nat with 15%nat by lia.
  exact Ht.
Qed.

Lemma seek_keeps (p : Z) (f : fstream) :
  take 15 (bytes f) = h → 15 <= p → keeps_header h (seek p f).
Proof. intros Ht Hp. split; assumption. Qed.

Lemma seek_end_keeps (f : fstream) :
  take 15 (bytes f) = h → keeps_header h (seek_end f).
Proof. intros Ht. split; [exact Ht|]. cbn [seek_end pos]. apply header_len, Ht. Qed.

Lemma write_uint32_LE_keeps (x : Z) (f : fstream) :
  keeps_header h f → keeps_header h (write_uint32_LE x f).
Proof. apply write_keeps. Qed.

Lemma write_uint64_LE_keeps (x : Z) (f : fstream) :
  keeps_header h f → keeps_header h (write_uint64_LE x f).
Proof. apply write_keeps. Qed.

Lemma write_nulls_keeps (n : Z) (f : fstream) :
  keeps_header h f → keeps_header h (write_nulls n f).
Proof. apply write_keeps. Qed.

Lemma fold_write_keeps {A} (g : A → Z) (l : list A) :
  ∀ f, keeps_header h f →
    keeps_header h (fold_left (fun f x => write_uint32_LE (g x) f) l f).
Proof.
  induction l as [|x l IH]; intros f Hf; [exact Hf|].
  cbn [fold_left]. apply IH, write_uint32_LE_keeps, Hf.
Qed.

Lemma write_word_inds_keeps (ws : list word_info) :
  ∀ bw f, keeps_header h f → keeps_header h (write_word_inds ws bw f).
Proof.
  induction ws as [|e ws IH]; intros bw f Hf; [exact Hf|].
  cbn [write_word_inds]. apply IH, write_uint32_LE_keeps, Hf.
Qed.

Lemma write_words_keeps (ws : list word_info) :
  ∀ bw f, keeps_header h f → keeps_header h (write_words ws bw f).2.
Proof.
  induction ws as [|e ws IH]; intros bw f Hf; [exact Hf|].
  cbn [write_words]. apply IH, write_keeps, Hf.
Qed.

Lemma write_new_words_keeps (ws : list word_info) :
  ∀ off f, keeps_header h f → keeps_header h (write_new_words ws off f).2.
Proof.
  induction ws as [|e ws IH]; intros off f Hf; [exact Hf|].
  cbn [write_new_words].
  specialize (IH (off + (len (word e) + 1)) (write (word e ++ [x00]) f)
                (write_keeps _ _ Hf)).
  destruct (write_new_words ws _ _) as [inds f']. exact IH.
Qed.

End HeaderFrame.

(** ** The header through [rewrite_file], [flush] and [add_word] *)

Section HeaderOfRewrite.

Variable uninitialized : bool → Z → list byte.
Variable h : list byte.
Hypothesis Hh : length h = 15%nat.

Lemma copy_batches_keeps (n : nat) :
  ∀ (i size p hash hash' : Z) (dedup : bool) (f f2 f' f2' : fstream),
  copy_batches n i size p dedup hash f f2 = Ok (hash', f', f2') →
  keeps_header h f2 → keeps_header h f2'.
Proof.
  induction n as [|n IH]; intros i size p hash hash' dedup f f2 f' f2' H Hk;
    cbn [copy_batches] in H.
  - injection H as _ _ <-. exact Hk.
  - destruct (read_def_batched i size p f) as [[[data amt] f1]|] eqn:E; [|discriminate].
    rewrite bind_Ok in H. cbv zeta in H.
    apply IH in H; [exact H|]. apply write_keeps; assumption.
Qed.

Lemma rewrite_def_header (old start : Z) (dedup : bool) (e e' : word_info)
    (f f2 f' f2' : fstream) (defs defs' : gmap Z (gmap Z (list Z))) :
  rewrite_def uninitialized old start dedup e f f2 defs = Ok (e', f', f2', defs') →
  15 <= start → take 15 (bytes f2) = h → take 15 (bytes f2') = h.
Proof.
  unfold rewrite_def. cbv zeta. intros H Hstart Ht.
  destruct (read_uint32_LE _) as [[size f1]|] eqn:E1; [|discriminate].
  rewrite bind_Ok in H.
  destruct (size =? 0); [discriminate|].
  match type of H with
  | (mbind _ ?c) = _ => destruct c as [[[[old_hash found] fa] f2a]|] eqn:E2; [|discriminate]
  end.
  rewrite bind_Ok in H.
  assert (Hf2a : bytes f2a = bytes f2).
  { destruct dedup; [|injection E2 as _ _ _ <-; reflexivity].
    destruct (defs !! size) as [inner|]; [|injection E2 as _ _ _ <-; reflexivity].
    destruct (get_def_size_and_hash _ _ _ _) as [[[size2 hh] fb]|]; [|discriminate].
    rewrite bind_Ok in E2.
    destruct (size2 =? size); [|injection E2 as _ _ _ <-; reflexivity].
    destruct (inner !! hh) as [cands|]; [|injection E2 as _ _ _ <-; reflexivity].
    destruct (find_written_def _ _ _ _ _ _ _ _) as [[[r fc] f2c]|] eqn:E3; [|discriminate].
    rewrite bind_Ok in E2. injection E2 as _ _ _ <-.
    apply find_written_def_bytes in E3 as [_ E3]. exact E3. }
  rewrite <- Hf2a in Ht.
  destruct found as [found_def_ind|]; [injection H as _ _ <- _; exact Ht|].
  match type of H with
  | (mbind _ ?c) = _ => destruct c as [[hash fb]|] eqn:E4; [|discriminate]
  end.
  rewrite bind_Ok in H. cbv zeta in H.
  destruct (copy_batches _ _ _ _ _ _ _ _) as [[[hash' fc] f2c]|] eqn:E5; [|discriminate].
  rewrite bind_Ok in H.
  assert (Hk : keeps_header h f2c).
  { eapply copy_batches_keeps; [exact E5|].
    apply write_uint64_LE_keeps, write_uint32_LE_keeps, seek_end_keeps; assumption. }
  destruct (negb dedup).
  - injection H as _ _ <- _.
    apply write_uint64_LE_keeps; [exact Hh|].
    apply seek_keeps; [apply Hk|].
    match goal with |- context [u32 ?x] => pose proof (u32_range x) end. lia.
  - injection H as _ _ <- _. apply Hk.
Qed.

Lemma rewrite_defs_header (old start : Z) (dedup : bool) (ws : list word_info) :
  ∀ (f f2 f' f2' : fstream) (defs defs' : gmap Z (gmap Z (list Z))) (ws' : list word_info),
  rewrite_defs uninitialized old start dedup ws f f2 defs = Ok (ws', f', f2', defs') →
  15 <= start → take 15 (bytes f2) = h → take 15 (bytes f2') = h.
Proof.
  induction ws as [|e ws IH]; intros f f2 f' f2' defs defs' ws' H Hstart Ht;
    cbn [rewrite_defs] in H.
  - injection H as _ _ <- _. exact Ht.
  - destruct (rewrite_def _ _ _ _ _ _ _ _) as [[[[e1 f1] f21] defs1]|] eqn:E1;
      [|discriminate].
    rewrite bind_Ok in H.
    destruct (rewrite_defs _ _ _ _ _ _ _ _) as [[[[ws1 f1'] f21'] defs1']|] eqn:E2;
      [|discriminate].
    rewrite bind_Ok in H. injection H as _ _ <- _.
    eapply IH; [exact E2|exact Hstart|].
    eapply rewrite_def_header; eassumption.
Qed.

End HeaderOfRewrite.

Section HeaderOfFlush.

Variable uninitialized : bool → Z → list byte.

Lemma length_sizes_header (s : dictionary_file) : length (sizes_header s) = 15%nat.
Proof. reflexivity. Qed.

(** The file [rewrite_file] leaves begins with the sizes of the object. *)
Lemma rewrite_file_header (old_rw old_wss : Z) (s s' : dictionary_file) :
  rewrite_file uninitialized old_rw old_wss s = Ok s' →
  take 15 (bytes (file s')) = sizes_header s.
Proof.
  unfold rewrite_file. cbv zeta.
  change {| bytes := []; pos := 0 |} with (eof []).
  rewrite write_eof, !write_uint32_LE_eof, app_nil_l.
  set (f0 := eof (((magic_bytes ++ uint32_LE (reserved_words s))
                   ++ uint32_LE (words_sect_size s))
                  ++ uint32_LE (u32 (len (words s))))).
  assert (Hk0 : keeps_header (sizes_header s) f0).
  { split.
    - unfold f0, eof, sizes_header. cbn [bytes].
      rewrite <- (app_assoc magic_bytes), take_app_length'; reflexivity.
    - unfold f0, eof. cbn [pos]. rewrite !len_app, !len_uint32_LE.
      change (len magic_bytes) with 7. lia. }
  pose proof (write_words_keeps _ (length_sizes_header s) (words s) 0 _
                (write_nulls_keeps _ (length_sizes_header s) (u32 (reserved_words s * 4)) _
                   (write_nulls_keeps _ (length_sizes_header s)
                      ((reserved_words s - len (words s)) * 4) _
                      (write_word_inds_keeps _ (length_sizes_header s) (words s) 0 _ Hk0))))
    as Hk1.
  destruct (write_words _ _ _) as [bytes_written f2]. cbn [snd] in Hk1.
  pose proof (write_nulls_keeps _ (length_sizes_header s)
                (u32 (words_sect_size s - bytes_written)) _ Hk1) as Hk2.
  destruct (rewrite_defs _ _ _ _ _ _ _ _) as [[[[ws f] f2'] defs]|] eqn:E; [|discriminate].
  rewrite bind_Ok. intros [= <-].
  destruct (reopen_as_fields read_only
              (set_existing_defs defs
                 (set_words ws (first_new_word s)
                    (set_file
                       (write_nulls ((reserved_words s - len (words s)) * 4)
                          (fold_left
                             (λ (f0 : fstream) (e : word_info),
                                write_uint32_LE (u32 (def_ind e + 1)) f0) ws
                             (seek (inds_section_offset + u32 (reserved_words s * 4)) f2')))
                       (file_open_type s) s))))
    as (_ & _ & _ & _ & _ & _ & R7).
  unfold open_in. rewrite R7. cbn [set_existing_defs set_words set_file file].
  apply write_nulls_keeps; [apply length_sizes_header|].
  apply fold_write_keeps; [apply length_sizes_header|].
  apply seek_keeps.
  - eapply rewrite_defs_header; [apply length_sizes_header|exact E|apply Hk2|apply Hk2].
  - pose proof (u32_range (reserved_words s * 4)). change inds_section_offset with 19. lia.
Qed.

(** The in-place writes of [flush] leave the sizes in the header. *)
Lemma flush_in_place_header (fnw : nat) (s : dictionary_file) (h : list byte) :
  length h = 15%nat → 0 <= reserved_words s →
  take 15 (bytes (file s)) = h → take 15 (bytes (flush_in_place fnw s)) = h.
Proof.
  intros Hh Hrw Ht. unfold flush_in_place. cbv zeta.
  assert (Hk1 : keeps_header h
                  (write_uint32_LE (u32 (len (words s)))
                     (seek (inds_section_offset - 4) (file s)))).
  { apply write_uint32_LE_keeps; [exact Hh|]. apply seek_keeps; [exact Ht|].
    change inds_section_offset with 19. lia. }
  set (f1 := write_uint32_LE (u32 (len (words s)))
               (seek (inds_section_offset - 4) (file s))) in *.
  pose proof (write_new_words_keeps h Hh (drop fnw (words s))
                (total_len (take fnw (words s)) 0)
                (seek (words_section_offset (reserved_words s)
                       + total_len (take fnw (words s)) 0) f1)) as Hk2.
  destruct (write_new_words _ _ _) as [inds f2]. cbn [snd] in Hk2.
  apply fold_write_keeps; [exact Hh|]. apply seek_keeps.
  - apply fold_write_keeps; [exact Hh|]. apply seek_keeps.
    + apply Hk2. apply seek_keeps; [apply Hk1|].
      rewrite total_len_keys.
      pose proof (keys_len_nonneg (map word (take fnw (words s)))).
      unfold words_section_offset.
      pose proof (u32_range (reserved_words s * 4 * 2)).
      change inds_section_offset with 19. lia.
    + change inds_section_offset with 19. lia.
  - change inds_section_offset with 19. lia.
Qed.

(** [add_word] appends behind the header. *)
Lemma append_word_header (w def : list byte) (s s' : dictionary_file) (h : list byte) :
  length h = 15%nat → append_word w def s = Ok s' →
  take 15 (bytes (file s)) = h → take 15 (bytes (file s')) = h.
Proof.
  intros Hh H Ht. unfold append_word in H.
  set (s0 := match first_new_word s with
             | Some _ => s
             | None => set_words (words s) (Some (length (words s))) s
             end) in H.
  assert (Hs0 : bytes (file s0) = bytes (file s)).
  { unfold s0. destruct (first_new_word s); reflexivity. }
  match type of H with
  | (mbind _ ?c) = _ => destruct c as [[existing s1]|] eqn:E1; [|discriminate]
  end.
  rewrite bind_Ok in H.
  assert (Hs1 : bytes (file s1) = bytes (file s)).
  { destruct (do_dedup s0).
    - apply get_existing_def_ind_fields in E1 as (_ & _ & _ & _ & _ & _ & _ & E1).
      congruence.
    - injection E1 as _ <-. exact Hs0. }
  destruct existing as [d|].
  - injection H as <-. cbn [set_words file]. rewrite Hs1. exact Ht.
  - cbv zeta in H. destruct (_ <? 0); [discriminate|]. injection H as <-.
    cbn [set_file file].
    apply write_keeps; [exact Hh|].
    apply write_uint64_LE_keeps; [exact Hh|]. apply write_uint32_LE_keeps; [exact Hh|].
    apply seek_end_keeps; [exact Hh|].
    destruct (reopen_as_fields read_write s1) as (_ & _ & _ & _ & _ & _ & R7).
    unfold open_in_out. rewrite R7, Hs1. exact Ht.
Qed.

End HeaderOfFlush.

(** ** The sizes from the constructor on *)

Lemma of_LE_inj (l l' : list byte) :
  length l = length l' → of_LE l = of_LE l' → l = l'.
Proof.
  revert l'. induction l as [|a l IH]; intros [|b l'] Hlen H; try discriminate.
  - reflexivity.
  - rewrite !of_LE_cons in H.
    pose proof (byte_val_range a). pose proof (byte_val_range b).
    assert (Hab : byte_val a = byte_val b ∧ of_LE l = of_LE l') by lia.
    destruct Hab as [Hab Hl]. apply byte_val_inj in Hab. subst b.
    f_equal. apply IH; [|exact Hl]. cbn [length] in Hlen. lia.
Qed.

(** Four chars are the little-endian form of the value read from them. *)
Lemma uint32_LE_of_LE (chars : list byte) :
  length chars = 4%nat → uint32_LE (u32 (of_LE chars)) = chars.
Proof.
  intros Hlen. apply of_LE_inj; [rewrite length_uint32_LE, Hlen; reflexivity|].
  rewrite of_uint32_LE, u32_idem. apply u32_small.
  destruct chars as [|a [|b [|c [|d [|]]]]]; try discriminate.
  rewrite !of_LE_cons. change (of_LE []) with 0.
  pose proof (byte_val_range a). pose proof (byte_val_range b).
  pose proof (byte_val_range c). pose proof (byte_val_range d). lia.
Qed.

Lemma read_tables_bytes (contents : list byte) (rw wss : Z) (word_inds def_inds : list Z)
    (f : fstream) :
  read_tables contents = Ok (rw, wss, word_inds, def_inds, f) → bytes f = contents.
Proof.
  unfold read_tables. cbv zeta. intros H.
  destruct (read _ _) as [[arr f0]|e] eqn:E0; [|discriminate].
  rewrite bind_Ok in H. apply read_bytes in E0. cbn [bytes] in E0.
  destruct (negb _); [discriminate|].
  destruct (read_uint32_LE f0) as [[rw' f1]|e] eqn:E1; [|discriminate].
  rewrite bind_Ok in H. apply read_uint32_LE_bytes in E1.
  destruct (rw' =? 0); [discriminate|].
  destruct (read_uint32_LE f1) as [[wss' f2]|e] eqn:E2; [|discriminate].
  rewrite bind_Ok in H. apply read_uint32_LE_bytes in E2.
  destruct (wss' =? 0); [discriminate|].
  destruct (read_uint32_LE f2) as [[n f3]|e] eqn:E3; [|discriminate].
  rewrite bind_Ok in H. apply read_uint32_LE_bytes in E3.
  destruct (n >? rw'); [discriminate|].
  destruct (_ >? _); [discriminate|].
  destruct (read_inds (Z.to_nat rw') f3) as [[wi f4]|e] eqn:E4; [|discriminate].
  rewrite bind_Ok in H.
  destruct (read_inds (Z.to_nat rw') f4) as [[di f5]|e] eqn:E5; [|discriminate].
  rewrite bind_Ok in H.
  destruct (_ || _); [discriminate|]. injection H as _ _ _ _ <-.
  destruct (read_inds_ok _ f3 f4 wi E4) as (Hb4 & _).
  destruct (read_inds_ok _ f4 f5 di E5) as (Hb5 & _).
  congruence.
Qed.

(** The first 15 bytes of a file whose tables [read_file] has read. *)
Lemma read_tables_header (contents : list byte) (rw wss : Z) (word_inds def_inds : list Z)
    (f : fstream) :
  read_tables contents = Ok (rw, wss, word_inds, def_inds, f) →
  0 < rw < 2 ^ 32 ∧ 0 < wss < 2 ^ 32
  ∧ take 15 contents = magic_bytes ++ uint32_LE rw ++ uint32_LE wss.
Proof.
  intros H.
  destruct (read_tables_ok _ _ _ _ _ _ H)
    as (Hmagic & Hrw & Hwss & _ & _ & Hrw0 & Hwss0 & _ & Hfile).
  pose proof (u32_range (of_LE (slice contents 7 4))).
  pose proof (u32_range (of_LE (slice contents 11 4))).
  split; [lia|]. split; [lia|].
  assert (Hlen : (19 <= length contents)%nat) by (unfold len in Hfile; lia).
  assert (L1 : length (slice contents 7 4) = 4%nat).
  { unfold slice. rewrite length_take, length_drop. lia. }
  assert (L2 : length (slice contents 11 4) = 4%nat).
  { unfold slice. rewrite length_take, length_drop. lia. }
  rewrite Hrw, Hwss, (uint32_LE_of_LE _ L1), (uint32_LE_of_LE _ L2), <- Hmagic.
  unfold slice. change (Z.to_nat 7) with 7%nat. change (Z.to_nat 11) with 11%nat.
  change (Z.to_nat 4) with 4%nat.
  change 15%nat with (7 + (4 + 4))%nat.
  rewrite <- (take_take_drop contents 7 (4 + 4)). f_equal.
  rewrite <- (take_take_drop (drop 7 contents) 4 4). f_equal.
  rewrite drop_drop. reflexivity.
Qed.

Lemma open_regular_sizes (contents : list byte) (create deduplicate check_defs : bool)
    (s : dictionary_file) :
  dictionary_file_at (Regular contents) create deduplicate check_defs = Ok s → sizes_ok s.
Proof.
  unfold dictionary_file_at, open. cbv zeta. intros H.
  match type of H with
  | (mbind _ (read_file ?t)) = _ => set (s0 := t) in H
  end.
  assert (Hb0 : bytes (file s0) = contents).
  { unfold s0, open_in.
    destruct (reopen_as_fields read_only
                (set_file {| bytes := contents; pos := 0 |} none
                   (set_dedup deduplicate (created_file no_dictionary)
                      (set_file (file no_dictionary) none no_dictionary))))
      as (_ & _ & _ & _ & _ & _ & R7).
    rewrite R7. reflexivity. }
  destruct (read_file s0) as [s1|e] eqn:E1; [|discriminate].
  rewrite bind_Ok in H.
  rewrite read_file_stages, Hb0 in E1.
  destruct (read_tables contents) as [[[[[rw wss] wi] di] f]|e] eqn:Et; [|discriminate].
  rewrite bind_Ok in E1.
  destruct (read_tables_header _ _ _ _ _ _ Et) as (Hrw & Hwss & Hhead).
  pose proof (read_tables_bytes _ _ _ _ _ _ Et) as Hbf.
  destruct ((sort_and_find_dup_zipped wi di).1); [discriminate|].
  unfold read_sorted_words in E1.
  destruct (read_words _ _ _ _) as [ws|e] eqn:Ew; [|discriminate].
  rewrite bind_Ok in E1. unfold sort_and_find_dup in E1.
  destruct (adjacent_find word_eqb (sort_by word_ltb ws)); [discriminate|].
  injection E1 as <-.
  assert (Hload : ∃ s2, reserved_words s2 = rw ∧ words_sect_size s2 = wss
                        ∧ bytes (file s2) = contents
                        ∧ s = set_dedup deduplicate false s2).
  { destruct (deduplicate || check_defs).
    - match type of H with
      | (mbind _ ?c) = _ => destruct c as [s2|e] eqn:E2; [|discriminate]
      end.
      rewrite bind_Ok in H. injection H as <-.
      pose proof (load_defs_bytes _ _ _ _ _ E2) as Hb2.
      apply load_defs_fields in E2. destruct E2 as (_ & _ & L3 & L4).
      exists s2. rewrite L3, L4, Hb2. repeat split; try reflexivity. exact Hbf.
    - rewrite bind_Ok in H. injection H as <-.
      eexists. repeat split; try reflexivity. exact Hbf. }
  destruct Hload as (s2 & L3 & L4 & Hb & ->).
  unfold sizes_ok, sizes_header.
  cbn [set_dedup reserved_words words_sect_size file].
  rewrite L3, L4, Hb. auto.
Qed.

Lemma constructed_sizes (p : path_state) (create deduplicate check_defs : bool)
    (s : dictionary_file) :
  dictionary_file_at p create deduplicate check_defs = Ok s →
  sizes_ok s ∧ (p = Missing → reserved_words s = 32 ∧ words_sect_size s = 256).
Proof.
  intros H. destruct p as [| |contents].
  - destruct create; [|discriminate]. rewrite created_state in H. injection H as <-.
    split; [|intros _; destruct deduplicate; split; reflexivity].
    destruct deduplicate; (split; [|split]); try (vm_compute; split; reflexivity).
    all: vm_compute; reflexivity.
  - discriminate.
  - split; [eapply open_regular_sizes, H|discriminate].
Qed.

Section SizesOfSession.

Variable uninitialized : bool → Z → list byte.

Lemma sizes_header_eq (s s' : dictionary_file) :
  reserved_words s' = reserved_words s → words_sect_size s' = words_sect_size s →
  sizes_header s' = sizes_header s.
Proof. unfold sizes_header. intros -> ->. reflexivity. Qed.

(** What a successful [flush] does to the sizes. *)
Lemma flush_sizes_ok (s s' : dictionary_file) (b : bool) :
  sizes_ok s → flush uninitialized s = Ok (b, s') →
  sizes_ok s'
  ∧ reserved_words s <= reserved_words s'
  ∧ words_sect_size s <= words_sect_size s'
  ∧ (is_pow2 (reserved_words s) → is_pow2 (reserved_words s'))
  ∧ (is_pow2 (words_sect_size s) → is_pow2 (words_sect_size s'))
  ∧ (reserved_words s' ≠ reserved_words s →
       doubling_from (reserved_words s) (len (words s')) (reserved_words s')
       ∧ (is_pow2 (reserved_words s) →
            smallest_pow2_covering (reserved_words s') (len (words s'))))
  ∧ (words_sect_size s' ≠ words_sect_size s →
       doubling_from (words_sect_size s) (total_len (words s') 0) (words_sect_size s')
       ∧ (is_pow2 (words_sect_size s) →
            smallest_pow2_covering (words_sect_size s') (total_len (words s') 0))).
Proof.
  intros (Hrw & Hwss & Hhead) H. apply flush_inv in H.
  destruct (first_new_word s) as [fnw|].
  2:{ destruct H as [_ ->].
      destruct (reopen_as_fields read_only s) as (H1 & H2 & _ & _ & _ & _ & H7).
      unfold open_in, sizes_ok. rewrite H1, H2, H7.
      rewrite (sizes_header_eq s (reopen_as read_only s) H1 H2).
      repeat split; try lia; try assumption; auto;
        intros Hne; exfalso; apply Hne; reflexivity. }
  destruct H as (_ & wss & Hd & H). cbv zeta in H.
  destruct (reopen_as_fields read_write s) as (R1 & R2 & R3 & _ & _ & _ & R7).
  unfold open_in_out in H.
  pose proof (double_until_doubling 32 (words_sect_size s) _ _ ltac:(lia) Hd) as Dw.
  destruct (doubling_from_bounds _ _ _ Hwss Dw) as [Mw Bw].
  destruct (negb (wss =? words_sect_size s) || (reserved_words s <? len (words s)))
    eqn:Hbranch.
  - destruct H as (s2 & rw & Hsort & Hd1 & Hrew).
    apply sort_words_fields in Hsort as (S1 & S2 & S3 & _).
    cbn [set_sizes reserved_words words_sect_size words] in S1, S2, S3.
    pose proof (double_until_doubling 32 (reserved_words s) _ _ ltac:(lia) Hd1) as Dr.
    destruct (doubling_from_bounds _ _ _ Hrw Dr) as [Mr Br].
    pose proof (rewrite_file_header uninitialized _ _ _ _ Hrew) as Hhead'.
    apply rewrite_file_fields in Hrew as (W1 & W2 & W3 & _).
    cbn [set_sizes reserved_words words_sect_size words] in W1, W2, W3.
    assert (Hkeys : map word (words s') ≡ₚ map word (words s)).
    { rewrite W3. apply Permutation_map. rewrite S3, R3. reflexivity. }
    assert (Hlen : len (words s') = len (words s2)).
    { apply len_map_word. rewrite W3. reflexivity. }
    assert (Htot : total_len (words s') 0 = keys_len (map word (words s))).
    { rewrite total_len_keys, (keys_len_perm _ _ Hkeys). lia. }
    unfold sizes_ok. rewrite W1, W2, Hlen, Htot.
    split.
    { split; [lia|]. split; [lia|]. rewrite Hhead'. apply sizes_header_eq.
      - cbn [set_sizes reserved_words]. symmetry. exact W1.
      - cbn [set_sizes words_sect_size]. symmetry. exact W2. }
    split; [exact Mr|]. split; [exact Mw|].
    split; [intros Hp; exact (proj1 (double_until_smallest 32 _ _ _ Hp ltac:(lia) Hd1))|].
    split; [intros Hp; exact (proj1 (double_until_smallest 32 _ _ _ Hp ltac:(lia) Hd))|].
    split.
    + intros Hne. split; [exact Dr|].
      intros Hp. exact (proj2 (double_until_smallest 32 _ _ _ Hp ltac:(lia) Hd1) Hne).
    + intros Hne. split; [exact Dw|].
      intros Hp. exact (proj2 (double_until_smallest 32 _ _ _ Hp ltac:(lia) Hd) Hne).
  - apply orb_false_iff in Hbranch as [Hsame Hfit].
    apply negb_false_iff, Z.eqb_eq in Hsame. subst wss.
    destruct H as (s2 & Hsort & ->).
    apply sort_words_fields in Hsort as (S1 & S2 & _ & _ & S5).
    cbn [set_sizes set_file reserved_words words_sect_size file] in S1, S2, S5.
    destruct (reopen_as_fields read_only s2) as (O1 & O2 & _ & _ & _ & _ & O7).
    unfold open_in, sizes_ok. rewrite O1, O2, O7, S1, S2, S5.
    rewrite (sizes_header_eq s (reopen_as read_only s2)) by congruence.
    split.
    { split; [lia|]. split; [lia|].
      apply flush_in_place_header;
        [reflexivity|cbn [set_sizes reserved_words]; lia|].
      cbn [set_sizes file]. rewrite R7. exact Hhead. }
    repeat split; try lia; try assumption; auto;
      intros Hne; exfalso; apply Hne; reflexivity.
Qed.

Lemma add_word_unflushed_sizes (skip_dup_check : bool) (w def : list byte)
    (s s' : dictionary_file) (inserted : bool) :
  sizes_ok s →
  add_word uninitialized false skip_dup_check w def s = Ok (inserted, s') →
  sizes_ok s' ∧ reserved_words s' = reserved_words s
  ∧ words_sect_size s' = words_sect_size s.
Proof.
  intros (Hrw & Hwss & Hhead) H.
  assert (Hopen : file_open_type s ≠ no_file).
  { intros E. unfold add_word in H. rewrite E in H. discriminate. }
  rewrite add_word_unflushed in H by exact Hopen.
  destruct (negb skip_dup_check && negb (find_def_ind s w =? not_found)).
  - injection H as _ <-. repeat split; assumption || lia.
  - destruct (append_word w def s) as [s1|] eqn:Happ; [|discriminate].
    rewrite bind_Ok in H. injection H as _ <-.
    pose proof (append_word_header w def s s1 _ (length_sizes_header s) Happ Hhead) as Hh1.
    apply append_word_fields in Happ as (F1 & F2 & _).
    unfold sizes_ok. rewrite F1, F2, (sizes_header_eq s s1 F1 F2).
    repeat split; assumption || lia.
Qed.

Lemma step_sizes_ok (o : operation) (s s' : dictionary_file) :
  sizes_ok s → step uninitialized o s = Ok s' →
  sizes_ok s'
  ∧ reserved_words s <= reserved_words s'
  ∧ words_sect_size s <= words_sect_size s'
  ∧ (is_pow2 (reserved_words s) → is_pow2 (reserved_words s'))
  ∧ (is_pow2 (words_sect_size s) → is_pow2 (words_sect_size s')).
Proof.
  intros Hok H. destruct o as [fl sk w def|]; cbn [step] in H.
  - assert (Hadd : ∀ s1 inserted,
              add_word uninitialized false sk w def s = Ok (inserted, s1) →
              sizes_ok s1
              ∧ reserved_words s <= reserved_words s1
              ∧ words_sect_size s <= words_sect_size s1
              ∧ (is_pow2 (reserved_words s) → is_pow2 (reserved_words s1))
              ∧ (is_pow2 (words_sect_size s) → is_pow2 (words_sect_size s1))).
    { intros s1 inserted Ha.
      destruct (add_word_unflushed_sizes _ _ _ _ _ _ Hok Ha) as (A0 & A1 & A2).
      rewrite A1, A2. split; [exact A0|]. repeat split; try lia; auto. }
    destruct fl.
    + rewrite add_word_flushing in H.
      destruct (add_word uninitialized false sk w def s) as [[inserted s1]|] eqn:Ha;
        [|discriminate].
      rewrite bind_Ok in H.
      destruct (Hadd s1 inserted eq_refl) as (A0 & A1 & A2 & A3 & A4).
      destruct inserted.
      * destruct (flush uninitialized s1) as [[b s2]|] eqn:Hfl; [|discriminate].
        rewrite bind_Ok in H. injection H as <-.
        destruct (flush_sizes_ok s1 s2 b A0 Hfl) as (F0 & F1 & F2 & F3 & F4 & _).
        split; [exact F0|]. split; [lia|]. split; [lia|]. split; auto.
      * rewrite bind_Ok in H. injection H as <-. auto.
    + destruct (add_word uninitialized false sk w def s) as [[inserted s1]|] eqn:Ha;
        [|discriminate].
      rewrite bind_Ok in H. injection H as <-. apply (Hadd s1 inserted eq_refl).
  - destruct (flush uninitialized s) as [[b s2]|] eqn:Hfl; [|discriminate].
    rewrite bind_Ok in H. injection H as <-.
    destruct (flush_sizes_ok s s2 b Hok Hfl) as (F0 & F1 & F2 & F3 & F4 & _).
    auto.
Qed.

Lemma run_sizes_ok (ops : list operation) :
  ∀ s s', sizes_ok s → run uninitialized ops s = Ok s' →
  sizes_ok s'
  ∧ reserved_words s <= reserved_words s'
  ∧ words_sect_size s <= words_sect_size s'
  ∧ (is_pow2 (reserved_words s) → is_pow2 (reserved_words s'))
  ∧ (is_pow2 (words_sect_size s) → is_pow2 (words_sect_size s')).
Proof.
  induction ops as [|o ops IH]; intros s s' Hok H; cbn [run] in H.
  - injection H as <-. repeat split; try lia; auto; apply Hok.
  - destruct (step uninitialized o s) as [s1|] eqn:Hstep; [|discriminate].
    rewrite bind_Ok in H.
    destruct (step_sizes_ok o s s1 Hok Hstep) as (A0 & A1 & A2 & A3 & A4).
    destruct (IH s1 s' A0 H) as (B0 & B1 & B2 & B3 & B4).
    split; [exact B0|]. split; [lia|]. split; [lia|]. split; auto.
Qed.

End SizesOfSession.

Lemma not_pow2_between (k x : Z) : 0 <= k → 2 ^ k < x < 2 ^ (k + 1) → ¬ is_pow2 x.
Proof.
  intros Hk [H1 H2] (j & Hj & ->).
  destruct (Z.le_gt_cases j k) as [H|H].
  - assert (2 ^ j <= 2 ^ k) by (apply Z.pow_le_mono_r; lia). lia.
  - assert (2 ^ (k + 1) <= 2 ^ j) by (apply Z.pow_le_mono_r; lia). lia.
Qed.

(** ** C8 *)

Section SectionSizes.

Variable uninitialized : bool → Z → list byte.

(** C8.  In every state that a dictionary reaches from its constructor (on
    a newly created file, or on any regular file that [open] accepts)
    through [add_word] and [flush], [reserved_words] and [words_sect_size]
    are non-zero 32-bit values, not below the ones the dictionary started
    with (32 and 256 for a created file), and the first 15 bytes of the
    file carry them; no [add_word] or [flush] that succeeds makes either
    smaller.  When a successful [flush] changes one of them, the new value
    is the first of the 32-bit doublings of the old one that is at least
    the number of stored words, respectively the total length of the stored
    words with one null each.  Both are powers of two whenever the values
    the dictionary started with are, and then a changed value is the
    smallest power of two that covers the need. *)
Theorem section_sizes_double (p : path_state) (create deduplicate check_defs : bool)
    (ops : list operation) (s0 s : dictionary_file) :
  dictionary_file_at p create deduplicate check_defs = Ok s0 →
  run uninitialized ops s0 = Ok s →
  (p = Missing → reserved_words s0 = 32 ∧ words_sect_size s0 = 256
                 ∧ is_pow2 (reserved_words s) ∧ is_pow2 (words_sect_size s))
  ∧ (0 < reserved_words s0 <= reserved_words s ∧ reserved_words s < 2 ^ 32)
  ∧ (0 < words_sect_size s0 <= words_sect_size s ∧ words_sect_size s < 2 ^ 32)
  ∧ (is_pow2 (reserved_words s0) → is_pow2 (reserved_words s))
  ∧ (is_pow2 (words_sect_size s0) → is_pow2 (words_sect_size s))
  ∧ take 15 (bytes (file s)) = sizes_header s
  ∧ (∀ o s', step uninitialized o s = Ok s' →
       reserved_words s <= reserved_words s'
       ∧ words_sect_size s <= words_sect_size s')
  ∧ (∀ b s', flush uninitialized s = Ok (b, s') →
       take 15 (bytes (file s')) = sizes_header s'
       ∧ (is_pow2 (reserved_words s) → is_pow2 (reserved_words s'))
       ∧ (is_pow2 (words_sect_size s) → is_pow2 (words_sect_size s'))
       ∧ (reserved_words s' ≠ reserved_words s →
            doubling_from (reserved_words s) (len (words s')) (reserved_words s')
            ∧ (is_pow2 (reserved_words s) →
                 smallest_pow2_covering (reserved_words s') (len (words s'))))
       ∧ (words_sect_size s' ≠ words_sect_size s →
            doubling_from (words_sect_size s) (total_len (words s') 0)
              (words_sect_size s')
            ∧ (is_pow2 (words_sect_size s) →
                 smallest_pow2_covering (words_sect_size s')
                   (total_len (words s') 0)))).
Proof.
  intros Hnew Hrun.
  destruct (constructed_sizes p create deduplicate check_defs s0 Hnew) as [Hok0 Hinit].
  destruct (run_sizes_ok uninitialized ops s0 s Hok0 Hrun) as (Hok & M1 & M2 & P1 & P2).
  destruct Hok0 as (A1 & A2 & _).
  pose proof Hok as (B1 & B2 & B3).
  split.
  { intros Hp. destruct (Hinit Hp) as [I1 I2]. split; [exact I1|]. split; [exact I2|].
    split; [apply P1; rewrite I1; exists 5|apply P2; rewrite I2; exists 8];
      (split; [lia|reflexivity]). }
  split; [lia|]. split; [lia|].
  split; [exact P1|]. split; [exact P2|]. split; [exact B3|]. split.
  - intros o s' Hstep.
    destruct (step_sizes_ok uninitialized o s s' Hok Hstep) as (_ & S1 & S2 & _).
    split; assumption.
  - intros b s' Hfl.
    destruct (flush_sizes_ok uninitialized s s' b Hok Hfl)
      as ((_ & _ & F0) & _ & _ & F3 & F4 & F5 & F6).
    split; [exact F0|]. split; [exact F3|]. split; [exact F4|]. split; assumption.
Qed.

End SectionSizes.

Lemma section_sizes_double_witness :
  let s0 := state_of (dictionary_file_at (Regular shared_def_file) false true true) in
  let s := state_of (run no_leftover [op_add false false [x63] [x79]] s0) in
  let s' := state_of (run no_leftover [op_flush] s) in
  (reserved_words s, words_sect_size s) = (2, 4)
  ∧ (reserved_words s', words_sect_size s', len (words s'), total_len (words s') 0)
    = (4, 8, 3, 6)
  ∧ take 15 (bytes (file s')) = sizes_header s'
  ∧ smallest_pow2_covering (reserved_words s') (len (words s'))
  ∧ smallest_pow2_covering (words_sect_size s') (total_len (words s') 0).
Proof.
  intros s0 s s'.
  split; [vm_compute; reflexivity|]. split; [vm_compute; reflexivity|].
  assert (H0 : dictionary_file_at (Regular shared_def_file) false true true = Ok s0)
    by (vm_compute; reflexivity).
  assert (Hrun : run no_leftover [op_add false false [x63] [x79]] s0 = Ok s)
    by (vm_compute; reflexivity).
  destruct (section_sizes_double no_leftover (Regular shared_def_file) false true true
              [op_add false false [x63] [x79]] s0 s H0 Hrun)
    as (_ & _ & _ & _ & _ & _ & _ & Hflush).
  assert (Hfl : flush no_leftover s = Ok (true, s')) by (vm_compute; reflexivity).
  destruct (Hflush true s' Hfl) as (Hhead & _ & _ & Hrw & Hwss).
  split; [exact Hhead|]. split.
  - apply Hrw; [vm_compute; discriminate|]. exists 1. split; [lia|vm_compute; reflexivity].
  - apply Hwss; [vm_compute; discriminate|]. exists 2. split; [lia|vm_compute; reflexivity].
Defined.

(** A file whose header holds the sizes 3 and 5 is accepted by [open];
    after four words have been added [flush] succeeds and leaves the sizes
    6 and 10, which are not powers of two, while the smallest powers of two
    that cover the 4 words and their 8 bytes are 4 and 8. *)
Lemma section_sizes_not_powers_of_two :
  let s0 := state_of (dictionary_file_at (Regular odd_sizes_file) false true true) in
  let s := state_of (run no_leftover (inserts false four_words) s0) in
  let s' := state_of (run no_leftover [op_flush] s) in
  dictionary_file_at (Regular odd_sizes_file) false true true = Ok s0
  ∧ run no_leftover (inserts false four_words) s0 = Ok s
  ∧ flush no_leftover s = Ok (true, s')
  ∧ (reserved_words s0, words_sect_size s0) = (3, 5)
  ∧ (reserved_words s', words_sect_size s', len (words s'), total_len (words s') 0)
    = (6, 10, 4, 8)
  ∧ ¬ is_pow2 (reserved_words s') ∧ ¬ is_pow2 (words_sect_size s')
  ∧ ¬ smallest_pow2_covering (reserved_words s') (len (words s'))
  ∧ ¬ smallest_pow2_covering (words_sect_size s') (total_len (words s') 0).
Proof.
  intros s0 s s'.
  assert (E1 : reserved_words s' = 6) by (vm_compute; reflexivity).
  assert (E2 : words_sect_size s' = 10) by (vm_compute; reflexivity).
  assert (N1 : ¬ is_pow2 6) by (apply (not_pow2_between 2); [lia|split; reflexivity]).
  assert (N2 : ¬ is_pow2 10) by (apply (not_pow2_between 3); [lia|split; reflexivity]).
  split; [vm_compute; reflexivity|]. split; [vm_compute; reflexivity|].
  split; [vm_compute; reflexivity|]. split; [vm_compute; reflexivity|].
  split; [vm_compute; reflexivity|].
  rewrite E1, E2.
  split; [exact N1|]. split; [exact N2|].
  split; intros [Hp _]; [exact (N1 Hp)|exact (N2 Hp)].
Qed.
